(** * SoPlex: LU basis solver, semi-sparse vectors and the rational
      refinement driver, embedded in Rocq.

    The development follows the C++ sources function by function:
    - [ssvector.h] / [ssvector.cpp]      -> [Module SSVector], [Module SSVectorOps],
                                            [Module SetupAssign]
    - [slufactor.cpp]                    -> [Module SLUFactor], [Module Reload]
    - [soplex/solverational.hpp]         -> [Module Refinement], [Module Transform],
                                            [Module Stable], [Module Violation],
                                            [Module Lifting], [Module Equality],
                                            [Module Recovery], [Module Correction],
                                            [Module Feasibility]
    - [lprow.cpp]                        -> [Module RowSides]
    - [spxbounds.cpp]                    -> [Module DualBounds]

    Numbers.  [Rational] is the exact rational type of the driver and is
    embedded as [Q].  [Real] (a C [double]) is embedded as [Q] as well: every
    finite double is a rational, comparisons and stores are exact, and the
    places where the machine rounds (sums and products in the axpy kernels,
    the conversion [R(.)] from [Rational]) are taken as parameters of the
    sections that use them, so that nothing proved below depends on how the
    rounding is done.  [Q] is a setoid: C++ [==] on numbers is [Qeq_bool]. *)

From stdpp Require Import base list.
From Stdlib Require Import QArith Qabs Qminmax Qround Qpower Lia Lqa.

#[local] Open Scope Q_scope.

(** ** Comparisons on [Q] as booleans *)

Definition Qltb (x y : Q) : bool := negb (Qle_bool y x).

Lemma Qltb_lt (x y : Q) : Qltb x y = true <-> x < y.
Proof.
  unfold Qltb. rewrite negb_true_iff.
  split.
  - intros H. apply Qnot_le_lt. intros Hle.
    apply Qle_bool_iff in Hle. congruence.
  - intros H. destruct (Qle_bool y x) eqn:E; [|reflexivity].
    apply Qle_bool_iff in E. exfalso. apply (Qlt_not_le _ _ H E).
Qed.

Lemma Qltb_ge (x y : Q) : Qltb x y = false <-> y <= x.
Proof.
  unfold Qltb. rewrite negb_false_iff. apply Qle_bool_iff.
Qed.

Lemma Qeq_bool_false_iff (x y : Q) : Qeq_bool x y = false <-> ~ x == y.
Proof.
  split.
  - apply Qeq_bool_neq.
  - intros H. destruct (Qeq_bool x y) eqn:E; [|reflexivity].
    apply Qeq_bool_iff in E. contradiction.
Qed.

Lemma Qle_bool_false_iff (x y : Q) : Qle_bool x y = false <-> y < x.
Proof.
  rewrite <- Qltb_lt. unfold Qltb. rewrite negb_true_iff. reflexivity.
Qed.

(** Case analysis on every [Qltb] and [Qle_bool] test of the goal,
    innermost first. *)
Ltac qatom a :=
  lazymatch a with
  | context [Qltb _ _] => fail
  | context [Qle_bool _ _] => fail
  | _ => idtac
  end.

Ltac qcases :=
  repeat match goal with
  | |- context [Qltb ?a ?b] =>
      qatom a; qatom b;
      let E := fresh "E" in
      destruct (Qltb a b) eqn:E;
      [apply Qltb_lt in E | apply Qltb_ge in E]
  | |- context [Qle_bool ?a ?b] =>
      qatom a; qatom b;
      let E := fresh "E" in
      destruct (Qle_bool a b) eqn:E;
      [apply Qle_bool_iff in E | apply Qle_bool_false_iff in E]
  end.

Lemma Qdiv2 (x : Q) : x / 2 == x * (1 # 2).
Proof. unfold Qdiv. reflexivity. Qed.

(** * Semi-sparse vectors ([ssvector.h], [ssvector.cpp]) *)

Module SSVector.

(** [SVector]: the nonzeros of a sparse vector, as (index, value) elements in
    storage order. *)
Abbreviation SVector := (list (nat * Q)).

(** [Vector] / [DVector]: the dense value array. *)
Abbreviation Vector := (list Q).

(** An [SSVector] is a [DVector] ([val]) and an [IdxSet] ([idx], the [num]
    indices in use, in array order) with the flag [setupStatus] and the
    public member [epsilon]. *)
Record t : Type := mk {
  val : Vector;
  idx : list nat;
  setupStatus : bool;
  epsilon : Q
}.

Definition with_val (f : Vector -> Vector) (v : t) : t :=
  mk (f (val v)) (idx v) (setupStatus v) (epsilon v).

Definition with_idx (f : list nat -> list nat) (v : t) : t :=
  mk (val v) (f (idx v)) (setupStatus v) (epsilon v).

Definition with_setup (b : bool) (v : t) : t :=
  mk (val v) (idx v) b (epsilon v).

(** [val[i]], reading 0 outside the array. *)
Definition get (l : Vector) (i : nat) : Q := default 0 (l !! i).

Definition dim (v : t) : nat := length (val v).
Definition isSetup (v : t) : bool := setupStatus v.
Definition unSetup (v : t) : t := with_setup false v.
Definition forceSetup (v : t) : t := with_setup true v.
Definition size (v : t) : nat := length (idx v).

(** [x > eps || x < -eps], the test used throughout the file. *)
Definition isNotZero (eps x : Q) : bool := Qltb eps x || Qltb x (- eps).

(** The marker stored in place of a cancelled entry ([1e-100]). *)
Definition mark : Q := 1 # (10 ^ 100).

(** ** [IdxSet] *)

(** [IdxSet::number(i)]: position of [i] in the index array, [None] for -1. *)
Definition number (v : t) (i : nat) : option nat :=
  fst <$> list_find (fun j => j = i) (idx v).

(** [IdxSet::addIdx(i)] and [IdxSet::add(1, &i)]: [idx[num++] = i]. *)
Definition addIdx (i : nat) (v : t) : t := with_idx (fun l => l ++ [i]) v.

(** [IdxSet::remove(n)]: [idx[n] = idx[--num]]. *)
Definition removeNth (n : nat) (l : list nat) : list nat :=
  match last l with
  | Some z => if decide (n < length l)%nat
              then take (length l - 1) (<[n := z]> l) else l
  | None => l
  end.

Definition remove (n : nat) (v : t) : t := with_idx (removeNth n) v.

(** [setSize(n)]: [unSetup(); IdxSet::setSize(n)]. *)
Definition setSize (n : nat) (v : t) : t := unSetup (with_idx (take n) v).

(** ** Dense kernels of [Vector] *)

(** [Vector::clear()]. *)
Definition Vector_clear (l : Vector) : Vector := replicate (length l) 0.

(** [Vector::operator=(const SVector&)]: clear, then scatter. *)
Definition Vector_assign (l : Vector) (b : SVector) : Vector :=
  foldl (fun acc e => <[fst e := snd e]> acc) (Vector_clear l) b.

(** ** Element access *)

(** [clearNum(n)]: [val[index(n)] = 0; remove(n)]. *)
Definition clearNum (n : nat) (v : t) : t :=
  match idx v !! n with
  | Some i => remove n (with_val (fun l => <[i := 0]> l) v)
  | None => v
  end.

(** [SSVector::clear()]. *)
Definition clear (v : t) : t :=
  let val' :=
    if isSetup v
    then foldl (fun acc i => <[i := 0]> acc) (val v) (idx v)
    else Vector_clear (val v) in
  mk val' [] true (epsilon v).

(** [SSVector::setValue(i, x)]. *)
Definition setValue (i : nat) (x : Q) (v : t) : t :=
  let v1 :=
    if isSetup v then
      match number v i with
      | None => if isNotZero (epsilon v) x then addIdx i v else v
      | Some n => if Qeq_bool x 0 then clearNum n v else v
      end
    else v in
  with_val (fun l => <[i := x]> l) v1.

(** ** [SSVector::setup()]

    The scan of the C code runs over the array with a sentinel ("weisser
    Elefant") [1e-100] stored in the last cell; [setup_scan eps pos l] is the
    loop [for(;;) { while (!*++v); ... }] with [l] the cells from position
    [pos] on.  It returns the cells as the loop leaves them and the indices
    it has appended, or [None] when the scan runs off the end of the array. *)
Fixpoint setup_scan (eps : Q) (pos : nat) (l : Vector)
  : option (Vector * list nat) :=
  match l with
  | [] => None
  | x :: rest =>
    if Qeq_bool x 0 then
      (fun '(r, ii) => (x :: r, ii)) <$> setup_scan eps (S pos) rest
    else if Qltb eps (Qabs x) then
      (fun '(r, ii) => (x :: r, pos :: ii)) <$> setup_scan eps (S pos) rest
    else
      match rest with
      | [] => Some ([0], [])
      | _ :: _ => (fun '(r, ii) => (0 :: r, ii)) <$> setup_scan eps (S pos) rest
      end
  end.

Definition setup (v : t) : option t :=
  if isSetup v then Some v else
  let eps := epsilon v in
  match val v with
  | [] => Some (mk [] [] true eps)
  | [x] =>
    if Qltb eps (Qabs x) then Some (mk [x] [0%nat] true eps)
    else Some (mk [0] [] true eps)
  | x0 :: tl =>
    let e := (length tl - 1)%nat in
    let lst := get tl e in
    let '(first, ii0) :=
      if Qltb eps (Qabs x0) then (x0, [0%nat]) else (0, []) in
    '(r, ii) ← setup_scan eps 1 (<[e := mark]> tl);
    if Qltb eps (Qabs lst)
    then Some (mk (first :: <[e := lst]> r) (ii0 ++ ii ++ [length tl]) true eps)
    else Some (mk (first :: <[e := 0]> r) (ii0 ++ ii) true eps)
  end.

(** [SSVector::assign(const SVector& rhs)]: scatter, keeping the indices of
    the elements whose value is not 0. *)
Definition assign (rhs : SVector) (v : t) : t :=
  mk (foldl (fun acc e => <[fst e := snd e]> acc) (val v) rhs)
     (fst <$> filter (fun e => negb (Qeq_bool (snd e) 0) = true) rhs)
     true (epsilon v).

(** [SSVector::operator=(const SVector& rhs)]. *)
Definition assignSVector (rhs : SVector) (v : t) : t := assign rhs (clear v).

(** [setup_and_assign(rhs)]: sets up [rhs] (its small entries become 0) and
    copies it; returns the new [*this] and the new [rhs]. *)
Definition setup_and_assign (rhs : t) (v : t) : option (t * t) :=
  rhs' ← (if isSetup rhs then Some rhs
           else setup (mk (val rhs) (idx rhs) false (epsilon rhs)));
  let v0 := clear v in
  let val0 := replicate (dim rhs') 0 in
  let val' := foldl (fun acc j => <[j := get (val rhs') j]> acc) val0 (idx rhs') in
  Some (mk val' (idx rhs') true (epsilon v0), rhs').

(** [SSVector::reDim(newdim)]: drops the indices that fall outside, then
    resizes the value array. *)
Definition reDim (newdim : nat) (v : t) : t :=
  let drop (l : list nat) (i : nat) :=
    match l !! i with
    | Some j => if decide (newdim <= j)%nat then removeNth i l else l
    | None => l
    end in
  mk (resize newdim 0 (val v))
     (foldl drop (idx v) (reverse (seq 0 (length (idx v)))))
     (setupStatus v) (epsilon v).

(** ** Arithmetic operations *)

Section Arithmetic.

(** The rounded sum and the rounded product of two [Real]s; a difference
    [a - b] is the rounded sum of [a] and [-b]. *)
Variable fadd fmul : Q -> Q -> Q.

(** The dense kernels [Vector::operator+=], [Vector::operator-=] and
    [Vector::multAdd] for a [Vector] and for an [SVector] argument.
    Modelled from the spec: they are declared in [vector.h] and are the
    elementwise sum, difference and axpy. *)
Definition Vector_add (vec : Vector) (l : Vector) : Vector :=
  imap (fun i a => fadd a (get vec i)) l.

Definition Vector_sub (vec : Vector) (l : Vector) : Vector :=
  imap (fun i a => fadd a (- get vec i)) l.

Definition Vector_multAdd (x : Q) (vec : Vector) (l : Vector) : Vector :=
  imap (fun i a => fadd a (fmul x (get vec i))) l.

Definition Vector_addSV (svec : SVector) (l : Vector) : Vector :=
  foldl (fun acc e => <[fst e := fadd (get acc (fst e)) (snd e)]> acc) l svec.

Definition Vector_subSV (svec : SVector) (l : Vector) : Vector :=
  foldl (fun acc e => <[fst e := fadd (get acc (fst e)) (- snd e)]> acc) l svec.

Definition Vector_multAddSV (x : Q) (svec : SVector) (l : Vector) : Vector :=
  foldl (fun acc e => <[fst e := fadd (get acc (fst e)) (fmul x (snd e))]> acc)
        l svec.

(** [if (isSetup()) { setupStatus = false; setup(); }], the end of the
    operators that work on the dense array. *)
Definition resetup (v : t) : option t :=
  if isSetup v then setup (unSetup v) else Some v.

(** The nonzeros of a set up [SSVector], [(index(n), value(n))] for
    [n = 0 .. size()-1]. *)
Definition elements (vec : t) : SVector :=
  (fun j => (j, get (val vec) j)) <$> idx vec.

(** [operator+=] and [operator-=] for [Vector], [SVector] (and
    [SubSVector], which has the same text) and [SSVector]. *)
Definition add_Vector (vec : Vector) (v : t) : option t :=
  resetup (with_val (Vector_add vec) v).

Definition add_SVector (svec : SVector) (v : t) : option t :=
  resetup (with_val (Vector_addSV svec) v).

Definition add_SSVector (vec : t) (v : t) : option t :=
  resetup (with_val (Vector_addSV (reverse (elements vec))) v).

Definition sub_Vector (vec : Vector) (v : t) : option t :=
  resetup (with_val (Vector_sub vec) v).

Definition sub_SVector (svec : SVector) (v : t) : option t :=
  resetup (with_val (Vector_subSV svec) v).

Definition sub_SSVector (vec : t) (v : t) : option t :=
  if isSetup vec
  then resetup (with_val (Vector_subSV (reverse (elements vec))) v)
  else resetup (with_val (Vector_sub (val vec)) v).

(** [multAdd(Real x, const Vector& vec)]. *)
Definition multAdd_Vector (x : Q) (vec : Vector) (v : t) : option t :=
  resetup (with_val (Vector_multAdd x vec) v).

(** [multAdd(Real xx, const SVector& svec)] on a set up vector: the body of
    the loop over the elements of [svec], on the value array, the index
    array and the flag [adjust]. *)
Definition multAdd_step (xx eps : Q) (st : Vector * list nat * bool)
  (e : nat * Q) : Vector * list nat * bool :=
  let '(v, ii, adjust) := st in
  let j := fst e in
  if negb (Qeq_bool (get v j) 0) then
    let x := fadd (get v j) (fmul xx (snd e)) in
    if isNotZero eps x then (<[j := x]> v, ii, adjust)
    else (<[j := mark]> v, ii, true)
  else
    let x := fmul xx (snd e) in
    if isNotZero eps x then (<[j := x]> v, ii ++ [j], adjust)
    else (v, ii, adjust).

(** [if (adjust)]: the indices whose value is still above [eps] are kept,
    the values of the others are set to 0. *)
Definition compact_step (eps : Q) (st : Vector * list nat) (i : nat)
  : Vector * list nat :=
  let '(v, kept) := st in
  if isNotZero eps (get v i) then (v, kept ++ [i]) else (<[i := 0]> v, kept).

Definition compact (eps : Q) (v : Vector) (ii : list nat) : Vector * list nat :=
  foldl (compact_step eps) (v, []) ii.

Definition multAdd (xx : Q) (svec : SVector) (v : t) : t :=
  if isSetup v then
    let '(v1, ii1, adjust) :=
      foldl (multAdd_step xx (epsilon v)) (val v, idx v, false) (reverse svec) in
    let '(v2, ii2) :=
      if adjust then compact (epsilon v) v1 ii1 else (v1, ii1) in
    mk v2 ii2 true (epsilon v)
  else with_val (Vector_multAddSV xx svec) v.

(** ** Sequences of operations *)

Inductive Op :=
  | OpSetValue (i : nat) (x : Q)
  | OpSetup
  | OpClear
  | OpMultAdd (xx : Q) (svec : SVector)
  | OpMultAddVector (x : Q) (vec : Vector)
  | OpAdd (vec : Vector)
  | OpAddSV (svec : SVector)
  | OpAddSS (vec : t)
  | OpSub (vec : Vector)
  | OpSubSV (svec : SVector)
  | OpSubSS (vec : t).

Definition apply (op : Op) (v : t) : option t :=
  match op with
  | OpSetValue i x => Some (setValue i x v)
  | OpSetup => setup v
  | OpClear => Some (clear v)
  | OpMultAdd xx svec => Some (multAdd xx svec v)
  | OpMultAddVector x vec => multAdd_Vector x vec v
  | OpAdd vec => add_Vector vec v
  | OpAddSV svec => add_SVector svec v
  | OpAddSS vec => add_SSVector vec v
  | OpSub vec => sub_Vector vec v
  | OpSubSV svec => sub_SVector svec v
  | OpSubSS vec => sub_SSVector vec v
  end.

Fixpoint run (ops : list Op) (v : t) : option t :=
  match ops with
  | [] => Some v
  | op :: ops' => v' ← apply op v; run ops' v'
  end.

(** ** The invariant *)


Definition Exact (v : t) : Prop :=
  NoDup (idx v) /\
  (forall i, i ∈ idx v -> (i < dim v)%nat /\ epsilon v < Qabs (get (val v) i)) /\
  (forall i, (i < dim v)%nat -> i ∉ idx v -> get (val v) i == 0).

Definition Inv (v : t) : Prop := isSetup v = true -> Exact v.



(** ** Tests against [epsilon] *)

Lemma isNotZero_abs (eps x : Q) : isNotZero eps x = true <-> eps < Qabs x.
Proof.
  unfold isNotZero. rewrite orb_true_iff, !Qltb_lt.
  split.
  - intros [H|H].
    + apply Qlt_le_trans with x; [exact H | apply Qle_Qabs].
    + apply Qlt_le_trans with (- x); [lra|].
      rewrite <- Qabs_opp. apply Qle_Qabs.
  - intros H. destruct (Qlt_le_dec x 0) as [Hx|Hx].
    + right. rewrite (Qabs_neg x) in H by lra. lra.
    + left. rewrite (Qabs_pos x) in H by lra. lra.
Qed.

Lemma isNotZero_false (eps x : Q) : isNotZero eps x = false <-> Qabs x <= eps.
Proof.
  split.
  - intros H. apply Qnot_lt_le. intros Hlt.
    apply isNotZero_abs in Hlt. congruence.
  - intros H. destruct (isNotZero eps x) eqn:E; [|reflexivity].
    apply isNotZero_abs in E. lra.
Qed.

Lemma mark_pos : 0 < mark.
Proof. reflexivity. Qed.

Lemma Qabs_mark : Qabs mark == mark.
Proof. apply Qabs_pos. apply Qlt_le_weak, mark_pos. Qed.

Lemma Qabs_zero (x : Q) : x == 0 -> Qabs x == 0.
Proof. intros H. rewrite H. reflexivity. Qed.


(** ** [setup()] in closed form *)

(** What [setup] leaves in a cell. *)
Definition zap (eps x : Q) : Q := if Qltb eps (Qabs x) then x else 0.

(** The cells that the scan skips keep their zero as it is written. *)
Definition zapMid (eps x : Q) : Q := if Qeq_bool x 0 then x else zap eps x.

(** The positions of the values above [eps], counted from [pos]. *)
Fixpoint positions (eps : Q) (pos : nat) (l : Vector) : list nat :=
  match l with
  | [] => []
  | x :: rest =>
    if Qltb eps (Qabs x) then pos :: positions eps (S pos) rest
    else positions eps (S pos) rest
  end.

Lemma positions_app (eps : Q) (l1 l2 : Vector) (pos : nat) :
  positions eps pos (l1 ++ l2) =
  positions eps pos l1 ++ positions eps (pos + length l1) l2.
Proof.
  revert pos. induction l1 as [|x l1 IH]; intros pos; cbn.
  - rewrite Nat.add_0_r. reflexivity.
  - rewrite IH. replace (S pos + length l1)%nat with (pos + S (length l1))%nat
      by lia.
    destruct (Qltb eps (Qabs x)); reflexivity.
Qed.

Lemma positions_elem (eps : Q) (l : Vector) (pos i : nat) :
  i ∈ positions eps pos l <->
  exists k x, i = (pos + k)%nat /\ l !! k = Some x /\ eps < Qabs x.
Proof.
  revert pos. induction l as [|y l IH]; intros pos; cbn.
  - split; [intros H; apply elem_of_nil in H; contradiction|].
    intros (k & x & _ & H & _). discriminate.
  - destruct (Qltb eps (Qabs y)) eqn:E.
    + rewrite elem_of_cons, IH. apply Qltb_lt in E. split.
      * intros [->|(k & x & -> & Hk & Hx)].
        -- exists 0%nat, y. split; [lia|]. split; [reflexivity | exact E].
        -- exists (S k), x. split; [lia|]. split; assumption.
      * intros ([|k] & x & -> & Hk & Hx); cbn in Hk.
        -- left. lia.
        -- right. exists k, x. split; [lia|]. split; assumption.
    + rewrite IH. apply Qltb_ge in E. split.
      * intros (k & x & -> & Hk & Hx). exists (S k), x.
        split; [lia|]. split; assumption.
      * intros ([|k] & x & -> & Hk & Hx); cbn in Hk.
        -- injection Hk as ->. lra.
        -- exists k, x. split; [lia|]. split; assumption.
Qed.

Lemma positions_ge (eps : Q) (l : Vector) (pos i : nat) :
  i ∈ positions eps pos l -> (pos <= i)%nat.
Proof. rewrite positions_elem. intros (k & x & -> & _). lia. Qed.


Lemma zero_below (eps x : Q) :
  mark <= eps -> Qeq_bool x 0 = true -> Qltb eps (Qabs x) = false.
Proof.
  intros He Hx. apply Qeq_bool_iff in Hx. apply Qltb_ge.
  rewrite (Qabs_zero x Hx). pose proof mark_pos. lra.
Qed.

Lemma mark_below (eps : Q) : mark <= eps -> Qltb eps (Qabs mark) = false.
Proof. intros He. apply Qltb_ge. rewrite Qabs_mark. exact He. Qed.

(** The scan stops at the sentinel when the sentinel is not above
    [eps]. *)
Lemma setup_scan_spec (eps : Q) (l : Vector) (pos : nat) :
  mark <= eps ->
  setup_scan eps pos (l ++ [mark]) =
  Some ((zapMid eps <$> l) ++ [0], positions eps pos l).
Proof.
  intros He. revert pos. induction l as [|x l IH]; intros pos.
  - cbn -[mark]. rewrite (mark_below eps He).
    replace (Qeq_bool mark 0) with false by reflexivity. reflexivity.
  - cbn [app setup_scan]. rewrite IH. cbn [fmap option_fmap option_map].
    unfold zapMid at 2, zap. cbn [positions fmap list_fmap].
    destruct (Qeq_bool x 0) eqn:E0.
    + rewrite (zero_below eps x He E0). unfold zapMid. rewrite E0. reflexivity.
    + unfold zapMid. rewrite E0. unfold zap.
      destruct (Qltb eps (Qabs x)); [reflexivity|].
      destruct l; reflexivity.
Qed.

Lemma insert_snoc {A : Type} (l : list A) (z w : A) :
  <[length l := w]> (l ++ [z]) = l ++ [w].
Proof.
  induction l as [|x l IH]; cbn; [reflexivity|]. f_equal. exact IH.
Qed.

Lemma insert_snoc_len {A : Type} (l : list A) (n : nat) (z w : A) :
  n = length l -> <[n := w]> (l ++ [z]) = l ++ [w].
Proof. intros ->. apply insert_snoc. Qed.

Lemma get_snoc (l : Vector) (z : Q) : get (l ++ [z]) (length l) = z.
Proof.
  unfold get. rewrite lookup_app_r by lia. rewrite Nat.sub_diag. reflexivity.
Qed.

Lemma snoc_cases {A : Type} (y : A) (l : list A) :
  exists l' z, y :: l = l' ++ [z].
Proof.
  revert y. induction l as [|x l IH]; intros y.
  - exists [], y. reflexivity.
  - destruct (IH x) as (l' & z & H). exists (y :: l'), z. rewrite H. reflexivity.
Qed.

(** The cell that [setup] leaves for a cell [x]. *)
Definition setupCell (eps x x' : Q) : Prop :=
  if Qltb eps (Qabs x) then x' = x else x' == 0.

Lemma setupCell_zap (eps x : Q) : setupCell eps x (zap eps x).
Proof. unfold setupCell, zap. destruct (Qltb eps (Qabs x)); reflexivity. Qed.

Lemma setupCell_zapMid (eps x : Q) : mark <= eps -> setupCell eps x (zapMid eps x).
Proof.
  intros He. unfold zapMid. destruct (Qeq_bool x 0) eqn:E.
  - unfold setupCell. rewrite (zero_below eps x He E).
    apply Qeq_bool_iff. exact E.
  - apply setupCell_zap.
Qed.

Lemma setup_spec (v : t) :
  isSetup v = false -> mark <= epsilon v ->
  exists cells,
    setup v = Some (mk cells (positions (epsilon v) 0 (val v)) true (epsilon v)) /\
    length cells = length (val v) /\
    forall i x, val v !! i = Some x ->
      exists x', cells !! i = Some x' /\ setupCell (epsilon v) x x'.
Proof.
  destruct v as [l ii s eps]. cbn [isSetup setupStatus epsilon val].
  intros -> He. unfold setup. cbn [isSetup setupStatus epsilon val].
  destruct l as [|x0 [|y tl0]].
  - exists []. split; [reflexivity|]. split; [reflexivity|].
    intros i x H. discriminate.
  - exists [zap eps x0]. split.
    { cbn. unfold zap. destruct (Qltb eps (Qabs x0)); reflexivity. }
    split; [reflexivity|].
    intros [|i] x H; [|discriminate]. injection H as <-.
    exists (zap eps x0). split; [reflexivity | apply setupCell_zap].
  - destruct (snoc_cases y tl0) as (tl' & lst & Htl). rewrite Htl.
    assert (Hlen : (length (tl' ++ [lst]) - 1)%nat = length tl')
      by (rewrite length_app; cbn; lia).
    rewrite Hlen, insert_snoc, get_snoc, (setup_scan_spec eps tl' 1 He).
    cbn [mbind option_bind].
    assert (Hr : length (zapMid eps <$> tl') = length tl')
      by apply length_fmap.
    rewrite !(insert_snoc_len _ (length tl')) by (symmetry; exact Hr).
    exists (zap eps x0 :: (zapMid eps <$> tl') ++ [zap eps lst]).
    split.
    { change (x0 :: tl' ++ [lst]) with ([x0] ++ tl' ++ [lst]).
      rewrite !positions_app. cbn [positions length Nat.add].
      rewrite length_app. cbn [length].
      replace (length tl' + 1)%nat with (S (length tl')) by lia.
      unfold zap.
      destruct (Qltb eps (Qabs x0)), (Qltb eps (Qabs lst));
        cbn [app]; rewrite ?app_nil_r; reflexivity. }
    split.
    { cbn. rewrite !length_app, length_fmap. reflexivity. }
    intros [|i] x H.
    { injection H as <-. exists (zap eps x0).
      split; [reflexivity | apply setupCell_zap]. }
    change ((tl' ++ [lst]) !! i = Some x) in H.
    change (exists x', ((zapMid eps <$> tl') ++ [zap eps lst]) !! i = Some x' /\
                       setupCell eps x x').
    destruct (decide (i < length tl')%nat) as [Hi|Hi].
    + rewrite lookup_app_l in H by exact Hi.
      rewrite lookup_app_l by (rewrite Hr; exact Hi).
      rewrite list_lookup_fmap, H. cbn.
      exists (zapMid eps x). split; [reflexivity|].
      apply setupCell_zapMid. exact He.
    + rewrite lookup_app_r in H by lia.
      rewrite lookup_app_r by (rewrite Hr; lia). rewrite Hr.
      destruct (i - length tl')%nat as [|k]; [|destruct k; discriminate].
      cbn in H. injection H as <-. exists (zap eps lst).
      split; [reflexivity | apply setupCell_zap].
Qed.

(** ** The operations keep the invariant *)


Lemma get_lookup (l : Vector) (i : nat) (x : Q) : l !! i = Some x -> get l i = x.
Proof. unfold get. intros ->. reflexivity. Qed.

Lemma get_insert_eq (l : Vector) (i : nat) (x : Q) :
  (i < length l)%nat -> get (<[i := x]> l) i = x.
Proof. intros H. unfold get. rewrite list_lookup_insert_eq by exact H. reflexivity. Qed.

Lemma get_insert_ne (l : Vector) (i j : nat) (x : Q) :
  i <> j -> get (<[i := x]> l) j = get l j.
Proof. intros H. unfold get. rewrite list_lookup_insert_ne by exact H. reflexivity. Qed.

Lemma get_ge (l : Vector) (i : nat) : (length l <= i)%nat -> get l i = 0.
Proof. intros H. unfold get. rewrite (proj2 (lookup_ge_None l i) H). reflexivity. Qed.





Lemma foldl_zero_get (ii : list nat) (l : Vector) (j : nat) :
  get (foldl (fun acc i => <[i := 0]> acc) l ii) j ==
  if decide (j ∈ ii) then 0 else get l j.
Proof.
  revert l. induction ii as [|i ii IH]; intros l; cbn [foldl].
  - rewrite decide_False by apply not_elem_of_nil. reflexivity.
  - rewrite IH. destruct (decide (j ∈ ii)) as [Hj|Hj].
    + rewrite decide_True by (apply elem_of_cons; auto). reflexivity.
    + destruct (decide (i = j)) as [->|Hne].
      * rewrite decide_True by (apply elem_of_cons; auto).
        destruct (decide (j < length l)%nat).
        -- rewrite get_insert_eq by assumption. reflexivity.
        -- rewrite get_ge by (rewrite length_insert; lia). reflexivity.
      * rewrite decide_False
          by (rewrite elem_of_cons; intros [?|?]; congruence).
        rewrite get_insert_ne by exact Hne. reflexivity.
Qed.



(** [IdxSet::remove(n)] takes the index at position [n] out of the set. *)
Lemma removeNth_perm (l : list nat) (n a : nat) :
  l !! n = Some a -> a :: removeNth n l ≡ₚ l.
Proof.
  intros Hn. destruct l as [|y l0]; [discriminate|].
  destruct (snoc_cases y l0) as (l' & z & Hl). rewrite Hl in *. clear Hl y l0.
  pose proof (lookup_lt_Some _ _ _ Hn) as Hlt.
  rewrite length_app in Hlt. cbn [length] in Hlt.
  unfold removeNth. rewrite last_snoc.
  rewrite decide_True by (rewrite length_app; cbn; lia).
  replace (length (l' ++ [z]) - 1)%nat with (length l')
    by (rewrite length_app; cbn; lia).
  destruct (decide (n < length l')%nat) as [Hn'|Hn'].
  - rewrite lookup_app_l in Hn by exact Hn'.
    rewrite insert_app_l by exact Hn'.
    rewrite take_app_length' by (rewrite length_insert; reflexivity).
    rewrite insert_take_drop by exact Hn'.
    rewrite <- (take_drop_middle l' n a Hn) at 3.
    rewrite (Permutation_app_comm (take n l' ++ a :: drop (S n) l') [z]).
    cbn [app]. rewrite <- !Permutation_middle. apply perm_swap.
  - assert (n = length l') by lia. subst n.
    rewrite lookup_app_r, Nat.sub_diag in Hn by lia.
    injection Hn as ->.
    rewrite insert_snoc, take_app_length.
    apply Permutation_cons_append.
Qed.






(** *** [multAdd(Real, const SVector&)] *)










(** *** Sequences of operations *)



(** [setValue(i, x)] with a nonzero [x] that is not above [epsilon]
    stores [x] and leaves the index array as it is. *)
Lemma setValue_small (i : nat) (x : Q) (v : t) :
  ~ x == 0 -> Qabs x <= epsilon v ->
  idx (setValue i x v) = idx v /\
  val (setValue i x v) = <[i := x]> (val v) /\
  isSetup (setValue i x v) = isSetup v.
Proof.
  intros Hx Hsmall. unfold setValue, isSetup.
  rewrite (proj2 (isNotZero_false _ _) Hsmall).
  rewrite (proj2 (Qeq_bool_false_iff _ _) Hx).
  destruct (setupStatus v) eqn:Hs; [destruct (number v i)|];
    cbn; rewrite ?Hs; repeat split; reflexivity.
Qed.


End Arithmetic.

(** ** Examples *)

(** [SSVector(pdim, peps)]: a cleared vector that is set up. *)
Definition fresh (pdim : nat) (peps : Q) : t :=
  mk (replicate pdim 0) [] true peps.

Definition eps_example : Q := 1 # (10 ^ 16).
Definition small_example : Q := 1 # (2 * 10 ^ 16).




(** A run on a fresh vector of dimension 3: an index is added, a
    cancellation removes it, a dense sum sets the vector up again, and an
    index is cleared. *)
Definition ops_example : list Op :=
  [OpClear; OpSetValue 0 1; OpMultAdd (-1) [(0%nat, 1); (2%nat, 5)];
   OpAdd [1; 0; 0]; OpSetValue 2 0; OpSetup].

Lemma ops_example_run :
  (idx <$> run Qplus Qmult (take 3 ops_example) (fresh 3 eps_example))
    = Some [2%nat] /\
  (idx <$> run Qplus Qmult (take 4 ops_example) (fresh 3 eps_example))
    = Some [0%nat; 2%nat] /\
  (idx <$> run Qplus Qmult ops_example (fresh 3 eps_example)) = Some [0%nat].
Proof. repeat split; vm_compute; reflexivity. Qed.


End SSVector.

(** * The LU basis solver adapter ([slufactor.cpp]) *)

Module SLUFactor.

Import SSVector.

(** [SLinSolver::Status]. *)
Inductive Status : Type := OK | INSTABLE | SINGULAR | UNLOADED | ERROR.

#[global] Instance Status_eq_dec : EqDecision Status.
Proof. solve_decision. Defined.

(** [SLUFactor::UpdateType]. *)
Inductive UpdateType : Type := ETA | FOREST_TOMLIN.

#[global] Instance UpdateType_eq_dec : EqDecision UpdateType.
Proof. solve_decision. Defined.

(** [#define MINSTABILITY 1e-2]. *)
Definition MINSTABILITY : Q := 1 # 100.

(** [static Real betterThreshold(Real th)]. *)
Definition betterThreshold (th : Q) : Q :=
  if Qltb th (1 # 10) then th * 10
  else if Qltb th (9 # 10) then (th + 1) / 2
  else if Qltb th (999 # 1000) then 99999 # 100000
  else th.

Section Factor.

(** The factor data of the base class [CLUFactor] (the rings, the row and
    column files of U, the L file, the permutations) and its kernels live
    outside this file; they are parameters here.  Arrays handed to a kernel
    through [altValues()], [altIndexMem()] or [get_ptr()] are returned by it
    as it leaves them. *)
Variable Core : Type.

(** The members of [CLUFactor] that this file reads or writes. *)
Record CLU : Type := mkCLU {
  stat : Status;
  thedim : nat;
  maxabs : Q;
  initMaxabs : Q;
  l_updateType : UpdateType;
  l_firstUpdate : nat;
  l_firstUnused : nat;
  core : Core
}.

Record t : Type := mkT {
  clu : CLU;
  vec : Vector;
  ssvec : SSVector.t;
  usetup : bool;
  uptype : UpdateType;
  eta : SSVector.t;
  forest : SSVector.t;
  minThreshold : Q;
  lastThreshold : Q;
  minStability : Q;
  epsilon : Q
}.

(** [CLUFactor::factor(matrix, threshold, eps)]. *)
Variable factor : list SVector -> Q -> Q -> CLU -> CLU.
(** [CLUFactor::forestUpdate(col, work, num, nonz)]; returns [work]. *)
Variable forestUpdate : nat -> Vector -> nat -> option (list nat) -> CLU -> CLU * Vector.
(** [CLUFactor::update(p_col, p_work, p_idx, num)]; returns [p_work]. *)
Variable update : nat -> Vector -> list nat -> nat -> CLU -> CLU * Vector.
(** [CLUFactor::updateNoClear(p_col, p_work, p_idx, num)]. *)
Variable updateNoClear : nat -> Vector -> list nat -> nat -> CLU -> CLU.
(** [CLUFactor::solveLright(vec)]; returns [vec]. *)
Variable solveLright : Vector -> CLU -> Vector.
(** [CLUFactor::solveRight(x, rhs)]; returns [x] and [rhs]. *)
Variable solveRight : Vector -> Vector -> CLU -> Vector * Vector.
(** [CLUFactor::vSolveRight4update(eps, vec, idx, rhs, ridx, rn, forest,
    forestNum, forestIdx)]: returns the number of nonzeros of the solution
    with its values and indices, the right-hand side as it is left, and the
    same triple for [forest] when it is asked for. *)
Variable vSolveRight4update :
  Q -> Vector -> list nat -> Vector -> list nat -> nat ->
  option (Vector * list nat) -> CLU ->
  (nat * Vector * list nat) * Vector * option (nat * Vector * list nat).
(** [CLUFactor::vSolveRight4update2(...)]: as above, with the second
    right-hand side [rhs2] and its solution [y]. *)
Variable vSolveRight4update2 :
  Q -> Vector -> list nat -> Vector -> list nat -> nat ->
  Vector -> Q -> Vector -> list nat -> nat ->
  option (Vector * list nat) -> CLU ->
  (nat * Vector * list nat) * Vector * Vector * option (nat * Vector * list nat).
(** [Param::epsilonFactorization()]. *)
Variable epsilonFactorization : Q.
(** [MAXUPDATES]. *)
Variable MAXUPDATES : nat.

Definition set_clu (c : CLU) (s : t) : t :=
  mkT c (vec s) (ssvec s) (usetup s) (uptype s) (eta s) (forest s)
      (minThreshold s) (lastThreshold s) (minStability s) (epsilon s).
Definition set_vec (x : Vector) (s : t) : t :=
  mkT (clu s) x (ssvec s) (usetup s) (uptype s) (eta s) (forest s)
      (minThreshold s) (lastThreshold s) (minStability s) (epsilon s).
Definition set_ssvec (x : SSVector.t) (s : t) : t :=
  mkT (clu s) (vec s) x (usetup s) (uptype s) (eta s) (forest s)
      (minThreshold s) (lastThreshold s) (minStability s) (epsilon s).
Definition set_usetup (b : bool) (s : t) : t :=
  mkT (clu s) (vec s) (ssvec s) b (uptype s) (eta s) (forest s)
      (minThreshold s) (lastThreshold s) (minStability s) (epsilon s).
Definition set_eta (x : SSVector.t) (s : t) : t :=
  mkT (clu s) (vec s) (ssvec s) (usetup s) (uptype s) x (forest s)
      (minThreshold s) (lastThreshold s) (minStability s) (epsilon s).
Definition set_forest (x : SSVector.t) (s : t) : t :=
  mkT (clu s) (vec s) (ssvec s) (usetup s) (uptype s) (eta s) x
      (minThreshold s) (lastThreshold s) (minStability s) (epsilon s).
Definition set_lastThreshold (x : Q) (s : t) : t :=
  mkT (clu s) (vec s) (ssvec s) (usetup s) (uptype s) (eta s) (forest s)
      (minThreshold s) x (minStability s) (epsilon s).
Definition set_minStability (x : Q) (s : t) : t :=
  mkT (clu s) (vec s) (ssvec s) (usetup s) (uptype s) (eta s) (forest s)
      (minThreshold s) (lastThreshold s) x (epsilon s).

Definition set_stat (x : Status) (c : CLU) : CLU :=
  mkCLU x (thedim c) (maxabs c) (initMaxabs c) (l_updateType c)
        (l_firstUpdate c) (l_firstUnused c) (core c).
Definition set_l_updateType (x : UpdateType) (c : CLU) : CLU :=
  mkCLU (stat c) (thedim c) (maxabs c) (initMaxabs c) x
        (l_firstUpdate c) (l_firstUnused c) (core c).

(** [status()]. *)
Definition status (s : t) : Status := stat (clu s).

(** [SLUFactor::stability()]. *)
Definition stability (s : t) : Q :=
  if decide (status s <> OK) then 0
  else if Qltb (maxabs (clu s)) (initMaxabs (clu s)) then 1
  else initMaxabs (clu s) / maxabs (clu s).

(** [SLUFactor::solveRight4update(x, b)]; returns the new [x]. *)
Definition solveRight4update (x : SSVector.t) (b : SVector) (s : t)
  : option (SSVector.t * t) :=
  let x := SSVector.clear x in
  let s := set_ssvec (assignSVector b (ssvec s)) s in
  let n := length b in
  match l_updateType (clu s) with
  | ETA =>
    let '((m, xv, xi), rv, _) :=
      vSolveRight4update (SSVector.epsilon x) (val x) (idx x)
        (val (ssvec s)) (idx (ssvec s)) n None (clu s) in
    let s := set_ssvec (SSVector.mk rv (idx (ssvec s)) false
                          (SSVector.epsilon (ssvec s))) s in
    let x := forceSetup (setSize m (SSVector.mk xv xi false (SSVector.epsilon x))) in
    '(e, x) ← setup_and_assign x (eta s);
    Some (x, set_usetup true (set_eta e s))
  | FOREST_TOMLIN =>
    let f0 := SSVector.clear (forest s) in
    let '((m, xv, xi), rv, fr) :=
      vSolveRight4update (SSVector.epsilon x) (val x) (idx x)
        (val (ssvec s)) (idx (ssvec s)) n (Some (val f0, idx f0)) (clu s) in
    let s := set_ssvec (SSVector.mk rv (idx (ssvec s)) false
                          (SSVector.epsilon (ssvec s))) s in
    let '(f, fv, fi) := default (0%nat, val f0, idx f0) fr in
    let fo := forceSetup (setSize f (SSVector.mk fv fi false (SSVector.epsilon f0))) in
    let x := forceSetup (setSize m (SSVector.mk xv xi false (SSVector.epsilon x))) in
    Some (x, set_usetup true (set_forest fo s))
  end.

(** [SLUFactor::changeEta(idx, et)]; returns the new [et]. *)
Definition changeEta (i : nat) (et : SSVector.t) (c : CLU) : CLU * SSVector.t :=
  let es := size et in
  let '(c', w) := update i (val et) (idx et) es c in
  (c', forceSetup (setSize 0 (SSVector.mk w (idx et) false (SSVector.epsilon et)))).

(** The part of [SLUFactor::change] that runs when no prepared update
    vectors are available ([usetup] is false). *)
Definition change_recompute (i : nat) (subst : SVector) (e : option SSVector.t)
  (s : t) : t :=
  match e with
  | Some ev =>
    (* assert(l.updateType == ETA); l.updateType = ETA; *)
    let c := set_l_updateType ETA (clu s) in
    set_clu (updateNoClear i (val ev) (idx ev) (size ev) c) s
  | None =>
    match l_updateType (clu s) with
    | FOREST_TOMLIN =>
      let fo := assignSVector subst (forest s) in
      let w := solveLright (val fo) (clu s) in
      let '(c', w') := forestUpdate i w 0 None (clu s) in
      set_clu c' (set_forest
        (forceSetup (setSize 0 (SSVector.mk w' (idx fo) false (SSVector.epsilon fo)))) s)
    | ETA =>
      let v := Vector_assign (vec s) subst in
      let e0 := SSVector.clear (eta s) in
      let '(x, v') := solveRight (val e0) v (clu s) in
      let '(c', et) :=
        changeEta i (SSVector.mk x (idx e0) false (SSVector.epsilon e0)) (clu s) in
      set_clu c' (set_eta et (set_vec v' s))
    end
  end.

(** [SLUFactor::change(idx, subst, e)]; returns the state and [status()]. *)
Definition change (i : nat) (subst : SVector) (e : option SSVector.t) (s : t)
  : t * Status :=
  let s1 :=
    if usetup s then
      match l_updateType (clu s) with
      | FOREST_TOMLIN =>
        let fsize := size (forest s) in
        let '(c', w) := forestUpdate i (val (forest s)) fsize
                          (Some (idx (forest s))) (clu s) in
        set_clu c' (set_forest
          (forceSetup (setSize 0 (SSVector.mk w (idx (forest s)) false
                                    (SSVector.epsilon (forest s))))) s)
      | ETA =>
        let '(c', et) := changeEta i (eta s) (clu s) in
        set_clu c' (set_eta et s)
      end
    else change_recompute i subst e s in
  let s2 := set_usetup false s1 in
  (s2, status s2).

(** [SLUFactor::clear()]. *)
Definition clear (s : t) : t :=
  let c := clu s in
  mkT (mkCLU UNLOADED 1 1 1 (l_updateType c) 0 0 (core c))
      (Vector_clear (vec s))
      (SSVector.clear (ssvec s))
      false
      (uptype s)
      (SSVector.clear (eta s))
      (SSVector.clear (forest s))
      (1 # 100) (1 # 100) MINSTABILITY epsilonFactorization.

(** [SLUFactor::solve2right4update(x, y, b, rhs)]; returns the new [x], [y]
    and [rhs]. *)
Definition solve2right4update (x : SSVector.t) (y : Vector) (b : SVector)
  (rhs : SSVector.t) (s : t) : option (SSVector.t * Vector * SSVector.t * t) :=
  let s := set_ssvec (unSetup (ssvec s)) s in
  let rsize := size rhs in
  let rhs := unSetup rhs in
  let x := SSVector.clear x in
  let y := Vector_clear y in
  let s := set_usetup true s in
  let s := set_ssvec (assignSVector b (ssvec s)) s in
  match l_updateType (clu s) with
  | ETA =>
    let n := length b in
    let '((m, xv, xi), rv, yv, _) :=
      vSolveRight4update2 (SSVector.epsilon x) (val x) (idx x)
        (val (ssvec s)) (idx (ssvec s)) n y
        (SSVector.epsilon rhs) (val rhs) (idx rhs) rsize None (clu s) in
    let x := forceSetup (setSize m (SSVector.mk xv xi false (SSVector.epsilon x))) in
    '(e, x) ← setup_and_assign x (eta s);
    Some (x, yv, rhs, set_eta e (set_ssvec (with_val (fun _ => rv) (ssvec s)) s))
  | FOREST_TOMLIN =>
    let f0 := SSVector.clear (forest s) in
    let n := size (ssvec s) in
    let '((m, xv, xi), rv, yv, fr) :=
      vSolveRight4update2 (SSVector.epsilon x) (val x) (idx x)
        (val (ssvec s)) (idx (ssvec s)) n y
        (SSVector.epsilon rhs) (val rhs) (idx rhs) rsize
        (Some (val f0, idx f0)) (clu s) in
    let x := forceSetup (setSize m (SSVector.mk xv xi false (SSVector.epsilon x))) in
    let '(f, fv, fi) := default (0%nat, val f0, idx f0) fr in
    let fo := forceSetup (setSize f (SSVector.mk fv fi false (SSVector.epsilon f0))) in
    Some (x, yv, rhs,
          set_forest fo (set_ssvec (with_val (fun _ => rv) (ssvec s)) s))
  end.

(** The loop [while (better < lastThreshold)] of [load]; returns [last]. *)
Fixpoint load_search (fuel : nat) (last better lastTh : Q) : option Q :=
  match fuel with
  | O => None
  | S n =>
    if Qltb better lastTh
    then load_search n better (betterThreshold better) lastTh
    else Some last
  end.

(** The loop [for (;;)] at the end of [load]. *)
Fixpoint load_loop (fuel : nat) (matrix : list SVector) (s : t) : option t :=
  match fuel with
  | O => None
  | S n =>
    let s1 := set_clu (factor matrix (lastThreshold s) (epsilon s)
                         (set_stat OK (clu s))) s in
    if Qle_bool (minStability s1) (stability s1) then Some s1
    else
      let x := lastThreshold s1 in
      let s2 := set_lastThreshold (betterThreshold (lastThreshold s1)) s1 in
      if Qeq_bool x (lastThreshold s2) then Some s2
      else load_loop n matrix (set_minStability (minStability s2 / 2) s2)
  end.

(** [SLUFactor::load(matrix, dm)]. *)
Definition load (fuel : nat) (matrix : list SVector) (dm : nat) (s : t)
  : option (t * Status) :=
  let lastStability := stability s in
  let s := set_usetup false s in
  let c := clu s in
  let s := set_clu (mkCLU (stat c) (thedim c) (maxabs c) (initMaxabs c)
                          (uptype s) 0 0 (core c)) s in
  s ← (if decide (dm <> thedim (clu s)) then
         let s := clear s in
         let c := clu s in
         Some (mkT (mkCLU (stat c) dm (maxabs c) (initMaxabs c) (l_updateType c)
                          (l_firstUpdate c) (l_firstUnused c) (core c))
                   (resize dm 0 (vec s))
                   (reDim dm (ssvec s)) (usetup s) (uptype s)
                   (reDim dm (eta s)) (reDim dm (forest s))
                   (minThreshold s) (lastThreshold s) (minStability s) (epsilon s))
       else if Qltb (2 * minStability s) lastStability then
         last ← load_search fuel (minThreshold s)
                  (betterThreshold (minThreshold s)) (lastThreshold s);
         Some (set_lastThreshold last (set_minStability (2 * MINSTABILITY) s))
       else Some s);
  s ← load_loop fuel matrix s;
  Some (s, status s).

(** ** Properties of the adapter *)

(** Lower bounds on the threshold from which [n] further calls of
    [betterThreshold] reach its fixed point. *)
Definition threshold_level (n : nat) : Q :=
  match n with
  | 0%nat => 999 # 1000
  | 1%nat => 9 # 10
  | 2%nat => 8 # 10
  | 3%nat => 6 # 10
  | 4%nat => 2 # 10
  | 5%nat => 1 # 10
  | _ => 1 # 100
  end.

(** [initMaxabs / maxabs] cut off to the interval [0, 1]. *)
Definition clamp01 (x : Q) : Q := Qmin 1 (Qmax 0 x).

Lemma clamp01_cases (x : Q) :
  (1 <= x -> clamp01 x == 1) /\ (0 <= x -> x <= 1 -> clamp01 x == x).
Proof.
  unfold clamp01.
  destruct (Q.max_spec 0 x) as [[? E]|[? E]];
  destruct (Q.min_spec 1 (Qmax 0 x)) as [[? E']|[? E']];
  split; intros; lra.
Qed.

Lemma betterThreshold_cases (th : Q) :
  (th < 1 # 10 /\ betterThreshold th = th * 10) \/
  (1 # 10 <= th /\ th < 9 # 10 /\ betterThreshold th = (th + 1) / 2) \/
  (9 # 10 <= th /\ th < 999 # 1000 /\ betterThreshold th = 99999 # 100000) \/
  (999 # 1000 <= th /\ betterThreshold th = th).
Proof.
  unfold betterThreshold. qcases; auto 10.
Qed.

#[global] Instance betterThreshold_proper : Proper (Qeq ==> Qeq) betterThreshold.
Proof.
  intros x y Hxy.
  destruct (betterThreshold_cases x) as [[? ->]|[(? & ? & ->)|[(? & ? & ->)|[? ->]]]];
  destruct (betterThreshold_cases y) as [[? ->]|[(? & ? & ->)|[(? & ? & ->)|[? ->]]]];
  rewrite ?Qdiv2; try lra; try (rewrite Hxy; reflexivity); try (rewrite Hxy in *; lra);
  try (rewrite <- Hxy in *; lra); try reflexivity.
Qed.

Lemma betterThreshold_level (n : nat) (th : Q) :
  threshold_level (S n) <= th -> threshold_level n <= betterThreshold th.
Proof.
  intros H.
  destruct (betterThreshold_cases th) as [[? ->]|[(? & ? & ->)|[(? & ? & ->)|[? ->]]]];
  rewrite ?Qdiv2;
  do 7 (try (destruct n as [|n]; cbn [threshold_level] in *; try lra)).
Qed.

Lemma betterThreshold_fixed (th : Q) :
  threshold_level 0 <= th -> betterThreshold th = th.
Proof.
  cbn [threshold_level]. intros H.
  destruct (betterThreshold_cases th) as [[? ->]|[(? & ? & ->)|[(? & ? & ->)|[? ->]]]];
  lra || reflexivity.
Qed.

Lemma load_loop_terminates (n : nat) (matrix : list SVector) (s : t) :
  threshold_level n <= lastThreshold s ->
  exists s', load_loop (S n) matrix s = Some s'.
Proof.
  revert s. induction n as [|n IH]; intros s H.
  - cbn [load_loop]. cbn.
    destruct (Qle_bool _ _); [eauto|].
    rewrite (betterThreshold_fixed _ H), Qeq_bool_refl. eauto.
  - remember (S n) as m. cbn [load_loop]. cbn.
    destruct (Qle_bool _ _); [eauto|].
    destruct (Qeq_bool _ _); [eauto|].
    subst m. apply IH. cbn. apply betterThreshold_level, H.
Qed.

Lemma load_loop_exit (fuel : nat) (matrix : list SVector) (s s' : t) :
  load_loop fuel matrix s = Some s' ->
  exists k : nat,
    lastThreshold s' = Nat.iter k betterThreshold (lastThreshold s) /\
    (minStability s' <= stability s' \/
     betterThreshold (lastThreshold s') == lastThreshold s').
Proof.
  revert s. induction fuel as [|n IH]; intros s; [discriminate|].
  cbn [load_loop]. cbn.
  destruct (Qle_bool _ _) eqn:E1.
  - intros [= <-]. exists 0%nat. cbn. split; [reflexivity|].
    left. apply Qle_bool_iff in E1. exact E1.
  - destruct (Qeq_bool _ _) eqn:E2.
    + intros [= <-]. exists 1%nat. cbn. split; [reflexivity|].
      right. apply Qeq_bool_iff in E2.
      apply betterThreshold_proper. symmetry. exact E2.
    + intros Hrec. apply IH in Hrec as (k & Hk & Hex). cbn in Hk.
      exists (S k). split; [|exact Hex].
      rewrite Hk. symmetry. apply Nat.iter_succ_r.
Qed.

(** C4. [SLUFactor::stability()] returns 0 when the status is not [OK], 1
    when [maxabs < initMaxabs], and [initMaxabs / maxabs] otherwise; for a
    factorization whose [initMaxabs] and [maxabs] are what their names say
    (maxima of absolute values, [maxabs] positive) that quotient is at most
    1, so the result always lies in [[0, 1]] and, for status [OK], equals
    [initMaxabs / maxabs] clamped to [[0, 1]]. *)
Theorem stability_clamped (s : t) :
  0 <= initMaxabs (clu s) -> 0 < maxabs (clu s) ->
  (0 <= stability s /\ stability s <= 1) /\
  (status s <> OK -> stability s = 0) /\
  (status s = OK -> maxabs (clu s) < initMaxabs (clu s) -> stability s = 1) /\
  (status s = OK -> initMaxabs (clu s) <= maxabs (clu s) ->
     stability s = initMaxabs (clu s) / maxabs (clu s) /\
     initMaxabs (clu s) / maxabs (clu s) <= 1) /\
  (status s = OK ->
     stability s == clamp01 (initMaxabs (clu s) / maxabs (clu s))).
Proof.
  intros Hi Hm.
  assert (Hdiv : 0 <= initMaxabs (clu s) / maxabs (clu s)).
  { apply Qle_shift_div_l; [exact Hm | lra]. }
  assert (Hle : initMaxabs (clu s) <= maxabs (clu s) ->
                initMaxabs (clu s) / maxabs (clu s) <= 1).
  { intros H. apply Qle_shift_div_r; [exact Hm | lra]. }
  assert (Hgt : maxabs (clu s) < initMaxabs (clu s) ->
                1 < initMaxabs (clu s) / maxabs (clu s)).
  { intros H. apply Qlt_shift_div_l; [exact Hm | lra]. }
  destruct (clamp01_cases (initMaxabs (clu s) / maxabs (clu s))) as [Hc1 Hc2].
  unfold stability.
  destruct (decide (status s <> OK)) as [Hs|Hs].
  - split; [lra|]. split; [reflexivity|].
    split; [congruence|]. split; congruence.
  - destruct (Qltb (maxabs (clu s)) (initMaxabs (clu s))) eqn:E;
      [apply Qltb_lt in E | apply Qltb_ge in E].
    + specialize (Hgt E).
      split; [lra|]. split; [intros; contradiction|].
      split; [reflexivity|]. split; [intros; lra|].
      intros _. symmetry. apply Hc1. lra.
    + specialize (Hle E).
      split; [lra|]. split; [intros; contradiction|].
      split; [intros; lra|]. split; [intros; split; [reflexivity | lra]|].
      intros _. symmetry. apply Hc2; lra.
Qed.


(** C9. [SLUFactor::change] leaves [usetup] false whatever branch it takes
    (prepared vectors or not, Forrest-Tomlin or Eta, eta vector passed or
    not), while [solveRight4update] and [solve2right4update] leave it true;
    so a [change] that directly follows a [change] finds [usetup] false and
    recomputes its update vector from [subst] (or takes [e]) instead of
    consuming [forest] / [eta] again. *)
Theorem change_resets_usetup (i : nat) (subst : SVector)
  (e : option SSVector.t) (s : t) :
  usetup (fst (change i subst e s)) = false /\
  (forall x b x' s', solveRight4update x b s = Some (x', s') ->
     usetup s' = true) /\
  (forall x y b rhs r s', solve2right4update x y b rhs s = Some (r, s') ->
     usetup s' = true) /\
  (forall i' subst' e',
     fst (change i' subst' e' (fst (change i subst e s))) =
     set_usetup false
       (change_recompute i' subst' e' (fst (change i subst e s)))).
Proof.
  split; [reflexivity|]. split; [|split].
  - intros x b x' s'. unfold solveRight4update.
    destruct (l_updateType _); cbn.
    + destruct (vSolveRight4update _ _ _ _ _ _ _ _) as [[[[m xv] xi] rv] fr].
      cbn. intros [= _ <-]. reflexivity.
    + destruct (vSolveRight4update _ _ _ _ _ _ _ _) as [[[[m xv] xi] rv] fr].
      cbn. destruct (default _ fr) as [[f fv] fi]. intros [= _ <-]. reflexivity.
  - intros x y b rhs r s'. unfold solve2right4update.
    destruct (l_updateType _); cbn.
    + destruct (vSolveRight4update2 _ _ _ _ _ _ _ _ _ _ _ _ _)
        as [[[[[m xv] xi] rv] yv] fr].
      cbn. intros [= _ <-]. reflexivity.
    + destruct (vSolveRight4update2 _ _ _ _ _ _ _ _ _ _ _ _ _)
        as [[[[[m xv] xi] rv] yv] fr].
      cbn. destruct (default _ fr) as [[f fv] fi]. intros [= _ <-]. reflexivity.
  - intros i' subst' e'. reflexivity.
Qed.

End Factor.

(** ** A concrete factorization state *)

(** A state as [clear()] leaves it, declared [OK], whose largest entry has
    doubled since it was factored; the kernels do nothing. *)
Definition example_state : t unit :=
  mkT unit (mkCLU unit OK 1 2 1 FOREST_TOMLIN 0 0 tt)
      [0] (SSVector.mk [0] [] true (1 # 10 ^ 16))
      false FOREST_TOMLIN
      (SSVector.mk [0] [] true (1 # 10 ^ 16))
      (SSVector.mk [0] [] true (1 # 10 ^ 16))
      (1 # 100) (1 # 100) MINSTABILITY (1 # 10 ^ 16).

Definition idle_factor : list SVector -> Q -> Q -> CLU unit -> CLU unit :=
  fun _ _ _ c => c.

Lemma stability_clamped_witness :
  (0 <= stability unit example_state /\ stability unit example_state <= 1) /\
  stability unit example_state == 1 # 2.
Proof.
  assert (Hi : 0 <= initMaxabs unit (clu unit example_state)) by (cbn; lra).
  assert (Hm : 0 < maxabs unit (clu unit example_state)) by (cbn; lra).
  destruct (stability_clamped unit example_state Hi Hm) as (Hr & _ & _ & _ & Hc).
  split; [exact Hr|]. reflexivity.
Defined.


End SLUFactor.

(** * The linear program and the solution container *)

Module LP.

Import SSVector.

(** Modelled from the spec: [RangeType] of a row or column ([FREE],
    [LOWER], [UPPER], [BOXED], [FIXED]) with [_lowerFinite] and
    [_upperFinite], which are declared outside the files at hand; the type
    must agree with the finiteness of the two bounds. *)
Inductive RangeType : Type :=
  | RANGETYPE_FREE | RANGETYPE_LOWER | RANGETYPE_UPPER
  | RANGETYPE_BOXED | RANGETYPE_FIXED.

#[global] Instance RangeType_eq_dec : EqDecision RangeType.
Proof. solve_decision. Defined.

Definition _lowerFinite (t : RangeType) : bool :=
  match t with
  | RANGETYPE_LOWER | RANGETYPE_BOXED | RANGETYPE_FIXED => true
  | _ => false
  end.

Definition _upperFinite (t : RangeType) : bool :=
  match t with
  | RANGETYPE_UPPER | RANGETYPE_BOXED | RANGETYPE_FIXED => true
  | _ => false
  end.

(** [SPxSolverBase<R>::VarStatus]. *)
Inductive VarStatus : Type :=
  | ON_UPPER | ON_LOWER | FIXED | ZERO | BASIC | UNDEFINED.

#[global] Instance VarStatus_eq_dec : EqDecision VarStatus.
Proof. solve_decision. Defined.

(** An LP as [SPxLPBase] stores it: per column the bounds and the
    objective in maximization form, per row the sides and the sparse row
    vector.  The rational and the floating-point LP have this shape. *)
Record t : Type := mk {
  lower : list Q;
  upper : list Q;
  maxObj : list Q;
  lhs : list Q;
  rhs : list Q;
  rowVector : list SVector;
  minimize : bool
}.

Definition nCols (lp : t) : nat := length (lower lp).
Definition nRows (lp : t) : nat := length (lhs lp).

Definition changeLower (c : nat) (x : Q) (lp : t) : t :=
  mk (<[c := x]> (lower lp)) (upper lp) (maxObj lp) (lhs lp) (rhs lp)
     (rowVector lp) (minimize lp).
Definition changeUpper (c : nat) (x : Q) (lp : t) : t :=
  mk (lower lp) (<[c := x]> (upper lp)) (maxObj lp) (lhs lp) (rhs lp)
     (rowVector lp) (minimize lp).
Definition changeBounds (c : nat) (lo up : Q) (lp : t) : t :=
  changeUpper c up (changeLower c lo lp).
Definition changeMaxObj (c : nat) (x : Q) (lp : t) : t :=
  mk (lower lp) (upper lp) (<[c := x]> (maxObj lp)) (lhs lp) (rhs lp)
     (rowVector lp) (minimize lp).
(** [changeObj(c, x)]: [changeMaxObj(c, x)], negated when minimizing. *)
Definition changeObj (c : nat) (x : Q) (lp : t) : t :=
  changeMaxObj c (if minimize lp then x * -1 else x) lp.
Definition changeLhs (r : nat) (x : Q) (lp : t) : t :=
  mk (lower lp) (upper lp) (maxObj lp) (<[r := x]> (lhs lp)) (rhs lp)
     (rowVector lp) (minimize lp).
Definition changeRhs (r : nat) (x : Q) (lp : t) : t :=
  mk (lower lp) (upper lp) (maxObj lp) (lhs lp) (<[r := x]> (rhs lp))
     (rowVector lp) (minimize lp).

(** The largest column index of a sparse vector, plus one. *)
Definition svDim (v : SVector) : nat := foldr (fun e n => Nat.max (S (fst e)) n) 0%nat v.

(** [addRow(LPRow(lhs, vec, rhs))]: appends the row; columns that [vec]
    mentions and the LP does not have yet are created empty, with lower
    bound 0, upper bound [infinity] and objective 0. *)
Definition addRow (infinity : Q) (l : Q) (vec : SVector) (r : Q) (lp : t) : t :=
  let k := (svDim vec - nCols lp)%nat in
  mk (lower lp ++ replicate k 0) (upper lp ++ replicate k infinity)
     (maxObj lp ++ replicate k 0)
     (lhs lp ++ [l]) (rhs lp ++ [r]) (rowVector lp ++ [vec]) (minimize lp).

(** [removeRowRange(start, end)] and [removeColRange(start, end)] for a
    range that ends at the last row or column; [removeRow(i)] and
    [removeCol(i)] for the last one are the case [start = end = i]. *)
Definition removeRowRange (start : nat) (lp : t) : t :=
  mk (lower lp) (upper lp) (maxObj lp)
     (take start (lhs lp)) (take start (rhs lp)) (take start (rowVector lp))
     (minimize lp).

Definition removeColRange (start : nat) (lp : t) : t :=
  mk (take start (lower lp)) (take start (upper lp)) (take start (maxObj lp))
     (lhs lp) (rhs lp)
     (filter (fun e => (fst e < start)%nat) <$> rowVector lp)
     (minimize lp).

(** [changeElement(r, c, x)]: a zero removes the nonzero, another value
    overwrites it or is appended to the row. *)
Definition setEntry (c : nat) (x : Q) (row : SVector) : SVector :=
  if Qeq_bool x 0 then filter (fun e => fst e <> c) row
  else if decide (c ∈ (fst <$> row))
       then (fun e => if decide (fst e = c) then (c, x) else e) <$> row
       else row ++ [(c, x)].

Definition changeElement (r c : nat) (x : Q) (lp : t) : t :=
  mk (lower lp) (upper lp) (maxObj lp) (lhs lp) (rhs lp)
     (alter (setEntry c x) r (rowVector lp)) (minimize lp).

(** The value of column [c] in a sparse row, when it has one. *)
Definition entry (c : nat) (row : SVector) : option Q :=
  (fun p => snd (snd p)) <$> list_find (fun e : nat * Q => fst e = c) row.

(** [colVector(c)]: the nonzeros of column [c], as (row, value) elements. *)
Definition colVector (c : nat) (lp : t) : SVector :=
  omap (fun '(r, row) => (fun x => (r, x)) <$> entry c row)
       (imap (fun r row => (r, row)) (rowVector lp)).

(** [SolRational]. *)
Record Sol : Type := mkSol {
  _primal : list Q;
  _slacks : list Q;
  _dual : list Q;
  _redCost : list Q;
  _primalRay : list Q;
  _dualFarkas : list Q;
  _isPrimalFeasible : bool;
  _isDualFeasible : bool;
  _hasPrimalRay : bool;
  _hasDualFarkas : bool
}.

(** A loop [for (int c = n - 1; c >= 0; c--) body(c)] over a state. *)
Definition for_down {S : Type} (n : nat) (body : nat -> S -> S) (st : S) : S :=
  foldl (fun st c => body c st) st (reverse (seq 0 n)).

(** A loop [for (int c = a; c < b; c++) body(c)]. *)
Definition for_up {S : Type} (a b : nat) (body : nat -> S -> S) (st : S) : S :=
  foldl (fun st c => body c st) st (seq a (b - a)).

Lemma for_down_S {S : Type} (n : nat) (body : nat -> S -> S) (st : S) :
  for_down (Datatypes.S n) body st = for_down n body (body n st).
Proof.
  unfold for_down. rewrite seq_S, reverse_app. reflexivity.
Qed.

(** Loop invariant rule for [for_down]. *)
Lemma for_down_ind {S : Type} (P : nat -> S -> Prop) (n : nat)
  (body : nat -> S -> S) (st : S) :
  P n st ->
  (forall c s, (c < n)%nat -> P (Datatypes.S c) s -> P c (body c s)) ->
  P 0%nat (for_down n body st).
Proof.
  revert st. induction n as [|n IH]; intros st H0 Hstep; [exact H0|].
  rewrite for_down_S. apply IH.
  - apply Hstep; [lia | exact H0].
  - intros c s Hc. apply Hstep. lia.
Qed.

(** A field that no pass of a loop writes is the same after the loop. *)
Lemma for_down_preserved {St A : Type} (proj : St -> A) (n : nat)
  (body : nat -> St -> St) (st : St) :
  (forall c s, proj (body c s) = proj s) ->
  proj (for_down n body st) = proj st.
Proof.
  intros H. apply (for_down_ind (fun _ s => proj s = proj st)); [reflexivity|].
  intros c s _ Hs. rewrite H. exact Hs.
Qed.

Lemma insert_as_alter {A : Type} (l : list A) (i : nat) (x : A) :
  <[i := x]> l = alter (fun _ => x) i l.
Proof.
  revert i. induction l as [|y l IH]; intros [|i]; cbn; try reflexivity.
  f_equal. apply IH.
Qed.

(** An array of which pass [c] rewrites cell [c] alone, from the cell's
    own value, is after the loop the array of the rewritten cells. *)
Lemma for_down_alter {St A : Type} (proj : St -> list A) (g : nat -> A -> A)
  (n : nat) (body : nat -> St -> St) (st : St) :
  (forall c s, (c < n)%nat -> proj (body c s) = alter (g c) c (proj s)) ->
  proj (for_down n body st) =
  imap (fun i x => if decide (i < n)%nat then g i x else x) (proj st).
Proof.
  intros H.
  enough (Hinv : proj (for_down n body st) =
                 imap (fun i x => if decide (0 <= i < n)%nat then g i x else x) (proj st)).
  { rewrite Hinv. apply imap_ext. intros i x _.
    destruct (decide (i < n)%nat), (decide (0 <= i < n)%nat); try reflexivity; lia. }
  apply (for_down_ind (fun k s =>
    proj s = imap (fun i x => if decide (k <= i < n)%nat then g i x else x) (proj st))).
  - apply list_eq. intros i. rewrite list_lookup_imap.
    destruct (proj st !! i); cbn; [|reflexivity].
    destruct (decide _); [lia | reflexivity].
  - intros c s Hc Hs. rewrite H by exact Hc. rewrite Hs.
    apply list_eq. intros i.
    destruct (decide (i = c)) as [->|Hne].
    + rewrite list_lookup_alter_eq, !list_lookup_imap.
      destruct (proj st !! c); cbn; [|reflexivity].
      destruct (decide (S c <= c < n)%nat); [lia|].
      destruct (decide (c <= c < n)%nat); [reflexivity | lia].
    + rewrite list_lookup_alter_ne by auto. rewrite !list_lookup_imap.
      destruct (proj st !! i); cbn; [|reflexivity].
      destruct (decide (S c <= i < n)%nat), (decide (c <= i < n)%nat);
        try reflexivity; lia.
Qed.

End LP.

(** * The refinement loop ([soplex/solverational.hpp]) *)

Module Refinement.

Import SSVector LP.

(** Modelled from the spec: [powRound], declared with the rational number
    type outside the files at hand; "rounded down to a power of two": the
    largest power of two (of an integer exponent, negative for values below
    one) that is not above a positive [x]. *)
Definition powRound (x : Q) : Q :=
  if Qle_bool 1 x then inject_Z (2 ^ Z.log2 (Qfloor x))
  else / inject_Z (2 ^ Z.log2_up (Qceiling (/ x))).

Definition is_pow2 (x : Q) : Prop := exists k : Z, x == 2 ^ k.

(** ** [powRound] *)

Lemma inject_Z_pow2 (k : Z) : (0 <= k)%Z -> inject_Z (2 ^ k) == 2 ^ k.
Proof. intros H. apply (Zpower_Qpower 2 k H). Qed.

Lemma powRound_spec (x : Q) :
  0 < x -> is_pow2 (powRound x) /\ powRound x <= x.
Proof.
  intros Hx. unfold powRound.
  destruct (Qle_bool 1 x) eqn:E.
  - apply Qle_bool_iff in E.
    assert (Hn : (1 <= Qfloor x)%Z).
    { change 1%Z with (Qfloor 1). apply Qfloor_resp_le. exact E. }
    destruct (Z.log2_spec (Qfloor x)) as [Hlo _]; [lia|].
    split.
    + exists (Z.log2 (Qfloor x)). apply inject_Z_pow2. apply Z.log2_nonneg.
    + apply Qle_trans with (inject_Z (Qfloor x)).
      * rewrite <- Zle_Qle. exact Hlo.
      * apply Qfloor_le.
  - apply Qle_bool_false_iff in E.
    set (c := Qceiling (/ x)).
    assert (Hinv : 1 < / x).
    { apply Qlt_shift_inv_l; lra. }
    assert (Hc : / x <= inject_Z c) by apply Qle_ceiling.
    assert (Hc1 : (1 < c)%Z).
    { rewrite Zlt_Qlt. apply Qlt_le_trans with (/ x); assumption. }
    destruct (Z.log2_up_spec c Hc1) as [_ Hup].
    assert (Hk : (0 <= Z.log2_up c)%Z) by apply Z.log2_up_nonneg.
    assert (HP : / x <= inject_Z (2 ^ Z.log2_up c)).
    { apply Qle_trans with (inject_Z c); [exact Hc|]. rewrite <- Zle_Qle. exact Hup. }
    split.
    + exists (- Z.log2_up c)%Z. rewrite Qpower_opp.
      apply Qinv_comp. apply inject_Z_pow2. exact Hk.
    + assert (HPpos : 0 < inject_Z (2 ^ Z.log2_up c)) by lra.
      assert (H1 : 1 <= x * inject_Z (2 ^ Z.log2_up c)).
      { apply Qle_trans with (x * / x).
        - rewrite Qmult_inv_r; [lra|]. intros Hz. rewrite Hz in Hx. lra.
        - apply Qmult_le_l; assumption. }
      assert (H2 : 1 / inject_Z (2 ^ Z.log2_up c) <= x).
      { apply Qle_shift_div_r; assumption. }
      unfold Qdiv in H2. rewrite Qmult_1_l in H2. exact H2.
Qed.

#[global] Instance powRound_proper : Proper (Qeq ==> eq) powRound.
Proof.
  intros x y Hxy. unfold powRound.
  rewrite (Qleb_comp 1 1 (Qeq_refl 1) x y Hxy).
  rewrite (Qfloor_comp x y Hxy).
  rewrite (Qceiling_comp (/ x) (/ y)); [reflexivity|].
  rewrite Hxy. reflexivity.
Qed.

Lemma is_pow2_1 : is_pow2 1.
Proof. exists 0%Z. reflexivity. Qed.

Lemma is_pow2_proper (x y : Q) : x == y -> is_pow2 x -> is_pow2 y.
Proof. intros H [k Hk]. exists k. rewrite <- H. exact Hk. Qed.

Section Driver.

(** [R(.)]: conversion of a rational to the floating-point type. *)
Variable toReal : Q -> Q.
(** [realParam(INFTY)], [_rationalPosInfty], [_rationalNegInfty],
    [_rationalMaxscaleincr], [_rationalFeastol], [_rationalOpttol]. *)
Variable INFTY : Q.
Variable _rationalPosInfty _rationalNegInfty : Q.
Variable _rationalMaxscaleincr : Q.
Variable _rationalFeastol _rationalOpttol : Q.
(** [boolParam(POWERSCALING)]. *)
Variable POWERSCALING : bool.





(** [_computePrimalScalingFactor]; returns [maxScale] and [primalScale]. *)
Definition _computePrimalScalingFactor
  (primalScale boundsViolation sideViolation redCostViolation : Q) : Q * Q :=
  let maxScale := primalScale * _rationalMaxscaleincr in
  let primalScale :=
    if Qltb sideViolation boundsViolation then boundsViolation else sideViolation in
  let primalScale :=
    if Qltb primalScale redCostViolation then redCostViolation else primalScale in
  let primalScale :=
    if Qltb 0 primalScale then
      let inv := / primalScale in
      if Qltb maxScale inv then maxScale else inv
    else maxScale in
  let primalScale := if POWERSCALING then powRound primalScale else primalScale in
  (maxScale, primalScale).

(** [_computeDualScalingFactor]; returns [maxScale], [dualScale] and
    [_modObj]. *)
Definition _computeDualScalingFactor
  (primalScale dualScale redCostViolation dualViolation : Q)
  (_modObj : list Q) : Q * Q * list Q :=
  let maxScale := dualScale * _rationalMaxscaleincr in
  let dualScale :=
    if Qltb dualViolation redCostViolation then redCostViolation else dualViolation in
  let dualScale :=
    if Qltb 0 dualScale then
      let inv := / dualScale in
      if Qltb maxScale inv then maxScale else inv
    else maxScale in
  let dualScale := if POWERSCALING then powRound dualScale else dualScale in
  let dualScale := if Qltb primalScale dualScale then primalScale else dualScale in
  if Qltb dualScale 1 then (maxScale, 1, _modObj)
  else (maxScale, dualScale, (fun x => x * dualScale) <$> _modObj).

(** [_applyScaledBounds]; returns [primalScale], [_modLower], [_modUpper]
    and the LP of [_solver]. *)
Definition _applyScaledBounds (numColsRational : nat) (_colTypes : list RangeType)
  (primalScale : Q) (_modLower _modUpper : list Q) (solver : LP.t)
  : Q * list Q * list Q * LP.t :=
  let primalScale := if Qltb primalScale 1 then 1 else primalScale in
  let body (c : nat) (st : list Q * list Q * LP.t) :=
    let '(ml, mu, lp) := st in
    let ty := default RANGETYPE_FREE (_colTypes !! c) in
    let '(ml, lp) :=
      if _lowerFinite ty then
        let ml := if Qltb 1 primalScale
                  then <[c := get ml c * primalScale]> ml else ml in
        if Qle_bool (get ml c) _rationalNegInfty
        then (ml, changeLower c (- INFTY) lp)
        else (ml, changeLower c (toReal (get ml c)) lp)
      else (ml, lp) in
    let '(mu, lp) :=
      if _upperFinite ty then
        let mu := if Qltb 1 primalScale
                  then <[c := get mu c * primalScale]> mu else mu in
        if Qle_bool _rationalPosInfty (get mu c)
        then (mu, changeUpper c INFTY lp)
        else (mu, changeUpper c (toReal (get mu c)) lp)
      else (mu, lp) in
    (ml, mu, lp) in
  let '(ml, mu, lp) := for_down numColsRational body (_modLower, _modUpper, solver) in
  (primalScale, ml, mu, lp).

(** The scaling factors of one pass of the refinement loop, in the order
    of the loop body: [_computePrimalScalingFactor], [_applyScaledBounds],
    [_computeDualScalingFactor].  Returns the primal factor as computed,
    the primal factor in effect and the dual factor. *)
Definition scalingFactors (numColsRational : nat) (_colTypes : list RangeType)
  (_modLower _modUpper _modObj : list Q) (solver : LP.t)
  (primalScale dualScale : Q)
  (boundsViolation sideViolation redCostViolation dualViolation : Q)
  : Q * Q * Q :=
  let '(_, computed) :=
    _computePrimalScalingFactor primalScale boundsViolation sideViolation
      redCostViolation in
  let '(primalScale, _, _, _) :=
    _applyScaledBounds numColsRational _colTypes computed _modLower _modUpper solver in
  let '(_, dualScale, _) :=
    _computeDualScalingFactor primalScale dualScale redCostViolation
      dualViolation _modObj in
  (computed, primalScale, dualScale).

(** ** Progress bookkeeping *)












(** ** Scaling factors *)

(** The spec's words: "the reciprocal of the maximum violation, capped by
    the previous scale times [maxscaleincr]" (the cap alone when the
    maximum is not positive). *)
Definition cappedReciprocal (violation maxScale : Q) : Q :=
  if Qltb 0 violation then Qmin (/ violation) maxScale else maxScale.

(** The spec's primal factor. *)
Definition specPrimalScale (primalScale b s r : Q) : Q :=
  let c := cappedReciprocal (Qmax (Qmax b s) r)
             (primalScale * _rationalMaxscaleincr) in
  if POWERSCALING then powRound c else c.

(** The spec's dual factor, given the primal factor in effect. *)
Definition specDualScale (primalScale dualScale r d : Q) : Q :=
  let c := cappedReciprocal (Qmax r d) (dualScale * _rationalMaxscaleincr) in
  let c := if POWERSCALING then powRound c else c in
  Qmax 1 (Qmin c primalScale).

Lemma cappedReciprocal_code (v v' maxScale : Q) :
  v == v' ->
  (if Qltb 0 v then (if Qltb maxScale (/ v) then maxScale else / v) else maxScale)
  == cappedReciprocal v' maxScale.
Proof.
  intros Hv. unfold cappedReciprocal.
  assert (Hinv : / v == / v') by (rewrite Hv; reflexivity).
  destruct (Q.min_spec (/ v') maxScale) as [[? E]|[? E]];
  qcases; rewrite ?E; try lra; try reflexivity.
Qed.

Lemma max3_code (b s r : Q) :
  (let p := if Qltb s b then b else s in if Qltb p r then r else p)
  == Qmax (Qmax b s) r.
Proof.
  cbv zeta.
  destruct (Q.max_spec b s) as [[? E1]|[? E1]];
  destruct (Q.max_spec (Qmax b s) r) as [[? E2]|[? E2]];
  qcases; lra.
Qed.

Lemma max2_code (r d : Q) :
  (if Qltb d r then r else d) == Qmax r d.
Proof.
  destruct (Q.max_spec r d) as [[? E1]|[? E1]]; qcases; lra.
Qed.

Lemma cappedReciprocal_pos (v maxScale : Q) :
  0 < maxScale -> 0 < cappedReciprocal v maxScale.
Proof.
  intros H. unfold cappedReciprocal.
  destruct (Qltb 0 v) eqn:E; [|exact H].
  apply Qltb_lt in E.
  assert (0 < / v) by (apply Qinv_lt_0_compat; exact E).
  destruct (Q.min_spec (/ v) maxScale) as [[? E']|[? E']]; lra.
Qed.

Lemma cappedReciprocal_le (v maxScale : Q) :
  cappedReciprocal v maxScale <= maxScale.
Proof.
  unfold cappedReciprocal.
  destruct (Qltb 0 v) eqn:E; [|lra].
  destruct (Q.min_spec (/ v) maxScale) as [[? E']|[? E']]; lra.
Qed.

Lemma computePrimalScalingFactor_spec (primalScale b s r : Q) :
  (_computePrimalScalingFactor primalScale b s r).2
  == specPrimalScale primalScale b s r.
Proof.
  unfold _computePrimalScalingFactor, specPrimalScale. cbn [snd].
  pose proof (cappedReciprocal_code _ _ (primalScale * _rationalMaxscaleincr)
                (max3_code b s r)) as H.
  cbv zeta in H.
  destruct POWERSCALING; [|exact H].
  rewrite (powRound_proper _ _ H). reflexivity.
Qed.

Lemma applyScaledBounds_scale (n : nat) (ct : list RangeType) (p : Q)
  (ml mu : list Q) (lp : LP.t) :
  (_applyScaledBounds n ct p ml mu lp).1.1.1 = (if Qltb p 1 then 1 else p).
Proof.
  unfold _applyScaledBounds.
  destruct (for_down n _ _) as [[ml' mu'] lp']. reflexivity.
Qed.

Lemma computeDualScalingFactor_spec (primalScale dualScale r d : Q)
  (modObj : list Q) :
  let res := (_computeDualScalingFactor primalScale dualScale r d modObj).1.2 in
  res == specDualScale primalScale dualScale r d /\
  1 <= res /\ (1 <= primalScale -> res <= primalScale).
Proof.
  unfold _computeDualScalingFactor, specDualScale.
  pose proof (cappedReciprocal_code _ _ (dualScale * _rationalMaxscaleincr)
                (max2_code r d)) as H.
  cbv zeta in H |- *.
  set (code := if Qltb 0 (if Qltb d r then r else d) then _ else _) in *.
  set (spec := cappedReciprocal _ _) in *.
  assert (H' : (if POWERSCALING then powRound code else code)
               == (if POWERSCALING then powRound spec else spec)).
  { destruct POWERSCALING; [|exact H]. rewrite (powRound_proper _ _ H). reflexivity. }
  set (c := if POWERSCALING then powRound code else code) in *.
  set (c' := if POWERSCALING then powRound spec else spec) in *.
  destruct (Q.min_spec c' primalScale) as [[? E1]|[? E1]];
  destruct (Q.max_spec 1 (Qmin c' primalScale)) as [[? E2]|[? E2]];
  qcases; cbn [fst snd]; repeat split; intros; lra.
Qed.

Lemma scalingFactors_unfold (n : nat) (ct : list RangeType)
  (ml mu mo : list Q) (lp : LP.t) (pS dS b s r d : Q) :
  let computed := (_computePrimalScalingFactor pS b s r).2 in
  let eff := if Qltb computed 1 then 1 else computed in
  scalingFactors n ct ml mu mo lp pS dS b s r d =
  (computed, eff, (_computeDualScalingFactor eff dS r d mo).1.2).
Proof.
  cbv zeta. unfold scalingFactors.
  destruct (_computePrimalScalingFactor pS b s r) as [mx computed] eqn:E1.
  cbn [snd].
  pose proof (applyScaledBounds_scale n ct computed ml mu lp) as E2.
  destruct (_applyScaledBounds n ct computed ml mu lp) as [[[eff ml'] mu'] lp'].
  cbn [fst] in E2. subst eff.
  destruct (_computeDualScalingFactor _ dS r d mo) as [[mx' dual] mo'].
  reflexivity.
Qed.

Lemma is_pow2_max_min (c e : Q) :
  is_pow2 c -> is_pow2 e -> is_pow2 (Qmax 1 (Qmin c e)).
Proof.
  intros Hc He.
  destruct (Q.min_spec c e) as [[? E1]|[? E1]];
  destruct (Q.max_spec 1 (Qmin c e)) as [[? E2]|[? E2]];
  try (apply (is_pow2_proper 1); [lra | apply is_pow2_1]).
  - apply (is_pow2_proper c); [lra | exact Hc].
  - apply (is_pow2_proper e); [lra | exact He].
Qed.

(** C2. In a pass of the refinement loop the primal factor that
    [_computePrimalScalingFactor] computes is the reciprocal of
    [max(boundsViolation, sideViolation, redCostViolation)] when that is
    positive, capped above by the previous [primalScale] times
    [maxscaleincr]; [_applyScaledBounds] raises it to 1 when it is smaller.
    The dual factor is computed the same way from
    [max(redCostViolation, dualViolation)] and the previous [dualScale],
    then capped by the primal factor in effect and raised to 1, so that
    [1 <= dualScale <= primalScale].  Under [POWERSCALING] each capped
    reciprocal is replaced by [powRound] of it, a power of two not above
    it, and all three factors are powers of two. *)
Theorem scaling_factors_spec (n : nat) (ct : list RangeType)
  (ml mu mo : list Q) (lp : LP.t) (pS dS b s r d : Q) :
  0 < pS -> 0 < dS -> 0 < _rationalMaxscaleincr ->
  let res := scalingFactors n ct ml mu mo lp pS dS b s r d in
  let computed := res.1.1 in
  let primalScale := res.1.2 in
  let dualScale := res.2 in
  let capP := cappedReciprocal (Qmax (Qmax b s) r) (pS * _rationalMaxscaleincr) in
  let capD := cappedReciprocal (Qmax r d) (dS * _rationalMaxscaleincr) in
  computed = (_computePrimalScalingFactor pS b s r).2 /\
  computed == specPrimalScale pS b s r /\
  computed <= pS * _rationalMaxscaleincr /\
  (POWERSCALING = false -> 0 < Qmax (Qmax b s) r ->
     computed == Qmin (/ Qmax (Qmax b s) r) (pS * _rationalMaxscaleincr)) /\
  primalScale == Qmax 1 computed /\
  dualScale == specDualScale primalScale dS r d /\
  (POWERSCALING = false -> dualScale == Qmax 1 (Qmin capD primalScale)) /\
  1 <= dualScale /\ dualScale <= primalScale /\
  (POWERSCALING = true ->
     computed == powRound capP /\ is_pow2 computed /\ computed <= capP /\
     is_pow2 (powRound capD) /\ powRound capD <= capD /\
     dualScale == Qmax 1 (Qmin (powRound capD) primalScale) /\
     is_pow2 primalScale /\ is_pow2 dualScale).
Proof.
  intros HpS HdS Hincr res computed primalScale dualScale capP capD.
  pose proof (scalingFactors_unfold n ct ml mu mo lp pS dS b s r d) as Hu.
  cbv zeta in Hu. fold res in Hu.
  assert (Hc : computed = (_computePrimalScalingFactor pS b s r).2).
  { subst computed. rewrite Hu. reflexivity. }
  assert (He : primalScale = if Qltb computed 1 then 1 else computed).
  { subst primalScale. rewrite Hc, Hu. reflexivity. }
  assert (Hd : dualScale = (_computeDualScalingFactor primalScale dS r d mo).1.2).
  { subst dualScale. rewrite He, Hc, Hu. reflexivity. }
  clearbody res computed primalScale dualScale. clear Hu res.
  pose proof (computePrimalScalingFactor_spec pS b s r) as Hspec.
  rewrite <- Hc in Hspec.
  assert (HmaxP : 0 < pS * _rationalMaxscaleincr) by (apply Qmult_lt_0_compat; assumption).
  assert (HmaxD : 0 < dS * _rationalMaxscaleincr) by (apply Qmult_lt_0_compat; assumption).
  pose proof (cappedReciprocal_pos (Qmax (Qmax b s) r) _ HmaxP) as HcapP.
  pose proof (cappedReciprocal_pos (Qmax r d) _ HmaxD) as HcapD.
  pose proof (cappedReciprocal_le (Qmax (Qmax b s) r) (pS * _rationalMaxscaleincr)) as HleP.
  fold capP in HcapP, HleP. fold capD in HcapD.
  destruct (powRound_spec capP HcapP) as [Hp2P HprP].
  destruct (powRound_spec capD HcapD) as [Hp2D HprD].
  assert (Heff : primalScale == Qmax 1 computed).
  { rewrite He. destruct (Q.max_spec 1 computed) as [[? E]|[? E]]; qcases; lra. }
  assert (Heff1 : 1 <= primalScale).
  { rewrite He. qcases; lra. }
  pose proof (computeDualScalingFactor_spec primalScale dS r d mo) as Hdual.
  cbv zeta in Hdual. rewrite <- Hd in Hdual.
  destruct Hdual as (Hds & Hd1 & Hd2). specialize (Hd2 Heff1).
  unfold specPrimalScale in Hspec. fold capP in Hspec.
  unfold specDualScale in Hds |- *. fold capD in Hds |- *.
  split; [exact Hc|]. split; [exact Hspec|].
  split. { destruct POWERSCALING; lra. }
  split. { intros Hps Hpos. rewrite Hps in Hspec. rewrite Hspec.
           subst capP. unfold cappedReciprocal.
           apply Qltb_lt in Hpos. rewrite Hpos. reflexivity. }
  split; [exact Heff|]. split; [exact Hds|].
  split. { intros Hps. rewrite Hps in Hds. exact Hds. }
  split; [exact Hd1|]. split; [exact Hd2|].
  intros Hps. rewrite Hps in Hspec, Hds.
  assert (Hp2c : is_pow2 computed).
  { apply (is_pow2_proper (powRound capP)); [symmetry; exact Hspec | exact Hp2P]. }
  assert (Hp2e : is_pow2 primalScale).
  { rewrite He. qcases; [apply is_pow2_1 | exact Hp2c]. }
  split; [exact Hspec|]. split; [exact Hp2c|]. split; [lra|].
  split; [exact Hp2D|]. split; [exact HprD|]. split; [exact Hds|].
  split; [exact Hp2e|].
  apply (is_pow2_proper (Qmax 1 (Qmin (powRound capD) primalScale)));
    [symmetry; exact Hds|].
  apply is_pow2_max_min; assumption.
Qed.

End Driver.

(** ** A concrete pass *)

Definition emptyLP : LP.t := LP.mk [] [] [] [] [] [] false.

(** Violations 1/1000, 1/2000, 1/4000 and 1/8000 with both previous
    factors 1, [maxscaleincr = 10^12] and [POWERSCALING] on. *)
Definition example_factors : Q * Q * Q :=
  scalingFactors (fun x => x) (10 ^ 100) (10 ^ 100) (- 10 ^ 100) (10 ^ 12) true
    0 [] [] [] [] emptyLP 1 1 (1 # 1000) (1 # 2000) (1 # 4000) (1 # 8000).

Lemma scaling_factors_spec_witness :
  example_factors = (512, 512, 512) /\
  1 <= example_factors.2 /\ example_factors.2 <= example_factors.1.2 /\
  is_pow2 example_factors.2.
Proof.
  assert (H1 : 0 < 1) by lra.
  assert (H3 : 0 < 10 ^ 12) by reflexivity.
  pose proof (scaling_factors_spec (fun x => x) (10 ^ 100) (10 ^ 100)
                (- 10 ^ 100) (10 ^ 12) true 0 [] [] [] [] emptyLP
                1 1 (1 # 1000) (1 # 2000) (1 # 4000) (1 # 8000) H1 H1 H3) as H.
  cbv zeta in H.
  destruct H as (_ & _ & _ & _ & _ & _ & _ & Hd1 & Hd2 & Hpow).
  split; [reflexivity|]. split; [exact Hd1|]. split; [exact Hd2|].
  apply Hpow. reflexivity.
Defined.

(** ** [_storeRealSolutionAsRational] *)

Section Store.

(** [SPxLPBase::computePrimalActivity(primal, activity)],
    [SPxLPBase::getObj(obj)] and [SPxLPBase::subDualActivity(dual, obj)]. *)
Variable computePrimalActivity : LP.t -> list Q -> list Q -> list Q.
Variable getObj : LP.t -> list Q -> list Q.
Variable subDualActivity : LP.t -> list Q -> list Q -> list Q.

(** The loop over the columns: one pass writes [sol._primal[c]] and may
    rewrite [_basisStatusCols[c]]. *)
Definition storeCol (rationalLP : LP.t) (primalReal : list Q) (c : nat)
  (st : list Q * list VarStatus) : list Q * list VarStatus :=
  let '(primal, cols) := st in
  match default UNDEFINED (cols !! c) with
  | ON_LOWER => (<[c := get (lower rationalLP) c]> primal, cols)
  | ON_UPPER => (<[c := get (upper rationalLP) c]> primal, cols)
  | FIXED => (<[c := get (lower rationalLP) c]> primal, <[c := ON_LOWER]> cols)
  | ZERO => (<[c := 0]> primal, cols)
  | _ => (<[c := get primalReal c]> primal, cols)
  end.

(** The loop over the rows. *)
Definition storeRow (dualReal : list Q) (r : nat)
  (st : list Q * list VarStatus * nat) : list Q * list VarStatus * nat :=
  let '(dual, rows, dualSize) := st in
  let rows :=
    if decide (default UNDEFINED (rows !! r) = FIXED)
    then <[r := ON_LOWER]> rows else rows in
  (<[r := get dualReal r]> dual, rows,
   if Qeq_bool (get dualReal r) 0 then dualSize else S dualSize).

(** [_storeRealSolutionAsRational(sol, primalReal, dualReal, dualSize)];
    returns [sol], [dualSize], [_basisStatusCols] and [_basisStatusRows]. *)
Definition _storeRealSolutionAsRational (rationalLP : LP.t)
  (cols rows : list VarStatus) (sol : Sol) (primalReal dualReal : list Q)
  (dualSize : nat) : Sol * nat * list VarStatus * list VarStatus :=
  let nc := nCols rationalLP in
  let nr := nRows rationalLP in
  let primal := resize nc 0 (_primal sol) in
  let slacks := resize nr 0 (_slacks sol) in
  let dual := resize nr 0 (_dual sol) in
  let redCost := resize nc 0 (_redCost sol) in
  let '(primal, cols) := for_down nc (storeCol rationalLP primalReal) (primal, cols) in
  let slacks := computePrimalActivity rationalLP primal slacks in
  let '(dual, rows, dualSize) :=
    for_down nr (storeRow dualReal) (dual, rows, dualSize) in
  let redCost := subDualActivity rationalLP dual (getObj rationalLP redCost) in
  (mkSol primal slacks dual redCost (_primalRay sol) (_dualFarkas sol)
         true true (_hasPrimalRay sol) (_hasDualFarkas sol),
   dualSize, cols, rows).

(** What a column (row) status is rewritten to. *)
Definition unfixed (st : VarStatus) : VarStatus :=
  match st with FIXED => ON_LOWER | _ => st end.

(** The rational primal value a column gets from its status. *)
Definition storedPrimal (rationalLP : LP.t) (primalReal : list Q) (c : nat)
  (st : VarStatus) : Q :=
  match st with
  | ON_LOWER | FIXED => get (lower rationalLP) c
  | ON_UPPER => get (upper rationalLP) c
  | ZERO => 0
  | _ => get primalReal c
  end.

Lemma storeCol_loop (rationalLP : LP.t) (primalReal : list Q) (nc : nat)
  (primal0 : list Q) (cols0 : list VarStatus) :
  length primal0 = nc -> length cols0 = nc ->
  let res := for_down nc (storeCol rationalLP primalReal) (primal0, cols0) in
  length res.1 = nc /\ length res.2 = nc /\
  forall c st, cols0 !! c = Some st ->
    res.2 !! c = Some (unfixed st) /\
    res.1 !! c = Some (storedPrimal rationalLP primalReal c st).
Proof.
  intros Hp Hc res. subst res.
  set (P := fun (k : nat) (s : list Q * list VarStatus) =>
       length s.1 = nc /\ length s.2 = nc /\
       (forall c st, (k <= c)%nat -> cols0 !! c = Some st ->
          s.2 !! c = Some (unfixed st) /\
          s.1 !! c = Some (storedPrimal rationalLP primalReal c st)) /\
       (forall c, (c < k)%nat -> s.2 !! c = cols0 !! c)).
  enough (H : P 0%nat (for_down nc (storeCol rationalLP primalReal) (primal0, cols0))).
  { destruct H as (H1 & H2 & H3 & _). split; [exact H1|]. split; [exact H2|].
    intros c st. apply H3. lia. }
  apply for_down_ind; unfold P.
  - cbn. split; [exact Hp|]. split; [exact Hc|]. split.
    + intros c st Hk Hst. apply lookup_lt_Some in Hst. lia.
    + reflexivity.
  - intros c [primal cols] Hcn (Hl1 & Hl2 & Hdone & Hrest). cbn in *.
    assert (Hcur : cols !! c = cols0 !! c) by (apply Hrest; lia).
    destruct (cols0 !! c) as [st|] eqn:Est.
    2:{ apply lookup_ge_None in Est. lia. }
    unfold storeCol. rewrite Hcur. cbn [default].
    assert (Hstep : forall x cols',
      length cols' = nc ->
      cols' !! c = Some (unfixed st) ->
      (forall j, j <> c -> cols' !! j = cols !! j) ->
      x = storedPrimal rationalLP primalReal c st ->
      length (<[c := x]> primal) = nc /\ length cols' = nc /\
      (forall j stj, (c <= j)%nat -> cols0 !! j = Some stj ->
         cols' !! j = Some (unfixed stj) /\
         <[c := x]> primal !! j = Some (storedPrimal rationalLP primalReal j stj)) /\
      (forall j, (j < c)%nat -> cols' !! j = cols0 !! j)).
    { intros x cols' Hlen Hc' Hother Hx.
      split; [rewrite length_insert; exact Hl1|]. split; [exact Hlen|]. split.
      - intros j stj Hj Hstj. destruct (decide (j = c)) as [->|Hne].
        + rewrite Est in Hstj. injection Hstj as <-.
          split; [exact Hc'|].
          rewrite list_lookup_insert_eq by lia. rewrite Hx. reflexivity.
        + rewrite Hother by exact Hne.
          rewrite list_lookup_insert_ne by (intros ->; contradiction).
          apply Hdone; [lia | exact Hstj].
      - intros j Hj. rewrite Hother by lia. apply Hrest. lia. }
    destruct st; cbn.
    all: try (apply Hstep;
              [exact Hl2 | rewrite Hcur; reflexivity | reflexivity | reflexivity]).
    apply Hstep.
    + rewrite length_insert. exact Hl2.
    + apply list_lookup_insert_eq. lia.
    + intros j Hne. apply list_lookup_insert_ne. auto.
    + reflexivity.
Qed.

Lemma storeRow_loop (dualReal : list Q) (nr : nat)
  (dual0 : list Q) (rows0 : list VarStatus) (ds0 : nat) :
  length dual0 = nr -> length rows0 = nr ->
  let res := for_down nr (storeRow dualReal) (dual0, rows0, ds0) in
  forall r st, rows0 !! r = Some st ->
    res.1.2 !! r = Some (unfixed st) /\
    res.1.1 !! r = Some (get dualReal r).
Proof.
  intros Hp Hc res. subst res.
  set (P := fun (k : nat) (s : list Q * list VarStatus * nat) =>
       length s.1.1 = nr /\ length s.1.2 = nr /\
       (forall r st, (k <= r)%nat -> rows0 !! r = Some st ->
          s.1.2 !! r = Some (unfixed st) /\
          s.1.1 !! r = Some (get dualReal r)) /\
       (forall r, (r < k)%nat -> s.1.2 !! r = rows0 !! r)).
  enough (H : P 0%nat (for_down nr (storeRow dualReal) (dual0, rows0, ds0))).
  { destruct H as (_ & _ & H3 & _). intros r st. apply H3. lia. }
  apply for_down_ind; unfold P.
  - cbn. split; [exact Hp|]. split; [exact Hc|]. split.
    + intros r st Hk Hst. apply lookup_lt_Some in Hst. lia.
    + reflexivity.
  - intros r [[dual rows] ds] Hrn (Hl1 & Hl2 & Hdone & Hrest). cbn in *.
    assert (Hcur : rows !! r = rows0 !! r) by (apply Hrest; lia).
    destruct (rows0 !! r) as [st|] eqn:Est.
    2:{ apply lookup_ge_None in Est. lia. }
    rewrite Hcur. cbn [default].
    set (rows' := if decide (st = FIXED) then <[r := ON_LOWER]> rows else rows).
    assert (Hlen : length rows' = nr).
    { subst rows'. destruct (decide _); [rewrite length_insert|]; exact Hl2. }
    assert (Hr' : rows' !! r = Some (unfixed st)).
    { subst rows'. destruct (decide (st = FIXED)) as [->|Hne].
      - apply list_lookup_insert_eq. lia.
      - rewrite Hcur. destruct st; try reflexivity. contradiction. }
    assert (Hother : forall j, j <> r -> rows' !! j = rows !! j).
    { intros j Hne. subst rows'. destruct (decide _); [|reflexivity].
      apply list_lookup_insert_ne. auto. }
    split; [rewrite length_insert; exact Hl1|]. split; [exact Hlen|]. split.
    + intros j stj Hj Hstj. destruct (decide (j = r)) as [->|Hne].
      * rewrite Est in Hstj. injection Hstj as <-.
        split; [exact Hr'|]. apply list_lookup_insert_eq. lia.
      * rewrite Hother by exact Hne.
        rewrite list_lookup_insert_ne by (intros ->; contradiction).
        apply Hdone; [lia | exact Hstj].
    + intros j Hj. rewrite Hother by lia. apply Hrest. lia.
Qed.

Lemma unfixed_not_FIXED (st : VarStatus) : unfixed st <> FIXED.
Proof. destruct st; discriminate. Qed.

(** C10. After [_storeRealSolutionAsRational] no column or row status is
    [FIXED]: a [FIXED] status has become [ON_LOWER], every other status is
    unchanged.  A column that was [ON_LOWER] or [FIXED] has the rational
    primal value [lowerRational(c)], one that was [ON_UPPER] has
    [upperRational(c)], one that was [ZERO] has 0, and only the others
    ([BASIC], [UNDEFINED]) take the floating-point value [primalReal[c]];
    every dual value is the floating-point one. *)
Theorem storeRealSolutionAsRational_aligned (rationalLP : LP.t)
  (cols rows : list VarStatus) (sol : Sol) (primalReal dualReal : list Q)
  (dualSize : nat) :
  length cols = nCols rationalLP -> length rows = nRows rationalLP ->
  let res := _storeRealSolutionAsRational rationalLP cols rows sol
               primalReal dualReal dualSize in
  let sol' := res.1.1.1 in
  let cols' := res.1.2 in
  let rows' := res.2 in
  (forall c st, cols' !! c = Some st -> st <> FIXED) /\
  (forall r st, rows' !! r = Some st -> st <> FIXED) /\
  length cols' = length cols /\ length rows' = length rows /\
  (forall c st, cols !! c = Some st ->
     cols' !! c = Some (unfixed st) /\
     _primal sol' !! c = Some (storedPrimal rationalLP primalReal c st)) /\
  (forall r st, rows !! r = Some st ->
     rows' !! r = Some (unfixed st) /\
     _dual sol' !! r = Some (get dualReal r)) /\
  _isPrimalFeasible sol' = true /\ _isDualFeasible sol' = true.
Proof.
  intros Hc Hr res sol' cols' rows'.
  pose proof (storeCol_loop rationalLP primalReal (nCols rationalLP)
                (resize (nCols rationalLP) 0 (_primal sol)) cols
                (length_resize _ _ _) Hc) as Hcols.
  cbv zeta in Hcols.
  subst sol' cols' rows' res. unfold _storeRealSolutionAsRational.
  destruct (for_down (nCols rationalLP) _ _) as [primal cols1]. cbn [fst snd] in Hcols.
  destruct Hcols as (Hlp & Hlc & Hcols).
  pose proof (storeRow_loop dualReal (nRows rationalLP)
                (resize (nRows rationalLP) 0 (_dual sol)) rows dualSize
                (length_resize _ _ _) Hr) as Hrows.
  cbv zeta in Hrows.
  assert (Hlr : length (for_down (nRows rationalLP) (storeRow dualReal)
                  (resize (nRows rationalLP) 0 (_dual sol), rows, dualSize)).1.2
                = length rows).
  { unfold for_down. generalize (reverse (seq 0 (nRows rationalLP))).
    intros l. generalize (resize (nRows rationalLP) 0 (_dual sol)) dualSize.
    clear Hrows Hr. revert rows. induction l as [|r l IH]; intros rows d0 ds0; [reflexivity|].
    cbn [foldl]. unfold storeRow at 2. rewrite IH.
    destruct (decide _); [apply length_insert | reflexivity]. }
  destruct (for_down (nRows rationalLP) _ _) as [[dual rows1] ds1].
  cbn [fst snd] in *.
  split.
  { intros c st Hst.
    destruct (cols !! c) as [st0|] eqn:E.
    - destruct (Hcols c st0 E) as [H1 _]. rewrite H1 in Hst.
      injection Hst as <-. apply unfixed_not_FIXED.
    - apply lookup_ge_None in E. apply lookup_lt_Some in Hst. lia. }
  split.
  { intros r st Hst.
    destruct (rows !! r) as [st0|] eqn:E.
    - destruct (Hrows r st0 E) as [H1 _]. rewrite H1 in Hst.
      injection Hst as <-. apply unfixed_not_FIXED.
    - apply lookup_ge_None in E. apply lookup_lt_Some in Hst. lia. }
  split; [lia|]. split; [exact Hlr|].
  split; [exact Hcols|]. split; [exact Hrows|]. split; reflexivity.
Qed.

End Store.

(** A rational LP with three columns and one row after a floating-point
    solve that left a [FIXED] column and a [FIXED] row. *)
Definition example_lp : LP.t :=
  LP.mk [0; 1; 2] [5; 6; 7] [1; 1; 1] [0] [10]
        [[(0%nat, 1); (1%nat, 1); (2%nat, 1)]] false.

Definition example_store : Sol * nat * list VarStatus * list VarStatus :=
  _storeRealSolutionAsRational (fun _ _ s => s) (fun _ o => o) (fun _ _ o => o)
    example_lp [FIXED; ON_UPPER; BASIC] [FIXED]
    (mkSol [] [] [] [] [] [] false false false false) [9; 9; 4] [3] 0.

Lemma storeRealSolutionAsRational_aligned_witness :
  example_store.1.2 = [ON_LOWER; ON_UPPER; BASIC] /\
  example_store.2 = [ON_LOWER] /\
  _primal example_store.1.1.1 = [0; 6; 4] /\
  _primal example_store.1.1.1 !! 0%nat =
    Some (storedPrimal example_lp [9; 9; 4] 0 FIXED).
Proof.
  assert (Hc : length [FIXED; ON_UPPER; BASIC] = nCols example_lp) by reflexivity.
  assert (Hr : length [FIXED] = nRows example_lp) by reflexivity.
  pose proof (storeRealSolutionAsRational_aligned
                (fun _ _ s => s) (fun _ o => o) (fun _ _ o => o)
                example_lp [FIXED; ON_UPPER; BASIC] [FIXED]
                (mkSol [] [] [] [] [] [] false false false false)
                [9; 9; 4] [3] 0%nat Hc Hr) as H.
  cbv zeta in H. destruct H as (_ & _ & _ & _ & Hcols & _).
  split; [reflexivity|]. split; [reflexivity|]. split; [reflexivity|].
  apply (Hcols 0%nat FIXED). reflexivity.
Defined.

End Refinement.

(** * Problem transformations ([soplex/solverational.hpp]) *)

Module Transform.

Import SSVector LP.

(** The members of [SoPlexBase<R>] that the transformations read or
    write.  [_rationalLUSolverLoaded] is false once
    [_rationalLUSolver.clear()] has run. *)
Record Driver : Type := mkDriver {
  _rationalLP : LP.t;
  _realLP : LP.t;
  _colTypes : list RangeType;
  _rowTypes : list RangeType;
  _basisStatusCols : list VarStatus;
  _basisStatusRows : list VarStatus;
  _hasBasis : bool;
  _beforeLiftCols : nat;
  _beforeLiftRows : nat;
  _unboundedLower : list Q;
  _unboundedUpper : list Q;
  _unboundedLhs : list Q;
  _unboundedRhs : list Q;
  _rationalLUSolverLoaded : bool
}.

Definition set_LPs (q f : LP.t) (d : Driver) : Driver :=
  mkDriver q f (_colTypes d) (_rowTypes d) (_basisStatusCols d)
           (_basisStatusRows d) (_hasBasis d) (_beforeLiftCols d)
           (_beforeLiftRows d) (_unboundedLower d) (_unboundedUpper d)
           (_unboundedLhs d) (_unboundedRhs d) (_rationalLUSolverLoaded d).

Definition set_types (ct rt : list RangeType) (d : Driver) : Driver :=
  mkDriver (_rationalLP d) (_realLP d) ct rt (_basisStatusCols d)
           (_basisStatusRows d) (_hasBasis d) (_beforeLiftCols d)
           (_beforeLiftRows d) (_unboundedLower d) (_unboundedUpper d)
           (_unboundedLhs d) (_unboundedRhs d) (_rationalLUSolverLoaded d).

Definition set_basis (hb : bool) (cs rs : list VarStatus) (d : Driver) : Driver :=
  mkDriver (_rationalLP d) (_realLP d) (_colTypes d) (_rowTypes d) cs rs hb
           (_beforeLiftCols d) (_beforeLiftRows d) (_unboundedLower d)
           (_unboundedUpper d) (_unboundedLhs d) (_unboundedRhs d)
           (_rationalLUSolverLoaded d).

Definition set_beforeLift (c r : nat) (d : Driver) : Driver :=
  mkDriver (_rationalLP d) (_realLP d) (_colTypes d) (_rowTypes d)
           (_basisStatusCols d) (_basisStatusRows d) (_hasBasis d) c r
           (_unboundedLower d) (_unboundedUpper d) (_unboundedLhs d)
           (_unboundedRhs d) (_rationalLUSolverLoaded d).

Definition set_unbounded (lo up lh rh : list Q) (d : Driver) : Driver :=
  mkDriver (_rationalLP d) (_realLP d) (_colTypes d) (_rowTypes d)
           (_basisStatusCols d) (_basisStatusRows d) (_hasBasis d)
           (_beforeLiftCols d) (_beforeLiftRows d) lo up lh rh
           (_rationalLUSolverLoaded d).

(** [_rationalLUSolver.clear()]. *)
Definition clearLU (d : Driver) : Driver :=
  mkDriver (_rationalLP d) (_realLP d) (_colTypes d) (_rowTypes d)
           (_basisStatusCols d) (_basisStatusRows d) (_hasBasis d)
           (_beforeLiftCols d) (_beforeLiftRows d) (_unboundedLower d)
           (_unboundedUpper d) (_unboundedLhs d) (_unboundedRhs d) false.

Definition numColsRational (d : Driver) : nat := nCols (_rationalLP d).
Definition numRowsRational (d : Driver) : nat := nRows (_rationalLP d).
Definition numColsReal (d : Driver) : nat := nCols (_realLP d).
Definition numRowsReal (d : Driver) : nat := nRows (_realLP d).

Definition set_sol_dualFeasible (b : bool) (sol : Sol) : Sol :=
  mkSol (_primal sol) (_slacks sol) (_dual sol) (_redCost sol)
        (_primalRay sol) (_dualFarkas sol) (_isPrimalFeasible sol) b
        (_hasPrimalRay sol) (_hasDualFarkas sol).

Section Transformations.

(** [R(.)], [realParam(INFTY)], [_rationalPosInfty], [_rationalNegInfty],
    [realParam(LIFTMAXVAL)] and [realParam(LIFTMINVAL)] as rationals,
    [_rationalOpttol], [_rationalFeastol], [boolParam(TESTDUALINF)]. *)
Variable toReal : Q -> Q.
Variable INFTY : Q.
Variable _rationalPosInfty _rationalNegInfty : Q.
Variable LIFTMAXVAL LIFTMINVAL : Q.
Variable _rationalOpttol _rationalFeastol : Q.
Variable TESTDUALINF : bool.

(** [DSVectorBase<R>(vec)]: elementwise conversion. *)
Definition toRealVector (v : SVector) : SVector :=
  (fun e => (fst e, toReal (snd e))) <$> v.

(** ** Lifting *)

(** The body of the loop over the columns in [_lift]: column [i] is
    copied, and each of its nonzeros that [test] selects is moved to the
    lifting column, which is created with its lifting row on first use;
    [bound] is [maxValue] in the first loop and [minValue] in the second. *)
Definition liftColumn (bound : Q) (test : Q -> bool) (i : nat) (d : Driver)
  : Driver :=
  let colVec := colVector i (_rationalLP d) in
  let body (k : nat) (st : Driver * bool * nat) :=
    let '(d, addedLiftingRow, liftingColumnIndex) := st in
    match colVec !! k with
    | Some (rowIndex, value) =>
      if test value then
        let '(d, liftingColumnIndex) :=
          if addedLiftingRow then (d, liftingColumnIndex)
          else
            let lci := numColsRational d in
            let liftingRowVector := [(i, bound); (lci, -1)] in
            (set_LPs
               (changeBounds lci _rationalNegInfty _rationalPosInfty
                  (addRow _rationalPosInfty 0 liftingRowVector 0 (_rationalLP d)))
               (changeBounds lci (- INFTY) INFTY
                  (addRow INFTY 0 (toRealVector liftingRowVector) 0 (_realLP d)))
               d, lci) in
        let newValue := value / bound in
        (set_LPs
           (changeElement rowIndex liftingColumnIndex newValue
              (changeElement rowIndex i 0 (_rationalLP d)))
           (changeElement rowIndex liftingColumnIndex (toReal newValue)
              (changeElement rowIndex i 0 (_realLP d)))
           d, true, liftingColumnIndex)
      else st
    | None => st
    end in
  (for_down (length colVec) body (d, false, 0%nat)).1.1.

(** [for (int i = 0; i < numColsRational(); i++)]: the bound grows with
    the lifting columns, which are examined in their turn. *)
Fixpoint liftLoop (fuel : nat) (bound : Q) (test : Q -> bool) (i : nat)
  (d : Driver) : option Driver :=
  match fuel with
  | O => None
  | S n =>
    if decide (i < numColsRational d)%nat
    then liftLoop n bound test (S i) (liftColumn bound test i d)
    else Some d
  end.

(** [_lift()]. *)
Definition _lift (fuel : nat) (d : Driver) : option Driver :=
  let d := set_beforeLift (numColsRational d) (numRowsRational d) d in
  d ← liftLoop fuel LIFTMAXVAL (fun v => Qltb LIFTMAXVAL (Qabs v)) 0 d;
  d ← liftLoop fuel LIFTMINVAL (fun v => Qltb (Qabs v) LIFTMINVAL) 0 d;
  Some
    (if _hasBasis d then
       clearLU (set_basis (_hasBasis d)
         (_basisStatusCols d ++
            replicate (numColsRational d - _beforeLiftCols d) BASIC)
         (_basisStatusRows d ++
            replicate (numRowsRational d - _beforeLiftRows d) FIXED) d)
     else d).

(** [_project(sol)]. *)
Definition _project (sol : Sol) (d : Driver) : Sol * Driver :=
  (* shrink rational LP to original size *)
  let q := removeRowRange (_beforeLiftRows d)
             (removeColRange (_beforeLiftCols d) (_rationalLP d)) in
  (* shrink real LP to original size *)
  let f := removeRowRange (_beforeLiftRows d)
             (removeColRange (_beforeLiftCols d) (_realLP d)) in
  let d := set_LPs q f d in
  (* adjust solution *)
  let sol :=
    if _isPrimalFeasible sol
    then mkSol (resize (_beforeLiftCols d) 0 (_primal sol))
               (resize (_beforeLiftRows d) 0 (_slacks sol))
               (_dual sol) (_redCost sol) (_primalRay sol) (_dualFarkas sol)
               (_isPrimalFeasible sol) (_isDualFeasible sol)
               (_hasPrimalRay sol) (_hasDualFarkas sol)
    else sol in
  let sol :=
    if _hasPrimalRay sol
    then mkSol (_primal sol) (_slacks sol) (_dual sol) (_redCost sol)
               (resize (_beforeLiftCols d) 0 (_primalRay sol)) (_dualFarkas sol)
               (_isPrimalFeasible sol) (_isDualFeasible sol)
               (_hasPrimalRay sol) (_hasDualFarkas sol)
    else sol in
  let maxValue := LIFTMAXVAL in
  let sol :=
    for_up (_beforeLiftCols d) (numColsRational d)
      (fun i sol =>
         if _isDualFeasible sol then
           if Qltb _rationalOpttol (Qabs (maxValue * get (_redCost sol) i))
           then set_sol_dualFeasible false sol else sol
         else sol) sol in
  let sol :=
    if _isDualFeasible sol
    then mkSol (_primal sol) (_slacks sol)
               (resize (_beforeLiftRows d) 0 (_dual sol))
               (resize (_beforeLiftCols d) 0 (_redCost sol))
               (_primalRay sol) (_dualFarkas sol)
               (_isPrimalFeasible sol) (_isDualFeasible sol)
               (_hasPrimalRay sol) (_hasDualFarkas sol)
    else sol in
  let sol :=
    if _hasDualFarkas sol
    then mkSol (_primal sol) (_slacks sol) (_dual sol) (_redCost sol)
               (_primalRay sol) (resize (_beforeLiftRows d) 0 (_dualFarkas sol))
               (_isPrimalFeasible sol) (_isDualFeasible sol)
               (_hasPrimalRay sol) (_hasDualFarkas sol)
    else sol in
  (* adjust basis *)
  let d :=
    for_up (_beforeLiftCols d) (numColsRational d)
      (fun i d =>
         if _hasBasis d then
           if decide (default UNDEFINED (_basisStatusCols d !! i) <> BASIC)
           then clearLU (set_basis false (_basisStatusCols d) (_basisStatusRows d) d)
           else d
         else d) d in
  let d :=
    for_up (_beforeLiftRows d) (numRowsRational d)
      (fun i d =>
         if _hasBasis d then
           if decide (default UNDEFINED (_basisStatusRows d !! i) = BASIC)
           then clearLU (set_basis false (_basisStatusCols d) (_basisStatusRows d) d)
           else d
         else d) d in
  let d :=
    if _hasBasis d
    then clearLU (set_basis (_hasBasis d)
                    (take (_beforeLiftCols d) (_basisStatusCols d))
                    (take (_beforeLiftRows d) (_basisStatusRows d)) d)
    else d in
  (sol, d).

(** ** The unboundedness problem *)

(** [DSVectorRational obj; obj = maxObj()]: the nonzeros of a dense
    vector. *)
Fixpoint denseToSparseFrom (i : nat) (v : list Q) : SVector :=
  match v with
  | [] => []
  | x :: v' =>
    if Qeq_bool x 0 then denseToSparseFrom (S i) v'
    else (i, x) :: denseToSparseFrom (S i) v'
  end.

Definition denseToSparse (v : list Q) : SVector := denseToSparseFrom 0 v.

(** [sol.invalidate()]. *)
Definition invalidate (sol : Sol) : Sol :=
  mkSol (_primal sol) (_slacks sol) (_dual sol) (_redCost sol)
        (_primalRay sol) (_dualFarkas sol) false false false false.

Definition ty (types : list RangeType) (i : nat) : RangeType :=
  default RANGETYPE_FREE (types !! i).

(** The loops "store bounds" and "store sides": one array. *)
Definition storeFinite (finite : RangeType -> bool) (types : list RangeType)
  (values : list Q) (n : nat) (store : list Q) : list Q :=
  for_down n
    (fun c st => if finite (ty types c) then <[c := get values c]> st else st)
    (resize n 0 store).

(** "make right-hand side zero": one pass of the loop over the rows. *)
Definition zeroSides (rowTypes : list RangeType) (r : nat) (st : LP.t * LP.t)
  : LP.t * LP.t :=
  let '(q, f) := st in
  let '(q, f) :=
    if _lowerFinite (ty rowTypes r)
    then (changeLhs r 0 q, changeLhs r 0 f)
    else if Qltb (- INFTY) (get (lhs f) r)
         then (q, changeLhs r (- INFTY) f) else (q, f) in
  if _upperFinite (ty rowTypes r)
  then (changeRhs r 0 q, changeRhs r 0 f)
  else if Qltb (get (rhs f) r) INFTY
       then (q, changeRhs r INFTY f) else (q, f).

(** "set objective coefficients to zero and adjust bounds for problem
    variables": one pass of the loop over the columns. *)
Definition zeroObjBounds (colTypes : list RangeType) (c : nat)
  (st : LP.t * LP.t) : LP.t * LP.t :=
  let '(q, f) := st in
  let q := changeObj c 0 q in
  let f := changeObj c 0 f in
  let '(q, f) :=
    if _lowerFinite (ty colTypes c)
    then (changeLower c 0 q, changeLower c 0 f)
    else if Qltb (- INFTY) (get (lower f) c)
         then (q, changeLower c (- INFTY) f) else (q, f) in
  if _upperFinite (ty colTypes c)
  then (changeUpper c 0 q, changeUpper c 0 f)
  else if Qltb (get (upper f) c) INFTY
       then (q, changeUpper c INFTY f) else (q, f).

(** "recover objective function": one pass over the objective row. *)
Definition recoverObj (objRowVector : SVector) (i : nat) (st : LP.t * LP.t)
  : LP.t * LP.t :=
  let '(q, f) := st in
  match objRowVector !! i with
  | Some (j, x) => (changeMaxObj j x q, changeMaxObj j (toReal x) f)
  | None => (q, f)
  end.

(** "restore objective, sides and bounds": one pass over the rows, one
    over the columns. *)
Definition restoreSides (rowTypes : list RangeType) (uLhs uRhs : list Q)
  (r : nat) (st : LP.t * LP.t) : LP.t * LP.t :=
  let '(q, f) := st in
  let '(q, f) :=
    if _lowerFinite (ty rowTypes r)
    then (changeLhs r (get uLhs r) q, changeLhs r (toReal (get uLhs r)) f)
    else (q, f) in
  if _upperFinite (ty rowTypes r)
  then (changeRhs r (get uRhs r) q, changeRhs r (toReal (get uRhs r)) f)
  else (q, f).

Definition restoreBounds (colTypes : list RangeType) (uLower uUpper : list Q)
  (c : nat) (st : LP.t * LP.t) : LP.t * LP.t :=
  let '(q, f) := st in
  let '(q, f) :=
    if _lowerFinite (ty colTypes c)
    then (changeLower c (get uLower c) q, changeLower c (toReal (get uLower c)) f)
    else (q, f) in
  if _upperFinite (ty colTypes c)
  then (changeUpper c (get uUpper c) q, changeUpper c (toReal (get uUpper c)) f)
  else (q, f).

(** [_transformUnbounded()]. *)
Definition _transformUnbounded (d : Driver) : Driver :=
  let nc := numColsRational d in
  let nr := numRowsRational d in
  (* store bounds *)
  let uLower := storeFinite _lowerFinite (_colTypes d) (lower (_rationalLP d)) nc
                  (_unboundedLower d) in
  let uUpper := storeFinite _upperFinite (_colTypes d) (upper (_rationalLP d)) nc
                  (_unboundedUpper d) in
  (* store sides *)
  let uLhs := storeFinite _lowerFinite (_rowTypes d) (lhs (_rationalLP d)) nr
                (_unboundedLhs d) in
  let uRhs := storeFinite _upperFinite (_rowTypes d) (rhs (_rationalLP d)) nr
                (_unboundedRhs d) in
  let d := set_unbounded uLower uUpper uLhs uRhs d in
  (* make right-hand side zero *)
  let '(q, f) :=
    for_down nr (zeroSides (_rowTypes d)) (_rationalLP d, _realLP d) in
  (* transform objective function to constraint and add auxiliary variable *)
  let numOrigCols := nc in
  let obj := denseToSparse (maxObj q) ++ [(numOrigCols, -1)] in
  let q := addRow _rationalPosInfty 0 obj 0 q in
  let f := addRow INFTY 0 (toRealVector obj) 0 f in
  let rowTypes := _rowTypes d ++ [RANGETYPE_FIXED] in
  (* set objective coefficient and bounds for auxiliary variable *)
  let q := changeMaxObj numOrigCols 1 q in
  let f := changeMaxObj numOrigCols 1 f in
  let q := changeBounds numOrigCols _rationalNegInfty 1 q in
  let f := changeBounds numOrigCols (- INFTY) 1 f in
  let colTypes := _colTypes d ++ [RANGETYPE_UPPER] in
  (* set objective coefficients to zero and adjust bounds for problem variables *)
  let '(q, f) := for_down (nCols q - 1) (zeroObjBounds colTypes) (q, f) in
  let d := set_types colTypes rowTypes (set_LPs q f d) in
  (* adjust basis *)
  if _hasBasis d
  then clearLU (set_basis (_hasBasis d) (_basisStatusCols d ++ [ON_UPPER])
                  (_basisStatusRows d ++ [BASIC]) d)
  else d.

(** [_untransformUnbounded(sol, unbounded)].  [tau] and [alpha] are read
    once, before the vectors are divided. *)
Definition _untransformUnbounded (sol : Sol) (unbounded : bool) (d : Driver)
  : Sol * Driver :=
  let numOrigCols := (numColsRational d - 1)%nat in
  let numOrigRows := (numRowsRational d - 1)%nat in
  let tau := get (_primal sol) numOrigCols in
  (* adjust solution and basis *)
  let '(sol, d) :=
    if unbounded then
      let primal :=
        if Qeq_bool tau 1 then _primal sol
        else (fun x => x / tau) <$> _primal sol in
      (mkSol primal (_slacks sol) (_dual sol) (_redCost sol)
             (resize numOrigCols 0 primal) (_dualFarkas sol)
             false false true false,
       set_basis
         (bool_decide (default UNDEFINED (_basisStatusCols d !! numOrigCols) <> BASIC)
          && bool_decide (default UNDEFINED (_basisStatusRows d !! numOrigRows) = BASIC))
         (take numOrigCols (_basisStatusCols d))
         (take numOrigRows (_basisStatusRows d)) d)
    else if TESTDUALINF && Qltb tau _rationalFeastol then
      let alpha := get (_dual sol) numOrigRows in
      let '(dual, redCost) :=
        if Qeq_bool alpha (-1) then (_dual sol, _redCost sol)
        else ((fun x => x / - alpha) <$> _dual sol,
              (fun x => x / - alpha) <$> _redCost sol) in
      (mkSol (_primal sol) (_slacks sol)
             (resize numOrigRows 0 dual) (resize numOrigCols 0 redCost)
             (_primalRay sol) (_dualFarkas sol)
             false (_isDualFeasible sol) false false,
       d)
    else
      (invalidate sol,
       (* _basisStatusCols.reSize(numOrigCols); _basisStatusCols.reSize(numOrigRows); *)
       set_basis false
         (resize numOrigRows UNDEFINED (resize numOrigCols UNDEFINED (_basisStatusCols d)))
         (_basisStatusRows d) d) in
  (* recover objective function *)
  let objRowVector := default [] (rowVector (_rationalLP d) !! numOrigRows) in
  let '(q, f) :=
    for_down (length objRowVector) (recoverObj objRowVector)
      (_rationalLP d, _realLP d) in
  (* remove objective function constraint and auxiliary variable *)
  let q := removeColRange numOrigCols (removeRowRange numOrigRows q) in
  let f := removeColRange numOrigCols (removeRowRange numOrigRows f) in
  let rowTypes := take numOrigRows (_rowTypes d) in
  let colTypes := take numOrigCols (_colTypes d) in
  (* restore objective, sides and bounds *)
  let '(q, f) :=
    for_down (nRows q) (restoreSides rowTypes (_unboundedLhs d) (_unboundedRhs d))
      (q, f) in
  let '(q, f) :=
    for_down (nCols q)
      (restoreBounds colTypes (_unboundedLower d) (_unboundedUpper d)) (q, f) in
  (* invalidate rational basis factorization *)
  (sol, clearLU (set_types colTypes rowTypes (set_LPs q f d))).

(** ** The loops of the unboundedness transformation, field by field *)

Lemma alter_cond_true (p : Q -> bool) (v : Q) (l : list Q) (r : nat) :
  p (get l r) = true ->
  alter (fun x => if p x then v else x) r l = <[r := v]> l.
Proof.
  intros H. apply list_eq. intros i. destruct (decide (i = r)) as [->|Hne].
  - rewrite list_lookup_alter_eq. unfold get in H.
    destruct (l !! r) as [x|] eqn:E; rewrite ?E in H; cbn in *.
    + rewrite H. symmetry. apply list_lookup_insert_eq.
      apply lookup_lt_Some in E. exact E.
    + symmetry. rewrite list_insert_ge; [exact E|]. apply lookup_ge_None. exact E.
  - rewrite list_lookup_alter_ne by auto. rewrite list_lookup_insert_ne by auto.
    reflexivity.
Qed.

Lemma alter_cond_false (p : Q -> bool) (v : Q) (l : list Q) (r : nat) :
  p (get l r) = false ->
  alter (fun x => if p x then v else x) r l = l.
Proof.
  intros H. apply list_eq. intros i. destruct (decide (i = r)) as [->|Hne].
  - rewrite list_lookup_alter_eq. unfold get in H.
    destruct (l !! r) as [x|] eqn:E; rewrite ?E in H; cbn in *;
      [rewrite H|]; reflexivity.
  - apply list_lookup_alter_ne. auto.
Qed.

(** What the loops write into a cell of the rational and of the
    floating-point LP. *)
Definition zeroQ (finite : RangeType -> bool) (types : list RangeType)
  (i : nat) (x : Q) : Q :=
  if finite (ty types i) then 0 else x.
Definition zeroLowerF (types : list RangeType) (i : nat) (x : Q) : Q :=
  if _lowerFinite (ty types i) then 0
  else if Qltb (- INFTY) x then - INFTY else x.
Definition zeroUpperF (types : list RangeType) (i : nat) (x : Q) : Q :=
  if _upperFinite (ty types i) then 0
  else if Qltb x INFTY then INFTY else x.
Definition restoreQ (finite : RangeType -> bool) (types : list RangeType)
  (store : list Q) (i : nat) (x : Q) : Q :=
  if finite (ty types i) then get store i else x.
Definition restoreF (finite : RangeType -> bool) (types : list RangeType)
  (store : list Q) (i : nat) (x : Q) : Q :=
  if finite (ty types i) then toReal (get store i) else x.

(** [imap] restricted to the first [n] cells. *)
Definition upto {A : Type} (n : nat) (g : nat -> A -> A) (l : list A) : list A :=
  imap (fun i x => if decide (i < n)%nat then g i x else x) l.

Ltac loop_preserved F :=
  apply (for_down_preserved F); intros ? [? ?];
  unfold zeroSides, zeroObjBounds, restoreSides, restoreBounds, recoverObj;
  cbn; repeat (case_match; simplify_eq; cbn); reflexivity.

Ltac loop_altered F g :=
  apply (for_down_alter F g); intros ? [? ?] _;
  unfold zeroSides, zeroObjBounds, restoreSides, restoreBounds,
         zeroQ, zeroLowerF, zeroUpperF, restoreQ, restoreF;
  cbn; repeat (case_match; simplify_eq; cbn);
  first [ reflexivity
        | symmetry; apply list_alter_id; reflexivity
        | symmetry; apply alter_cond_true; assumption
        | symmetry; apply alter_cond_false; assumption
        | rewrite insert_as_alter; reflexivity ].

Lemma zeroSides_loop (rt : list RangeType) (n : nat) (q f : LP.t) :
  let res := for_down n (zeroSides rt) (q, f) in
  (lower res.1 = lower q /\ upper res.1 = upper q /\ maxObj res.1 = maxObj q /\
   rowVector res.1 = rowVector q /\ minimize res.1 = minimize q) /\
  (lower res.2 = lower f /\ upper res.2 = upper f /\ maxObj res.2 = maxObj f /\
   rowVector res.2 = rowVector f /\ minimize res.2 = minimize f) /\
  lhs res.1 = upto n (zeroQ _lowerFinite rt) (lhs q) /\
  rhs res.1 = upto n (zeroQ _upperFinite rt) (rhs q) /\
  lhs res.2 = upto n (zeroLowerF rt) (lhs f) /\
  rhs res.2 = upto n (zeroUpperF rt) (rhs f).
Proof.
  cbv zeta. repeat split.
  - loop_preserved (fun s : LP.t * LP.t => lower s.1).
  - loop_preserved (fun s : LP.t * LP.t => upper s.1).
  - loop_preserved (fun s : LP.t * LP.t => maxObj s.1).
  - loop_preserved (fun s : LP.t * LP.t => rowVector s.1).
  - loop_preserved (fun s : LP.t * LP.t => minimize s.1).
  - loop_preserved (fun s : LP.t * LP.t => lower s.2).
  - loop_preserved (fun s : LP.t * LP.t => upper s.2).
  - loop_preserved (fun s : LP.t * LP.t => maxObj s.2).
  - loop_preserved (fun s : LP.t * LP.t => rowVector s.2).
  - loop_preserved (fun s : LP.t * LP.t => minimize s.2).
  - loop_altered (fun s : LP.t * LP.t => lhs s.1) (zeroQ _lowerFinite rt).
  - loop_altered (fun s : LP.t * LP.t => rhs s.1) (zeroQ _upperFinite rt).
  - loop_altered (fun s : LP.t * LP.t => lhs s.2) (zeroLowerF rt).
  - loop_altered (fun s : LP.t * LP.t => rhs s.2) (zeroUpperF rt).
Qed.

Lemma zeroObjBounds_loop (ct : list RangeType) (n : nat) (q f : LP.t) :
  let res := for_down n (zeroObjBounds ct) (q, f) in
  (lhs res.1 = lhs q /\ rhs res.1 = rhs q /\
   rowVector res.1 = rowVector q /\ minimize res.1 = minimize q) /\
  (lhs res.2 = lhs f /\ rhs res.2 = rhs f /\
   rowVector res.2 = rowVector f /\ minimize res.2 = minimize f) /\
  maxObj res.1 = upto n (fun _ _ => 0) (maxObj q) /\
  maxObj res.2 = upto n (fun _ _ => 0) (maxObj f) /\
  lower res.1 = upto n (zeroQ _lowerFinite ct) (lower q) /\
  upper res.1 = upto n (zeroQ _upperFinite ct) (upper q) /\
  lower res.2 = upto n (zeroLowerF ct) (lower f) /\
  upper res.2 = upto n (zeroUpperF ct) (upper f).
Proof.
  cbv zeta. repeat split.
  - loop_preserved (fun s : LP.t * LP.t => lhs s.1).
  - loop_preserved (fun s : LP.t * LP.t => rhs s.1).
  - loop_preserved (fun s : LP.t * LP.t => rowVector s.1).
  - loop_preserved (fun s : LP.t * LP.t => minimize s.1).
  - loop_preserved (fun s : LP.t * LP.t => lhs s.2).
  - loop_preserved (fun s : LP.t * LP.t => rhs s.2).
  - loop_preserved (fun s : LP.t * LP.t => rowVector s.2).
  - loop_preserved (fun s : LP.t * LP.t => minimize s.2).
  - loop_altered (fun s : LP.t * LP.t => maxObj s.1) (fun (_ : nat) (_ : Q) => 0).
  - loop_altered (fun s : LP.t * LP.t => maxObj s.2) (fun (_ : nat) (_ : Q) => 0).
  - loop_altered (fun s : LP.t * LP.t => lower s.1) (zeroQ _lowerFinite ct).
  - loop_altered (fun s : LP.t * LP.t => upper s.1) (zeroQ _upperFinite ct).
  - loop_altered (fun s : LP.t * LP.t => lower s.2) (zeroLowerF ct).
  - loop_altered (fun s : LP.t * LP.t => upper s.2) (zeroUpperF ct).
Qed.

Lemma restoreSides_loop (rt : list RangeType) (uL uR : list Q) (n : nat)
  (q f : LP.t) :
  let res := for_down n (restoreSides rt uL uR) (q, f) in
  (lower res.1 = lower q /\ upper res.1 = upper q /\ maxObj res.1 = maxObj q /\
   rowVector res.1 = rowVector q /\ minimize res.1 = minimize q) /\
  (lower res.2 = lower f /\ upper res.2 = upper f /\ maxObj res.2 = maxObj f /\
   rowVector res.2 = rowVector f /\ minimize res.2 = minimize f) /\
  lhs res.1 = upto n (restoreQ _lowerFinite rt uL) (lhs q) /\
  rhs res.1 = upto n (restoreQ _upperFinite rt uR) (rhs q) /\
  lhs res.2 = upto n (restoreF _lowerFinite rt uL) (lhs f) /\
  rhs res.2 = upto n (restoreF _upperFinite rt uR) (rhs f).
Proof.
  cbv zeta. repeat split.
  - loop_preserved (fun s : LP.t * LP.t => lower s.1).
  - loop_preserved (fun s : LP.t * LP.t => upper s.1).
  - loop_preserved (fun s : LP.t * LP.t => maxObj s.1).
  - loop_preserved (fun s : LP.t * LP.t => rowVector s.1).
  - loop_preserved (fun s : LP.t * LP.t => minimize s.1).
  - loop_preserved (fun s : LP.t * LP.t => lower s.2).
  - loop_preserved (fun s : LP.t * LP.t => upper s.2).
  - loop_preserved (fun s : LP.t * LP.t => maxObj s.2).
  - loop_preserved (fun s : LP.t * LP.t => rowVector s.2).
  - loop_preserved (fun s : LP.t * LP.t => minimize s.2).
  - loop_altered (fun s : LP.t * LP.t => lhs s.1) (restoreQ _lowerFinite rt uL).
  - loop_altered (fun s : LP.t * LP.t => rhs s.1) (restoreQ _upperFinite rt uR).
  - loop_altered (fun s : LP.t * LP.t => lhs s.2) (restoreF _lowerFinite rt uL).
  - loop_altered (fun s : LP.t * LP.t => rhs s.2) (restoreF _upperFinite rt uR).
Qed.

Lemma restoreBounds_loop (ct : list RangeType) (uL uU : list Q) (n : nat)
  (q f : LP.t) :
  let res := for_down n (restoreBounds ct uL uU) (q, f) in
  (lhs res.1 = lhs q /\ rhs res.1 = rhs q /\ maxObj res.1 = maxObj q /\
   rowVector res.1 = rowVector q /\ minimize res.1 = minimize q) /\
  (lhs res.2 = lhs f /\ rhs res.2 = rhs f /\ maxObj res.2 = maxObj f /\
   rowVector res.2 = rowVector f /\ minimize res.2 = minimize f) /\
  lower res.1 = upto n (restoreQ _lowerFinite ct uL) (lower q) /\
  upper res.1 = upto n (restoreQ _upperFinite ct uU) (upper q) /\
  lower res.2 = upto n (restoreF _lowerFinite ct uL) (lower f) /\
  upper res.2 = upto n (restoreF _upperFinite ct uU) (upper f).
Proof.
  cbv zeta. repeat split.
  - loop_preserved (fun s : LP.t * LP.t => lhs s.1).
  - loop_preserved (fun s : LP.t * LP.t => rhs s.1).
  - loop_preserved (fun s : LP.t * LP.t => maxObj s.1).
  - loop_preserved (fun s : LP.t * LP.t => rowVector s.1).
  - loop_preserved (fun s : LP.t * LP.t => minimize s.1).
  - loop_preserved (fun s : LP.t * LP.t => lhs s.2).
  - loop_preserved (fun s : LP.t * LP.t => rhs s.2).
  - loop_preserved (fun s : LP.t * LP.t => maxObj s.2).
  - loop_preserved (fun s : LP.t * LP.t => rowVector s.2).
  - loop_preserved (fun s : LP.t * LP.t => minimize s.2).
  - loop_altered (fun s : LP.t * LP.t => lower s.1) (restoreQ _lowerFinite ct uL).
  - loop_altered (fun s : LP.t * LP.t => upper s.1) (restoreQ _upperFinite ct uU).
  - loop_altered (fun s : LP.t * LP.t => lower s.2) (restoreF _lowerFinite ct uL).
  - loop_altered (fun s : LP.t * LP.t => upper s.2) (restoreF _upperFinite ct uU).
Qed.

(** *** The objective row *)

(** Writing the elements of a sparse vector into a dense one. *)
Definition scatter (h : Q -> Q) (l : list Q) (es : SVector) : list Q :=
  foldl (fun l e => <[fst e := h (snd e)]> l) l es.

Lemma scatter_cons (h : Q -> Q) (l : list Q) (e : nat * Q) (es : SVector) :
  scatter h l (e :: es) = scatter h (<[fst e := h (snd e)]> l) es.
Proof. reflexivity. Qed.

Lemma scatter_length (h : Q -> Q) (es : SVector) (l : list Q) :
  length (scatter h l es) = length l.
Proof.
  revert l. induction es as [|e es IH]; intros l; [reflexivity|].
  rewrite scatter_cons, IH. apply length_insert.
Qed.

Lemma scatter_lookup_notin (h : Q -> Q) (es : SVector) (l : list Q) (c : nat) :
  c ∉ (fst <$> es) -> scatter h l es !! c = l !! c.
Proof.
  revert l. induction es as [|[j x] es IH]; intros l Hc; [reflexivity|].
  rewrite fmap_cons, not_elem_of_cons in Hc. destruct Hc as [Hne Hc].
  rewrite scatter_cons, IH by exact Hc. apply list_lookup_insert_ne. auto.
Qed.

Lemma scatter_lookup_in (h : Q -> Q) (es : SVector) (l : list Q) (c : nat) (x : Q) :
  NoDup (fst <$> es) -> (c, x) ∈ es -> (c < length l)%nat ->
  scatter h l es !! c = Some (h x).
Proof.
  revert l. induction es as [|[j y] es IH]; intros l Hnd Hin Hlen.
  - apply elem_of_nil in Hin. contradiction.
  - rewrite fmap_cons in Hnd. apply NoDup_cons in Hnd as [Hj Hnd].
    rewrite scatter_cons.
    apply elem_of_cons in Hin as [Heq|Hin].
    + injection Heq as -> ->.
      rewrite scatter_lookup_notin by exact Hj.
      apply list_lookup_insert_eq. exact Hlen.
    + apply IH; [exact Hnd | exact Hin | rewrite length_insert; exact Hlen].
Qed.

Lemma foldl_ext_elem {A B : Type} (f g : A -> B -> A) (l : list B) (a : A) :
  (forall a x, x ∈ l -> f a x = g a x) -> foldl f a l = foldl g a l.
Proof.
  revert a. induction l as [|x l IH]; intros a H; [reflexivity|].
  cbn. rewrite H by apply list_elem_of_here. apply IH.
  intros a' y Hy. apply H. apply list_elem_of_further. exact Hy.
Qed.

Lemma recoverObj_fold (obj : SVector) (q f : LP.t) :
  let res := for_down (length obj) (recoverObj obj) (q, f) in
  maxObj res.1 = scatter (fun x => x) (maxObj q) (reverse obj) /\
  maxObj res.2 = scatter toReal (maxObj f) (reverse obj).
Proof.
  cbv zeta. revert q f. induction obj as [|e obj IH] using rev_ind; intros q f.
  - split; reflexivity.
  - rewrite length_app, Nat.add_1_r, for_down_S.
    rewrite reverse_app. change (reverse [e]) with [e].
    change ([e] ++ reverse obj) with (e :: reverse obj). rewrite !scatter_cons.
    assert (Hstep : recoverObj (obj ++ [e]) (length obj) (q, f) =
                    (changeMaxObj (fst e) (snd e) q,
                     changeMaxObj (fst e) (toReal (snd e)) f)).
    { unfold recoverObj. rewrite lookup_app_r by lia.
      rewrite Nat.sub_diag. cbn. destruct e. reflexivity. }
    rewrite Hstep.
    assert (Hext : forall st,
      for_down (length obj) (recoverObj (obj ++ [e])) st =
      for_down (length obj) (recoverObj obj) st).
    { intros st. unfold for_down. apply foldl_ext_elem.
      intros st' i Hi. apply elem_of_reverse, elem_of_seq in Hi.
      destruct st' as [q' f']. unfold recoverObj.
      rewrite lookup_app_l by lia. reflexivity. }
    rewrite Hext. destruct (IH (changeMaxObj (fst e) (snd e) q)
                               (changeMaxObj (fst e) (toReal (snd e)) f)) as [H1 H2].
    rewrite H1, H2. split; reflexivity.
Qed.

Lemma recoverObj_preserved (obj : SVector) (n : nat) (q f : LP.t) :
  let res := for_down n (recoverObj obj) (q, f) in
  (lower res.1 = lower q /\ upper res.1 = upper q /\ lhs res.1 = lhs q /\
   rhs res.1 = rhs q /\ rowVector res.1 = rowVector q /\
   minimize res.1 = minimize q) /\
  (lower res.2 = lower f /\ upper res.2 = upper f /\ lhs res.2 = lhs f /\
   rhs res.2 = rhs f /\ rowVector res.2 = rowVector f /\
   minimize res.2 = minimize f).
Proof.
  cbv zeta. repeat split.
  - loop_preserved (fun s : LP.t * LP.t => lower s.1).
  - loop_preserved (fun s : LP.t * LP.t => upper s.1).
  - loop_preserved (fun s : LP.t * LP.t => lhs s.1).
  - loop_preserved (fun s : LP.t * LP.t => rhs s.1).
  - loop_preserved (fun s : LP.t * LP.t => rowVector s.1).
  - loop_preserved (fun s : LP.t * LP.t => minimize s.1).
  - loop_preserved (fun s : LP.t * LP.t => lower s.2).
  - loop_preserved (fun s : LP.t * LP.t => upper s.2).
  - loop_preserved (fun s : LP.t * LP.t => lhs s.2).
  - loop_preserved (fun s : LP.t * LP.t => rhs s.2).
  - loop_preserved (fun s : LP.t * LP.t => rowVector s.2).
  - loop_preserved (fun s : LP.t * LP.t => minimize s.2).
Qed.

(** The nonzeros of a dense vector. *)
Lemma denseToSparseFrom_elem (v : list Q) (i c : nat) (x : Q) :
  (c, x) ∈ denseToSparseFrom i v <->
  exists k, c = (i + k)%nat /\ v !! k = Some x /\ Qeq_bool x 0 = false.
Proof.
  revert i. induction v as [|y v IH]; intros i; cbn.
  - split; [intros H; apply elem_of_nil in H; contradiction|].
    intros (k & _ & H & _). discriminate.
  - destruct (Qeq_bool y 0) eqn:E.
    + rewrite IH. split.
      * intros (k & -> & Hk & Hx). exists (S k). split; [lia|]. split; assumption.
      * intros ([|k] & -> & Hk & Hx); cbn in Hk.
        -- injection Hk as ->. congruence.
        -- exists k. split; [lia|]. split; assumption.
    + rewrite elem_of_cons, IH. split.
      * intros [Heq|(k & -> & Hk & Hx)].
        -- injection Heq as -> ->. exists 0%nat. split; [lia|]. split; [reflexivity|exact E].
        -- exists (S k). split; [lia|]. split; assumption.
      * intros ([|k] & -> & Hk & Hx); cbn in Hk.
        -- injection Hk as ->. left. f_equal. lia.
        -- right. exists k. split; [lia|]. split; assumption.
Qed.

Lemma denseToSparseFrom_keys (v : list Q) (i c : nat) :
  c ∈ (fst <$> denseToSparseFrom i v) -> (i <= c < i + length v)%nat.
Proof.
  intros H. apply list_elem_of_fmap in H as ([c' x] & -> & H).
  apply denseToSparseFrom_elem in H as (k & -> & Hk & _).
  apply lookup_lt_Some in Hk. cbn. lia.
Qed.

Lemma denseToSparseFrom_NoDup (v : list Q) (i : nat) :
  NoDup (fst <$> denseToSparseFrom i v).
Proof.
  revert i. induction v as [|y v IH]; intros i; cbn; [constructor|].
  destruct (Qeq_bool y 0); [apply IH|].
  rewrite fmap_cons. apply NoDup_cons. split; [|apply IH].
  intros H. apply denseToSparseFrom_keys in H. cbn in H. lia.
Qed.

Lemma svDim_bound (es : SVector) (n : nat) :
  (forall e, e ∈ es -> (fst e < n)%nat) -> (svDim es <= n)%nat.
Proof.
  induction es as [|e es IH]; intros H; cbn; [lia|].
  pose proof (H e (list_elem_of_here _ _)).
  assert (svDim es <= n)%nat.
  { apply IH. intros e' He'. apply H. apply list_elem_of_further. exact He'. }
  unfold svDim in *. lia.
Qed.

Lemma svDim_app_last (es : SVector) (n : nat) (x : Q) :
  (forall e, e ∈ es -> (fst e < n)%nat) -> svDim (es ++ [(n, x)]) = S n.
Proof.
  induction es as [|e es IH]; intros H; cbn; [lia|].
  pose proof (H e (list_elem_of_here _ _)).
  unfold svDim in IH. rewrite IH; [lia|].
  intros e' He'. apply H. apply list_elem_of_further. exact He'.
Qed.

Lemma denseToSparse_keys (v : list Q) (e : nat * Q) :
  e ∈ denseToSparse v -> (fst e < length v)%nat.
Proof.
  intros H. assert (Hk : fst e ∈ (fst <$> denseToSparse v)).
  { apply list_elem_of_fmap. exists e. split; [reflexivity | exact H]. }
  apply denseToSparseFrom_keys in Hk. lia.
Qed.

(** Well-formed LP: the arrays have the dimensions of the LP and the rows
    mention existing columns only. *)
Definition wfLP (lp : LP.t) : Prop :=
  length (upper lp) = nCols lp /\ length (maxObj lp) = nCols lp /\
  length (rhs lp) = nRows lp /\ length (rowVector lp) = nRows lp /\
  Forall (fun row : SVector => Forall (fun e => (fst e < nCols lp)%nat) row)
         (rowVector lp).

(** The objective row that [_transformUnbounded] appends. *)
Definition objRow (d : Driver) : SVector :=
  denseToSparse (maxObj (_rationalLP d)) ++ [(numColsRational d, -1)].

Lemma transformUnbounded_shape (d : Driver) :
  length (maxObj (_rationalLP d)) = nCols (_rationalLP d) ->
  nCols (_realLP d) = nCols (_rationalLP d) ->
  let q0 := _rationalLP d in
  let f0 := _realLP d in
  let nc := nCols q0 in
  let nr := nRows q0 in
  let ct := _colTypes d ++ [RANGETYPE_UPPER] in
  let d1 := _transformUnbounded d in
  (_colTypes d1 = ct /\ _rowTypes d1 = _rowTypes d ++ [RANGETYPE_FIXED] /\
   _unboundedLower d1 =
     storeFinite _lowerFinite (_colTypes d) (lower q0) nc (_unboundedLower d) /\
   _unboundedUpper d1 =
     storeFinite _upperFinite (_colTypes d) (upper q0) nc (_unboundedUpper d) /\
   _unboundedLhs d1 =
     storeFinite _lowerFinite (_rowTypes d) (lhs q0) nr (_unboundedLhs d) /\
   _unboundedRhs d1 =
     storeFinite _upperFinite (_rowTypes d) (rhs q0) nr (_unboundedRhs d)) /\
  (lower (_rationalLP d1) =
     upto nc (zeroQ _lowerFinite ct) (<[nc := _rationalNegInfty]> (lower q0 ++ [0])) /\
   upper (_rationalLP d1) =
     upto nc (zeroQ _upperFinite ct) (<[nc := 1]> (upper q0 ++ [_rationalPosInfty])) /\
   maxObj (_rationalLP d1) =
     upto nc (fun _ _ => 0) (<[nc := 1]> (maxObj q0 ++ [0])) /\
   lhs (_rationalLP d1) = upto nr (zeroQ _lowerFinite (_rowTypes d)) (lhs q0) ++ [0] /\
   rhs (_rationalLP d1) = upto nr (zeroQ _upperFinite (_rowTypes d)) (rhs q0) ++ [0] /\
   rowVector (_rationalLP d1) = rowVector q0 ++ [objRow d] /\
   minimize (_rationalLP d1) = minimize q0) /\
  (lower (_realLP d1) =
     upto nc (zeroLowerF ct) (<[nc := - INFTY]> (lower f0 ++ [0])) /\
   upper (_realLP d1) =
     upto nc (zeroUpperF ct) (<[nc := 1]> (upper f0 ++ [INFTY])) /\
   maxObj (_realLP d1) =
     upto nc (fun _ _ => 0) (<[nc := 1]> (maxObj f0 ++ [0])) /\
   lhs (_realLP d1) = upto nr (zeroLowerF (_rowTypes d)) (lhs f0) ++ [0] /\
   rhs (_realLP d1) = upto nr (zeroUpperF (_rowTypes d)) (rhs f0) ++ [0] /\
   rowVector (_realLP d1) = rowVector f0 ++ [toRealVector (objRow d)] /\
   minimize (_realLP d1) = minimize f0).
Proof.
  intros Hm Hf. cbv zeta. unfold _transformUnbounded, objRow.
  unfold numColsRational, numRowsRational.
  cbn [_rationalLP _realLP _rowTypes _colTypes set_unbounded].
  remember (_rationalLP d) as q0 eqn:Eq0.
  remember (_realLP d) as f0 eqn:Ef0.
  remember (nCols q0) as nc eqn:Enc.
  remember (nRows q0) as nr eqn:Enr.
  pose proof (zeroSides_loop (_rowTypes d) nr q0 f0) as HB. cbv zeta in HB.
  destruct (for_down nr (zeroSides (_rowTypes d)) (q0, f0)) as [qB fB].
  cbn [fst snd] in HB.
  destruct HB as ((HBl & HBu & HBm & HBr & HBn) & (HFl & HFu & HFm & HFr & HFn)
                  & HBlhs & HBrhs & HFlhs & HFrhs).
  assert (Hdim : svDim (denseToSparse (maxObj qB) ++ [(nc, -1)]) = S nc).
  { apply svDim_app_last. intros e He. apply denseToSparse_keys in He.
    rewrite HBm, Hm in He. exact He. }
  assert (HdimF : svDim (toRealVector (denseToSparse (maxObj qB) ++ [(nc, -1)])) = S nc).
  { rewrite <- Hdim. unfold toRealVector, svDim.
    generalize (denseToSparse (maxObj qB) ++ [(nc, -1)]).
    intros l. induction l as [|e l IH]; cbn; [reflexivity|]. rewrite IH. reflexivity. }
  assert (HncB : nCols qB = nc) by (unfold nCols; rewrite HBl; symmetry; exact Enc).
  assert (HncF : nCols fB = nc) by (unfold nCols; rewrite HFl; exact Hf).
  match goal with
  | |- context [for_down ?n (zeroObjBounds ?c) (?q, ?f)] =>
      pose proof (zeroObjBounds_loop c n q f) as HC; cbv zeta in HC;
      destruct (for_down n (zeroObjBounds c) (q, f)) as [qC fC];
      assert (Hn : n = nc)
  end.
  { unfold nCols, changeBounds, changeMaxObj, addRow. cbn.
    rewrite !length_insert, length_app, length_replicate.
    rewrite ?Hdim, ?HncB. cbn. rewrite ?HBl, <- ?Enc.
    pose proof Enc as Enc'. unfold nCols in Enc'. rewrite <- Enc'. lia. }
  rewrite Hn in HC. cbn [fst snd] in HC.
  destruct HC as ((HClhs & HCrhs & HCr & HCn) & (HDlhs & HDrhs & HDr & HDn)
                  & HCm & HDm & HCl & HCu & HDl & HDu).
  unfold changeBounds, changeUpper, changeLower, changeMaxObj, addRow in *.
  cbn [lower upper maxObj lhs rhs rowVector minimize] in *.
  rewrite Hdim, HdimF, HncB, HncF in *.
  replace (S nc - nc)%nat with 1%nat in * by lia.
  cbn [replicate] in *.
  unfold nCols in HncB, HncF.
  rewrite HBl, HBu, HBm, HBlhs, HBrhs, HBr, HBn in *.
  rewrite HFl, HFu, HFm, HFlhs, HFrhs, HFr, HFn in *.
  destruct (_hasBasis _);
    cbn [_rationalLP _realLP _rowTypes _colTypes _unboundedLower _unboundedUpper
         _unboundedLhs _unboundedRhs clearLU set_basis set_types set_LPs set_unbounded];
    repeat split; assumption || reflexivity.
Qed.

Lemma untransformUnbounded_shape (sol : Sol) (unbounded : bool) (d1 : Driver) :
  let q1 := _rationalLP d1 in
  let f1 := _realLP d1 in
  let nc := (nCols q1 - 1)%nat in
  let nr := (nRows q1 - 1)%nat in
  let obj := default [] (rowVector q1 !! nr) in
  let ct := take nc (_colTypes d1) in
  let rt := take nr (_rowTypes d1) in
  let d2 := (_untransformUnbounded sol unbounded d1).2 in
  (_colTypes d2 = ct /\ _rowTypes d2 = rt) /\
  (lower (_rationalLP d2) =
     upto (length (take nc (lower q1)))
       (restoreQ _lowerFinite ct (_unboundedLower d1)) (take nc (lower q1)) /\
   upper (_rationalLP d2) =
     upto (length (take nc (lower q1)))
       (restoreQ _upperFinite ct (_unboundedUpper d1)) (take nc (upper q1)) /\
   maxObj (_rationalLP d2) =
     take nc (scatter (fun x => x) (maxObj q1) (reverse obj)) /\
   lhs (_rationalLP d2) =
     upto (length (take nr (lhs q1)))
       (restoreQ _lowerFinite rt (_unboundedLhs d1)) (take nr (lhs q1)) /\
   rhs (_rationalLP d2) =
     upto (length (take nr (lhs q1)))
       (restoreQ _upperFinite rt (_unboundedRhs d1)) (take nr (rhs q1)) /\
   rowVector (_rationalLP d2) =
     (filter (fun e => (fst e < nc)%nat) <$> take nr (rowVector q1)) /\
   minimize (_rationalLP d2) = minimize q1) /\
  (lower (_realLP d2) =
     upto (length (take nc (lower q1)))
       (restoreF _lowerFinite ct (_unboundedLower d1)) (take nc (lower f1)) /\
   upper (_realLP d2) =
     upto (length (take nc (lower q1)))
       (restoreF _upperFinite ct (_unboundedUpper d1)) (take nc (upper f1)) /\
   maxObj (_realLP d2) =
     take nc (scatter toReal (maxObj f1) (reverse obj)) /\
   lhs (_realLP d2) =
     upto (length (take nr (lhs q1)))
       (restoreF _lowerFinite rt (_unboundedLhs d1)) (take nr (lhs f1)) /\
   rhs (_realLP d2) =
     upto (length (take nr (lhs q1)))
       (restoreF _upperFinite rt (_unboundedRhs d1)) (take nr (rhs f1)) /\
   rowVector (_realLP d2) =
     (filter (fun e => (fst e < nc)%nat) <$> take nr (rowVector f1)) /\
   minimize (_realLP d2) = minimize f1).
Proof.
  cbv zeta. unfold _untransformUnbounded, numColsRational, numRowsRational.
  match goal with
  | |- context [let '(s, d) := ?e in _] =>
      assert (Hsame : _rationalLP e.2 = _rationalLP d1 /\ _realLP e.2 = _realLP d1 /\
                      _colTypes e.2 = _colTypes d1 /\ _rowTypes e.2 = _rowTypes d1 /\
                      _unboundedLower e.2 = _unboundedLower d1 /\
                      _unboundedUpper e.2 = _unboundedUpper d1 /\
                      _unboundedLhs e.2 = _unboundedLhs d1 /\
                      _unboundedRhs e.2 = _unboundedRhs d1);
      [|destruct e as [sol' d']]
  end.
  { destruct unbounded; [cbn; repeat split|].
    destruct (TESTDUALINF && _); [|cbn; repeat split].
    destruct (if Qeq_bool _ _ then _ else _). cbn. repeat split. }
  cbn [fst snd] in Hsame.
  destruct Hsame as (-> & -> & -> & -> & -> & -> & -> & ->).
  remember (_rationalLP d1) as q1 eqn:Eq1.
  remember (_realLP d1) as f1 eqn:Ef1.
  set (obj := default [] (rowVector q1 !! (nRows q1 - 1)%nat)).
  pose proof (recoverObj_fold obj q1 f1) as HR1.
  pose proof (recoverObj_preserved obj (length obj) q1 f1) as HR2.
  cbv zeta in HR1, HR2.
  destruct (for_down (length obj) (recoverObj obj) (q1, f1)) as [qR fR].
  cbn [fst snd] in HR1, HR2.
  destruct HR1 as [HRm HRmf].
  destruct HR2 as ((HRl & HRu & HRlhs & HRrhs & HRr & HRn)
                   & (HFl & HFu & HFlhs & HFrhs & HFr & HFn)).
  match goal with
  | |- context [for_down ?n (restoreSides ?rt ?a ?b) (?q, ?f)] =>
      pose proof (restoreSides_loop rt a b n q f) as HS; cbv zeta in HS;
      destruct (for_down n (restoreSides rt a b) (q, f)) as [qS fS]
  end.
  cbn [fst snd] in HS.
  destruct HS as ((HSl & HSu & HSm & HSr & HSn) & (HTl & HTu & HTm & HTr & HTn)
                  & HSlhs & HSrhs & HTlhs & HTrhs).
  match goal with
  | |- context [for_down ?n (restoreBounds ?ct ?a ?b) (?q, ?f)] =>
      pose proof (restoreBounds_loop ct a b n q f) as HB; cbv zeta in HB;
      destruct (for_down n (restoreBounds ct a b) (q, f)) as [qB fB]
  end.
  cbn [fst snd] in HB.
  destruct HB as ((HBlhs & HBrhs & HBm & HBr & HBn) & (HClhs & HCrhs & HCm & HCr & HCn)
                  & HBl & HBu & HCl & HCu).
  cbn [snd _rationalLP _realLP _rowTypes _colTypes clearLU set_types set_LPs].
  unfold nRows, nCols, removeColRange, removeRowRange in *.
  cbn [lower upper maxObj lhs rhs rowVector minimize] in *.
  repeat split;
    rewrite ?HBlhs, ?HBrhs, ?HBm, ?HBr, ?HBn, ?HClhs, ?HCrhs, ?HCm, ?HCr, ?HCn,
            ?HBl, ?HBu, ?HCl, ?HCu;
    rewrite ?HSl, ?HSu, ?HSm, ?HSr, ?HSn, ?HTl, ?HTu, ?HTm, ?HTr, ?HTn,
            ?HSlhs, ?HSrhs, ?HTlhs, ?HTrhs;
    rewrite ?HRl, ?HRu, ?HRlhs, ?HRrhs, ?HRr, ?HRn, ?HRm, ?HRmf,
            ?HFl, ?HFu, ?HFlhs, ?HFrhs, ?HFr, ?HFn;
    reflexivity.
Qed.

(** *** Round trip of one array *)

Lemma ty_app (types : list RangeType) (extra : list RangeType) (c : nat) :
  (c < length types)%nat -> ty (types ++ extra) c = ty types c.
Proof. intros H. unfold ty. rewrite lookup_app_l by exact H. reflexivity. Qed.

Lemma upto_lookup {A : Type} (n : nat) (g : nat -> A -> A) (l : list A) (c : nat) :
  upto n g l !! c = (fun x => if decide (c < n)%nat then g c x else x) <$> l !! c.
Proof. unfold upto. apply list_lookup_imap. Qed.

Lemma upto_length {A : Type} (n : nat) (g : nat -> A -> A) (l : list A) :
  length (upto n g l) = length l.
Proof. unfold upto. apply length_imap. Qed.

Lemma roundtrip_gen (zero restore : nat -> Q -> Q) (n : nat) (l0 L1 : list Q) :
  length l0 = n ->
  (forall c x, l0 !! c = Some x -> L1 !! c = Some (zero c x)) ->
  upto n restore (take n L1) = imap (fun c x => restore c (zero c x)) l0.
Proof.
  intros Hlen HL1.
  apply list_eq. intros c. rewrite upto_lookup, list_lookup_imap.
  destruct (decide (c < n)%nat) as [Hc|Hc].
  - rewrite lookup_take_lt by exact Hc.
    destruct (l0 !! c) as [x|] eqn:E.
    + rewrite (HL1 c x E). reflexivity.
    + apply lookup_ge_None in E. lia.
  - rewrite lookup_take_ge by lia.
    rewrite (proj2 (lookup_ge_None l0 c)) by lia. reflexivity.
Qed.

Lemma storeFinite_spec (finite : RangeType -> bool) (types : list RangeType)
  (values store : list Q) (n c : nat) :
  (c < n)%nat -> finite (ty types c) = true ->
  get (storeFinite finite types values n store) c = get values c.
Proof.
  intros Hc Hfin. unfold storeFinite.
  pose proof (for_down_alter (fun s : list Q => s)
                (fun i x => if finite (ty types i) then get values i else x) n
                (fun c st => if finite (ty types c) then <[c := get values c]> st else st)
                (resize n 0 store)) as H.
  cbv beta in H. rewrite H.
  - unfold get. rewrite list_lookup_imap.
    destruct (resize n 0 store !! c) as [x|] eqn:E.
    + cbn. destruct (decide (c < n)%nat); [|lia]. rewrite Hfin. reflexivity.
    + apply lookup_ge_None in E. rewrite length_resize in E. lia.
  - intros i s _. destruct (finite (ty types i)).
    + apply insert_as_alter.
    + symmetry. apply list_alter_id. reflexivity.
Qed.

(** The cells of the transformed arrays below the auxiliary one. *)
Lemma zeroed_bounds_lookup (zero : list RangeType -> nat -> Q -> Q)
  (types : list RangeType) (t' : RangeType) (l0 : list Q) (v w : Q) (n : nat) :
  length l0 = n -> length types = n ->
  (forall c x, (c < n)%nat -> zero (types ++ [t']) c x = zero types c x) ->
  forall c x, l0 !! c = Some x ->
    upto n (zero (types ++ [t'])) (<[n := v]> (l0 ++ [w])) !! c =
    Some (zero types c x).
Proof.
  intros Hl Ht Hz c x Hx.
  assert (Hc : (c < n)%nat) by (apply lookup_lt_Some in Hx; lia).
  rewrite upto_lookup, list_lookup_insert_ne by lia.
  rewrite lookup_app_l by lia. rewrite Hx. cbn.
  destruct (decide (c < n)%nat); [|lia]. rewrite Hz by exact Hc. reflexivity.
Qed.

Lemma zeroed_sides_lookup (zero : nat -> Q -> Q) (l0 : list Q) (w : Q) (n : nat) :
  length l0 = n ->
  forall c x, l0 !! c = Some x ->
    (upto n zero l0 ++ [w]) !! c = Some (zero c x).
Proof.
  intros Hl c x Hx.
  assert (Hc : (c < n)%nat) by (apply lookup_lt_Some in Hx; lia).
  rewrite lookup_app_l by (rewrite upto_length; lia).
  rewrite upto_lookup, Hx. cbn.
  destruct (decide (c < n)%nat); [reflexivity | lia].
Qed.

Lemma imap_restore_id (finite : RangeType -> bool) (types : list RangeType)
  (store l0 : list Q) :
  (forall c, (c < length l0)%nat -> finite (ty types c) = true ->
     get store c = get l0 c) ->
  imap (fun c x => restoreQ finite types store c (zeroQ finite types c x)) l0 = l0.
Proof.
  intros H. apply list_eq. intros c. rewrite list_lookup_imap.
  destruct (l0 !! c) as [x|] eqn:E; [|reflexivity]. cbn. f_equal.
  unfold restoreQ, zeroQ. destruct (finite (ty types c)) eqn:F; [|reflexivity].
  rewrite H; [|apply lookup_lt_Some in E; exact E | exact F].
  unfold get. rewrite E. reflexivity.
Qed.

Lemma storeFinite_length (finite : RangeType -> bool) (types : list RangeType)
  (values store : list Q) (n : nat) :
  length (storeFinite finite types values n store) = n.
Proof.
  unfold storeFinite.
  rewrite (for_down_preserved (fun s : list Q => length s)).
  - apply length_resize.
  - intros i s. destruct (finite (ty types i)); [apply length_insert | reflexivity].
Qed.

Lemma filter_all {A : Type} (P : A -> Prop) `{!forall x, Decision (P x)} (l : list A) :
  Forall P l -> filter P l = l.
Proof.
  induction 1 as [|x l Hx _ IH]; [reflexivity|].
  rewrite filter_cons_True by exact Hx. rewrite IH. reflexivity.
Qed.

(** The rows of the original LP come back once the objective row and the
    auxiliary column are gone. *)
Lemma rows_roundtrip (rows : list SVector) (aux : SVector) (nc nr : nat) :
  length rows = nr ->
  Forall (fun row : SVector => Forall (fun e => (fst e < nc)%nat) row) rows ->
  (filter (fun e : nat * Q => (fst e < nc)%nat) <$> take nr (rows ++ [aux])) = rows.
Proof.
  intros Hlen Hrows. rewrite take_app_length' by (symmetry; exact Hlen).
  induction Hrows as [|row rows Hrow _ IH] in nr, Hlen |- *; [reflexivity|].
  rewrite fmap_cons. rewrite (filter_all _ row Hrow).
  f_equal. apply (IH (length rows)). reflexivity.
Qed.

(** What is read back from the objective row: the nonzero coefficients;
    a zero coefficient comes back as the literal [0]. *)
Definition recoveredObj (h : Q -> Q) (m : Q) : Q :=
  if Qeq_bool m 0 then 0 else h m.

Lemma objective_roundtrip (h : Q -> Q) (m0 base : list Q) (nc : nat) :
  length m0 = nc -> length base = S nc ->
  (forall c, (c < nc)%nat -> base !! c = Some 0) ->
  take nc (scatter h base (reverse (denseToSparse m0 ++ [(nc, -1)]))) =
  recoveredObj h <$> m0.
Proof.
  intros Hm Hb Hz. apply list_eq. intros c. rewrite list_lookup_fmap.
  destruct (decide (c < nc)%nat) as [Hc|Hc].
  2:{ rewrite lookup_take_ge by lia.
      rewrite (proj2 (lookup_ge_None m0 c)) by lia. reflexivity. }
  rewrite lookup_take_lt by exact Hc.
  destruct (m0 !! c) as [m|] eqn:E; [|apply lookup_ge_None in E; lia].
  cbn. unfold recoveredObj. destruct (Qeq_bool m 0) eqn:Em.
  - rewrite scatter_lookup_notin; [apply Hz; exact Hc|].
    rewrite fmap_reverse, elem_of_reverse, fmap_app, elem_of_app.
    intros [H|H].
    + apply list_elem_of_fmap in H as ([c' x] & Hc' & H). cbn in Hc'. subst c'.
      apply denseToSparseFrom_elem in H as (k & Hk & Hx & Hnz).
      cbn in Hk. subst k. congruence.
    + cbn in H. apply list_elem_of_singleton in H. lia.
  - apply scatter_lookup_in.
    + rewrite fmap_reverse, reverse_Permutation, fmap_app.
      apply NoDup_app. split; [apply denseToSparseFrom_NoDup|]. split.
      * intros k Hk Hk'. apply denseToSparseFrom_keys in Hk.
        cbn in Hk'. apply list_elem_of_singleton in Hk'. lia.
      * cbn. apply NoDup_singleton.
    + rewrite elem_of_reverse, elem_of_app. left.
      apply denseToSparseFrom_elem. exists c. auto.
    + lia.
Qed.

Lemma zeroQ_app (finite : RangeType -> bool) (types : list RangeType)
  (t' : RangeType) (n : nat) :
  length types = n ->
  forall c x, (c < n)%nat -> zeroQ finite (types ++ [t']) c x = zeroQ finite types c x.
Proof. intros <- c x Hc. unfold zeroQ. rewrite ty_app by exact Hc. reflexivity. Qed.

Lemma zeroLowerF_app (types : list RangeType) (t' : RangeType) (n : nat) :
  length types = n ->
  forall c x, (c < n)%nat -> zeroLowerF (types ++ [t']) c x = zeroLowerF types c x.
Proof. intros <- c x Hc. unfold zeroLowerF. rewrite ty_app by exact Hc. reflexivity. Qed.

Lemma zeroUpperF_app (types : list RangeType) (t' : RangeType) (n : nat) :
  length types = n ->
  forall c x, (c < n)%nat -> zeroUpperF (types ++ [t']) c x = zeroUpperF types c x.
Proof. intros <- c x Hc. unfold zeroUpperF. rewrite ty_app by exact Hc. reflexivity. Qed.

Lemma bounds_roundtripQ (finite : RangeType -> bool) (types : list RangeType)
  (t' : RangeType) (l0 st : list Q) (v w : Q) (n : nat) :
  length l0 = n -> length types = n ->
  upto n (restoreQ finite types (storeFinite finite types l0 n st))
    (take n (upto n (zeroQ finite (types ++ [t'])) (<[n := v]> (l0 ++ [w])))) = l0.
Proof.
  intros Hl Ht.
  rewrite (roundtrip_gen (zeroQ finite types) _ n l0 _ Hl).
  - apply imap_restore_id. intros c Hc Hfin.
    apply storeFinite_spec; [lia | exact Hfin].
  - apply (zeroed_bounds_lookup (zeroQ finite)); [exact Hl | exact Ht|].
    apply zeroQ_app. exact Ht.
Qed.

Lemma sides_roundtripQ (finite : RangeType -> bool) (types : list RangeType)
  (l0 st : list Q) (w : Q) (n : nat) :
  length l0 = n ->
  upto n (restoreQ finite types (storeFinite finite types l0 n st))
    (take n (upto n (zeroQ finite types) l0 ++ [w])) = l0.
Proof.
  intros Hl.
  rewrite (roundtrip_gen (zeroQ finite types) _ n l0 _ Hl).
  - apply imap_restore_id. intros c Hc Hfin.
    apply storeFinite_spec; [lia | exact Hfin].
  - apply zeroed_sides_lookup. exact Hl.
Qed.

(** The cells of the floating-point LP after the round trip: a finite
    bound or side is the rounded rational one, an infinite one is pushed
    to the floating-point infinity. *)
Definition realLower (types : list RangeType) (q : list Q) (c : nat) (x : Q) : Q :=
  if _lowerFinite (ty types c) then toReal (get q c)
  else if Qltb (- INFTY) x then - INFTY else x.
Definition realUpper (types : list RangeType) (q : list Q) (c : nat) (x : Q) : Q :=
  if _upperFinite (ty types c) then toReal (get q c)
  else if Qltb x INFTY then INFTY else x.

Lemma imap_realLower (types : list RangeType) (q st f : list Q) (n : nat) :
  length f = n ->
  imap (fun c x => restoreF _lowerFinite types
                     (storeFinite _lowerFinite types q n st) c
                     (zeroLowerF types c x)) f =
  imap (realLower types q) f.
Proof.
  intros Hf. apply imap_ext. intros c x Hx. apply lookup_lt_Some in Hx.
  unfold restoreF, zeroLowerF, realLower.
  destruct (_lowerFinite (ty types c)) eqn:F; [|reflexivity].
  rewrite storeFinite_spec; [reflexivity | lia | exact F].
Qed.

Lemma imap_realUpper (types : list RangeType) (q st f : list Q) (n : nat) :
  length f = n ->
  imap (fun c x => restoreF _upperFinite types
                     (storeFinite _upperFinite types q n st) c
                     (zeroUpperF types c x)) f =
  imap (realUpper types q) f.
Proof.
  intros Hf. apply imap_ext. intros c x Hx. apply lookup_lt_Some in Hx.
  unfold restoreF, zeroUpperF, realUpper.
  destruct (_upperFinite (ty types c)) eqn:F; [|reflexivity].
  rewrite storeFinite_spec; [reflexivity | lia | exact F].
Qed.

Lemma lower_roundtripF (types : list RangeType) (t' : RangeType)
  (q f st : list Q) (v w : Q) (n : nat) :
  length f = n -> length types = n ->
  upto n (restoreF _lowerFinite types (storeFinite _lowerFinite types q n st))
    (take n (upto n (zeroLowerF (types ++ [t'])) (<[n := v]> (f ++ [w])))) =
  imap (realLower types q) f.
Proof.
  intros Hf Ht.
  rewrite (roundtrip_gen (zeroLowerF types) _ n f _ Hf).
  - apply imap_realLower. exact Hf.
  - apply (zeroed_bounds_lookup zeroLowerF); [exact Hf | exact Ht|].
    apply zeroLowerF_app. exact Ht.
Qed.

Lemma upper_roundtripF (types : list RangeType) (t' : RangeType)
  (q f st : list Q) (v w : Q) (n : nat) :
  length f = n -> length types = n ->
  upto n (restoreF _upperFinite types (storeFinite _upperFinite types q n st))
    (take n (upto n (zeroUpperF (types ++ [t'])) (<[n := v]> (f ++ [w])))) =
  imap (realUpper types q) f.
Proof.
  intros Hf Ht.
  rewrite (roundtrip_gen (zeroUpperF types) _ n f _ Hf).
  - apply imap_realUpper. exact Hf.
  - apply (zeroed_bounds_lookup zeroUpperF); [exact Hf | exact Ht|].
    apply zeroUpperF_app. exact Ht.
Qed.

Lemma lhs_roundtripF (types : list RangeType) (q f st : list Q) (w : Q) (n : nat) :
  length f = n ->
  upto n (restoreF _lowerFinite types (storeFinite _lowerFinite types q n st))
    (take n (upto n (zeroLowerF types) f ++ [w])) =
  imap (realLower types q) f.
Proof.
  intros Hf.
  rewrite (roundtrip_gen (zeroLowerF types) _ n f _ Hf).
  - apply imap_realLower. exact Hf.
  - apply zeroed_sides_lookup. exact Hf.
Qed.

Lemma rhs_roundtripF (types : list RangeType) (q f st : list Q) (w : Q) (n : nat) :
  length f = n ->
  upto n (restoreF _upperFinite types (storeFinite _upperFinite types q n st))
    (take n (upto n (zeroUpperF types) f ++ [w])) =
  imap (realUpper types q) f.
Proof.
  intros Hf.
  rewrite (roundtrip_gen (zeroUpperF types) _ n f _ Hf).
  - apply imap_realUpper. exact Hf.
  - apply zeroed_sides_lookup. exact Hf.
Qed.

Lemma get_imap_realLower (types : list RangeType) (q f : list Q) (c : nat) :
  (c < length f)%nat -> _lowerFinite (ty types c) = true ->
  get (imap (realLower types q) f) c = toReal (get q c).
Proof.
  intros Hc F. unfold get. rewrite list_lookup_imap.
  destruct (f !! c) as [x|] eqn:E; [|apply lookup_ge_None in E; lia].
  cbn. unfold realLower. rewrite F. reflexivity.
Qed.

Lemma get_imap_realUpper (types : list RangeType) (q f : list Q) (c : nat) :
  (c < length f)%nat -> _upperFinite (ty types c) = true ->
  get (imap (realUpper types q) f) c = toReal (get q c).
Proof.
  intros Hc F. unfold get. rewrite list_lookup_imap.
  destruct (f !! c) as [x|] eqn:E; [|apply lookup_ge_None in E; lia].
  cbn. unfold realUpper. rewrite F. reflexivity.
Qed.

Lemma recoveredObj_Qeq (m : Q) : recoveredObj (fun x => x) m == m.
Proof.
  unfold recoveredObj. destruct (Qeq_bool m 0) eqn:E; [|reflexivity].
  apply Qeq_bool_iff in E. symmetry. exact E.
Qed.

(** The two LPs after [_transformUnbounded] followed by
    [_untransformUnbounded], in terms of the LPs before. *)
Lemma roundtrip_LPs (d : Driver) (hb : bool) (cs rs : list VarStatus)
  (sol : Sol) (unbounded : bool) :
  wfLP (_rationalLP d) -> wfLP (_realLP d) ->
  nCols (_realLP d) = nCols (_rationalLP d) ->
  nRows (_realLP d) = nRows (_rationalLP d) ->
  length (_colTypes d) = nCols (_rationalLP d) ->
  length (_rowTypes d) = nRows (_rationalLP d) ->
  let q0 := _rationalLP d in
  let f0 := _realLP d in
  let d1 := _transformUnbounded d in
  let d2 := (_untransformUnbounded sol unbounded (set_basis hb cs rs d1)).2 in
  (_colTypes d2 = _colTypes d /\ _rowTypes d2 = _rowTypes d) /\
  (lower (_rationalLP d2) = lower q0 /\ upper (_rationalLP d2) = upper q0 /\
   maxObj (_rationalLP d2) = recoveredObj (fun x => x) <$> maxObj q0 /\
   lhs (_rationalLP d2) = lhs q0 /\ rhs (_rationalLP d2) = rhs q0 /\
   rowVector (_rationalLP d2) = rowVector q0 /\
   minimize (_rationalLP d2) = minimize q0) /\
  (lower (_realLP d2) = imap (realLower (_colTypes d) (lower q0)) (lower f0) /\
   upper (_realLP d2) = imap (realUpper (_colTypes d) (upper q0)) (upper f0) /\
   maxObj (_realLP d2) = recoveredObj toReal <$> maxObj q0 /\
   lhs (_realLP d2) = imap (realLower (_rowTypes d) (lhs q0)) (lhs f0) /\
   rhs (_realLP d2) = imap (realUpper (_rowTypes d) (rhs q0)) (rhs f0) /\
   rowVector (_realLP d2) = rowVector f0 /\
   minimize (_realLP d2) = minimize f0).
Proof.
  intros (Hqu & Hqm & Hqr & Hqv & Hqrows) (Hfu & Hfm & Hfr & Hfv & Hfrows)
         Hnc Hnr Hct Hrt.
  cbv zeta.
  pose proof (transformUnbounded_shape d Hqm Hnc) as T. cbv zeta in T.
  pose proof (untransformUnbounded_shape sol unbounded
                (set_basis hb cs rs (_transformUnbounded d))) as U.
  cbv zeta in U.
  cbn [set_basis _rationalLP _realLP _colTypes _rowTypes _unboundedLower
       _unboundedUpper _unboundedLhs _unboundedRhs] in U.
  remember (_transformUnbounded d) as d1 eqn:Ed1.
  remember (_untransformUnbounded sol unbounded (set_basis hb cs rs d1)).2
    as d2 eqn:Ed2.
  destruct T as ((Tct & Trt & TuL & TuU & TuLh & TuRh)
                 & (Tl & Tu & Tm & Tlh & Trh & Tr & Tn)
                 & (Fl & Fu & Fm & Flh & Frh & Fr & Fn)).
  remember (_rationalLP d) as q0 eqn:Eq0.
  remember (_realLP d) as f0 eqn:Ef0.
  remember (nCols q0) as nc eqn:Enc.
  remember (nRows q0) as nr eqn:Enr.
  assert (Hql : length (lower q0) = nc) by (rewrite Enc; reflexivity).
  assert (Hqlh : length (lhs q0) = nr) by (rewrite Enr; reflexivity).
  assert (Hfl : length (lower f0) = nc) by exact Hnc.
  assert (Hflh : length (lhs f0) = nr) by exact Hnr.
  assert (E1 : (nCols (_rationalLP d1) - 1)%nat = nc).
  { unfold nCols. rewrite Tl, upto_length, length_insert, length_app, Hql.
    cbn. lia. }
  assert (E2 : (nRows (_rationalLP d1) - 1)%nat = nr).
  { unfold nRows. rewrite Tlh, length_app, upto_length, Hqlh. cbn. lia. }
  rewrite E1, E2 in U.
  assert (E3 : length (take nc (lower (_rationalLP d1))) = nc).
  { rewrite length_take, Tl, upto_length, length_insert, length_app, Hql.
    cbn. lia. }
  assert (E4 : length (take nr (lhs (_rationalLP d1))) = nr).
  { rewrite length_take, Tlh, length_app, upto_length, Hqlh. cbn. lia. }
  rewrite E3, E4 in U.
  rewrite Tct, Trt, !take_app_length' in U by (symmetry; assumption).
  rewrite TuL, TuU, TuLh, TuRh, Tl, Tu, Tm, Tlh, Trh, Tr, Tn,
          Fl, Fu, Fm, Flh, Frh, Fr, Fn in U.
  destruct U as ((Uct & Urt) & (Ul & Uu & Um & Ulh & Urh & Ur & Un)
                 & (Gl & Gu & Gm & Glh & Grh & Gr & Gn)).
  rewrite lookup_app_r, Hqv, Nat.sub_diag in Um, Gm by lia.
  cbn [lookup list_lookup default] in Um, Gm.
  split; [split; assumption|]. split.
  - split; [rewrite Ul; apply bounds_roundtripQ; assumption|].
    split; [rewrite Uu; apply bounds_roundtripQ; assumption|].
    split.
    { rewrite Um. unfold objRow, numColsRational. rewrite <- Eq0, <- Enc.
      apply objective_roundtrip; [exact Hqm| |].
      - rewrite upto_length, length_insert, length_app, Hqm. cbn. lia.
      - intros c Hc. rewrite upto_lookup, list_lookup_insert_ne by lia.
        rewrite lookup_app_l by lia.
        destruct (maxObj q0 !! c) as [m|] eqn:E;
          [|apply lookup_ge_None in E; lia].
        cbn. destruct (decide (c < nc)%nat); [reflexivity | lia]. }
    split; [rewrite Ulh; apply sides_roundtripQ; assumption|].
    split; [rewrite Urh; apply sides_roundtripQ; assumption|].
    split; [|rewrite Un; reflexivity].
    rewrite Ur. apply rows_roundtrip; assumption.
  - split; [rewrite Gl; apply lower_roundtripF; assumption|].
    split; [rewrite Gu; apply upper_roundtripF; [lia | assumption]|].
    split.
    { rewrite Gm. unfold objRow, numColsRational. rewrite <- Eq0, <- Enc.
      apply objective_roundtrip; [exact Hqm| |].
      - rewrite upto_length, length_insert, length_app, Hfm. cbn. lia.
      - intros c Hc. rewrite upto_lookup, list_lookup_insert_ne by lia.
        rewrite lookup_app_l by lia.
        destruct (maxObj f0 !! c) as [m|] eqn:E;
          [|apply lookup_ge_None in E; lia].
        cbn. destruct (decide (c < nc)%nat); [reflexivity | lia]. }
    split; [rewrite Glh; apply lhs_roundtripF; assumption|].
    split; [rewrite Grh; apply rhs_roundtripF; lia|].
    split; [|rewrite Gn; reflexivity].
    rewrite Gr. apply rows_roundtrip; [lia|].
    rewrite <- Hnc. exact Hfrows.
Qed.

(** C6. [_transformUnbounded] followed by [_untransformUnbounded] gives
    the original LP back.  For a driver whose two LPs are well formed and
    of equal dimensions, with one range type per column and per row, and
    whatever basis and solution the solve in between leaves:
    - the transformation adds one row and one column to both LPs and the
      reverse transformation removes them, so that the numbers of rows
      and columns are the original ones again, as are the range types;
    - the rational LP is the original one: bounds, sides, rows and
      optimization sense are equal, and the objective is the one read
      back from the stored objective row, equal as a rational number to
      the original coefficient at every column;
    - every finite bound and side was stored by the transformation and
      is, in the rational LP, the stored value and, in the floating-point
      LP, the stored value rounded;
    - the floating-point LP has its original rows and sense, the rounded
      rational objective, and infinite bounds and sides at the
      floating-point infinity. *)
Theorem transformUnbounded_roundtrip (d : Driver) (hb : bool)
  (cs rs : list VarStatus) (sol : Sol) (unbounded : bool) :
  wfLP (_rationalLP d) -> wfLP (_realLP d) ->
  nCols (_realLP d) = nCols (_rationalLP d) ->
  nRows (_realLP d) = nRows (_rationalLP d) ->
  length (_colTypes d) = nCols (_rationalLP d) ->
  length (_rowTypes d) = nRows (_rationalLP d) ->
  let q0 := _rationalLP d in
  let f0 := _realLP d in
  let d1 := _transformUnbounded d in
  let d2 := (_untransformUnbounded sol unbounded (set_basis hb cs rs d1)).2 in
  let q2 := _rationalLP d2 in
  let f2 := _realLP d2 in
  (numColsRational d1 = S (numColsRational d) /\
   numRowsRational d1 = S (numRowsRational d) /\
   numColsReal d1 = S (numColsReal d) /\
   numRowsReal d1 = S (numRowsReal d)) /\
  (numColsRational d2 = numColsRational d /\
   numRowsRational d2 = numRowsRational d /\
   numColsReal d2 = numColsReal d /\
   numRowsReal d2 = numRowsReal d /\
   _colTypes d2 = _colTypes d /\ _rowTypes d2 = _rowTypes d) /\
  (lower q2 = lower q0 /\ upper q2 = upper q0 /\
   lhs q2 = lhs q0 /\ rhs q2 = rhs q0 /\
   rowVector q2 = rowVector q0 /\ minimize q2 = minimize q0 /\
   maxObj q2 = recoveredObj (fun x => x) <$> maxObj q0 /\
   Forall2 Qeq (maxObj q2) (maxObj q0)) /\
  (forall c x, (c, x) ∈ denseToSparse (maxObj q0) ->
     (c, x) ∈ objRow d /\
     maxObj q2 !! c = Some x /\ maxObj f2 !! c = Some (toReal x)) /\
  (forall c, (c < nCols q0)%nat -> _lowerFinite (ty (_colTypes d) c) = true ->
     get (_unboundedLower d1) c = get (lower q0) c /\
     get (lower q2) c = get (_unboundedLower d1) c /\
     get (lower f2) c = toReal (get (_unboundedLower d1) c)) /\
  (forall c, (c < nCols q0)%nat -> _upperFinite (ty (_colTypes d) c) = true ->
     get (_unboundedUpper d1) c = get (upper q0) c /\
     get (upper q2) c = get (_unboundedUpper d1) c /\
     get (upper f2) c = toReal (get (_unboundedUpper d1) c)) /\
  (forall r, (r < nRows q0)%nat -> _lowerFinite (ty (_rowTypes d) r) = true ->
     get (_unboundedLhs d1) r = get (lhs q0) r /\
     get (lhs q2) r = get (_unboundedLhs d1) r /\
     get (lhs f2) r = toReal (get (_unboundedLhs d1) r)) /\
  (forall r, (r < nRows q0)%nat -> _upperFinite (ty (_rowTypes d) r) = true ->
     get (_unboundedRhs d1) r = get (rhs q0) r /\
     get (rhs q2) r = get (_unboundedRhs d1) r /\
     get (rhs f2) r = toReal (get (_unboundedRhs d1) r)) /\
  (rowVector f2 = rowVector f0 /\ minimize f2 = minimize f0 /\
   maxObj f2 = recoveredObj toReal <$> maxObj q0 /\
   lower f2 = imap (realLower (_colTypes d) (lower q0)) (lower f0) /\
   upper f2 = imap (realUpper (_colTypes d) (upper q0)) (upper f0) /\
   lhs f2 = imap (realLower (_rowTypes d) (lhs q0)) (lhs f0) /\
   rhs f2 = imap (realUpper (_rowTypes d) (rhs q0)) (rhs f0)).
Proof.
  intros Hq Hf Hnc Hnr Hct Hrt.
  pose proof (roundtrip_LPs d hb cs rs sol unbounded Hq Hf Hnc Hnr Hct Hrt) as R.
  destruct Hq as (Hqu & Hqm & Hqr & Hqv & Hqrows).
  destruct Hf as (Hfu & Hfm & Hfr & Hfv & Hfrows).
  pose proof (transformUnbounded_shape d Hqm Hnc) as T.
  cbv zeta in *.
  destruct T as ((_ & _ & TuL & TuU & TuLh & TuRh)
                 & (Tl & _ & _ & Tlh & _) & (Fl & _ & _ & Flh & _)).
  destruct R as ((Rct & Rrt) & (Ul & Uu & Um & Ulh & Urh & Ur & Un)
                 & (Gl & Gu & Gm & Glh & Grh & Gr & Gn)).
  unfold numColsRational, numRowsRational, numColsReal, numRowsReal, nCols, nRows
    in *.
  split.
  { rewrite Tl, Tlh, Fl, Flh.
    rewrite !upto_length, !length_insert, !length_app, !upto_length.
    cbn. repeat split; lia. }
  split.
  { rewrite Ul, Ulh, Gl, Glh, !length_imap. repeat split; assumption. }
  split.
  { repeat split; try assumption.
    rewrite Um. apply Forall2_fmap_l, Forall_Forall2_diag, Forall_forall.
    intros m _. apply recoveredObj_Qeq. }
  split.
  { intros c x Hx. split.
    { unfold objRow. apply elem_of_app. left. exact Hx. }
    apply denseToSparseFrom_elem in Hx as (k & Hk & Hx & Hnz).
    cbn in Hk. subst k.
    rewrite Um, Gm, !list_lookup_fmap, Hx. cbn. unfold recoveredObj.
    rewrite Hnz. split; reflexivity. }
  split.
  { intros c Hc F. rewrite TuL, Ul, Gl.
    rewrite storeFinite_spec by assumption.
    rewrite get_imap_realLower by (assumption || lia).
    repeat split; reflexivity. }
  split.
  { intros c Hc F. rewrite TuU, Uu, Gu.
    rewrite storeFinite_spec by assumption.
    rewrite get_imap_realUpper by (assumption || lia).
    repeat split; reflexivity. }
  split.
  { intros r Hr F. rewrite TuLh, Ulh, Glh.
    rewrite storeFinite_spec by assumption.
    rewrite get_imap_realLower by (assumption || lia).
    repeat split; reflexivity. }
  split.
  { intros r Hr F. rewrite TuRh, Urh, Grh.
    rewrite storeFinite_spec by assumption.
    rewrite get_imap_realUpper by (assumption || lia).
    repeat split; reflexivity. }
  repeat split; assumption.
Qed.

(** ** What [_project] does to the dual solution *)

Lemma for_up_empty {S : Type} (a b : nat) (body : nat -> S -> S) (st : S) :
  (b <= a)%nat -> for_up a b body st = st.
Proof.
  intros H. unfold for_up. replace (b - a)%nat with 0%nat by lia. reflexivity.
Qed.

(** After the LPs are shrunk, [numColsRational()] is [_beforeLiftCols], so
    the loop that compares the reduced costs of the lifting columns with
    [_rationalOpttol] has an empty range: the flag [_isDualFeasible] leaves
    [_project] as it entered. *)
Lemma project_dual_flag (sol : Sol) (d : Driver) :
  _isDualFeasible (_project sol d).1 = _isDualFeasible sol.
Proof.
  unfold _project. cbn [fst].
  rewrite for_up_empty.
  2:{ unfold numColsRational, nCols. cbn. rewrite length_take. lia. }
  destruct sol as [p s du rc pr df ipf idf hpr hdf]; cbn.
  destruct ipf, hpr, idf, hdf; reflexivity.
Qed.

Lemma project_dimensions (sol : Sol) (d : Driver) :
  (_beforeLiftCols d <= numColsRational d)%nat ->
  (_beforeLiftRows d <= numRowsRational d)%nat ->
  numColsRational (_project sol d).2 = _beforeLiftCols d /\
  numRowsRational (_project sol d).2 = _beforeLiftRows d.
Proof.
  intros Hc Hr. unfold _project. cbn [snd].
  set (d1 := set_LPs _ _ d).
  assert (H1 : numColsRational d1 = _beforeLiftCols d).
  { unfold numColsRational, nCols in *. cbn. rewrite length_take. lia. }
  assert (H2 : numRowsRational d1 = _beforeLiftRows d).
  { unfold numRowsRational, nRows in *. cbn. rewrite length_take. lia. }
  rewrite (for_up_empty (_beforeLiftCols d1)) by (rewrite H1; reflexivity).
  rewrite (for_up_empty (_beforeLiftRows d1)) by (rewrite H2; reflexivity).
  destruct (_hasBasis d1); split; assumption.
Qed.

End Transformations.

(** ** The round trip on an example *)

(** Two columns, one boxed and one bounded from below, and one row
    bounded from above; [R] is taken exact and infinity is [10^100]. *)
Definition infinity_example : Q := inject_Z (10 ^ 100).

Definition roundtrip_lp : LP.t :=
  LP.mk [0; 1] [10; infinity_example] [3; 0] [- infinity_example] [4]
        [[(0%nat, 1); (1%nat, 2)]] false.

Definition roundtrip_driver : Driver :=
  mkDriver roundtrip_lp roundtrip_lp [RANGETYPE_BOXED; RANGETYPE_LOWER]
           [RANGETYPE_UPPER] [ON_LOWER; ON_LOWER] [BASIC] true 0 0 [] [] [] []
           true.

Definition roundtrip_result : Driver :=
  (_untransformUnbounded (fun x => x) (1 # 1000000000) true
     (mkSol [] [] [] [] [] [] false false false false) false
     (set_basis false [] []
        (_transformUnbounded (fun x => x) infinity_example infinity_example
           (- infinity_example) roundtrip_driver))).2.

Lemma roundtrip_lp_wf : wfLP roundtrip_lp.
Proof.
  unfold wfLP. repeat split; try reflexivity.
  repeat constructor.
Qed.

Lemma transformUnbounded_roundtrip_witness :
  wfLP roundtrip_lp /\
  length (_colTypes roundtrip_driver) = nCols roundtrip_lp /\
  length (_rowTypes roundtrip_driver) = nRows roundtrip_lp /\
  (numColsRational roundtrip_result = 2%nat /\
   numRowsRational roundtrip_result = 1%nat) /\
  lower (_rationalLP roundtrip_result) = [0; 1] /\
  upper (_rationalLP roundtrip_result) = [10; infinity_example] /\
  rhs (_rationalLP roundtrip_result) = [4] /\
  rowVector (_rationalLP roundtrip_result) = [[(0%nat, 1); (1%nat, 2)]] /\
  maxObj (_rationalLP roundtrip_result) !! 0%nat = Some 3 /\
  upper (_realLP roundtrip_result) !! 0%nat = Some 10.
Proof.
  assert (Hc : length (_colTypes roundtrip_driver) = nCols roundtrip_lp)
    by reflexivity.
  assert (Hr : length (_rowTypes roundtrip_driver) = nRows roundtrip_lp)
    by reflexivity.
  pose proof (transformUnbounded_roundtrip (fun x => x) infinity_example
                infinity_example (- infinity_example) (1 # 1000000000) true
                roundtrip_driver false [] []
                (mkSol [] [] [] [] [] [] false false false false) false
                roundtrip_lp_wf roundtrip_lp_wf eq_refl eq_refl Hc Hr) as R.
  cbv zeta in R.
  destruct R as (_ & (N1 & N2 & _) & (Rl & Ru & _ & Rr & Rv & _) & Ro & _ & _
                 & _ & _ & _ & _ & _ & _ & Fu & _).
  split; [exact roundtrip_lp_wf|]. split; [exact Hc|]. split; [exact Hr|].
  split; [split; [exact N1 | exact N2]|].
  split; [exact Rl|]. split; [exact Ru|]. split; [exact Rr|].
  split; [exact Rv|].
  split.
- destruct (Ro 0%nat 3) as (_ & H & _); [|exact H].
  vm_compute. apply list_elem_of_here.
- exact (eq_trans (f_equal (fun l : list Q => l !! 0%nat) Fu) eq_refl).
Defined.

(** ** Projecting a lifted LP with a nonzero reduced cost *)

(** One column whose coefficient [2048] exceeds [LIFTMAXVAL = 1024]:
    [_lift] adds one lifting column and one lifting row. *)
Definition lift_lp : LP.t :=
  LP.mk [0] [10] [1] [0] [4096] [[(0%nat, 2048)]] false.

Definition lift_driver : Driver :=
  mkDriver lift_lp lift_lp [RANGETYPE_BOXED] [RANGETYPE_BOXED] [ON_LOWER]
           [BASIC] true 0 0 [] [] [] [] true.

Definition lifted_lp : LP.t :=
  LP.mk [0; - infinity_example] [10; infinity_example] [1; 0] [0; 0] [4096; 0]
        [[(1%nat, 2048 # 1024)]; [(0%nat, 1024); (1%nat, -1)]] false.

Definition lifted_driver : Driver :=
  mkDriver lifted_lp lifted_lp [RANGETYPE_BOXED] [RANGETYPE_BOXED]
           [ON_LOWER; BASIC] [BASIC; FIXED] true 1 1 [] [] [] [] false.

(** A solution of the lifted LP that claims dual feasibility although the
    reduced cost of the lifting column is [1]. *)
Definition lifted_sol : Sol :=
  mkSol [2; 2048] [4096; 0] [0; 0] [0; 1] [] [] true true false false.

Definition opttol_example : Q := 1 # 1000000000.

(** C7. [_project] shrinks the LPs to the dimensions before the lifting,
    but it does so before its loop over the lifting columns, whose range
    [_beforeLiftCols <= i < numColsRational()] is then empty: on the LP
    that [_lift] builds from [lift_driver], a solution whose lifting column
    has reduced cost [1], with [|LIFTMAXVAL * 1| = 1024] far above the
    tolerance [10^-9], leaves [_project] with [_isDualFeasible] still
    set. *)
Theorem project_skips_reduced_cost_check :
  _lift (fun x => x) infinity_example infinity_example (- infinity_example)
        1024 (1 # 1024) 10 lift_driver = Some lifted_driver /\
  (numColsRational lifted_driver = 2%nat /\
   _beforeLiftCols lifted_driver = 1%nat) /\
  _isDualFeasible lifted_sol = true /\
  Qltb opttol_example (Qabs (1024 * SSVector.get (_redCost lifted_sol) 1)) = true /\
  (numColsRational (_project 1024 opttol_example lifted_sol lifted_driver).2
     = 1%nat /\
   numRowsRational (_project 1024 opttol_example lifted_sol lifted_driver).2
     = 1%nat) /\
  _isDualFeasible (_project 1024 opttol_example lifted_sol lifted_driver).1
    = true /\
  _redCost (_project 1024 opttol_example lifted_sol lifted_driver).1 = [0].
Proof.
  split; [vm_compute; reflexivity|].
  split; [split; reflexivity|].
  split; [reflexivity|].
  split; [vm_compute; reflexivity|].
  split; [split; vm_compute; reflexivity|].
  split; vm_compute; reflexivity.
Qed.

End Transform.

(** * The floating-point solve with its recovery ladder *)

Module Stable.

(** [SPxSolverBase<R>::Status], [SPxSolverBase<R>::Type] and the integer
    parameters that [_solveRealStable] reads and writes. *)
Inductive Status :=
  | ERROR | NO_RATIOTESTER | NO_PRICER | NO_SOLVER | NOT_INIT | ABORT_EXDECOMP
  | ABORT_DECOMP | ABORT_CYCLING | ABORT_TIME | ABORT_ITER | ABORT_VALUE
  | SINGULAR | NO_PROBLEM | REGULAR | RUNNING | UNKNOWN | OPTIMAL | UNBOUNDED
  | INFEASIBLE | INForUNBD | OPTIMAL_UNSCALED_VIOLATIONS.

#[global] Instance Status_eq_dec : EqDecision Status.
Proof. solve_decision. Defined.

Inductive SolverType := ENTER | LEAVE.

Inductive IntParam := RATIOTESTER | PRICER | SIMPLIFIER | SCALER | ALGORITHM.

Section Ladder.

(** The values of the integer parameters that the ladder names; the
    enumerations are declared with the parameter table, outside the
    sources at hand. *)
Variable SIMPLIFIER_OFF SIMPLIFIER_INTERNAL : Z.
Variable SCALER_OFF SCALER_BIEQUI : Z.
Variable ALGORITHM_PRIMAL ALGORITHM_DUAL : Z.
Variable RATIOTESTER_TEXTBOOK RATIOTESTER_FAST : Z.
Variable PRICER_DEVEX PRICER_STEEP : Z.

(** Whatever else the solver holds: the LP, the basis, the factors. *)
Variable Internals : Type.

(** The settings and the solver.  Modelled from the spec: the accessors
    [intParam]/[setIntParam], [realParam], [markowitz]/[setMarkowitz],
    [feastol]/[setFeastol]/[setOpttol]/[setDelta], [type]/[setType],
    [ratiotester] and [pricer] are plain reads and writes of the setting
    they name; setting [RATIOTESTER] or [PRICER] also installs the ratio
    tester or pricer of that number in the solver, and [setDelta] sets
    both tolerances. *)
Record State := mkState {
  ints : IntParam -> Z;
  FPFEASTOL : Q;
  FPOPTTOL : Q;
  markowitz : Q;
  feastol : Q;
  opttol : Q;
  type : SolverType;
  ratiotester : Z;
  pricer : Z;
  internals : Internals
}.

#[global] Instance IntParam_eq_dec : EqDecision IntParam.
Proof. solve_decision. Defined.

Definition intParam (p : IntParam) (st : State) : Z := ints st p.

Definition setIntParam (p : IntParam) (v : Z) (st : State) : State :=
  mkState (fun p' => if decide (p' = p) then v else ints st p')
          (FPFEASTOL st) (FPOPTTOL st) (markowitz st) (feastol st) (opttol st)
          (type st)
          (if decide (p = RATIOTESTER) then v else ratiotester st)
          (if decide (p = PRICER) then v else pricer st)
          (internals st).

Definition setMarkowitz (m : Q) (st : State) : State :=
  mkState (ints st) (FPFEASTOL st) (FPOPTTOL st) m (feastol st) (opttol st)
          (type st) (ratiotester st) (pricer st) (internals st).

Definition setFeastol (d : Q) (st : State) : State :=
  mkState (ints st) (FPFEASTOL st) (FPOPTTOL st) (markowitz st) d (opttol st)
          (type st) (ratiotester st) (pricer st) (internals st).

Definition setOpttol (d : Q) (st : State) : State :=
  mkState (ints st) (FPFEASTOL st) (FPOPTTOL st) (markowitz st) (feastol st) d
          (type st) (ratiotester st) (pricer st) (internals st).

Definition setDelta (d : Q) (st : State) : State := setOpttol d (setFeastol d st).

Definition setType (t : SolverType) (st : State) : State :=
  mkState (ints st) (FPFEASTOL st) (FPOPTTOL st) (markowitz st) (feastol st)
          (opttol st) t (ratiotester st) (pricer st) (internals st).

(** [_solveRealForRational(fromScratch, ...)] and [_solver.factorize()],
    which reports with [false] that it threw. *)
Variable _solveRealForRational : bool -> State -> Status * State.
Variable factorize : State -> State * bool.

(** The local flags of [_solveRealStable]. *)
Record Flags := mkFlags {
  fromScratch : bool;
  solvedFromScratch : bool;
  initialSolve : bool;
  increasedMarkowitz : bool;
  relaxedTolerances : bool;
  tightenedTolerances : bool;
  switchedScaler : bool;
  switchedSimplifier : bool;
  switchedRatiotester : bool;
  switchedPricer : bool;
  turnedoffPre : bool
}.

Definition initialFlags : Flags :=
  mkFlags false false true false false false false false false false false.

(** [fromScratch = true; solvedFromScratch = true;] *)
Definition scratch (fl : Flags) : Flags :=
  mkFlags true true (initialSolve fl) (increasedMarkowitz fl)
          (relaxedTolerances fl) (tightenedTolerances fl) (switchedScaler fl)
          (switchedSimplifier fl) (switchedRatiotester fl) (switchedPricer fl)
          (turnedoffPre fl).

(** [solvedFromScratch = false;] *)
Definition unscratch (fl : Flags) : Flags :=
  mkFlags (fromScratch fl) false (initialSolve fl) (increasedMarkowitz fl)
          (relaxedTolerances fl) (tightenedTolerances fl) (switchedScaler fl)
          (switchedSimplifier fl) (switchedRatiotester fl) (switchedPricer fl)
          (turnedoffPre fl).

Definition set_initialSolve (b : bool) (fl : Flags) : Flags :=
  mkFlags (fromScratch fl) (solvedFromScratch fl) b (increasedMarkowitz fl)
          (relaxedTolerances fl) (tightenedTolerances fl) (switchedScaler fl)
          (switchedSimplifier fl) (switchedRatiotester fl) (switchedPricer fl)
          (turnedoffPre fl).

Definition set_increasedMarkowitz (b : bool) (fl : Flags) : Flags :=
  mkFlags (fromScratch fl) (solvedFromScratch fl) (initialSolve fl) b
          (relaxedTolerances fl) (tightenedTolerances fl) (switchedScaler fl)
          (switchedSimplifier fl) (switchedRatiotester fl) (switchedPricer fl)
          (turnedoffPre fl).

Definition set_relaxedTolerances (b : bool) (fl : Flags) : Flags :=
  mkFlags (fromScratch fl) (solvedFromScratch fl) (initialSolve fl)
          (increasedMarkowitz fl) b (tightenedTolerances fl) (switchedScaler fl)
          (switchedSimplifier fl) (switchedRatiotester fl) (switchedPricer fl)
          (turnedoffPre fl).

Definition set_tightenedTolerances (b : bool) (fl : Flags) : Flags :=
  mkFlags (fromScratch fl) (solvedFromScratch fl) (initialSolve fl)
          (increasedMarkowitz fl) (relaxedTolerances fl) b (switchedScaler fl)
          (switchedSimplifier fl) (switchedRatiotester fl) (switchedPricer fl)
          (turnedoffPre fl).

Definition set_switchedScaler (b : bool) (fl : Flags) : Flags :=
  mkFlags (fromScratch fl) (solvedFromScratch fl) (initialSolve fl)
          (increasedMarkowitz fl) (relaxedTolerances fl) (tightenedTolerances fl)
          b (switchedSimplifier fl) (switchedRatiotester fl) (switchedPricer fl)
          (turnedoffPre fl).

Definition set_switchedSimplifier (b : bool) (fl : Flags) : Flags :=
  mkFlags (fromScratch fl) (solvedFromScratch fl) (initialSolve fl)
          (increasedMarkowitz fl) (relaxedTolerances fl) (tightenedTolerances fl)
          (switchedScaler fl) b (switchedRatiotester fl) (switchedPricer fl)
          (turnedoffPre fl).

Definition set_switchedRatiotester (b : bool) (fl : Flags) : Flags :=
  mkFlags (fromScratch fl) (solvedFromScratch fl) (initialSolve fl)
          (increasedMarkowitz fl) (relaxedTolerances fl) (tightenedTolerances fl)
          (switchedScaler fl) (switchedSimplifier fl) b (switchedPricer fl)
          (turnedoffPre fl).

Definition set_switchedPricer (b : bool) (fl : Flags) : Flags :=
  mkFlags (fromScratch fl) (solvedFromScratch fl) (initialSolve fl)
          (increasedMarkowitz fl) (relaxedTolerances fl) (tightenedTolerances fl)
          (switchedScaler fl) (switchedSimplifier fl) (switchedRatiotester fl) b
          (turnedoffPre fl).

Definition set_turnedoffPre (b : bool) (fl : Flags) : Flags :=
  mkFlags (fromScratch fl) (solvedFromScratch fl) (initialSolve fl)
          (increasedMarkowitz fl) (relaxedTolerances fl) (tightenedTolerances fl)
          (switchedScaler fl) (switchedSimplifier fl) (switchedRatiotester fl)
          (switchedPricer fl) b.

Definition toggle (t : SolverType) : SolverType :=
  match t with LEAVE => ENTER | ENTER => LEAVE end.

(** The values read at entry. *)
Record Saved := mkSaved {
  s_markowitz : Q;
  s_ratiotester : Z;
  s_pricer : Z;
  s_simplifier : Z;
  s_scaler : Z;
  s_type : Z
}.

Definition save (st : State) : Saved :=
  mkSaved (markowitz st) (intParam RATIOTESTER st) (intParam PRICER st)
          (intParam SIMPLIFIER st) (intParam SCALER st) (intParam ALGORITHM st).

(** What an iteration of [while(true)] ends with. *)
Inductive Next :=
  | Continue (fl : Flags) (st : State)
  | Break (st : State).

(** The body of [while(true)] after the solve, when the result is neither
    accepted nor an abort. *)
Definition ladder (forceNoSimplifier : bool) (sv : Saved) (result : Status)
  (fl : Flags) (st : State) : Next :=
  let fl := if initialSolve fl then set_initialSolve false fl else fl in
  if negb (turnedoffPre fl)
     && (negb (intParam SIMPLIFIER st =? SIMPLIFIER_OFF)%Z
         || negb (intParam SCALER st =? SCALER_OFF)%Z)
  then
    (* Turning off preprocessing. *)
    Continue (scratch (set_turnedoffPre true fl))
             (setIntParam SIMPLIFIER SIMPLIFIER_OFF
                (setIntParam SCALER SCALER_OFF st))
  else
  let st := setIntParam SIMPLIFIER (s_simplifier sv)
              (setIntParam SCALER (s_scaler sv) st) in
  (* Increasing Markowitz threshold. *)
  let '(fl, st, factorized) :=
    if negb (increasedMarkowitz fl) then
      let '(st, ok) := factorize (setMarkowitz (9 # 10) st) in
      (set_increasedMarkowitz true fl, st, ok)
    else (fl, st, false) in
  if factorized then Continue fl st else
  (* Solving from scratch. *)
  if negb (solvedFromScratch fl) then Continue (scratch fl) st else
  let st := setIntParam PRICER (s_pricer sv)
              (setIntParam RATIOTESTER (s_ratiotester sv) st) in
  if negb (switchedScaler fl) then
    (* Switching scaling. *)
    Continue (set_switchedScaler true (scratch fl))
      (setIntParam SCALER
         (if (s_scaler sv =? SCALER_OFF)%Z then SCALER_BIEQUI else SCALER_OFF)
         st)
  else
  if negb (switchedSimplifier fl) && negb forceNoSimplifier then
    (* Switching simplification. *)
    Continue (set_switchedSimplifier true (scratch fl))
      (setIntParam SIMPLIFIER
         (if (s_simplifier sv =? SIMPLIFIER_OFF)%Z
          then SIMPLIFIER_INTERNAL else SIMPLIFIER_OFF)
         st)
  else
  let st := setIntParam SIMPLIFIER SIMPLIFIER_OFF st in
  if negb (relaxedTolerances fl) then
    (* Relaxing tolerances. *)
    let st := setIntParam ALGORITHM ALGORITHM_PRIMAL st in
    let st := setDelta (if Qltb (1 # 1000) (feastol st * 1000)
                        then 1 # 1000 else feastol st * 1000) st in
    Continue
      (unscratch (set_relaxedTolerances (Qle_bool (1 # 1000) (feastol st)) fl))
      st
  else
  if negb (tightenedTolerances fl) && negb (bool_decide (result = INFEASIBLE))
  then
    (* Tightening tolerances. *)
    let st := setIntParam ALGORITHM ALGORITHM_DUAL st in
    let st := setDelta (if Qltb (feastol st * (1 # 1000)) (1 # 1000000000)
                        then 1 # 1000000000 else feastol st * (1 # 1000)) st in
    Continue
      (unscratch
         (set_tightenedTolerances (Qle_bool (feastol st) (1 # 1000000000)) fl))
      st
  else
  let st := setIntParam ALGORITHM (s_type sv) st in
  if negb (switchedRatiotester fl) then
    (* Switching ratio test. *)
    let st := setType (toggle (type st)) st in
    let st :=
      if decide (ratiotester st <> RATIOTESTER_TEXTBOOK)
      then setIntParam RATIOTESTER RATIOTESTER_TEXTBOOK st
      else setIntParam RATIOTESTER RATIOTESTER_FAST st in
    Continue (unscratch (set_switchedRatiotester true fl)) st
  else
  if negb (switchedPricer fl) then
    (* Switching pricer. *)
    let st := setType (toggle (type st)) st in
    let st :=
      if decide (pricer st <> PRICER_DEVEX)
      then setIntParam PRICER PRICER_DEVEX st
      else setIntParam PRICER PRICER_STEEP st in
    Continue (unscratch (set_switchedPricer true fl)) st
  else
    (* Giving up. *)
    Break st.

(** [solved || result == ABORT_TIME || result == ABORT_ITER]. *)
Definition stops (acceptUnbounded acceptInfeasible : bool) (result : Status)
  : bool :=
  (bool_decide (result = OPTIMAL)
   || (bool_decide (result = INFEASIBLE) && acceptInfeasible)
   || (bool_decide (result = UNBOUNDED) && acceptUnbounded))
  || bool_decide (result = ABORT_TIME) || bool_decide (result = ABORT_ITER).

(** [while(true)]: [None] when the iterations allowed do not suffice. *)
Fixpoint loop (fuel : nat) (acceptUnbounded acceptInfeasible : bool)
  (forceNoSimplifier : bool) (sv : Saved) (fl : Flags) (st : State)
  : option (Status * State) :=
  match fuel with
  | O => None
  | S n =>
    let '(result, st) := _solveRealForRational (fromScratch fl) st in
    if stops acceptUnbounded acceptInfeasible result then Some (result, st)
    else
      match ladder forceNoSimplifier sv result fl st with
      | Continue fl st =>
          loop n acceptUnbounded acceptInfeasible forceNoSimplifier sv fl st
      | Break st => Some (result, st)
      end
  end.

(** The statements after the loop. *)
Definition restore (sv : Saved) (st : State) : State :=
  let st := setFeastol (FPFEASTOL st) st in
  let st := setOpttol (FPOPTTOL st) st in
  let st := setMarkowitz (s_markowitz sv) st in
  let st := setIntParam RATIOTESTER (s_ratiotester sv) st in
  let st := setIntParam PRICER (s_pricer sv) st in
  let st := setIntParam SIMPLIFIER (s_simplifier sv) st in
  let st := setIntParam SCALER (s_scaler sv) st in
  setIntParam ALGORITHM (s_type sv) st.

(** [_solveRealStable(acceptUnbounded, acceptInfeasible, ...,
    forceNoSimplifier)]. *)
Definition _solveRealStable (fuel : nat) (acceptUnbounded acceptInfeasible : bool)
  (forceNoSimplifier : bool) (st : State) : option (Status * State) :=
  let sv := save st in
  let st := if forceNoSimplifier
            then setIntParam SIMPLIFIER SIMPLIFIER_OFF st else st in
  match loop fuel acceptUnbounded acceptInfeasible forceNoSimplifier sv
             initialFlags st with
  | Some (result, st) => Some (result, restore sv st)
  | None => None
  end.

(** ** The settings on return *)

(** The solve and the factorization read the parameter table; they do not
    write the two floating-point tolerance parameters. *)
Hypothesis solve_realParam : forall b st,
  FPFEASTOL (_solveRealForRational b st).2 = FPFEASTOL st /\
  FPOPTTOL (_solveRealForRational b st).2 = FPOPTTOL st.
Hypothesis factorize_realParam : forall st,
  FPFEASTOL (factorize st).1 = FPFEASTOL st /\
  FPOPTTOL (factorize st).1 = FPOPTTOL st.

Lemma ladder_realParam (fns : bool) (sv : Saved) (result : Status)
  (fl : Flags) (st : State) :
  match ladder fns sv result fl st with
  | Continue _ st' | Break st' =>
      FPFEASTOL st' = FPFEASTOL st /\ FPOPTTOL st' = FPOPTTOL st
  end.
Proof.
  unfold ladder.
  repeat match goal with
  | |- context [factorize ?s] =>
      let H := fresh "H" in
      pose proof (factorize_realParam s) as H;
      destruct (factorize s) as [? ?]; cbn [fst snd] in H; destruct H
  | |- context [if ?b then _ else _] => destruct b; cbn
  end;
  cbn in *; try (split; reflexivity); try (split; assumption).
Qed.

Lemma loop_realParam (fuel : nat) (au ai fns : bool) (sv : Saved) (fl : Flags)
  (st st' : State) (result : Status) :
  loop fuel au ai fns sv fl st = Some (result, st') ->
  FPFEASTOL st' = FPFEASTOL st /\ FPOPTTOL st' = FPOPTTOL st.
Proof.
  revert fl st. induction fuel as [|n IH]; intros fl st; cbn [loop];
    [discriminate|].
  pose proof (solve_realParam (fromScratch fl) st) as Hs.
  destruct (_solveRealForRational (fromScratch fl) st) as [r st1].
  cbn [fst snd] in Hs. destruct Hs as [Hs1 Hs2].
  destruct (stops au ai r).
  { intros [= _ <-]. split; assumption. }
  pose proof (ladder_realParam fns sv r fl st1) as Hl.
  destruct (ladder fns sv r fl st1) as [fl2 st2|st2]; destruct Hl as [Hl1 Hl2].
  - intros H. apply IH in H as [H1 H2]. split; congruence.
  - intros [= _ <-]. split; congruence.
Qed.

Lemma intParam_setIntParam_eq (p : IntParam) (v : Z) (st : State) :
  intParam p (setIntParam p v st) = v.
Proof. unfold intParam, setIntParam. cbn. rewrite decide_True; reflexivity. Qed.

Lemma intParam_setIntParam_ne (p p' : IntParam) (v : Z) (st : State) :
  p <> p' -> intParam p (setIntParam p' v st) = intParam p st.
Proof.
  intros H. unfold intParam, setIntParam. cbn. rewrite decide_False; auto.
Qed.

(** The five integer parameters and the Markowitz threshold after
    [restore] are the saved ones, the solver's tolerances are the two
    tolerance parameters. *)
Lemma restore_settings (st0 st : State) :
  (forall p, intParam p (restore (save st0) st) = intParam p st0) /\
  markowitz (restore (save st0) st) = markowitz st0 /\
  feastol (restore (save st0) st) = FPFEASTOL st /\
  opttol (restore (save st0) st) = FPOPTTOL st /\
  FPFEASTOL (restore (save st0) st) = FPFEASTOL st /\
  FPOPTTOL (restore (save st0) st) = FPOPTTOL st /\
  ratiotester (restore (save st0) st) = intParam RATIOTESTER st0 /\
  pricer (restore (save st0) st) = intParam PRICER st0.
Proof.
  split; [intros p; destruct p; reflexivity|].
  repeat split; reflexivity.
Qed.


(** ** The ladder is finite *)

(** The solve and the factorization leave the solver's tolerance alone. *)
Hypothesis solve_feastol : forall b st,
  feastol (_solveRealForRational b st).2 = feastol st.
Hypothesis factorize_feastol : forall st,
  feastol (factorize st).1 = feastol st.

Definition pow1000 (k : nat) : Q := Nat.iter k (Qmult 1000) 1.

(** Steps that a flag still allows. *)
Definition todo (done : bool) : nat := if done then 0%nat else 1%nat.

(** Tightening steps from a tolerance of at most [10^-3]. *)
Definition tightenSteps (f : Q) : nat :=
  if Qle_bool f (1 # 1000000) then 1%nat else 2%nat.

(** An upper bound on the iterations that remain: every [continue]
    lowers it.  [k] bounds the relaxing steps that are still needed. *)
Definition potential (fl : Flags) (k : nat) (f : Q) : nat :=
  (todo (turnedoffPre fl) + todo (increasedMarkowitz fl)
   + todo (solvedFromScratch fl) + todo (switchedScaler fl)
   + todo (switchedSimplifier fl)
   + (if relaxedTolerances fl then 0 else 2 * S k)
   + (if tightenedTolerances fl then 0
      else if relaxedTolerances fl then 2 * tightenSteps f else 4)
   + 2 * todo (switchedRatiotester fl) + 2 * todo (switchedPricer fl))%nat.

Definition ladderInv (fl : Flags) (k : nat) (f : Q) : Prop :=
  if relaxedTolerances fl then f <= 1 # 1000 else 1 # 1000 <= f * pow1000 k.

Lemma relax_step (f : Q) (k : nat) :
  1 # 1000 <= f * pow1000 k ->
  let f' := if Qltb (1 # 1000) (f * 1000) then 1 # 1000 else f * 1000 in
  if Qle_bool (1 # 1000) f' then f' <= 1 # 1000
  else exists k', k = S k' /\ 1 # 1000 <= f' * pow1000 k'.
Proof.
  intros Hk. cbv zeta.
  destruct (Qltb (1 # 1000) (f * 1000)) eqn:E1.
  - cbn. apply Qle_refl.
  - apply Qltb_ge in E1.
    destruct (Qle_bool (1 # 1000) (f * 1000)) eqn:E2; [exact E1|].
    apply Qle_bool_false_iff in E2.
    destruct k as [|k'].
    + exfalso. unfold pow1000 in Hk. cbn in Hk. lra.
    + exists k'. split; [reflexivity|].
      unfold pow1000 in *.
      change (Nat.iter (S k') (Qmult 1000) 1)
        with (1000 * Nat.iter k' (Qmult 1000) 1) in Hk.
      generalize dependent (Nat.iter k' (Qmult 1000) 1). intros p Hk.
      assert (Heq : f * 1000 * p == f * (1000 * p)) by ring.
      rewrite Heq. exact Hk.
Qed.

Lemma tighten_step (f : Q) :
  f <= 1 # 1000 ->
  let f' := if Qltb (f * (1 # 1000)) (1 # 1000000000)
            then 1 # 1000000000 else f * (1 # 1000) in
  f' <= 1 # 1000 /\
  if Qle_bool f' (1 # 1000000000) then True
  else (tightenSteps f' < tightenSteps f)%nat.
Proof.
  intros Hf. cbv zeta.
  destruct (Qltb (f * (1 # 1000)) (1 # 1000000000)) eqn:E1.
  - split; [cbn; lra|]. reflexivity.
  - apply Qltb_ge in E1. split; [lra|].
    destruct (Qle_bool (f * (1 # 1000)) (1 # 1000000000)) eqn:E2; [exact I|].
    apply Qle_bool_false_iff in E2. unfold tightenSteps.
    destruct (Qle_bool (f * (1 # 1000)) (1 # 1000000)) eqn:E3.
    + destruct (Qle_bool f (1 # 1000000)) eqn:E4; [|lia].
      apply Qle_bool_iff in E4. lra.
    + apply Qle_bool_false_iff in E3. lra.
Qed.

Ltac destruct_test c :=
  first
    [ is_var c; destruct c
    | match c with
      | context [?b] =>
          is_var b;
          match type of b with bool => destruct b end
      end
    | destruct c eqn:? ].

Ltac ladder_flag :=
  first
    [ lazymatch goal with
      | |- match (if ?c then _ else _) with Continue _ _ => _ | Break _ => _ end =>
          destruct_test c
      end
    | lazymatch goal with
      | |- match (match (if ?c then _ else _) with _ => _ end)
           with Continue _ _ => _ | Break _ => _ end =>
          destruct_test c
      end
    | lazymatch goal with
      | |- context [factorize ?s] =>
          let H := fresh "Hfac" in
          pose proof (factorize_feastol s) as H;
          destruct (factorize s) as [? []]; cbn [fst snd] in H
      end ].

Lemma feastol_setIntParam (p : IntParam) (v : Z) (st : State) :
  feastol (setIntParam p v st) = feastol st.
Proof. reflexivity. Qed.

Lemma feastol_setMarkowitz (m : Q) (st : State) :
  feastol (setMarkowitz m st) = feastol st.
Proof. reflexivity. Qed.

Lemma feastol_setType (t : SolverType) (st : State) :
  feastol (setType t st) = feastol st.
Proof. reflexivity. Qed.

Lemma feastol_setDelta (d : Q) (st : State) : feastol (setDelta d st) = d.
Proof. reflexivity. Qed.

Lemma feastol_if (b : bool) (st1 st2 : State) :
  feastol (if b then st1 else st2) = if b then feastol st1 else feastol st2.
Proof. destruct b; reflexivity. Qed.

Lemma tightenSteps_le (f : Q) : (1 <= tightenSteps f <= 2)%nat.
Proof. unfold tightenSteps. destruct (Qle_bool f (1 # 1000000)); lia. Qed.

Lemma ladder_progress (fns : bool) (sv : Saved) (r : Status) (fl : Flags)
  (st : State) (k : nat) :
  ladderInv fl k (feastol st) ->
  match ladder fns sv r fl st with
  | Continue fl' st' =>
      exists k', ladderInv fl' k' (feastol st') /\
                 (potential fl' k' (feastol st') < potential fl k (feastol st))%nat
  | Break _ => True
  end.
Proof.
  intros Inv. destruct fl as [fs sfs ini im rt tt ss ssi sr sp tp].
  unfold ladder, ladderInv in *.
  cbn [initialSolve turnedoffPre increasedMarkowitz solvedFromScratch
       switchedScaler switchedSimplifier relaxedTolerances tightenedTolerances
       switchedRatiotester switchedPricer] in *.
  destruct ini;
    cbn -[Qle_bool Qltb Qmult potential setIntParam setType setDelta
          setMarkowitz].
  all: repeat (ladder_flag;
               cbn -[Qle_bool Qltb Qmult potential setIntParam setType setDelta
                     setMarkowitz]).
  all: try exact I.
  all: repeat match goal with
       | |- context [feastol (if ?c then _ else _)] => destruct c
       end.
  all: rewrite ?feastol_setIntParam, ?feastol_setType, ?feastol_setDelta,
               ?feastol_setIntParam, ?feastol_setMarkowitz.
  all: try match goal with
       | H : feastol ?s = _ |- _ => cbn in H; rewrite ?H
       end.
  all: try (exists k; split; [exact Inv|];
            unfold potential, todo; cbn; repeat case_match; lia).
  all: match goal with
       | |- context [Qltb (1 # 1000) (?f * 1000)] =>
           let R := fresh "R" in
           pose proof (relax_step f k Inv) as R; cbv zeta in R;
           set (f' := if Qltb (1 # 1000) (f * 1000)
                      then 1 # 1000 else f * 1000) in *;
           pose proof (tightenSteps_le f');
           destruct (Qle_bool (1 # 1000) f');
           [ exists k | destruct R as (k' & -> & R); exists k' ];
           (split; [exact R|])
       | |- context [Qltb (?f * (1 # 1000)) (1 # 1000000000)] =>
           let T1 := fresh "T" in
           let T2 := fresh "T" in
           pose proof (tighten_step f Inv) as [T1 T2]; cbv zeta in T1, T2;
           set (f' := if Qltb (f * (1 # 1000)) (1 # 1000000000)
                      then 1 # 1000000000 else f * (1 # 1000)) in *;
           pose proof (tightenSteps_le f); pose proof (tightenSteps_le f');
           destruct (Qle_bool f' (1 # 1000000000));
           exists k; (split; [exact T1|])
       end.
  all: unfold potential, todo;
       cbn [initialSolve turnedoffPre increasedMarkowitz solvedFromScratch
            switchedScaler switchedSimplifier relaxedTolerances
            tightenedTolerances switchedRatiotester switchedPricer
            unscratch set_relaxedTolerances set_tightenedTolerances
            set_initialSolve set_increasedMarkowitz];
       repeat case_match; lia.
Qed.

Lemma loop_returns (n : nat) (au ai fns : bool) (sv : Saved) (fl : Flags)
  (st : State) (k : nat) :
  ladderInv fl k (feastol st) ->
  (potential fl k (feastol st) < n)%nat ->
  exists r st', loop n au ai fns sv fl st = Some (r, st').
Proof.
  revert fl st k. induction n as [|n IH]; intros fl st k Inv Hn; [lia|].
  cbn [loop].
  pose proof (solve_feastol (fromScratch fl) st) as Hs.
  destruct (_solveRealForRational (fromScratch fl) st) as [r st1].
  cbn [snd] in Hs. rewrite <- Hs in Inv, Hn.
  destruct (stops au ai r); [eauto|].
  pose proof (ladder_progress fns sv r fl st1 k Inv) as Hl.
  destruct (ladder fns sv r fl st1) as [fl2 st2|st2]; [|eauto].
  destruct Hl as (k' & Inv' & Hlt).
  apply (IH fl2 st2 k' Inv'). lia.
Qed.

(** C8. [_solveRealStable] and the settings.
    - Whenever it returns, by an accepted result, by [ABORT_TIME] or
      [ABORT_ITER], or by giving up at the end of the ladder, the
      parameters [RATIOTESTER], [PRICER], [SIMPLIFIER], [SCALER] and
      [ALGORITHM] and the Markowitz threshold have the values they had at
      entry, whatever the solves and the ladder did to them in between;
      the solver's feasibility and optimality tolerances are the parameters
      [FPFEASTOL] and [FPOPTTOL], which are the values at entry when the
      solver is entered with its tolerances set from these parameters, as
      the callers do.
    - It does return: if [k] relaxing steps take the tolerance at entry to
      [10^-3], then [2 k + 16] iterations of the loop are enough, whatever
      the solves answer. *)
Theorem solveRealStable_restores (fuel : nat)
  (acceptUnbounded acceptInfeasible forceNoSimplifier : bool) (st : State) :
  (forall result st',
     _solveRealStable fuel acceptUnbounded acceptInfeasible forceNoSimplifier st
       = Some (result, st') ->
     (forall p, intParam p st' = intParam p st) /\
     markowitz st' = markowitz st /\
     (feastol st' = FPFEASTOL st /\ opttol st' = FPOPTTOL st) /\
     (FPFEASTOL st' = FPFEASTOL st /\ FPOPTTOL st' = FPOPTTOL st) /\
     (feastol st = FPFEASTOL st -> opttol st = FPOPTTOL st ->
      feastol st' = feastol st /\ opttol st' = opttol st)) /\
  (forall k, 1 # 1000 <= feastol st * pow1000 k -> (2 * k + 16 <= fuel)%nat ->
     exists result st',
       _solveRealStable fuel acceptUnbounded acceptInfeasible forceNoSimplifier
         st = Some (result, st')).
Proof.
  unfold _solveRealStable. split.
  - intros result st' H.
    destruct (loop fuel acceptUnbounded acceptInfeasible forceNoSimplifier
                (save st) initialFlags
                (if forceNoSimplifier
                 then setIntParam SIMPLIFIER SIMPLIFIER_OFF st else st))
      as [[r st1]|] eqn:E; [|discriminate].
    injection H as <- <-.
    apply loop_realParam in E as [E1 E2].
    assert (F1 : FPFEASTOL st1 = FPFEASTOL st)
      by (rewrite E1; destruct forceNoSimplifier; reflexivity).
    assert (F2 : FPOPTTOL st1 = FPOPTTOL st)
      by (rewrite E2; destruct forceNoSimplifier; reflexivity).
    destruct (restore_settings st st1) as (Hi & Hm & Hf & Ho & Hpf & Hpo & _).
    split; [exact Hi|]. split; [exact Hm|].
    split; [split; congruence|]. split; [split; congruence|].
    intros G1 G2. split; congruence.
  - intros k Hk Hfuel.
    destruct (loop_returns fuel acceptUnbounded acceptInfeasible
                forceNoSimplifier (save st) initialFlags
                (if forceNoSimplifier
                 then setIntParam SIMPLIFIER SIMPLIFIER_OFF st else st) k)
      as (r & st1 & E).
    + unfold ladderInv. cbn. destruct forceNoSimplifier; exact Hk.
    + unfold potential. cbn. lia.
    + rewrite E. eauto.
Qed.

End Ladder.

(** ** Runs of the ladder *)

(** Settings as a user may have them, with the numbering of the parameter
    table ([SIMPLIFIER_OFF = 0], [SIMPLIFIER_INTERNAL = 3], [SCALER_OFF = 0],
    [SCALER_BIEQUI = 2], [ALGORITHM_PRIMAL = 0], [ALGORITHM_DUAL = 1],
    [RATIOTESTER_TEXTBOOK = 0], [RATIOTESTER_FAST = 2], [PRICER_DEVEX = 3],
    [PRICER_STEEP = 5]); the solver's internals are reduced to the number
    of solves so far. *)
Definition example_state : State nat :=
  mkState nat
    (fun p => match p with
              | RATIOTESTER => 3 | PRICER => 0 | SIMPLIFIER => 1
              | SCALER => 2 | ALGORITHM => 1
              end%Z)
    (1 # 1000000000) (1 # 1000000000) (1 # 100)
    (1 # 1000000000) (1 # 1000000000) LEAVE 3 0 0%nat.

Definition count_solve (st : State nat) : State nat :=
  mkState nat (ints nat st) (FPFEASTOL nat st) (FPOPTTOL nat st)
          (markowitz nat st) (feastol nat st) (opttol nat st) (type nat st)
          (ratiotester nat st) (pricer nat st) (S (internals nat st)).

(** A solve that fails every time, one that hits the time limit at the
    fourth call, and a factorization that succeeds. *)
Definition failing_solve (fromScratch : bool) (st : State nat)
  : Status * State nat := (SINGULAR, count_solve st).

Definition timed_solve (fromScratch : bool) (st : State nat)
  : Status * State nat :=
  (if (internals nat st <? 3)%nat then SINGULAR else ABORT_TIME, count_solve st).

Definition example_factorize (st : State nat) : State nat * bool := (st, true).

Definition run (solve : bool -> State nat -> Status * State nat) (fuel : nat)
  : option (Status * State nat) :=
  _solveRealStable 0 3 0 2 0 1 0 2 3 5 nat solve example_factorize fuel
                   false false false example_state.

(** The settings of a final state, listed. *)
Definition settings (st : State nat) : list Z * list Q :=
  ([intParam nat RATIOTESTER st; intParam nat PRICER st;
    intParam nat SIMPLIFIER st; intParam nat SCALER st;
    intParam nat ALGORITHM st],
   [markowitz nat st; feastol nat st; opttol nat st]).

(** The ladder walked to the end takes seventeen solves and gives up; the
    time limit ends it at the fourth; the settings are the same after
    both. *)
Lemma run_examples :
  (fst <$> run failing_solve 20) = Some SINGULAR /\
  (internals nat ∘ snd <$> run failing_solve 20) = Some 17%nat /\
  (settings ∘ snd <$> run failing_solve 20) = Some (settings example_state) /\
  (fst <$> run timed_solve 20) = Some ABORT_TIME /\
  (internals nat ∘ snd <$> run timed_solve 20) = Some 4%nat /\
  (settings ∘ snd <$> run timed_solve 20) = Some (settings example_state).
Proof. repeat split; vm_compute; reflexivity. Qed.

Lemma solveRealStable_restores_witness :
  1 # 1000 <= feastol nat example_state * pow1000 2 /\
  exists result st',
    run failing_solve 20 = Some (result, st') /\
    (forall p, intParam nat p st' = intParam nat p example_state) /\
    markowitz nat st' = markowitz nat example_state /\
    feastol nat st' = feastol nat example_state /\
    opttol nat st' = opttol nat example_state.
Proof.
  assert (Hk : 1 # 1000 <= feastol nat example_state * pow1000 2)
    by (vm_compute; discriminate).
  split; [exact Hk|].
  destruct (solveRealStable_restores 0 3 0 2 0 1 0 2 3 5 nat failing_solve
              example_factorize
              (fun _ _ => conj eq_refl eq_refl) (fun _ => conj eq_refl eq_refl)
              (fun _ _ => eq_refl) (fun _ => eq_refl)
              20 false false false example_state) as [A B].
  destruct (B 2%nat Hk (le_n 20)) as (result & st' & E).
  exists result, st'. split; [exact E|].
  destruct (A result st' E) as (Hi & Hm & _ & _ & Ht).
  destruct (Ht eq_refl eq_refl) as [Hf Ho].
  split; [exact Hi|]. split; [exact Hm|]. split; [exact Hf | exact Ho].
Defined.

End Stable.

(** * The violations of a rational solution ([soplex/solverational.hpp]) *)

Module Violation.

Import SSVector LP.

Definition ty (types : list RangeType) (i : nat) : RangeType :=
  default RANGETYPE_FREE (types !! i).

(** The body of the loop of [_computeBoundsViolation], on [_modLower],
    [_modUpper] and [boundsViolation]. *)
Definition boundsBody (lp : LP.t) (_colTypes : list RangeType) (sol : Sol)
  (c : nat) (st : list Q * list Q * Q) : list Q * list Q * Q :=
  let '(ml, mu, bv) := st in
  let '(ml, bv) :=
    if _lowerFinite (ty _colTypes c) then
      let ml :=
        <[c := if Qeq_bool (get (lower lp) c) 0
               then get (_primal sol) c * -1
               else get (lower lp) c - get (_primal sol) c]> ml in
      (ml, if Qltb bv (get ml c) then get ml c else bv)
    else (ml, bv) in
  let '(mu, bv) :=
    if _upperFinite (ty _colTypes c) then
      let mu :=
        <[c := if Qeq_bool (get (upper lp) c) 0
               then get (_primal sol) c * -1
               else get (upper lp) c - get (_primal sol) c]> mu in
      (mu, if Qltb (get mu c) (- bv) then - get mu c else bv)
    else (mu, bv) in
  (ml, mu, bv).

(** [_computeBoundsViolation(sol, boundsViolation)] on the rational LP;
    returns [_modLower], [_modUpper] and [boundsViolation]. *)
Definition _computeBoundsViolation (lp : LP.t) (_colTypes : list RangeType)
  (sol : Sol) (_modLower _modUpper : list Q) : list Q * list Q * Q :=
  for_down (nCols lp) (boundsBody lp _colTypes sol) (_modLower, _modUpper, 0).

(** What [_computeBoundsViolation] leaves in a cell of [_modLower] or
    [_modUpper]: the bound minus the primal value. *)
Lemma mod_cell (b p : Q) :
  (if Qeq_bool b 0 then p * -1 else b - p) == b - p.
Proof.
  destruct (Qeq_bool b 0) eqn:E; [|reflexivity].
  apply Qeq_bool_iff in E. rewrite E. ring.
Qed.

(** The state of the loop before pass [k - 1]: the columns from [k] on are
    accounted for. *)
Definition boundsInv (lp : LP.t) (types : list RangeType) (sol : Sol) (n k : nat)
  (st : list Q * list Q * Q) : Prop :=
  let '(ml, mu, bv) := st in
  length ml = n /\ length mu = n /\ 0 <= bv /\
  (forall c, (k <= c < n)%nat -> _lowerFinite (ty types c) = true ->
     get ml c == get (lower lp) c - get (_primal sol) c /\
     get (lower lp) c - get (_primal sol) c <= bv) /\
  (forall c, (k <= c < n)%nat -> _upperFinite (ty types c) = true ->
     get mu c == get (upper lp) c - get (_primal sol) c /\
     get (_primal sol) c - get (upper lp) c <= bv) /\
  (bv == 0 \/
   exists c, (k <= c < n)%nat /\
     ((_lowerFinite (ty types c) = true /\
       bv == get (lower lp) c - get (_primal sol) c) \/
      (_upperFinite (ty types c) = true /\
       bv == get (_primal sol) c - get (upper lp) c))).

Lemma bounds_step (lp : LP.t) (types : list RangeType) (sol : Sol) (n c : nat)
  (st : list Q * list Q * Q) :
  (c < n)%nat -> boundsInv lp types sol n (S c) st ->
  boundsInv lp types sol n c (boundsBody lp types sol c st).
Proof.
  intros Hc. destruct st as [[ml mu] bv].
  intros (Hl & Hu & Hbv & HL & HU & Hex).
  unfold boundsBody.
  set (vl := if Qeq_bool (get (lower lp) c) 0 then get (_primal sol) c * -1
             else get (lower lp) c - get (_primal sol) c).
  set (vu := if Qeq_bool (get (upper lp) c) 0 then get (_primal sol) c * -1
             else get (upper lp) c - get (_primal sol) c).
  assert (Hvl : vl == get (lower lp) c - get (_primal sol) c) by apply mod_cell.
  assert (Hvu : vu == get (upper lp) c - get (_primal sol) c) by apply mod_cell.
  rewrite (get_insert_eq ml c vl) by lia.
  rewrite (get_insert_eq mu c vu) by lia.
  assert (Hother : forall (l : list Q) v c', (S c <= c')%nat ->
            get (<[c := v]> l) c' = get l c').
  { intros l v c' H. apply get_insert_ne. lia. }
  destruct (_lowerFinite (ty types c)) eqn:Flo;
    destruct (_upperFinite (ty types c)) eqn:Fup;
    cbv beta iota zeta; qcases; unfold boundsInv;
    rewrite ?length_insert;
    (split; [exact Hl|]); (split; [exact Hu|]); (split; [lra|]);
    (split; [|split]).
  all: try (intros c' Hc' F; destruct (decide (c' = c)) as [->|Hne];
            [ rewrite ?get_insert_eq by lia; try congruence; split; lra
            | rewrite ?Hother by lia;
              first [ destruct (HL c' ltac:(lia) F) as [H1 H2]
                    | destruct (HU c' ltac:(lia) F) as [H1 H2] ];
              split; [exact H1 | lra] ]).
  all: try (destruct Hex as [H0|(c' & Hc' & Hw)];
            [ first [ left; lra
                    | right; exists c; split; [lia|]; left; split; [exact Flo | lra]
                    | right; exists c; split; [lia|]; right; split; [exact Fup | lra] ]
            | first [ right; exists c'; split; [lia|];
                      destruct Hw as [[Hw1 Hw2]|[Hw1 Hw2]];
                      [left | right]; (split; [assumption | lra])
                    | right; exists c; split; [lia|]; left; split; [exact Flo | lra]
                    | right; exists c; split; [lia|]; right; split; [exact Fup | lra] ] ]).
Qed.

Lemma computeBoundsViolation_inv (lp : LP.t) (types : list RangeType) (sol : Sol)
  (ml mu : list Q) :
  length ml = nCols lp -> length mu = nCols lp ->
  boundsInv lp types sol (nCols lp) 0
    (_computeBoundsViolation lp types sol ml mu).
Proof.
  intros Hl Hu. unfold _computeBoundsViolation.
  apply (for_down_ind (boundsInv lp types sol (nCols lp))).
  - unfold boundsInv. split; [exact Hl|]. split; [exact Hu|].
    split; [lra|]. split; [intros c Hc; lia|]. split; [intros c Hc; lia|].
    left. reflexivity.
  - intros c s Hc Hs. apply bounds_step; assumption.
Qed.

(** [_computeBoundsViolation] returns the largest amount by which the
    primal solution violates a finite bound, and 0 when there is none:
    the result is not negative, no finite lower bound exceeds the primal
    value and no primal value exceeds a finite upper bound by more than the
    result, and the result is 0 or one of these excesses.  It is 0 exactly
    when the primal solution is within all finite bounds.  Every cell of
    [_modLower] and [_modUpper] of a finite bound holds the bound minus the
    primal value. *)
Theorem computeBoundsViolation_max (lp : LP.t) (types : list RangeType)
  (sol : Sol) (ml mu : list Q) :
  length ml = nCols lp -> length mu = nCols lp ->
  let '(ml', mu', bv) := _computeBoundsViolation lp types sol ml mu in
  0 <= bv /\
  (forall c, (c < nCols lp)%nat -> _lowerFinite (ty types c) = true ->
     get ml' c == get (lower lp) c - get (_primal sol) c /\
     get (lower lp) c - get (_primal sol) c <= bv) /\
  (forall c, (c < nCols lp)%nat -> _upperFinite (ty types c) = true ->
     get mu' c == get (upper lp) c - get (_primal sol) c /\
     get (_primal sol) c - get (upper lp) c <= bv) /\
  (bv == 0 \/
   exists c, (c < nCols lp)%nat /\
     ((_lowerFinite (ty types c) = true /\
       bv == get (lower lp) c - get (_primal sol) c) \/
      (_upperFinite (ty types c) = true /\
       bv == get (_primal sol) c - get (upper lp) c))) /\
  (bv == 0 <->
   forall c, (c < nCols lp)%nat ->
     (_lowerFinite (ty types c) = true ->
        get (lower lp) c <= get (_primal sol) c) /\
     (_upperFinite (ty types c) = true ->
        get (_primal sol) c <= get (upper lp) c)).
Proof.
  intros Hl Hu.
  pose proof (computeBoundsViolation_inv lp types sol ml mu Hl Hu) as H.
  destruct (_computeBoundsViolation lp types sol ml mu) as [[ml' mu'] bv].
  destruct H as (_ & _ & Hbv & HL & HU & Hex).
  split; [exact Hbv|].
  split; [intros c Hc; apply HL; lia|].
  split; [intros c Hc; apply HU; lia|].
  split.
  { destruct Hex as [H0|(c & Hc & Hw)]; [left; exact H0|].
    right. exists c. split; [lia | exact Hw]. }
  split.
  - intros H0 c Hc. split; intros F.
    + destruct (HL c ltac:(lia) F) as [_ H]. lra.
    + destruct (HU c ltac:(lia) F) as [_ H]. lra.
  - intros Hall. destruct Hex as [H0|(c & Hc & Hw)]; [exact H0|].
    destruct (Hall c ltac:(lia)) as [H1 H2].
    destruct Hw as [[F Hw]|[F Hw]]; [specialize (H1 F) | specialize (H2 F)]; lra.
Qed.

(** ** A maximum kept along a loop *)

(** [cand c x]: [x] is one of the amounts that pass [c] compares the
    running maximum with.  When every pass leaves a value that is not below
    the one before nor below a candidate of the pass, and that is the one
    before or a candidate of the pass, the loop ends with the largest of
    the initial value and all candidates. *)
Lemma running_max {St : Type} (val : St -> Q) (Inv : St -> Prop)
  (cand : nat -> Q -> Prop) (n : nat) (body : nat -> St -> St) (st : St) :
  (forall c x y, x == y -> cand c x -> cand c y) ->
  Inv st ->
  (forall c s, (c < n)%nat -> Inv s ->
     Inv (body c s) /\
     val s <= val (body c s) /\
     (forall x, cand c x -> x <= val (body c s)) /\
     (val (body c s) == val s \/ cand c (val (body c s)))) ->
  Inv (for_down n body st) /\
  val st <= val (for_down n body st) /\
  (forall c x, (c < n)%nat -> cand c x -> x <= val (for_down n body st)) /\
  (val (for_down n body st) == val st \/
   exists c, (c < n)%nat /\ cand c (val (for_down n body st))).
Proof.
  intros Hproper Hinit Hstep.
  enough (H : Inv (for_down n body st) /\
          val st <= val (for_down n body st) /\
          (forall c x, (0 <= c < n)%nat -> cand c x ->
             x <= val (for_down n body st)) /\
          (val (for_down n body st) == val st \/
           exists c, (0 <= c < n)%nat /\ cand c (val (for_down n body st)))).
  { destruct H as (H0 & H1 & H2 & H3). split; [exact H0|].
    split; [exact H1|]. split.
    - intros c x Hc. apply H2. lia.
    - destruct H3 as [H3|(c & Hc & H3)]; [left; exact H3|].
      right. exists c. split; [lia | exact H3]. }
  apply (for_down_ind (fun k s =>
           Inv s /\ val st <= val s /\
           (forall c x, (k <= c < n)%nat -> cand c x -> x <= val s) /\
           (val s == val st \/ exists c, (k <= c < n)%nat /\ cand c (val s)))
         n body st).
  - split; [exact Hinit|]. split; [lra|]. split; [intros c x Hc; lia|].
    left. reflexivity.
  - intros c s Hc (H0 & H1 & H2 & H3).
    destruct (Hstep c s Hc H0) as (S0 & S1 & S2 & S3).
    split; [exact S0|]. split; [lra|]. split.
    + intros c' x Hc' Hx. destruct (decide (c' = c)) as [->|Hne].
      * apply S2. exact Hx.
      * apply Qle_trans with (val s); [|exact S1]. apply (H2 c'); [lia | exact Hx].
    + destruct S3 as [S3|S3].
      * destruct H3 as [H3|(c' & Hc' & H3)].
        -- left. rewrite S3. exact H3.
        -- right. exists c'. split; [lia|].
           apply (Hproper c' (val s)); [symmetry; exact S3 | exact H3].
      * right. exists c. split; [lia | exact S3].
Qed.

Definition status (statuses : list VarStatus) (i : nat) : VarStatus :=
  default UNDEFINED (statuses !! i).

(** The body of the loop of [_computeSidesViolation], on [_modLhs],
    [_modRhs] and [sideViolation]. *)
Definition sidesBody (lp : LP.t) (_rowTypes : list RangeType)
  (_basisStatusRows : list VarStatus) (sol : Sol)
  (r : nat) (st : list Q * list Q * Q) : list Q * list Q * Q :=
  let '(ml, mu, sv) := st in
  let basisStatusRow := status _basisStatusRows r in
  let '(ml, sv) :=
    if _lowerFinite (ty _rowTypes r) then
      let ml :=
        <[r := if Qeq_bool (get (lhs lp) r) 0
               then get (_slacks sol) r * -1
               else get (lhs lp) r - get (_slacks sol) r]> ml in
      (ml,
       if Qltb sv (get ml r) then get ml r
       else if bool_decide (basisStatusRow = ON_LOWER) && Qltb (get ml r) (- sv)
            then - get ml r else sv)
    else (ml, sv) in
  let '(mu, sv) :=
    if _upperFinite (ty _rowTypes r) then
      let mu :=
        <[r := if Qeq_bool (get (rhs lp) r) 0
               then get (_slacks sol) r * -1
               else get (rhs lp) r - get (_slacks sol) r]> mu in
      (mu,
       if Qltb (get mu r) (- sv) then - get mu r
       else if bool_decide (basisStatusRow = ON_UPPER) && Qltb sv (get mu r)
            then get mu r else sv)
    else (mu, sv) in
  (ml, mu, sv).

(** [_computeSidesViolation(sol, sideViolation)]; returns [_modLhs],
    [_modRhs] and [sideViolation]. *)
Definition _computeSidesViolation (lp : LP.t) (_rowTypes : list RangeType)
  (_basisStatusRows : list VarStatus) (sol : Sol) (_modLhs _modRhs : list Q)
  : list Q * list Q * Q :=
  for_down (nRows lp) (sidesBody lp _rowTypes _basisStatusRows sol)
           (_modLhs, _modRhs, 0).

(** The amounts that the pass for row [r] compares [sideViolation] with:
    the excess of a finite side over the activity and, for a row at a
    side, the distance of the activity from that side. *)
Definition sideExcess (lp : LP.t) (types : list RangeType)
  (statuses : list VarStatus) (sol : Sol) (r : nat) (x : Q) : Prop :=
  (_lowerFinite (ty types r) = true /\
   (x == get (lhs lp) r - get (_slacks sol) r \/
    (status statuses r = ON_LOWER /\
     x == get (_slacks sol) r - get (lhs lp) r))) \/
  (_upperFinite (ty types r) = true /\
   (x == get (_slacks sol) r - get (rhs lp) r \/
    (status statuses r = ON_UPPER /\
     x == get (rhs lp) r - get (_slacks sol) r))).

Lemma sideExcess_proper (lp : LP.t) (types : list RangeType)
  (statuses : list VarStatus) (sol : Sol) (r : nat) (x y : Q) :
  x == y -> sideExcess lp types statuses sol r x ->
  sideExcess lp types statuses sol r y.
Proof.
  intros Hxy. unfold sideExcess. rewrite Hxy. tauto.
Qed.

Lemma sides_step (lp : LP.t) (types : list RangeType)
  (statuses : list VarStatus) (sol : Sol) (n r : nat)
  (s : (list Q * list Q) * Q) :
  (r < n)%nat -> length (fst (fst s)) = n -> length (snd (fst s)) = n ->
  let s' := sidesBody lp types statuses sol r s in
  (length (fst (fst s')) = n /\ length (snd (fst s')) = n) /\
  snd s <= snd s' /\
  (0 <= snd s ->
   forall x, sideExcess lp types statuses sol r x -> x <= snd s') /\
  (snd s' == snd s \/ sideExcess lp types statuses sol r (snd s')).
Proof.
  destruct s as [[ml mu] sv]. cbn [fst snd]. intros Hr Hl Hu.
  unfold sidesBody.
  set (vl := if Qeq_bool (get (lhs lp) r) 0 then get (_slacks sol) r * -1
             else get (lhs lp) r - get (_slacks sol) r).
  set (vu := if Qeq_bool (get (rhs lp) r) 0 then get (_slacks sol) r * -1
             else get (rhs lp) r - get (_slacks sol) r).
  assert (Hvl : vl == get (lhs lp) r - get (_slacks sol) r) by apply mod_cell.
  assert (Hvu : vu == get (rhs lp) r - get (_slacks sol) r) by apply mod_cell.
  rewrite (get_insert_eq ml r vl) by lia.
  rewrite (get_insert_eq mu r vu) by lia.
  unfold sideExcess.
  destruct (_lowerFinite (ty types r)) eqn:Flo;
    destruct (_upperFinite (ty types r)) eqn:Fup;
    cbv beta iota zeta;
    repeat match goal with
    | |- context [bool_decide (?a = ?b)] =>
        destruct (bool_decide_reflect (a = b))
    end;
    cbn [andb]; qcases; cbn [fst snd]; rewrite ?length_insert;
    (split; [split; assumption|]); (split; [lra|]); (split; [|]).
  all: try (intros Hsv x [[F [Hx|[Hst Hx]]]|[F [Hx|[Hst Hx]]]];
            first [discriminate | congruence | lra]).
  all: try (left; lra).
  all: try (right; left; split; [reflexivity|]; left; lra).
  all: try (right; left; split; [reflexivity|]; right; split; [assumption | lra]).
  all: try (right; right; split; [reflexivity|]; left; lra).
  all: try (right; right; split; [reflexivity|]; right; split; [assumption | lra]).
Qed.

(** [_computeSidesViolation] returns the largest amount by which the
    row activities violate a finite side, where for a row whose basis
    status is [ON_LOWER] or [ON_UPPER] the distance of the activity from
    that side counts as well, and 0 when there is none.  It is 0 exactly
    when every activity is within its finite sides and every row at a
    finite side has its activity equal to that side. *)
Theorem computeSidesViolation_max (lp : LP.t) (types : list RangeType)
  (statuses : list VarStatus) (sol : Sol) (ml mu : list Q) :
  length ml = nRows lp -> length mu = nRows lp ->
  let sv := snd (_computeSidesViolation lp types statuses sol ml mu) in
  0 <= sv /\
  (forall r x, (r < nRows lp)%nat ->
     sideExcess lp types statuses sol r x -> x <= sv) /\
  (sv == 0 \/
   exists r, (r < nRows lp)%nat /\ sideExcess lp types statuses sol r sv) /\
  (sv == 0 <->
   forall r, (r < nRows lp)%nat ->
     (_lowerFinite (ty types r) = true ->
        get (lhs lp) r <= get (_slacks sol) r /\
        (status statuses r = ON_LOWER ->
           get (_slacks sol) r == get (lhs lp) r)) /\
     (_upperFinite (ty types r) = true ->
        get (_slacks sol) r <= get (rhs lp) r /\
        (status statuses r = ON_UPPER ->
           get (_slacks sol) r == get (rhs lp) r))).
Proof.
  intros Hl Hu. cbv zeta. unfold _computeSidesViolation.
  destruct (running_max snd
              (fun s : list Q * list Q * Q =>
                 length (fst (fst s)) = nRows lp /\
                 length (snd (fst s)) = nRows lp /\ 0 <= snd s)
              (sideExcess lp types statuses sol) (nRows lp)
              (sidesBody lp types statuses sol) (ml, mu, 0))
    as ((_ & _ & Hsv) & _ & Hmax & Hex).
  { intros c x y. apply sideExcess_proper. }
  { cbn. split; [exact Hl|]. split; [exact Hu | lra]. }
  { intros r s Hr (H1 & H2 & H3).
    destruct (sides_step lp types statuses sol (nRows lp) r s Hr H1 H2)
      as ((L1 & L2) & S1 & S2 & S3).
    split; [split; [exact L1|]; split; [exact L2 | lra]|].
    split; [exact S1|]. split; [apply S2; exact H3 | exact S3]. }
  cbn [snd] in Hex.
  set (sv := snd (for_down (nRows lp) (sidesBody lp types statuses sol)
                           (ml, mu, 0))) in *.
  split; [exact Hsv|]. split; [exact Hmax|]. split; [exact Hex|].
  split.
  - intros H0 r Hr. split; intros F.
    + split.
      * assert (H : get (lhs lp) r - get (_slacks sol) r <= sv).
        { apply (Hmax r); [exact Hr|]. left. split; [exact F|]. left.
          reflexivity. }
        lra.
      * intros Hst.
        assert (H : get (lhs lp) r - get (_slacks sol) r <= sv).
        { apply (Hmax r); [exact Hr|]. left. split; [exact F|]. left.
          reflexivity. }
        assert (H' : get (_slacks sol) r - get (lhs lp) r <= sv).
        { apply (Hmax r); [exact Hr|]. left. split; [exact F|]. right.
          split; [exact Hst | reflexivity]. }
        lra.
    + split.
      * assert (H : get (_slacks sol) r - get (rhs lp) r <= sv).
        { apply (Hmax r); [exact Hr|]. right. split; [exact F|]. left.
          reflexivity. }
        lra.
      * intros Hst.
        assert (H : get (_slacks sol) r - get (rhs lp) r <= sv).
        { apply (Hmax r); [exact Hr|]. right. split; [exact F|]. left.
          reflexivity. }
        assert (H' : get (rhs lp) r - get (_slacks sol) r <= sv).
        { apply (Hmax r); [exact Hr|]. right. split; [exact F|]. right.
          split; [exact Hst | reflexivity]. }
        lra.
  - intros Hall. destruct Hex as [H0|(r & Hr & Hw)]; [exact H0|].
    destruct (Hall r Hr) as [H1 H2].
    destruct Hw as [[F [Hw|[Hst Hw]]]|[F [Hw|[Hst Hw]]]].
    + destruct (H1 F) as [H3 _]. lra.
    + destruct (H1 F) as [_ H3]. specialize (H3 Hst). lra.
    + destruct (H2 F) as [H3 _]. lra.
    + destruct (H2 F) as [_ H3]. specialize (H3 Hst). lra.
Qed.

(** ** Reduced costs and duals *)

(** The two tests of a pass of [_computeReducedCostViolation] and
    [_computeDualViolation] on the basis status: whether a negative and
    whether a positive value counts as a violation. *)
Definition negativeCounts (maximizing : bool) (st : VarStatus) : bool :=
  (maximizing && negb (bool_decide (st = ON_LOWER)))
  || (negb maximizing && negb (bool_decide (st = ON_UPPER))).

Definition positiveCounts (maximizing : bool) (st : VarStatus) : bool :=
  (maximizing && negb (bool_decide (st = ON_UPPER)))
  || (negb maximizing && negb (bool_decide (st = ON_LOWER))).

(** The body of the loop of the two functions, which have the same text
    on different arrays. *)
Definition signBody (maximizing : bool) (types : list RangeType)
  (statuses : list VarStatus) (values : list Q) (c : nat) (v : Q) : Q :=
  if bool_decide (ty types c = RANGETYPE_FIXED) then v
  else
    let v :=
      if negativeCounts maximizing (status statuses c)
         && Qltb (get values c) (- v)
      then - get values c else v in
    if positiveCounts maximizing (status statuses c) && Qltb v (get values c)
    then get values c else v.

(** [_computeReducedCostViolation(sol, redCostViolation, maximizing)]. *)
Definition _computeReducedCostViolation (lp : LP.t) (_colTypes : list RangeType)
  (_basisStatusCols : list VarStatus) (sol : Sol) (maximizing : bool) : Q :=
  for_down (nCols lp)
    (signBody maximizing _colTypes _basisStatusCols (_redCost sol)) 0.

(** [_computeDualViolation(sol, dualViolation, maximizing)]. *)
Definition _computeDualViolation (lp : LP.t) (_rowTypes : list RangeType)
  (_basisStatusRows : list VarStatus) (sol : Sol) (maximizing : bool) : Q :=
  for_down (nRows lp)
    (signBody maximizing _rowTypes _basisStatusRows (_dual sol)) 0.

(** The amounts that pass [c] compares the violation with. *)
Definition signExcess (maximizing : bool) (types : list RangeType)
  (statuses : list VarStatus) (values : list Q) (c : nat) (x : Q) : Prop :=
  ty types c <> RANGETYPE_FIXED /\
  ((negativeCounts maximizing (status statuses c) = true /\
    x == - get values c) \/
   (positiveCounts maximizing (status statuses c) = true /\
    x == get values c)).

Lemma sign_max (maximizing : bool) (types : list RangeType)
  (statuses : list VarStatus) (values : list Q) (n : nat) :
  let v := for_down n (signBody maximizing types statuses values) 0 in
  0 <= v /\
  (forall c x, (c < n)%nat ->
     signExcess maximizing types statuses values c x -> x <= v) /\
  (v == 0 \/
   exists c, (c < n)%nat /\ signExcess maximizing types statuses values c v) /\
  (v == 0 <->
   forall c, (c < n)%nat -> ty types c <> RANGETYPE_FIXED ->
     (negativeCounts maximizing (status statuses c) = true ->
        0 <= get values c) /\
     (positiveCounts maximizing (status statuses c) = true ->
        get values c <= 0)).
Proof.
  cbv zeta.
  destruct (running_max (fun v : Q => v) (fun _ => True)
              (signExcess maximizing types statuses values) n
              (signBody maximizing types statuses values) 0)
    as (_ & Hv & Hmax & Hex).
  { intros c x y Hxy. unfold signExcess. rewrite Hxy. tauto. }
  { exact I. }
  { intros c v _ _. split; [exact I|]. unfold signBody, signExcess.
    destruct (bool_decide_reflect (ty types c = RANGETYPE_FIXED)) as [F|F].
    { split; [lra|]. split; [|left; reflexivity].
      intros x [Hx _]. contradiction. }
    destruct (negativeCounts maximizing (status statuses c));
      destruct (positiveCounts maximizing (status statuses c));
      cbn [andb]; qcases; (split; [lra|]); split.
    all: try (intros x [_ [[Hc Hx]|[Hc Hx]]]; first [discriminate | lra]).
    all: first [ left; lra
               | right; split; [exact F|]; left; split; [reflexivity | lra]
               | right; split; [exact F|]; right; split; [reflexivity | lra] ]. }
  set (v := for_down n (signBody maximizing types statuses values) 0) in *.
  split; [exact Hv|]. split; [exact Hmax|]. split; [exact Hex|].
  split.
  - intros H0 c Hc F. split; intros Hd.
    + assert (H : - get values c <= v).
      { apply (Hmax c); [exact Hc|]. split; [exact F|]. left.
        split; [exact Hd | reflexivity]. }
      lra.
    + assert (H : get values c <= v).
      { apply (Hmax c); [exact Hc|]. split; [exact F|]. right.
        split; [exact Hd | reflexivity]. }
      lra.
  - intros Hall. destruct Hex as [H0|(c & Hc & F & Hw)]; [exact H0|].
    destruct (Hall c Hc F) as [H1 H2].
    destruct Hw as [[Hd Hw]|[Hd Hw]];
      [specialize (H1 Hd) | specialize (H2 Hd)]; lra.
Qed.

(** [_computeReducedCostViolation] and [_computeDualViolation] return
    the largest amount by which a reduced cost (a dual value) of a column
    (a row) that is not of type [FIXED] has the wrong sign for its basis
    status, and 0 when there is none: when minimizing, a negative value
    counts unless the status is [ON_UPPER] and a positive one unless it is
    [ON_LOWER]; when maximizing the two statuses change places.  The result
    is 0 exactly when no value has a sign that counts. *)
Theorem signViolations_max (lp : LP.t) (colTypes rowTypes : list RangeType)
  (statusCols statusRows : list VarStatus) (sol : Sol) (maximizing : bool) :
  let rv := _computeReducedCostViolation lp colTypes statusCols sol maximizing in
  let dv := _computeDualViolation lp rowTypes statusRows sol maximizing in
  (0 <= rv /\
   (forall c x, (c < nCols lp)%nat ->
      signExcess maximizing colTypes statusCols (_redCost sol) c x -> x <= rv) /\
   (rv == 0 \/
    exists c, (c < nCols lp)%nat /\
      signExcess maximizing colTypes statusCols (_redCost sol) c rv) /\
   (rv == 0 <->
    forall c, (c < nCols lp)%nat -> ty colTypes c <> RANGETYPE_FIXED ->
      (negativeCounts maximizing (status statusCols c) = true ->
         0 <= get (_redCost sol) c) /\
      (positiveCounts maximizing (status statusCols c) = true ->
         get (_redCost sol) c <= 0))) /\
  (0 <= dv /\
   (forall r x, (r < nRows lp)%nat ->
      signExcess maximizing rowTypes statusRows (_dual sol) r x -> x <= dv) /\
   (dv == 0 \/
    exists r, (r < nRows lp)%nat /\
      signExcess maximizing rowTypes statusRows (_dual sol) r dv) /\
   (dv == 0 <->
    forall r, (r < nRows lp)%nat -> ty rowTypes r <> RANGETYPE_FIXED ->
      (negativeCounts maximizing (status statusRows r) = true ->
         0 <= get (_dual sol) r) /\
      (positiveCounts maximizing (status statusRows r) = true ->
         get (_dual sol) r <= 0))).
Proof.
  cbv zeta. split.
  - apply (sign_max maximizing colTypes statusCols (_redCost sol) (nCols lp)).
  - apply (sign_max maximizing rowTypes statusRows (_dual sol) (nRows lp)).
Qed.

(** A solution of a minimization LP with two columns: the first is below
    its lower bound by 1, the second, at its lower bound, has a negative
    reduced cost. *)
Definition violation_lp : LP.t :=
  LP.mk [0; 1] [4; 5] [1; 1] [0] [10] [[(0%nat, 1); (1%nat, 1)]] true.

Definition violation_sol : Sol :=
  mkSol [-1; 1] [0] [0] [0; -3] [] [] false false false false.

Lemma computeBoundsViolation_max_witness :
  length [0; 0] = nCols violation_lp /\
  snd (_computeBoundsViolation violation_lp [RANGETYPE_BOXED; RANGETYPE_BOXED]
         violation_sol [0; 0] [0; 0]) == 1 /\
  0 <= snd (_computeBoundsViolation violation_lp
              [RANGETYPE_BOXED; RANGETYPE_BOXED] violation_sol [0; 0] [0; 0]).
Proof.
  split; [reflexivity|]. split; [vm_compute; reflexivity|].
  pose proof (computeBoundsViolation_max violation_lp
                [RANGETYPE_BOXED; RANGETYPE_BOXED] violation_sol [0; 0] [0; 0]
                eq_refl eq_refl) as H.
  destruct (_computeBoundsViolation violation_lp
              [RANGETYPE_BOXED; RANGETYPE_BOXED] violation_sol [0; 0] [0; 0])
    as [[ml mu] bv].
  destruct H as (H & _). exact H.
Defined.

Lemma computeSidesViolation_max_witness :
  length [0] = nRows violation_lp /\
  0 <= snd (_computeSidesViolation violation_lp [RANGETYPE_BOXED] [ON_LOWER]
              violation_sol [0] [0]).
Proof.
  split; [reflexivity|].
  pose proof (computeSidesViolation_max violation_lp [RANGETYPE_BOXED] [ON_LOWER]
                violation_sol [0] [0] eq_refl eq_refl) as H.
  cbv zeta in H. destruct H as (H & _). exact H.
Defined.

End Violation.

(** * Lifting and projecting ([_lift], [_project]) *)

Module Lifting.

Import SSVector LP Transform.

(** The coefficient of row [r] in column [c], when the row has one. *)
Definition coeff (lp : LP.t) (r c : nat) : option Q :=
  rowVector lp !! r ≫= entry c.


Lemma entry_cons (c : nat) (e : nat * Q) (row : SVector) :
  entry c (e :: row) = if decide (fst e = c) then Some (snd e) else entry c row.
Proof.
  unfold entry. cbn. destruct (decide (fst e = c)); [reflexivity|].
  destruct (list_find _ row) as [[k e']|]; reflexivity.
Qed.


Lemma entry_absent (c : nat) (row : SVector) :
  c ∉ (fst <$> row) -> entry c row = None.
Proof.
  induction row as [|e row IH]; [reflexivity|].
  rewrite fmap_cons, not_elem_of_cons, entry_cons. intros [H1 H2].
  destruct (decide (fst e = c)); [congruence | exact (IH H2)].
Qed.






Lemma entry_snoc_other (i c : nat) (x : Q) (row : SVector) :
  c <> i -> entry c (row ++ [(i, x)]) = entry c row.
Proof.
  intros Hc. induction row as [|e row IH].
  - cbn [app]. rewrite entry_cons. cbn [fst].
    destruct (decide (i = c)); [congruence | reflexivity].
  - rewrite <- app_comm_cons, !entry_cons, IH. reflexivity.
Qed.





Lemma coeff_addRow (lp : LP.t) (inf l u : Q) (vec : SVector) (r c : nat) :
  (r < length (rowVector lp))%nat ->
  coeff (addRow inf l vec u lp) r c = coeff lp r c.
Proof.
  intros Hr. unfold coeff, addRow. cbn [rowVector].
  rewrite lookup_app_l by exact Hr. reflexivity.
Qed.

(** [colVector] lists the coefficients of a column, each once. *)
Lemma colVector_sound (lp : LP.t) (c k r : nat) (v : Q) :
  colVector c lp !! k = Some (r, v) -> coeff lp r c = Some v.
Proof.
  intros H. apply list_elem_of_lookup_2 in H. unfold colVector in H.
  apply list_elem_of_omap in H. destruct H as ([r' row] & Hin & Hf).
  apply elem_of_lookup_imap_1 in Hin. destruct Hin as (j & y & [= -> ->] & Hj).
  destruct (entry c y) as [w|] eqn:E; [|discriminate]. cbn in Hf.
  injection Hf as <- <-. unfold coeff. rewrite Hj. exact E.
Qed.


(** ** The arrays of an LP that only grows *)








Section Lift.

Variable toReal : Q -> Q.
Variable INFTY _rationalPosInfty _rationalNegInfty : Q.

(** The case analysis of one pass of the loop of [liftColumn]. *)
Ltac lift_pass test i d k E T :=
  cbv beta iota zeta;
  destruct (colVector i (_rationalLP d) !! k) as [[rowIndex value]|] eqn:E;
  [destruct (test value) eqn:T|].





(** A column none of whose coefficients [test] selects: [liftColumn]
    changes nothing. *)
Lemma liftColumn_idle (bound : Q) (test : Q -> bool) (i : nat) (d : Driver) :
  (forall r v, coeff (_rationalLP d) r i = Some v -> test v = false) ->
  liftColumn toReal INFTY _rationalPosInfty _rationalNegInfty bound test i d = d.
Proof.
  intros Hno. unfold liftColumn.
  match goal with
  | |- context [for_down ?n ?b ?s] =>
    pose proof (for_down_ind (fun _ st => st = (d, false, 0%nat)) n b s) as H
  end.
  cbv beta in H. rewrite H; [reflexivity | reflexivity |].
  intros k st _ ->.
  lift_pass test i d k E T; try reflexivity.
  apply colVector_sound in E. rewrite (Hno _ _ E) in T. discriminate.
Qed.

Lemma liftLoop_idle (bound : Q) (test : Q -> bool) (fuel : nat) :
  forall (i : nat) (d : Driver),
  (numColsRational d - i < fuel)%nat ->
  (forall r c v, coeff (_rationalLP d) r c = Some v -> test v = false) ->
  liftLoop toReal INFTY _rationalPosInfty _rationalNegInfty fuel bound test i d
  = Some d.
Proof.
  induction fuel as [|n IH]; intros i d Hf Hno; [lia|].
  cbn [liftLoop]. destruct (decide (i < numColsRational d)%nat) as [Hi|Hi];
    [|reflexivity].
  rewrite liftColumn_idle by (intros r v; apply Hno).
  apply IH; [lia | exact Hno].
Qed.


Variable LIFTMAXVAL LIFTMINVAL : Q.
Variable _rationalOpttol : Q.







(** When every coefficient of the rational LP has an absolute value
    between [LIFTMINVAL] and [LIFTMAXVAL], [_lift] returns after one pass
    over the columns with both LPs and the basis as they were: it has
    recorded the dimensions in [_beforeLiftCols] and [_beforeLiftRows]
    and, when there is a basis, cleared the rational LU factorization. *)
Theorem lift_nothing_to_lift (fuel : nat) (d : Driver) :
  (numColsRational d < fuel)%nat ->
  (forall r c v, coeff (_rationalLP d) r c = Some v ->
     LIFTMINVAL <= Qabs v <= LIFTMAXVAL) ->
  _lift toReal INFTY _rationalPosInfty _rationalNegInfty LIFTMAXVAL LIFTMINVAL
        fuel d =
  Some (let d0 := set_beforeLift (numColsRational d) (numRowsRational d) d in
        if _hasBasis d then clearLU d0 else d0).
Proof.
  intros Hf Hin. unfold _lift.
  set (d0 := set_beforeLift (numColsRational d) (numRowsRational d) d).
  rewrite liftLoop_idle.
  2:{ change (numColsRational d0) with (numColsRational d). lia. }
  2:{ intros r c v Hv. apply Qltb_ge. apply (Hin r c v Hv). }
  cbn [mbind option_bind]. rewrite liftLoop_idle.
  2:{ change (numColsRational d0) with (numColsRational d). lia. }
  2:{ intros r c v Hv. apply Qltb_ge. apply (Hin r c v Hv). }
  cbn [mbind option_bind]. f_equal. subst d0.
  destruct d as [q f ct rt cs rs hb bc br ul uu uh ur lu].
  unfold numColsRational, numRowsRational. cbn.
  rewrite !Nat.sub_diag. cbn [replicate]. rewrite !app_nil_r.
  destruct hb; reflexivity.
Qed.

End Lift.


(** The LP [roundtrip_lp] has the coefficients [1] and [2]. *)
Lemma lift_nothing_to_lift_witness :
  (numColsRational roundtrip_driver < 3)%nat /\
  _lift (fun x => x) infinity_example infinity_example (- infinity_example)
        1024 (1 # 1024) 3 roundtrip_driver
  = Some (clearLU (set_beforeLift 2 1 roundtrip_driver)).
Proof.
  split; [vm_compute; lia|].
  apply (lift_nothing_to_lift (fun x => x) infinity_example infinity_example
           (- infinity_example) 1024 (1 # 1024) 3 roundtrip_driver).
  - vm_compute. lia.
  - intros r c v. destruct r as [|r]; [|destruct r; discriminate].
    destruct c as [|[|c]]; cbn; intros [= <-] || discriminate;
      split; vm_compute; discriminate.
Defined.

End Lifting.

(** * Slack columns for the inequality rows ([_transformEquality],
      [_untransformEquality]) *)

Module Equality.

Import SSVector LP Transform.

(** A column of an [LPColSetRational]: objective, lower bound, column
    vector as (row, value) elements, upper bound. *)
Record LPCol : Type := mkLPCol {
  object : Q;
  low : Q;
  vec : SVector;
  up : Q
}.

(** [colVector(i).index(0)]. *)
Definition index0 (c : option LPCol) : nat :=
  match c with
  | Some c => match vec c with e :: _ => fst e | [] => 0%nat end
  | None => 0%nat
  end.

(** [addCols(set)]: the columns are appended with their bounds, the
    objective is stored in maximization form, and each element of a
    column vector is appended to its row.  [conv] converts the numbers of
    the set to those of the LP. *)
Definition addCols (conv : Q -> Q) (set : list LPCol) (lp : LP.t) : LP.t :=
  LP.mk (lower lp ++ ((fun c => conv (low c)) <$> set))
        (upper lp ++ ((fun c => conv (up c)) <$> set))
        (maxObj lp ++
           ((fun c => if minimize lp then conv (object c) * -1
                      else conv (object c)) <$> set))
        (lhs lp) (rhs lp)
        (foldl (fun rows jc =>
                  foldl (fun rows e =>
                           alter (fun row => row ++ [((nCols lp + fst jc)%nat,
                                                      conv (snd e))])
                                 (fst e) rows)
                        rows (vec (snd jc)))
               (rowVector lp) (imap (fun j c => (j, c)) set))
        (minimize lp).

Definition status (statuses : list VarStatus) (i : nat) : VarStatus :=
  default UNDEFINED (statuses !! i).

(** The [switch] on a basis status in both functions: the two bounds
    change places. *)
Definition swapStatus (s : VarStatus) : VarStatus :=
  match s with
  | ON_LOWER => ON_UPPER
  | ON_UPPER => ON_LOWER
  | s => s
  end.

Section Slack.

(** [R(.)] and [_switchRangeType], which is declared outside the files at
    hand. *)
Variable toReal : Q -> Q.
Variable _switchRangeType : RangeType -> RangeType.

(** One pass of "add artificial slack variables to convert inequality to
    equality constraints", on the two LPs, [_colTypes], [_rowTypes] and
    [_slackCols]. *)
Definition slackRow (i : nat)
  (st : LP.t * LP.t * list RangeType * list RangeType * list LPCol)
  : LP.t * LP.t * list RangeType * list RangeType * list LPCol :=
  let '(q, f, colTypes, rowTypes, slackCols) := st in
  if decide (ty rowTypes i <> RANGETYPE_FIXED) then
    let slackCols :=
      slackCols ++ [mkLPCol 0 (- get (rhs q) i) [(i, 1)] (- get (lhs q) i)] in
    let q := if negb (Qeq_bool (get (lhs q) i) 0) then changeLhs i 0 q else q in
    let q := if negb (Qeq_bool (get (rhs q) i) 0) then changeRhs i 0 q else q in
    let f := changeRhs i 0 (changeLhs i 0 f) in
    (q, f, colTypes ++ [_switchRangeType (ty rowTypes i)],
     <[i := RANGETYPE_FIXED]> rowTypes, slackCols)
  else st.

(** One pass of "adjust basis" in [_transformEquality], on
    [_basisStatusCols] and [_basisStatusRows]. *)
Definition slackBasis (slackCols : list LPCol) (i : nat)
  (st : list VarStatus * list VarStatus) : list VarStatus * list VarStatus :=
  let '(cols, rows) := st in
  let row := index0 (slackCols !! i) in
  (cols ++ [swapStatus (status rows row)], <[row := FIXED]> rows).

(** [_transformEquality()]; returns [_slackCols] with the driver. *)
Definition _transformEquality (d : Driver) : Driver * list LPCol :=
  let '(q, f, colTypes, rowTypes, _slackCols) :=
    for_up 0 (numRowsRational d) slackRow
      (_rationalLP d, _realLP d, _colTypes d, _rowTypes d, []) in
  let q := addCols (fun x => x) _slackCols q in
  let f := addCols toReal _slackCols f in
  let d := set_types colTypes rowTypes (set_LPs q f d) in
  (* adjust basis *)
  let d :=
    if _hasBasis d then
      let '(cols, rows) :=
        for_up 0 (length _slackCols) (slackBasis _slackCols)
          (_basisStatusCols d, _basisStatusRows d) in
      clearLU (set_basis (_hasBasis d) cols rows d)
    else d in
  (d, _slackCols).

(** The passes of the three loops over the slack columns in
    [_untransformEquality]: on [sol._slacks], on [_basisStatusRows], and
    on the rational LP with [_rowTypes]. *)
Definition unslackSol (slackCols : list LPCol) (numOrigCols : nat)
  (primal : list Q) (i : nat) (slacks : list Q) : list Q :=
  let col := (numOrigCols + i)%nat in
  let row := index0 (slackCols !! i) in
  <[row := get slacks row - get primal col]> slacks.

Definition unslackBasis (slackCols : list LPCol) (numOrigCols : nat)
  (cols : list VarStatus) (i : nat) (rows : list VarStatus) : list VarStatus :=
  let col := (numOrigCols + i)%nat in
  let row := index0 (slackCols !! i) in
  if decide (status rows row <> BASIC)
  then <[row := swapStatus (status cols col)]> rows
  else rows.

Definition unslackSides (slackCols : list LPCol) (numOrigCols : nat)
  (colTypes : list RangeType) (i : nat) (st : LP.t * list RangeType)
  : LP.t * list RangeType :=
  let '(q, rowTypes) := st in
  let col := (numOrigCols + i)%nat in
  let row := index0 (slackCols !! i) in
  let q := if negb (Qeq_bool (get (upper q) col) 0)
           then changeLhs row (- get (upper q) col) q else q in
  let q := if negb (Qeq_bool (get (lower q) col) 0)
           then changeRhs row (- get (lower q) col) q else q in
  (q, <[row := _switchRangeType (ty colTypes col)]> rowTypes).

(** [_untransformEquality(sol)].  An array that [reSize] makes longer gets
    cells without a value; they are [UNDEFINED] and [RANGETYPE_FREE]
    here. *)
Definition _untransformEquality (sol : Sol) (st : Driver * list LPCol)
  : Sol * Driver :=
  let '(d, _slackCols) := st in
  let numOrigCols := (numColsRational d - length _slackCols)%nat in
  (* adjust solution *)
  let sol :=
    if _isPrimalFeasible sol
    then mkSol (resize numOrigCols 0 (_primal sol))
               (for_up 0 (length _slackCols)
                  (unslackSol _slackCols numOrigCols (_primal sol))
                  (_slacks sol))
               (_dual sol) (_redCost sol) (_primalRay sol) (_dualFarkas sol)
               (_isPrimalFeasible sol) (_isDualFeasible sol)
               (_hasPrimalRay sol) (_hasDualFarkas sol)
    else sol in
  let sol :=
    if _hasPrimalRay sol
    then mkSol (_primal sol) (_slacks sol) (_dual sol) (_redCost sol)
               (resize numOrigCols 0 (_primalRay sol)) (_dualFarkas sol)
               (_isPrimalFeasible sol) (_isDualFeasible sol)
               (_hasPrimalRay sol) (_hasDualFarkas sol)
    else sol in
  (* adjust basis *)
  let d :=
    if _hasBasis d then
      let rows :=
        for_up 0 (length _slackCols)
          (unslackBasis _slackCols numOrigCols (_basisStatusCols d))
          (_basisStatusRows d) in
      let d := set_basis (_hasBasis d)
                 (resize numOrigCols UNDEFINED (_basisStatusCols d)) rows d in
      if decide (0 < length _slackCols)%nat then clearLU d else d
    else d in
  (* not earlier because of debug message *)
  let sol :=
    if _isDualFeasible sol
    then mkSol (_primal sol) (_slacks sol) (_dual sol)
               (resize numOrigCols 0 (_redCost sol))
               (_primalRay sol) (_dualFarkas sol)
               (_isPrimalFeasible sol) (_isDualFeasible sol)
               (_hasPrimalRay sol) (_hasDualFarkas sol)
    else sol in
  (* restore sides and remove slack columns *)
  let '(q, rowTypes) :=
    for_up 0 (length _slackCols)
      (unslackSides _slackCols numOrigCols (_colTypes d))
      (_rationalLP d, _rowTypes d) in
  let q := removeColRange numOrigCols q in
  let f := removeColRange numOrigCols (_realLP d) in
  (sol,
   set_types (resize numOrigCols RANGETYPE_FREE (_colTypes d)) rowTypes
     (set_LPs q f d)).


(** ** Loops that count upwards, arrays rewritten at some cells *)

Lemma for_up_S {S : Type} (n : nat) (body : nat -> S -> S) (st : S) :
  for_up 0 (Datatypes.S n) body st = body n (for_up 0 n body st).
Proof.
  unfold for_up. rewrite !Nat.sub_0_r, seq_S, foldl_app. reflexivity.
Qed.

Lemma for_up_ind {S : Type} (P : nat -> S -> Prop) (n : nat)
  (body : nat -> S -> S) (st : S) :
  P 0%nat st ->
  (forall c s, (c < n)%nat -> P c s -> P (Datatypes.S c) (body c s)) ->
  P n (for_up 0 n body st).
Proof.
  intros H0 Hstep. induction n as [|n IH]; [exact H0|].
  rewrite for_up_S. apply Hstep; [lia|]. apply IH.
  intros c s Hc. apply Hstep. lia.
Qed.

(** [mapAt rows g l]: the array [l] with [g] applied to the cells whose
    index is in [rows]. *)
Definition mapAt {A : Type} (rows : list nat) (g : A -> A) (l : list A)
  : list A :=
  imap (fun i x => if decide (i ∈ rows) then g x else x) l.

Lemma mapAt_lookup {A : Type} (rows : list nat) (g : A -> A) (l : list A)
  (i : nat) :
  mapAt rows g l !! i = (fun x => if decide (i ∈ rows) then g x else x) <$> l !! i.
Proof. unfold mapAt. apply list_lookup_imap. Qed.

Lemma mapAt_length {A : Type} (rows : list nat) (g : A -> A) (l : list A) :
  length (mapAt rows g l) = length l.
Proof. unfold mapAt. apply length_imap. Qed.

Lemma mapAt_nil {A : Type} (g : A -> A) (l : list A) : mapAt [] g l = l.
Proof.
  apply list_eq. intros i. rewrite mapAt_lookup.
  destruct (l !! i); cbn; [|reflexivity].
  destruct (decide (i ∈ [])) as [H|_]; [|reflexivity].
  apply not_elem_of_nil in H. contradiction.
Qed.

Lemma mapAt_outside {A : Type} (rows : list nat) (g : A -> A) (l : list A)
  (r : nat) :
  r ∉ rows -> mapAt rows g l !! r = l !! r.
Proof.
  intros Hr. rewrite mapAt_lookup. destruct (l !! r); cbn; [|reflexivity].
  destruct (decide (r ∈ rows)); [contradiction | reflexivity].
Qed.

(** Writing the new value of cell [r]. *)
Lemma mapAt_snoc {A : Type} (rows : list nat) (g : A -> A) (l : list A)
  (r : nat) (v : A) :
  (forall x, l !! r = Some x -> v = g x) ->
  <[r := v]> (mapAt rows g l) = mapAt (rows ++ [r]) g l.
Proof.
  intros Hv. apply list_eq. intros i. rewrite mapAt_lookup.
  destruct (decide (i = r)) as [->|Hne].
  - destruct (l !! r) as [x|] eqn:E; cbn.
    + rewrite list_lookup_insert_eq
        by (rewrite mapAt_length; apply lookup_lt_Some in E; exact E).
      destruct (decide (r ∈ rows ++ [r])) as [_|H].
      * rewrite (Hv x) by reflexivity. reflexivity.
      * exfalso. apply H. apply elem_of_app. right. apply list_elem_of_here.
    + apply lookup_ge_None. rewrite length_insert, mapAt_length.
      apply lookup_ge_None in E. exact E.
  - rewrite list_lookup_insert_ne by auto. rewrite mapAt_lookup.
    destruct (l !! i); cbn; [|reflexivity].
    destruct (decide (i ∈ rows)) as [H|H], (decide (i ∈ rows ++ [r])) as [H'|H'];
      try reflexivity.
    + exfalso. apply H'. apply elem_of_app. left. exact H.
    + exfalso. apply elem_of_app in H'. destruct H' as [H'|H']; [contradiction|].
      apply list_elem_of_singleton in H'. contradiction.
Qed.

(** A cell that [g] leaves as it is. *)
Lemma mapAt_snoc_id {A : Type} (rows : list nat) (g : A -> A) (l : list A)
  (r : nat) :
  (forall x, l !! r = Some x -> g x = x) ->
  mapAt rows g l = mapAt (rows ++ [r]) g l.
Proof.
  intros Hv. apply list_eq. intros i. rewrite !mapAt_lookup.
  destruct (l !! i) as [x|] eqn:E; cbn; [|reflexivity].
  destruct (decide (i ∈ rows)) as [H|H], (decide (i ∈ rows ++ [r])) as [H'|H'];
    try reflexivity.
  - exfalso. apply H'. apply elem_of_app. left. exact H.
  - apply elem_of_app in H'. destruct H' as [H'|H']; [contradiction|].
    apply list_elem_of_singleton in H'. subst i. rewrite Hv by exact E. reflexivity.
Qed.

(** Writing the old value of cell [r] back. *)
Lemma mapAt_uncons {A : Type} (rows : list nat) (g : A -> A) (l : list A)
  (r : nat) (v : A) :
  r ∉ rows -> (forall x, l !! r = Some x -> v = x) ->
  <[r := v]> (mapAt (r :: rows) g l) = mapAt rows g l.
Proof.
  intros Hr Hv. apply list_eq. intros i. rewrite mapAt_lookup.
  destruct (decide (i = r)) as [->|Hne].
  - destruct (l !! r) as [x|] eqn:E; cbn.
    + rewrite list_lookup_insert_eq
        by (rewrite mapAt_length; apply lookup_lt_Some in E; exact E).
      destruct (decide (r ∈ rows)); [contradiction|].
      rewrite (Hv x) by reflexivity. reflexivity.
    + apply lookup_ge_None. rewrite length_insert, mapAt_length.
      apply lookup_ge_None in E. exact E.
  - rewrite list_lookup_insert_ne by auto. rewrite mapAt_lookup.
    destruct (l !! i); cbn; [|reflexivity].
    destruct (decide (i ∈ r :: rows)) as [H|H], (decide (i ∈ rows)) as [H'|H'];
      try reflexivity.
    + apply elem_of_cons in H. destruct H; contradiction.
    + exfalso. apply H. apply list_elem_of_further. exact H'.
Qed.

Lemma mapAt_uncons_id {A : Type} (rows : list nat) (g : A -> A) (l : list A)
  (r : nat) :
  (forall x, l !! r = Some x -> g x = x) ->
  mapAt (r :: rows) g l = mapAt rows g l.
Proof.
  intros Hv. apply list_eq. intros i. rewrite !mapAt_lookup.
  destruct (l !! i) as [x|] eqn:E; cbn; [|reflexivity].
  destruct (decide (i ∈ r :: rows)) as [H|H], (decide (i ∈ rows)) as [H'|H'];
    try reflexivity.
  - apply elem_of_cons in H. destruct H as [->|H]; [|contradiction].
    rewrite Hv by exact E. reflexivity.
  - exfalso. apply H. apply list_elem_of_further. exact H'.
Qed.

(** The rows below [k] whose type is not [FIXED], in increasing order. *)
Definition nonFixed (rowTypes : list RangeType) (k : nat) : list nat :=
  filter (fun i => ty rowTypes i <> RANGETYPE_FIXED) (seq 0 k).

Lemma nonFixed_S (rt : list RangeType) (k : nat) :
  nonFixed rt (S k) =
  nonFixed rt k ++ (if decide (ty rt k <> RANGETYPE_FIXED) then [k] else []).
Proof.
  unfold nonFixed. rewrite seq_S, filter_app. cbn [Nat.add]. f_equal.
Qed.

Lemma nonFixed_elem (rt : list RangeType) (k r : nat) :
  r ∈ nonFixed rt k <-> (r < k)%nat /\ ty rt r <> RANGETYPE_FIXED.
Proof.
  unfold nonFixed. rewrite list_elem_of_filter, elem_of_seq. split.
  - intros [H1 H2]. split; [lia | exact H1].
  - intros [H1 H2]. split; [exact H2 | lia].
Qed.

Lemma nonFixed_NoDup (rt : list RangeType) (k : nat) : NoDup (nonFixed rt k).
Proof. unfold nonFixed. apply NoDup_filter, NoDup_seq. Qed.

(** The value that the first loop of [_transformEquality] leaves in a
    side of the rational LP. *)
Definition zeroed (x : Q) : Q := if negb (Qeq_bool x 0) then 0 else x.

Lemma zeroed_zero (x : Q) : zeroed x == 0.
Proof.
  unfold zeroed. destruct (Qeq_bool x 0) eqn:E; cbn; [|reflexivity].
  apply Qeq_bool_iff. exact E.
Qed.

(** The slack column of row [i]. *)
Definition slackCol (q : LP.t) (i : nat) : LPCol :=
  mkLPCol 0 (- get (rhs q) i) [(i, 1)] (- get (lhs q) i).

Lemma get_mapAt_outside (rows : list nat) (g : Q -> Q) (l : list Q) (r : nat) :
  r ∉ rows -> get (mapAt rows g l) r = get l r.
Proof. intros H. unfold get. rewrite mapAt_outside by exact H. reflexivity. Qed.

Lemma cond_insert (c : bool) (l : list Q) (r : nat) (v : Q) :
  (if c then <[r := v]> l else l) = <[r := if c then v else get l r]> l.
Proof.
  destruct c; [reflexivity|]. unfold get.
  destruct (l !! r) as [x|] eqn:E; cbn.
  - symmetry. apply list_insert_id. exact E.
  - symmetry. apply list_insert_ge. apply lookup_ge_None. exact E.
Qed.

(** ** The loops in closed form *)

(** The first loop of [_transformEquality] after [k] passes. *)
Definition slacked (q0 f0 : LP.t) (ct0 rt0 : list RangeType) (k : nat)
  : LP.t * LP.t * list RangeType * list RangeType * list LPCol :=
  let rows := nonFixed rt0 k in
  (LP.mk (lower q0) (upper q0) (maxObj q0)
         (mapAt rows zeroed (lhs q0)) (mapAt rows zeroed (rhs q0))
         (rowVector q0) (minimize q0),
   LP.mk (lower f0) (upper f0) (maxObj f0)
         (mapAt rows (fun _ => 0) (lhs f0)) (mapAt rows (fun _ => 0) (rhs f0))
         (rowVector f0) (minimize f0),
   ct0 ++ ((fun i => _switchRangeType (ty rt0 i)) <$> rows),
   mapAt rows (fun _ => RANGETYPE_FIXED) rt0,
   slackCol q0 <$> rows).

Lemma nonFixed_fresh (rt : list RangeType) (k : nat) : k ∉ nonFixed rt k.
Proof. intros H. apply nonFixed_elem in H. lia. Qed.

Lemma cond_changeLhs (c : bool) (k : nat) (v : Q) (q : LP.t) :
  (if c then changeLhs k v q else q) =
  LP.mk (lower q) (upper q) (maxObj q) (if c then <[k := v]> (lhs q) else lhs q)
        (rhs q) (rowVector q) (minimize q).
Proof. destruct c, q; reflexivity. Qed.

Lemma cond_changeRhs (c : bool) (k : nat) (v : Q) (q : LP.t) :
  (if c then changeRhs k v q else q) =
  LP.mk (lower q) (upper q) (maxObj q) (lhs q)
        (if c then <[k := v]> (rhs q) else rhs q) (rowVector q) (minimize q).
Proof. destruct c, q; reflexivity. Qed.

Lemma zero_side (rows : list nat) (l0 : list Q) (k : nat) :
  k ∉ rows ->
  (if negb (Qeq_bool (get l0 k) 0) then <[k := 0]> (mapAt rows zeroed l0)
   else mapAt rows zeroed l0)
  = mapAt (rows ++ [k]) zeroed l0.
Proof.
  intros Hk. rewrite cond_insert, get_mapAt_outside by exact Hk.
  apply mapAt_snoc. intros x Hx. unfold get. rewrite Hx. reflexivity.
Qed.

Lemma tuple5_eq {A B C D E : Type} (a a' : A) (b b' : B) (c c' : C)
  (d d' : D) (e e' : E) :
  a = a' -> b = b' -> c = c' -> d = d' -> e = e' ->
  (a, b, c, d, e) = (a', b', c', d', e').
Proof. intros -> -> -> -> ->. reflexivity. Qed.

Lemma slackRow_loop (q0 f0 : LP.t) (ct0 rt0 : list RangeType) (n : nat) :
  for_up 0 n slackRow (q0, f0, ct0, rt0, []) = slacked q0 f0 ct0 rt0 n.
Proof.
  apply (for_up_ind (fun k st => st = slacked q0 f0 ct0 rt0 k)).
  - unfold slacked, nonFixed. cbn. rewrite !mapAt_nil, app_nil_r.
    destruct q0, f0; reflexivity.
  - intros k st _ ->. unfold slacked, slackRow.
    rewrite nonFixed_S.
    set (rows := nonFixed rt0 k).
    assert (Hk : k ∉ rows) by apply nonFixed_fresh.
    assert (Ht : ty (mapAt rows (fun _ => RANGETYPE_FIXED) rt0) k = ty rt0 k).
    { unfold ty. rewrite mapAt_outside by exact Hk. reflexivity. }
    rewrite Ht.
    destruct (decide (ty rt0 k <> RANGETYPE_FIXED)) as [NF|NF];
      [|rewrite app_nil_r; reflexivity].
    apply tuple5_eq.
    + (* the rational LP *)
      rewrite cond_changeLhs, cond_changeRhs.
      cbn [lower upper maxObj lhs rhs rowVector minimize].
      rewrite !get_mapAt_outside by exact Hk.
      rewrite !zero_side by exact Hk. reflexivity.
    + (* the floating-point LP *)
      unfold changeRhs, changeLhs.
      cbn [lower upper maxObj lhs rhs rowVector minimize].
      f_equal; apply mapAt_snoc; reflexivity.
    + rewrite fmap_app, app_assoc. reflexivity.
    + apply mapAt_snoc. reflexivity.
    + cbn [lhs rhs]. rewrite !get_mapAt_outside by exact Hk.
      rewrite fmap_app. reflexivity.
Qed.

Lemma NoDup_before {A : Type} (l : list A) (j : nat) (x : A) :
  NoDup l -> l !! j = Some x -> x ∉ take j l.
Proof.
  intros Hnd Hj Hin. apply list_elem_of_lookup_1 in Hin. destruct Hin as [i Hi].
  assert (Hlt : (i < j)%nat).
  { apply lookup_lt_Some in Hi. rewrite length_take in Hi. lia. }
  rewrite lookup_take_lt in Hi by exact Hlt.
  pose proof (NoDup_lookup l i j x Hnd Hi Hj). lia.
Qed.

Lemma NoDup_after {A : Type} (l : list A) (j : nat) (x : A) :
  NoDup l -> l !! j = Some x -> x ∉ drop (S j) l.
Proof.
  intros Hnd Hj Hin. apply list_elem_of_lookup_1 in Hin. destruct Hin as [i Hi].
  rewrite lookup_drop in Hi.
  pose proof (NoDup_lookup l _ j x Hnd Hi Hj). lia.
Qed.

Lemma index0_slack (q0 : LP.t) (rows : list nat) (j r : nat) :
  rows !! j = Some r -> index0 ((slackCol q0 <$> rows) !! j) = r.
Proof. intros H. rewrite list_lookup_fmap, H. reflexivity. Qed.

Lemma swapStatus_twice (s : VarStatus) : swapStatus (swapStatus s) = s.
Proof. destruct s; reflexivity. Qed.

Lemma status_lookup (l : list VarStatus) (i : nat) (s : VarStatus) :
  l !! i = Some s -> status l i = s.
Proof. intros H. unfold status. rewrite H. reflexivity. Qed.

(** "adjust basis" in [_transformEquality]. *)
Lemma slackBasis_loop (q0 : LP.t) (rows : list nat) (cs0 rs0 : list VarStatus) :
  NoDup rows ->
  for_up 0 (length rows) (slackBasis (slackCol q0 <$> rows)) (cs0, rs0) =
  (cs0 ++ ((fun r => swapStatus (status rs0 r)) <$> rows),
   mapAt rows (fun _ => FIXED) rs0).
Proof.
  intros Hnd.
  enough (H : for_up 0 (length rows) (slackBasis (slackCol q0 <$> rows)) (cs0, rs0)
              = (cs0 ++ ((fun r => swapStatus (status rs0 r)) <$> take (length rows) rows),
                 mapAt (take (length rows) rows) (fun _ => FIXED) rs0)).
  { rewrite H, firstn_all. reflexivity. }
  apply (for_up_ind (fun j st =>
           st = (cs0 ++ ((fun r => swapStatus (status rs0 r)) <$> take j rows),
                 mapAt (take j rows) (fun _ => FIXED) rs0))).
  - cbn. rewrite app_nil_r, mapAt_nil. reflexivity.
  - intros j st Hj ->. destruct (lookup_lt_is_Some_2 rows j Hj) as [r Hr].
    unfold slackBasis. rewrite (index0_slack q0 rows j r Hr).
    rewrite (take_S_r rows j r Hr), fmap_app, app_assoc.
    assert (Hout : r ∉ take j rows) by (eapply NoDup_before; eassumption).
    f_equal.
    + f_equal. cbn. unfold status. rewrite mapAt_outside by exact Hout.
      reflexivity.
    + apply mapAt_snoc. reflexivity.
Qed.

(** "adjust basis" in [_untransformEquality], on the arrays that
    [_transformEquality] leaves. *)
Lemma unslackBasis_loop (q0 : LP.t) (rows : list nat) (nc : nat)
  (cs0 rs0 : list VarStatus) :
  NoDup rows -> length cs0 = nc ->
  for_up 0 (length rows)
    (unslackBasis (slackCol q0 <$> rows) nc
       (cs0 ++ ((fun r => swapStatus (status rs0 r)) <$> rows)))
    (mapAt rows (fun _ => FIXED) rs0)
  = rs0.
Proof.
  intros Hnd Hcs.
  enough (H : for_up 0 (length rows)
                (unslackBasis (slackCol q0 <$> rows) nc
                   (cs0 ++ ((fun r => swapStatus (status rs0 r)) <$> rows)))
                (mapAt rows (fun _ => FIXED) rs0)
              = mapAt (drop (length rows) rows) (fun _ => FIXED) rs0).
  { rewrite H, drop_all. apply mapAt_nil. }
  apply (for_up_ind (fun j st => st = mapAt (drop j rows) (fun _ => FIXED) rs0)).
  - reflexivity.
  - intros j st Hj ->. destruct (lookup_lt_is_Some_2 rows j Hj) as [r Hr].
    unfold unslackBasis. rewrite (index0_slack q0 rows j r Hr).
    rewrite (drop_S rows r j Hr).
    assert (Hout : r ∉ drop (S j) rows) by (eapply NoDup_after; eassumption).
    assert (Hcol : status (cs0 ++ ((fun r => swapStatus (status rs0 r)) <$> rows))
                     (nc + j) = swapStatus (status rs0 r)).
    { unfold status at 1. rewrite lookup_app_r by lia.
      replace (nc + j - length cs0)%nat with j by lia.
      rewrite list_lookup_fmap, Hr. reflexivity. }
    rewrite Hcol, swapStatus_twice.
    destruct (decide (status (mapAt (r :: drop (S j) rows) (fun _ => FIXED) rs0) r
                      <> BASIC)) as [_|Hb].
    + apply mapAt_uncons; [exact Hout|]. intros x Hx. apply status_lookup, Hx.
    + exfalso. apply Hb. unfold status. rewrite mapAt_lookup.
      destruct (rs0 !! r); cbn; [|discriminate].
      destruct (decide (r ∈ r :: drop (S j) rows)) as [_|H]; [discriminate|].
      exfalso. apply H. apply list_elem_of_here.
Qed.

Lemma Qopp_opp_eq (x : Q) : - - x = x.
Proof. destruct x as [n d]. unfold Qopp. cbn. rewrite Z.opp_involutive. reflexivity. Qed.

Lemma restore_side (rest : list nat) (l0 : list Q) (r : nat) :
  r ∉ rest ->
  (if negb (Qeq_bool (- get l0 r) 0)
   then <[r := - - get l0 r]> (mapAt (r :: rest) zeroed l0)
   else mapAt (r :: rest) zeroed l0)
  = mapAt rest zeroed l0.
Proof.
  intros Hr. destruct (Qeq_bool (- get l0 r) 0) eqn:E; cbn [negb].
  - apply mapAt_uncons_id. intros x Hx. unfold get in E. rewrite Hx in E.
    cbn in E. apply Qeq_bool_iff in E.
    assert (E' : x == 0) by lra.
    apply Qeq_bool_iff in E'. unfold zeroed. rewrite E'. reflexivity.
  - apply mapAt_uncons; [exact Hr|]. intros x Hx. unfold get. rewrite Hx.
    apply Qopp_opp_eq.
Qed.

Lemma get_app_r (l1 l2 : list Q) (n j : nat) :
  length l1 = n -> get (l1 ++ l2) (n + j) = get l2 j.
Proof.
  intros H. unfold get. rewrite lookup_app_r by lia.
  replace (n + j - length l1)%nat with j by lia. reflexivity.
Qed.

Lemma ty_app_r (l1 l2 : list RangeType) (n j : nat) :
  length l1 = n -> ty (l1 ++ l2) (n + j) = ty l2 j.
Proof.
  intros H. unfold ty. rewrite lookup_app_r by lia.
  replace (n + j - length l1)%nat with j by lia. reflexivity.
Qed.

(** "restore sides" in [_untransformEquality], on the LP with the slack
    columns. *)
Lemma unslackSides_loop (q0 : LP.t) (rows : list nat) (ct0 rt0 : list RangeType)
  (ob : list Q) (rv : list SVector) (mn : bool) (nc : nat) :
  (forall t, _switchRangeType (_switchRangeType t) = t) ->
  NoDup rows -> length (lower q0) = nc -> length (upper q0) = nc ->
  length ct0 = nc ->
  let sc := slackCol q0 <$> rows in
  for_up 0 (length rows)
    (unslackSides sc nc (ct0 ++ ((fun i => _switchRangeType (ty rt0 i)) <$> rows)))
    (LP.mk (lower q0 ++ ((fun c => low c) <$> sc))
           (upper q0 ++ ((fun c => up c) <$> sc)) ob
           (mapAt rows zeroed (lhs q0)) (mapAt rows zeroed (rhs q0)) rv mn,
     mapAt rows (fun _ => RANGETYPE_FIXED) rt0)
  = (LP.mk (lower q0 ++ ((fun c => low c) <$> sc))
           (upper q0 ++ ((fun c => up c) <$> sc)) ob
           (lhs q0) (rhs q0) rv mn,
     rt0).
Proof.
  intros Hsw Hnd Hlo Hup Hct sc.
  enough (H : for_up 0 (length rows)
    (unslackSides sc nc (ct0 ++ ((fun i => _switchRangeType (ty rt0 i)) <$> rows)))
    (LP.mk (lower q0 ++ ((fun c => low c) <$> sc))
           (upper q0 ++ ((fun c => up c) <$> sc)) ob
           (mapAt rows zeroed (lhs q0)) (mapAt rows zeroed (rhs q0)) rv mn,
     mapAt rows (fun _ => RANGETYPE_FIXED) rt0)
  = (LP.mk (lower q0 ++ ((fun c => low c) <$> sc))
           (upper q0 ++ ((fun c => up c) <$> sc)) ob
           (mapAt (drop (length rows) rows) zeroed (lhs q0))
           (mapAt (drop (length rows) rows) zeroed (rhs q0)) rv mn,
     mapAt (drop (length rows) rows) (fun _ => RANGETYPE_FIXED) rt0)).
  { rewrite H, drop_all, !mapAt_nil. reflexivity. }
  apply (for_up_ind (fun j st =>
    st = (LP.mk (lower q0 ++ ((fun c => low c) <$> sc))
           (upper q0 ++ ((fun c => up c) <$> sc)) ob
                (mapAt (drop j rows) zeroed (lhs q0))
                (mapAt (drop j rows) zeroed (rhs q0)) rv mn,
          mapAt (drop j rows) (fun _ => RANGETYPE_FIXED) rt0))).
  - reflexivity.
  - intros j st Hj ->. destruct (lookup_lt_is_Some_2 rows j Hj) as [r Hr].
    unfold unslackSides. subst sc. rewrite (index0_slack q0 rows j r Hr).
    rewrite (drop_S rows r j Hr).
    assert (Hout : r ∉ drop (S j) rows) by (eapply NoDup_after; eassumption).
    rewrite cond_changeLhs, cond_changeRhs.
    cbn [lower upper maxObj lhs rhs rowVector minimize].
    rewrite (get_app_r (upper q0) _ nc j Hup), (get_app_r (lower q0) _ nc j Hlo).
    rewrite (ty_app_r ct0 _ nc j Hct).
    assert (Hgu : get ((fun c => up c) <$> (slackCol q0 <$> rows)) j
                  = - get (lhs q0) r).
    { unfold get at 1. rewrite !list_lookup_fmap, Hr. reflexivity. }
    assert (Hgl : get ((fun c => low c) <$> (slackCol q0 <$> rows)) j
                  = - get (rhs q0) r).
    { unfold get at 1. rewrite !list_lookup_fmap, Hr. reflexivity. }
    assert (Hty : ty ((fun i => _switchRangeType (ty rt0 i)) <$> rows) j
                  = _switchRangeType (ty rt0 r)).
    { unfold ty at 1. rewrite list_lookup_fmap, Hr. reflexivity. }
    rewrite Hgu, Hgl, Hty.
    rewrite !restore_side by exact Hout. rewrite Hsw.
    f_equal. apply mapAt_uncons; [exact Hout|].
    intros x Hx. unfold ty. rewrite Hx. reflexivity.
Qed.

(** The elements that [addCols] appends to the rows are in the new
    columns. *)
Lemma addCols_rows (conv : Q -> Q) (set : list LPCol) (lp : LP.t) :
  filter (fun e : nat * Q => (fst e < nCols lp)%nat) <$> rowVector (addCols conv set lp)
  = filter (fun e : nat * Q => (fst e < nCols lp)%nat) <$> rowVector lp.
Proof.
  unfold addCols. cbn [rowVector].
  generalize (imap (fun j c => (j, c)) set). intros jcs.
  generalize (rowVector lp). induction jcs as [|jc jcs IH]; intros rows;
    [reflexivity|].
  cbn [foldl]. rewrite IH. clear IH.
  generalize (vec jc.2). intros es. revert rows.
  induction es as [|e es IH]; intros rows; [reflexivity|].
  cbn [foldl]. rewrite IH.
  rewrite (list_fmap_alter _ _ (fun x => x)).
  - apply list_alter_id. reflexivity.
  - apply Forall_forall. intros row _. rewrite filter_app.
    rewrite filter_cons. destruct (decide _) as [H|H]; [cbn in H; lia|].
    rewrite filter_nil. apply app_nil_r.
Qed.

Lemma filter_rows_all (rows : list SVector) (n : nat) :
  Forall (fun row : SVector => Forall (fun e => (fst e < n)%nat) row) rows ->
  filter (fun e : nat * Q => (fst e < n)%nat) <$> rows = rows.
Proof.
  intros H. induction H as [|row rows Hrow _ IH]; [reflexivity|].
  rewrite fmap_cons, IH. f_equal. apply filter_all. exact Hrow.
Qed.

(** [_transformEquality] in closed form. *)
Lemma transformEquality_closed (d : Driver) :
  let q0 := _rationalLP d in
  let f0 := _realLP d in
  let rows := nonFixed (_rowTypes d) (numRowsRational d) in
  let sc := slackCol q0 <$> rows in
  let q1 := LP.mk (lower q0) (upper q0) (maxObj q0)
                  (mapAt rows zeroed (lhs q0)) (mapAt rows zeroed (rhs q0))
                  (rowVector q0) (minimize q0) in
  let f1 := LP.mk (lower f0) (upper f0) (maxObj f0)
                  (mapAt rows (fun _ => 0) (lhs f0))
                  (mapAt rows (fun _ => 0) (rhs f0))
                  (rowVector f0) (minimize f0) in
  let d1 := set_types
              (_colTypes d ++ ((fun i => _switchRangeType (ty (_rowTypes d) i)) <$> rows))
              (mapAt rows (fun _ => RANGETYPE_FIXED) (_rowTypes d))
              (set_LPs (addCols (fun x => x) sc q1) (addCols toReal sc f1) d) in
  _transformEquality d =
  (if _hasBasis d
   then clearLU (set_basis (_hasBasis d)
                   (_basisStatusCols d ++
                      ((fun r => swapStatus (status (_basisStatusRows d) r)) <$> rows))
                   (mapAt rows (fun _ => FIXED) (_basisStatusRows d)) d1)
   else d1,
   sc).
Proof.
  cbv zeta. unfold _transformEquality. rewrite slackRow_loop. unfold slacked.
  cbv beta iota zeta.
  set (rows := nonFixed (_rowTypes d) (numRowsRational d)).
  cbn [_hasBasis set_types set_LPs _basisStatusCols _basisStatusRows].
  destruct (_hasBasis d) eqn:Hb; [|reflexivity].
  rewrite length_fmap, slackBasis_loop by apply nonFixed_NoDup.
  reflexivity.
Qed.

(** The driver that [_untransformEquality] returns. *)
Lemma untransformEquality_driver (sol : Sol) (d : Driver) (sc : list LPCol) :
  (_untransformEquality sol (d, sc)).2 =
  let n := (numColsRational d - length sc)%nat in
  let d' :=
    if _hasBasis d then
      let rows := for_up 0 (length sc) (unslackBasis sc n (_basisStatusCols d))
                    (_basisStatusRows d) in
      let d := set_basis (_hasBasis d)
                 (resize n UNDEFINED (_basisStatusCols d)) rows d in
      if decide (0 < length sc)%nat then clearLU d else d
    else d in
  let qr := for_up 0 (length sc) (unslackSides sc n (_colTypes d'))
              (_rationalLP d', _rowTypes d') in
  set_types (resize n RANGETYPE_FREE (_colTypes d')) qr.2
    (set_LPs (removeColRange n qr.1) (removeColRange n (_realLP d')) d').
Proof.
  unfold _untransformEquality. cbv zeta.
  match goal with
  | |- context [let '(_, _) := ?X in _] => destruct X as [q rt]
  end.
  reflexivity.
Qed.

Lemma LP_eta (lp : LP.t) :
  LP.mk (lower lp) (upper lp) (maxObj lp) (lhs lp) (rhs lp) (rowVector lp)
        (minimize lp) = lp.
Proof. destruct lp; reflexivity. Qed.

(** Removing the columns that [addCols] has appended. *)
Lemma removeColRange_addCols (conv : Q -> Q) (set : list LPCol) (lp : LP.t)
  (l r : list Q) :
  wfLP lp ->
  let lp' := addCols conv set lp in
  removeColRange (nCols lp)
    (LP.mk (lower lp') (upper lp') (maxObj lp') l r (rowVector lp') (minimize lp'))
  = LP.mk (lower lp) (upper lp) (maxObj lp) l r (rowVector lp) (minimize lp).
Proof.
  intros (Wu & Wo & Wr & Wv & Wc). cbv zeta. unfold removeColRange.
  cbn [lower upper maxObj lhs rhs rowVector minimize].
  rewrite addCols_rows, (filter_rows_all _ _ Wc).
  unfold addCols. cbn [lower upper maxObj lhs rhs rowVector minimize].
  rewrite !take_app_length' by (unfold nCols in *; congruence).
  reflexivity.
Qed.

(** [_transformEquality] followed by [_untransformEquality] gives the
    rational LP, the row and column types and the basis back as they
    were.  Of the floating-point LP the bounds, the objective and the
    rows come back; its sides stay [0] in the rows that were not of
    type [FIXED].  With a basis the rational LU factorization is
    cleared. *)
Theorem equality_roundtrip (sol : Sol) (d : Driver) :
  (forall t, _switchRangeType (_switchRangeType t) = t) ->
  wfLP (_rationalLP d) -> wfLP (_realLP d) ->
  nCols (_realLP d) = nCols (_rationalLP d) ->
  length (_colTypes d) = nCols (_rationalLP d) ->
  (_hasBasis d = true -> length (_basisStatusCols d) = nCols (_rationalLP d)) ->
  let rows := nonFixed (_rowTypes d) (numRowsRational d) in
  let f0 := _realLP d in
  let f := LP.mk (lower f0) (upper f0) (maxObj f0)
                 (mapAt rows (fun _ => 0) (lhs f0))
                 (mapAt rows (fun _ => 0) (rhs f0))
                 (rowVector f0) (minimize f0) in
  (_untransformEquality sol (_transformEquality d)).2 =
  (if _hasBasis d then clearLU (set_LPs (_rationalLP d) f d)
   else set_LPs (_rationalLP d) f d).
Proof.
  intros Hsw (Wu & Wo & Wr & Wv & Wc) (Fu & Fo & Fr & Fv & Fc) Hnc Hct Hcs.
  cbv zeta.
  pose proof (transformEquality_closed d) as HT. cbv zeta in HT.
  set (rows := nonFixed (_rowTypes d) (numRowsRational d)) in *.
  assert (Hnd : NoDup rows) by apply nonFixed_NoDup.
  clearbody rows.
  set (q0 := _rationalLP d) in *. set (f0 := _realLP d) in *.
  set (sc := slackCol q0 <$> rows) in *.
  set (q1 := LP.mk (lower q0) (upper q0) (maxObj q0) (mapAt rows zeroed (lhs q0))
                   (mapAt rows zeroed (rhs q0)) (rowVector q0) (minimize q0)) in *.
  set (f1 := LP.mk (lower f0) (upper f0) (maxObj f0)
                   (mapAt rows (fun _ => 0) (lhs f0))
                   (mapAt rows (fun _ => 0) (rhs f0)) (rowVector f0) (minimize f0)) in *.
  set (ct1 := _colTypes d ++ _) in *.
  set (rt1 := mapAt rows (fun _ => RANGETYPE_FIXED) (_rowTypes d)) in *.
  set (cs1 := _basisStatusCols d ++ _) in *.
  set (rs1 := mapAt rows (fun _ => FIXED) (_basisStatusRows d)) in *.
  destruct (_transformEquality d) as [D1 sc']. injection HT as HD Hsc. subst sc'.
  assert (P1 : _rationalLP D1 = addCols (fun x => x) sc q1)
    by (rewrite HD; destruct (_hasBasis d); reflexivity).
  assert (P2 : _realLP D1 = addCols toReal sc f1)
    by (rewrite HD; destruct (_hasBasis d); reflexivity).
  assert (P3 : _colTypes D1 = ct1)
    by (rewrite HD; destruct (_hasBasis d); reflexivity).
  assert (P4 : _rowTypes D1 = rt1)
    by (rewrite HD; destruct (_hasBasis d); reflexivity).
  assert (P5 : _hasBasis D1 = _hasBasis d)
    by (rewrite HD; destruct (_hasBasis d) eqn:E; cbn; congruence).
  assert (Hn : (numColsRational D1 - length sc)%nat = nCols q0).
  { unfold numColsRational. rewrite P1. unfold nCols, addCols. cbn [lower q1].
    subst sc. rewrite length_app, !length_fmap. lia. }
  assert (Hlen : length sc = length rows) by apply length_fmap.
  rewrite untransformEquality_driver. cbv zeta. rewrite !Hn, !Hlen, P5.
  set (d' := if _hasBasis d then _ else D1).
  assert (Q1 : _colTypes d' = ct1)
    by (subst d'; destruct (_hasBasis d); [destruct (decide _)|]; exact P3).
  assert (Q2 : _rationalLP d' = addCols (fun x => x) sc q1)
    by (subst d'; destruct (_hasBasis d); [destruct (decide _)|]; exact P1).
  assert (Q3 : _rowTypes d' = rt1)
    by (subst d'; destruct (_hasBasis d); [destruct (decide _)|]; exact P4).
  assert (Q4 : _realLP d' = addCols toReal sc f1)
    by (subst d'; destruct (_hasBasis d); [destruct (decide _)|]; exact P2).
  rewrite Q1, Q2, Q3, Q4.
  assert (HS : for_up 0 (length rows) (unslackSides sc (nCols q0) ct1)
                 (addCols (fun x => x) sc q1, rt1)
               = (LP.mk (lower (addCols (fun x => x) sc q1))
                        (upper (addCols (fun x => x) sc q1))
                        (maxObj (addCols (fun x => x) sc q1))
                        (lhs q0) (rhs q0)
                        (rowVector (addCols (fun x => x) sc q1))
                        (minimize (addCols (fun x => x) sc q1)),
                  _rowTypes d)).
  { exact (unslackSides_loop q0 rows (_colTypes d) (_rowTypes d) _ _ _ (nCols q0)
             Hsw Hnd eq_refl Wu Hct). }
  rewrite HS. cbn [fst snd].
  assert (W1 : wfLP q1).
  { unfold wfLP, nCols, nRows in *. subst q1. cbn [lower upper maxObj lhs rhs rowVector].
    rewrite !mapAt_length. repeat split; assumption. }
  assert (W2 : wfLP f1).
  { unfold wfLP, nCols, nRows in *. subst f1. cbn [lower upper maxObj lhs rhs rowVector].
    rewrite !mapAt_length. repeat split; assumption. }
  assert (R1 : removeColRange (nCols q0)
                 (LP.mk (lower (addCols (fun x => x) sc q1))
                        (upper (addCols (fun x => x) sc q1))
                        (maxObj (addCols (fun x => x) sc q1))
                        (lhs q0) (rhs q0)
                        (rowVector (addCols (fun x => x) sc q1))
                        (minimize (addCols (fun x => x) sc q1))) = q0).
  { rewrite <- (LP_eta q0) at 4.
    exact (removeColRange_addCols (fun x => x) sc q1 (lhs q0) (rhs q0) W1). }
  assert (R2 : removeColRange (nCols q0) (addCols toReal sc f1) = f1).
  { rewrite <- (LP_eta f1) at 2. unfold q0, f0 in *. rewrite <- Hnc.
    exact (removeColRange_addCols toReal sc f1 (lhs f1) (rhs f1) W2). }
  assert (R3 : resize (nCols q0) RANGETYPE_FREE ct1 = _colTypes d).
  { subst ct1. apply resize_app. symmetry. exact Hct. }
  rewrite R1, R2, R3.
  destruct (_hasBasis d) eqn:Hb.
  - assert (B1 : _basisStatusCols D1 = cs1) by (rewrite HD; reflexivity).
    assert (B2 : _basisStatusRows D1 = rs1) by (rewrite HD; reflexivity).
    assert (B3 : resize (nCols q0) UNDEFINED cs1 = _basisStatusCols d).
    { subst cs1. apply resize_app. symmetry. apply Hcs. reflexivity. }
    assert (B4 : for_up 0 (length rows) (unslackBasis sc (nCols q0) cs1) rs1
                 = _basisStatusRows d).
    { apply unslackBasis_loop; [exact Hnd|]. apply Hcs. reflexivity. }
    subst d'. rewrite B1, B2, B3, B4, HD.
    destruct d; cbn in Hb; subst; destruct (decide _); reflexivity.
  - subst d'. rewrite HD. destruct d; cbn in Hb; subst; reflexivity.
Qed.

(** After [_transformEquality] every row is of type [FIXED]; a row that
    was not has both sides [0] in the rational LP and a slack column, which
    follows the columns that the LP had, in the order of the rows: its
    bounds are the negated sides of the row, upper side first, and its
    type is the switched type of the row.  The other rows keep their
    sides. *)
Theorem transformEquality_equations (d : Driver) :
  length (_rowTypes d) = numRowsRational d ->
  length (rhs (_rationalLP d)) = numRowsRational d ->
  length (upper (_rationalLP d)) = numColsRational d ->
  length (_colTypes d) = numColsRational d ->
  let q0 := _rationalLP d in
  let d1 := (_transformEquality d).1 in
  let q1 := _rationalLP d1 in
  let rows := nonFixed (_rowTypes d) (numRowsRational d) in
  numRowsRational d1 = numRowsRational d /\
  numColsRational d1 = (numColsRational d + length rows)%nat /\
  (forall i, (i < numRowsRational d)%nat ->
     ty (_rowTypes d1) i = RANGETYPE_FIXED /\
     (ty (_rowTypes d) i <> RANGETYPE_FIXED ->
        get (lhs q1) i == 0 /\ get (rhs q1) i == 0) /\
     (ty (_rowTypes d) i = RANGETYPE_FIXED ->
        get (lhs q1) i = get (lhs q0) i /\ get (rhs q1) i = get (rhs q0) i)) /\
  (forall j r, rows !! j = Some r ->
     ((r < numRowsRational d)%nat /\ ty (_rowTypes d) r <> RANGETYPE_FIXED) /\
     get (lower q1) (numColsRational d + j) = - get (rhs q0) r /\
     get (upper q1) (numColsRational d + j) = - get (lhs q0) r /\
     ty (_colTypes d1) (numColsRational d + j)
       = _switchRangeType (ty (_rowTypes d) r)).
Proof.
  intros Hrt Hrhs Hup Hct. cbv zeta. rewrite transformEquality_closed.
  cbv zeta. cbn [fst].
  set (rows := nonFixed (_rowTypes d) (numRowsRational d)).
  set (sc := slackCol (_rationalLP d) <$> rows).
  set (q1 := LP.mk _ _ _ (mapAt rows zeroed _) _ _ _).
  set (f1 := LP.mk _ _ _ (mapAt rows (fun _ => 0) _) _ _ _).
  set (d1 := set_types _ _ _).
  set (D1 := if _hasBasis d then _ else d1).
  assert (P1 : _rationalLP D1 = addCols (fun x => x) sc q1)
    by (subst D1; destruct (_hasBasis d); reflexivity).
  assert (P3 : _colTypes D1 =
               _colTypes d ++ ((fun i => _switchRangeType (ty (_rowTypes d) i)) <$> rows))
    by (subst D1; destruct (_hasBasis d); reflexivity).
  assert (P4 : _rowTypes D1 = mapAt rows (fun _ => RANGETYPE_FIXED) (_rowTypes d))
    by (subst D1; destruct (_hasBasis d); reflexivity).
  unfold numRowsRational, numColsRational in *. rewrite P1, P3, P4.
  unfold nRows, nCols in *. cbn [addCols lower upper lhs rhs q1].
  split; [apply mapAt_length|].
  split; [subst sc; rewrite length_app, !length_fmap; reflexivity|].
  split.
  - intros i Hi.
    assert (Hin : i ∈ rows <-> ty (_rowTypes d) i <> RANGETYPE_FIXED).
    { subst rows. rewrite nonFixed_elem. unfold numRowsRational, nRows. tauto. }
    assert (Hg : forall (g : Q -> Q) (l : list Q), (i < length l)%nat ->
              get (mapAt rows g l) i = if decide (i ∈ rows) then g (get l i)
                                       else get l i).
    { intros g l Hl. unfold get. rewrite mapAt_lookup.
      destruct (lookup_lt_is_Some_2 l i Hl) as [x ->]. cbn.
      destruct (decide (i ∈ rows)); reflexivity. }
    rewrite !Hg by lia.
    split.
    + unfold ty. rewrite mapAt_lookup.
      destruct (lookup_lt_is_Some_2 (_rowTypes d) i ltac:(lia)) as [t Ht].
      rewrite Ht. cbn. destruct (decide (i ∈ rows)) as [H|H]; [reflexivity|].
      destruct (decide (t = RANGETYPE_FIXED)) as [->|Hne]; [reflexivity|].
      exfalso. apply H, Hin. unfold ty. rewrite Ht. exact Hne.
    + split.
      * intros NF. destruct (decide (i ∈ rows)) as [_|H]; [|exfalso; apply H, Hin, NF].
        split; apply zeroed_zero.
      * intros Fx. destruct (decide (i ∈ rows)) as [H|_]; [|split; reflexivity].
        apply Hin in H. contradiction.
  - intros j r Hr.
    split.
    { apply nonFixed_elem. eapply list_elem_of_lookup_2. exact Hr. }
    rewrite (get_app_r _ _ _ j eq_refl), (get_app_r _ _ _ j Hup),
      (ty_app_r _ _ _ j Hct).
    unfold get at 1 3, ty at 1. subst sc. rewrite !list_lookup_fmap, Hr.
    split; [reflexivity|]. split; reflexivity.
Qed.

End Slack.

(** ** The round trip on an example *)

(** [_switchRangeType] as the names of the types suggest it. *)
Definition switch_example (t : RangeType) : RangeType :=
  match t with
  | RANGETYPE_LOWER => RANGETYPE_UPPER
  | RANGETYPE_UPPER => RANGETYPE_LOWER
  | t => t
  end.

(** [roundtrip_lp] has one row, bounded from above: it gets one slack
    column. *)
Lemma equality_roundtrip_witness :
  (forall t, switch_example (switch_example t) = t) /\
  wfLP roundtrip_lp /\
  nCols (_realLP roundtrip_driver) = nCols (_rationalLP roundtrip_driver) /\
  length (_colTypes roundtrip_driver) = nCols (_rationalLP roundtrip_driver) /\
  numColsRational (_transformEquality (fun x => x) switch_example roundtrip_driver).1
    = 3%nat /\
  (_untransformEquality switch_example
     (mkSol [] [] [] [] [] [] false false false false)
     (_transformEquality (fun x => x) switch_example roundtrip_driver)).2
  = clearLU (set_LPs roundtrip_lp
               (LP.mk [0; 1] [10; infinity_example] [3; 0] [0] [0]
                      [[(0%nat, 1); (1%nat, 2)]] false)
               roundtrip_driver).
Proof.
  assert (Hsw : forall t, switch_example (switch_example t) = t)
    by (intros []; reflexivity).
  split; [exact Hsw|]. split; [exact roundtrip_lp_wf|].
  split; [reflexivity|]. split; [reflexivity|]. split; [reflexivity|].
  exact (equality_roundtrip (fun x => x) switch_example
           (mkSol [] [] [] [] [] [] false false false false) roundtrip_driver
           Hsw roundtrip_lp_wf roundtrip_lp_wf eq_refl eq_refl (fun _ => eq_refl)).
Defined.

Lemma transformEquality_equations_witness :
  length (_rowTypes roundtrip_driver) = numRowsRational roundtrip_driver /\
  length (rhs roundtrip_lp) = numRowsRational roundtrip_driver /\
  length (upper roundtrip_lp) = numColsRational roundtrip_driver /\
  length (_colTypes roundtrip_driver) = numColsRational roundtrip_driver /\
  numColsRational (_transformEquality (fun x => x) switch_example roundtrip_driver).1
    = 3%nat /\
  get (upper (_rationalLP
         (_transformEquality (fun x => x) switch_example roundtrip_driver).1)) 2
    = - - infinity_example.
Proof.
  split; [reflexivity|]. split; [reflexivity|]. split; [reflexivity|].
  split; [reflexivity|].
  destruct (transformEquality_equations (fun x => x) switch_example
              roundtrip_driver eq_refl eq_refl eq_refl eq_refl)
    as (_ & Hc & _ & Hs).
  split; [exact Hc|].
  destruct (Hs 0%nat 0%nat eq_refl) as (_ & _ & Hu & _). exact Hu.
Defined.

End Equality.

(** * More on the operations of [SSVector] ([ssvector.cpp], [ssvector.h]) *)

Module SSVectorOps.

Import SSVector.

(** ** [setup()] *)

Lemma positions_increasing (eps : Q) (l : Vector) (pos a b i j : nat) :
  (a < b)%nat -> positions eps pos l !! a = Some i ->
  positions eps pos l !! b = Some j -> (i < j)%nat.
Proof.
  revert pos a b. induction l as [|x l IH]; intros pos a b Hab Ha Hb;
    [discriminate|].
  cbn in Ha, Hb. destruct (Qltb eps (Qabs x)); [|exact (IH _ _ _ Hab Ha Hb)].
  destruct b as [|b]; [lia|]. cbn in Hb. destruct a as [|a].
  - injection Ha as <-. apply list_elem_of_lookup_2, positions_ge in Hb. lia.
  - cbn in Ha. apply (IH (S pos) a b); [lia | exact Ha | exact Hb].
Qed.

(** [setup()] on a vector that is not set up, with [epsilon >= 1e-100]:
    the values above [epsilon] stay as they are, all others become 0, and
    the index array lists the positions of the values above [epsilon] in
    increasing order. *)
Theorem setup_keeps_large (v : t) :
  isSetup v = false -> mark <= epsilon v ->
  exists v', setup v = Some v' /\
    isSetup v' = true /\ epsilon v' = epsilon v /\ dim v' = dim v /\
    (forall a b i j, (a < b)%nat -> idx v' !! a = Some i ->
       idx v' !! b = Some j -> (i < j)%nat) /\
    (forall i, i ∈ idx v' <->
       (i < dim v)%nat /\ epsilon v < Qabs (get (val v) i)) /\
    (forall i, (i < dim v)%nat ->
       if Qltb (epsilon v) (Qabs (get (val v) i))
       then get (val v') i = get (val v) i
       else get (val v') i == 0).
Proof.
  intros Hs He. destruct (setup_spec v Hs He) as (cells & E & Hlen & Hcells).
  eexists. split; [exact E|]. cbn [isSetup setupStatus epsilon idx val].
  unfold dim. cbn [val].
  split; [reflexivity|]. split; [reflexivity|]. split; [exact Hlen|].
  split; [intros a b i j; apply positions_increasing|]. split.
  - intros i. rewrite positions_elem. split.
    + intros (k & x & -> & Hk & Hx). cbn.
      split; [apply lookup_lt_Some in Hk; exact Hk|].
      rewrite (get_lookup _ _ _ Hk). exact Hx.
    + intros [Hi Hx]. destruct (lookup_lt_is_Some_2 (val v) i Hi) as [x Hk].
      exists i, x. split; [reflexivity|]. split; [exact Hk|].
      rewrite (get_lookup _ _ _ Hk) in Hx. exact Hx.
  - intros i Hi. destruct (lookup_lt_is_Some_2 (val v) i Hi) as [x Hk].
    destruct (Hcells i x Hk) as (x' & Hk' & Hc).
    rewrite (get_lookup _ _ _ Hk), (get_lookup _ _ _ Hk').
    unfold setupCell in Hc. destruct (Qltb (epsilon v) (Qabs x)); exact Hc.
Qed.

(** With [epsilon] below the sentinel [1e-100], the scan takes the
    sentinel for a value: it does not stop at the last cell. *)
Lemma setup_scan_runs_off (eps : Q) (l : Vector) (pos : nat) :
  eps < mark -> setup_scan eps pos (l ++ [mark]) = None.
Proof.
  intros He.
  assert (Hm : Qltb eps (Qabs mark) = true).
  { apply Qltb_lt. rewrite Qabs_mark. exact He. }
  revert pos. induction l as [|x l IH]; intros pos.
  - cbn -[mark]. rewrite Hm.
    replace (Qeq_bool mark 0) with false by reflexivity. reflexivity.
  - cbn [app setup_scan]. rewrite IH.
    destruct (Qeq_bool x 0); [reflexivity|].
    destruct (Qltb eps (Qabs x)); [reflexivity|].
    destruct l; reflexivity.
Qed.

(** [setup()] on a vector of dimension 2 or more that is not set up, with
    [epsilon] below [1e-100]: the loop reads past the end of the value
    array. *)
Theorem setup_below_sentinel (v : t) :
  isSetup v = false -> epsilon v < mark -> (2 <= dim v)%nat ->
  setup v = None.
Proof.
  destruct v as [l ii s eps]. unfold dim. cbn [isSetup setupStatus epsilon val].
  intros -> He Hd. unfold setup. cbn [isSetup setupStatus epsilon val].
  destruct l as [|x0 [|x1 tl]]; cbn [length] in Hd; try lia.
  destruct (snoc_cases x1 tl) as (l' & z & Hz). rewrite Hz.
  rewrite length_app. cbn [length].
  replace (length l' + 1 - 1)%nat with (length l') by lia.
  rewrite insert_snoc, setup_scan_runs_off by exact He.
  destruct (Qltb eps (Qabs x0)); reflexivity.
Qed.

(** ** [clear()] *)

(** [clear()] on a set up vector writes 0 into the indexed cells only: a
    value that [setValue] has stored without an index, being nonzero and
    not above [epsilon], is still there after [clear()], in a vector that
    is set up with no index. *)
Theorem clear_keeps_small (i : nat) (x : Q) (v : t) :
  isSetup v = true -> (i < dim v)%nat -> i ∉ idx v ->
  ~ x == 0 -> Qabs x <= epsilon v ->
  let w := clear (setValue i x v) in
  isSetup w = true /\ idx w = [] /\ get (val w) i == x /\
  (forall j, j ∈ idx v -> get (val w) j == 0).
Proof.
  intros Hs Hi Hn Hx Hsmall. cbv zeta.
  destruct (setValue_small i x v Hx Hsmall) as (Hidx & Hval & Hset).
  unfold clear. rewrite Hset, Hs, Hval, Hidx. cbn [isSetup setupStatus idx val].
  split; [reflexivity|]. split; [reflexivity|]. split.
  - rewrite foldl_zero_get. rewrite decide_False by exact Hn.
    rewrite get_insert_eq by exact Hi. reflexivity.
  - intros j Hj. rewrite foldl_zero_get. rewrite decide_True by exact Hj.
    reflexivity.
Qed.

(** ** [operator=(const SVector&)] *)




(** ** [reDim(newdim)] *)

(** [remove(n)] behind a prefix of [n] indices leaves the prefix as it
    is. *)
Lemma removeNth_behind (p l : list nat) (a : nat) :
  removeNth (length p) (p ++ a :: l) = p ++ removeNth 0 (a :: l).
Proof.
  unfold removeNth. rewrite last_app_cons.
  destruct (last (a :: l)) as [z|] eqn:E; [|reflexivity].
  rewrite decide_True by (rewrite length_app; cbn; lia).
  rewrite decide_True by (cbn; lia).
  rewrite insert_app_r_alt by lia. rewrite Nat.sub_diag.
  rewrite take_app_ge by (rewrite length_app; cbn; lia).
  f_equal. f_equal. rewrite length_app. cbn. lia.
Qed.

Lemma reDim_loop (newdim : nat) (l0 : list nat) :
  let step (l : list nat) (i : nat) :=
    match l !! i with
    | Some j => if decide (newdim <= j)%nat then removeNth i l else l
    | None => l
    end in
  foldl step l0 (reverse (seq 0 (length l0)))
  ≡ₚ filter (fun j => (j < newdim)%nat) l0.
Proof.
  intros step.
  change (foldl step l0 (reverse (seq 0 (length l0))))
    with (LP.for_down (length l0) (fun i l => step l i) l0).
  enough (H : exists kept,
            LP.for_down (length l0) (fun i l => step l i) l0 = take 0 l0 ++ kept /\
            kept ≡ₚ filter (fun j => (j < newdim)%nat) (drop 0 l0)).
  { destruct H as (kept & -> & Hk). exact Hk. }
  apply (LP.for_down_ind (fun k l =>
           exists kept, l = take k l0 ++ kept /\
             kept ≡ₚ filter (fun j => (j < newdim)%nat) (drop k l0))).
  - exists []. rewrite firstn_all, drop_all, app_nil_r. split; reflexivity.
  - intros c l Hc (kept & -> & Hk).
    destruct (lookup_lt_is_Some_2 l0 c Hc) as [a Ha].
    rewrite (take_S_r l0 c a Ha), <- app_assoc. cbn [app].
    rewrite (drop_S l0 a c Ha), filter_cons.
    assert (Hlen : length (take c l0) = c) by (rewrite length_take; lia).
    unfold step. rewrite lookup_app_r by lia. rewrite Hlen, Nat.sub_diag.
    cbn [lookup list_lookup].
    destruct (decide (newdim <= a)%nat) as [Hge|Hlt].
    + rewrite decide_False by lia.
      pose proof (removeNth_behind (take c l0) kept a) as Hb.
      rewrite Hlen in Hb. rewrite Hb.
      eexists. split; [reflexivity|]. rewrite <- Hk.
      apply (Permutation_cons_inv (a := a)).
      apply (removeNth_perm (a :: kept) 0 a). reflexivity.
    + rewrite decide_True by lia.
      exists (a :: kept). split; [reflexivity|]. apply perm_skip, Hk.
Qed.

(** [reDim(newdim)] keeps the indices below [newdim], in some order, and
    cuts the value array or fills it up with 0; a vector whose index
    array holds, without repetition, exactly the positions of the values
    above [epsilon], all other values being 0, stays one. *)
Theorem reDim_spec (newdim : nat) (v : t) :
  let w := reDim newdim v in
  idx w ≡ₚ filter (fun j => (j < newdim)%nat) (idx v) /\
  val w = resize newdim 0 (val v) /\
  isSetup w = isSetup v /\ epsilon w = epsilon v /\
  (Exact v -> Exact w).
Proof.
  cbv zeta.
  assert (Hp : idx (reDim newdim v)
               ≡ₚ filter (fun j => (j < newdim)%nat) (idx v))
    by apply reDim_loop.
  split; [exact Hp|]. split; [reflexivity|]. split; [reflexivity|].
  split; [reflexivity|].
  intros (Hnd & Hin & Hout). unfold Exact.
  assert (Hdim : dim (reDim newdim v) = newdim)
    by (unfold dim, reDim; cbn [val]; apply length_resize).
  assert (Hmem : forall i, i ∈ idx (reDim newdim v) <->
                   (i < newdim)%nat /\ i ∈ idx v).
  { intros i. rewrite Hp, list_elem_of_filter. reflexivity. }
  assert (Hget : forall i, (i < newdim)%nat -> (i < dim v)%nat ->
                   get (val (reDim newdim v)) i = get (val v) i).
  { intros i H1 H2. unfold get, reDim. cbn [val].
    rewrite lookup_resize by assumption. reflexivity. }
  rewrite Hdim. cbn [epsilon reDim]. split; [|split].
  - rewrite Hp. apply NoDup_filter. exact Hnd.
  - intros i Hi. apply Hmem in Hi as [H1 H2]. destruct (Hin i H2) as [H3 H4].
    split; [exact H1|]. rewrite Hget by assumption. exact H4.
  - intros i Hi Hn. destruct (decide (i < dim v)%nat) as [Hd|Hd].
    + rewrite Hget by assumption. apply Hout; [exact Hd|].
      intros H. apply Hn, Hmem. split; assumption.
    + unfold get, reDim. cbn [val].
      rewrite lookup_resize_new by (unfold dim in Hd; lia). reflexivity.
Qed.

(** ** [operator*=(x)] and [maxAbs()] *)

Section Scaling.

(** The rounded product of two [Real]s, and [Vector::maxAbs()], which is
    declared in [vector.h]. *)
Variable fmul : Q -> Q -> Q.
Variable Vector_maxAbs : Vector -> Q.

(** [SSVector::operator*=(x)]: [val[index(i)] *= x] for
    [i = size() - 1 .. 0]. *)
Definition scale (x : Q) (v : t) : t :=
  with_val (fun l => foldl (fun acc j => <[j := fmul (get acc j) x]> acc) l
                       (reverse (idx v))) v.


Lemma scale_cells (x : Q) (ii : list nat) (l : Vector) (i : nat) :
  NoDup ii -> (i < length l)%nat ->
  get (foldl (fun acc j => <[j := fmul (get acc j) x]> acc) l ii) i =
  if decide (i ∈ ii) then fmul (get l i) x else get l i.
Proof.
  revert l. induction ii as [|j ii IH]; intros l Hnd Hi.
  - cbn. rewrite decide_False by apply not_elem_of_nil. reflexivity.
  - apply NoDup_cons in Hnd as [Hfresh Hnd]. cbn [foldl].
    rewrite IH by (try rewrite length_insert; assumption).
    destruct (decide (i = j)) as [->|Hne].
    + rewrite decide_False by exact Hfresh.
      rewrite decide_True by apply list_elem_of_here.
      apply get_insert_eq. exact Hi.
    + rewrite get_insert_ne by congruence.
      destruct (decide (i ∈ ii)) as [H|H].
      * rewrite decide_True by (apply list_elem_of_further; exact H). reflexivity.
      * rewrite decide_False; [reflexivity|].
        rewrite elem_of_cons. intros [?|?]; contradiction.
Qed.

(** [operator*=(x)] multiplies the indexed values, each once, and nothing
    else: the values outside the index array, the index array and the
    setup status are as before.  A vector that is not set up and has no
    index is left as it is. *)
Theorem scale_spec (x : Q) (v : t) :
  NoDup (idx v) ->
  let w := scale x v in
  idx w = idx v /\ isSetup w = isSetup v /\ epsilon w = epsilon v /\
  dim w = dim v /\
  (forall i, (i < dim v)%nat ->
     get (val w) i = if decide (i ∈ idx v) then fmul (get (val v) i) x
                     else get (val v) i) /\
  (idx v = [] -> w = v).
Proof.
  intros Hnd. cbv zeta. unfold scale, with_val, dim.
  cbn [idx isSetup setupStatus epsilon val].
  split; [reflexivity|]. split; [reflexivity|]. split; [reflexivity|].
  assert (Hlen : forall (ii : list nat) (l : Vector),
            length (foldl (fun acc j => <[j := fmul (get acc j) x]> acc) l ii)
            = length l).
  { induction ii as [|j ii IH]; intros l; cbn; [reflexivity|].
    rewrite IH. apply length_insert. }
  split; [apply Hlen|]. split.
  - intros i Hi. rewrite scale_cells.
    + destruct (decide (i ∈ reverse (idx v))) as [H|H];
        rewrite elem_of_reverse in H;
        [rewrite decide_True by exact H | rewrite decide_False by exact H];
        reflexivity.
    + rewrite reverse_Permutation. exact Hnd.
    + exact Hi.
  - intros E. destruct v. cbn in *. subst. reflexivity.
Qed.



End Scaling.

(** ** A [Vector] assigned from an [SSVector] *)






(** ** Examples *)


(** A vector of dimension 4 that is not set up, with [epsilon = 1e-16]. *)
Definition dense_example : t :=
  mk [3; small_example; 0; -2] [] false eps_example.

Lemma setup_keeps_large_witness :
  isSetup dense_example = false /\ mark <= epsilon dense_example /\
  exists v', setup dense_example = Some v' /\ idx v' = [0%nat; 3%nat] /\
             val v' = [3; 0; 0; -2].
Proof.
  split; [reflexivity|]. split; [vm_compute; discriminate|].
  destruct (setup_keeps_large dense_example eq_refl)
    as (v' & E & _); [vm_compute; discriminate|].
  exists v'. split; [exact E|].
  assert (E' : setup dense_example
               = Some (mk [3; 0; 0; -2] [0%nat; 3%nat] true eps_example))
    by (vm_compute; reflexivity).
  rewrite E in E'. injection E' as ->. split; reflexivity.
Defined.

(** A vector of dimension 2 that is not set up, with [epsilon = 0]. *)
Definition exact_example : t := mk [1; 2] [] false 0.

Lemma setup_below_sentinel_witness :
  isSetup exact_example = false /\ epsilon exact_example < mark /\
  (2 <= dim exact_example)%nat /\
  setup exact_example = None.
Proof.
  split; [reflexivity|]. split; [vm_compute; reflexivity|].
  split; [cbn; lia|].
  apply (setup_below_sentinel exact_example).
  - reflexivity.
  - vm_compute. reflexivity.
  - cbn. lia.
Defined.

Lemma clear_keeps_small_witness :
  isSetup (fresh 3 eps_example) = true /\
  (0 < dim (fresh 3 eps_example))%nat /\
  ~ small_example == 0 /\ Qabs small_example <= epsilon (fresh 3 eps_example) /\
  idx (clear (setValue 0 small_example (fresh 3 eps_example))) = [] /\
  get (val (clear (setValue 0 small_example (fresh 3 eps_example)))) 0
    == small_example.
Proof.
  assert (H1 : ~ small_example == 0) by (vm_compute; discriminate).
  assert (H2 : Qabs small_example <= epsilon (fresh 3 eps_example))
    by (vm_compute; discriminate).
  split; [reflexivity|]. split; [cbn; lia|]. split; [exact H1|].
  split; [exact H2|].
  destruct (clear_keeps_small 0 small_example (fresh 3 eps_example) eq_refl)
    as (_ & A & B & _);
    [cbn; lia | apply not_elem_of_nil | exact H1 | exact H2 |].
  split; [exact A | exact B].
Defined.


Lemma scale_spec_witness :
  NoDup (idx (mk [3; 0; 4] [0%nat] false eps_example)) /\
  val (scale Qmult 2 (mk [3; 0; 4] [0%nat] false eps_example)) = [3 * 2; 0; 4] /\
  scale Qmult 2 (mk [3; 0; 4] [] false eps_example)
    = mk [3; 0; 4] [] false eps_example.
Proof.
  assert (Hnd : NoDup (idx (mk [3; 0; 4] [0%nat] false eps_example))).
  { cbn. repeat constructor. apply not_elem_of_nil. }
  split; [exact Hnd|]. split; [reflexivity|].
  destruct (scale_spec Qmult 2 (mk [3; 0; 4] [] false eps_example))
    as (_ & _ & _ & _ & _ & A); [constructor|].
  apply A. reflexivity.
Defined.



End SSVectorOps.

(** * The recovery ladder with the simplifier forced off *)

Module Recovery.

Import Stable.

Section Forced.

Variable SIMPLIFIER_OFF SIMPLIFIER_INTERNAL : Z.
Variable SCALER_OFF SCALER_BIEQUI : Z.
Variable ALGORITHM_PRIMAL ALGORITHM_DUAL : Z.
Variable RATIOTESTER_TEXTBOOK RATIOTESTER_FAST : Z.
Variable PRICER_DEVEX PRICER_STEEP : Z.
Variable Internals : Type.
Variable _solveRealForRational : bool -> State Internals -> Status * State Internals.
Variable factorize : State Internals -> State Internals * bool.

(** The statements after the loop, on what the loop returns. *)
Definition finish (sv : Saved) (o : option (Status * State Internals))
  : option (Status * State Internals) :=
  match o with
  | Some (result, st) => Some (result, restore Internals sv st)
  | None => None
  end.

(** [forceNoSimplifier] turns the simplifier off for the first solve only.
    When that solve fails, with the scaler off there is no preprocessing to
    turn off, and the ladder goes on to [setIntParam(SIMPLIFIER,
    simplifier)] with the value read at entry and to the Markowitz
    threshold: when the factorization succeeds, the second solve, with
    which the remaining loop starts, runs with the simplifier that was set
    at entry. *)
Theorem forceNoSimplifier_first_solve_only (fuel : nat) (aU aI : bool)
  (st0 : State Internals) :
  (forall b st p, intParam Internals p (_solveRealForRational b st).2
                  = intParam Internals p st) ->
  (forall st p, intParam Internals p (factorize st).1 = intParam Internals p st) ->
  intParam Internals SCALER st0 = SCALER_OFF ->
  let st1 := setIntParam Internals SIMPLIFIER SIMPLIFIER_OFF st0 in
  let r1 := (_solveRealForRational false st1).1 in
  let f := factorize
             (setMarkowitz Internals (9 # 10)
                (setIntParam Internals SIMPLIFIER (intParam Internals SIMPLIFIER st0)
                   (setIntParam Internals SCALER (intParam Internals SCALER st0)
                      (_solveRealForRational false st1).2))) in
  stops aU aI r1 = false -> f.2 = true ->
  intParam Internals SIMPLIFIER st1 = SIMPLIFIER_OFF /\
  intParam Internals SIMPLIFIER f.1 = intParam Internals SIMPLIFIER st0 /\
  _solveRealStable SIMPLIFIER_OFF SIMPLIFIER_INTERNAL SCALER_OFF SCALER_BIEQUI
    ALGORITHM_PRIMAL ALGORITHM_DUAL RATIOTESTER_TEXTBOOK RATIOTESTER_FAST
    PRICER_DEVEX PRICER_STEEP Internals _solveRealForRational factorize
    (S (S fuel)) aU aI true st0
  = finish (save Internals st0)
      (loop SIMPLIFIER_OFF SIMPLIFIER_INTERNAL SCALER_OFF SCALER_BIEQUI
         ALGORITHM_PRIMAL ALGORITHM_DUAL RATIOTESTER_TEXTBOOK RATIOTESTER_FAST
         PRICER_DEVEX PRICER_STEEP Internals _solveRealForRational factorize
         (S fuel) aU aI true (save Internals st0)
         (set_increasedMarkowitz true (set_initialSolve false initialFlags))
         f.1).
Proof.
  intros Hsolve Hfact Hsc. cbv zeta. intros Hstop Hok.
  split; [apply intParam_setIntParam_eq|].
  split.
  { rewrite Hfact. unfold intParam, setMarkowitz, setIntParam. cbn.
    rewrite decide_True by reflexivity. reflexivity. }
  unfold _solveRealStable, finish.
  set (st1 := setIntParam Internals SIMPLIFIER SIMPLIFIER_OFF st0) in *.
  cbn [loop initialFlags fromScratch].
  pose proof (Hsolve false st1 SIMPLIFIER) as H1.
  pose proof (Hsolve false st1 SCALER) as H2.
  destruct (_solveRealForRational false st1) as [r1 st1'] eqn:E.
  cbn [fst snd] in *. rewrite Hstop.
  unfold ladder at 1.
  cbn [initialSolve turnedoffPre increasedMarkowitz set_initialSolve negb andb].
  assert (S1 : intParam Internals SIMPLIFIER st1' = SIMPLIFIER_OFF).
  { rewrite H1. apply intParam_setIntParam_eq. }
  assert (S2 : intParam Internals SCALER st1' = SCALER_OFF).
  { rewrite H2. subst st1. rewrite intParam_setIntParam_ne by discriminate.
    exact Hsc. }
  rewrite S1, S2, !Z.eqb_refl. cbn [negb orb].
  change (s_simplifier (save Internals st0))
    with (intParam Internals SIMPLIFIER st0).
  change (s_scaler (save Internals st0)) with (intParam Internals SCALER st0).
  destruct (factorize _) as [st2 ok]. cbn [fst snd] in Hok. subst ok.
  reflexivity.
Qed.

End Forced.

(** The settings of [example_state] with the scaler off; the simplifier
    has the number 1. *)
Definition unscaled_state : State nat :=
  setIntParam nat SCALER 0 example_state.

Lemma forceNoSimplifier_first_solve_only_witness :
  intParam nat SCALER unscaled_state = 0%Z /\
  stops false false (failing_solve false
                       (setIntParam nat SIMPLIFIER 0 unscaled_state)).1 = false /\
  intParam nat SIMPLIFIER
    (example_factorize
       (setMarkowitz nat (9 # 10)
          (setIntParam nat SIMPLIFIER (intParam nat SIMPLIFIER unscaled_state)
             (setIntParam nat SCALER (intParam nat SCALER unscaled_state)
                (failing_solve false
                   (setIntParam nat SIMPLIFIER 0 unscaled_state)).2)))).1
  = 1%Z.
Proof.
  split; [reflexivity|]. split; [reflexivity|].
  destruct (forceNoSimplifier_first_solve_only 0 3 0 2 0 1 0 2 3 5 nat
              failing_solve example_factorize 18 false false unscaled_state
              (fun _ _ _ => eq_refl) (fun _ _ => eq_refl) eq_refl eq_refl eq_refl)
    as (_ & A & _).
  exact A.
Defined.

End Recovery.

(** * [lprow.cpp]: the sides, the type and the value of a row *)

Module RowSides.

Import SSVector.

(** [LPRow::Type]. *)
Inductive RowType := LESS_EQUAL | EQUAL | GREATER_EQUAL | RANGE.

(** An [LPRow]: left-hand side, row vector, right-hand side. *)
Record LPRow := mkRow { left : Q; vec : SVector; right : Q }.

Definition lhs (r : LPRow) : Q := left r.
Definition rhs (r : LPRow) : Q := right r.

Section Sides.

(** The static member [LPRow::infinity], 1e+100 unless the user sets it. *)
Variable infinity : Q.

(** [LPRow::type()]. *)
Definition type (r : LPRow) : RowType :=
  if Qle_bool infinity (rhs r) then GREATER_EQUAL
  else if Qle_bool (lhs r) (- infinity) then LESS_EQUAL
  else if Qeq_bool (lhs r) (rhs r) then EQUAL
  else RANGE.

(** [LPRow::setType(p_type)]; [None] where the code calls [abort()]. *)
Definition setType (p_type : RowType) (r : LPRow) : option LPRow :=
  match p_type with
  | LESS_EQUAL => Some (mkRow (- infinity) (vec r) (right r))
  | EQUAL =>
      if Qltb (- infinity) (lhs r)
      then Some (mkRow (left r) (vec r) (lhs r))
      else Some (mkRow (rhs r) (vec r) (right r))
  | GREATER_EQUAL => Some (mkRow (left r) (vec r) infinity)
  | RANGE => None
  end.

(** [LPRow::value()]; the code asserts [type() != RANGE] first. *)
Definition value (r : LPRow) : Q :=
  if Qltb (rhs r) infinity then rhs r else lhs r.

(** The constructor [LPRow(p_rowVector, p_type, p_value)]; [None] where the
    code calls [abort()]. *)
Definition LPRow_of (p_rowVector : SVector) (p_type : RowType) (p_value : Q)
  : option LPRow :=
  match p_type with
  | LESS_EQUAL => Some (mkRow (- infinity) p_rowVector p_value)
  | EQUAL => Some (mkRow p_value p_rowVector p_value)
  | GREATER_EQUAL => Some (mkRow p_value p_rowVector infinity)
  | RANGE => None
  end.

Lemma Qeq_bool_same (x : Q) : Qeq_bool x x = true.
Proof. apply Qeq_bool_iff. reflexivity. Qed.

(** A row built from a type and a finite value gives both back: [type()]
    is the type and [value()] the value it was built from, and the row
    vector is the one passed in. *)
Theorem LPRow_type_value_roundtrip (p_rowVector : SVector) (p_type : RowType)
  (p_value : Q) :
  - infinity < p_value -> p_value < infinity -> p_type <> RANGE ->
  exists r, LPRow_of p_rowVector p_type p_value = Some r /\
            type r = p_type /\ value r = p_value /\ vec r = p_rowVector.
Proof.
  intros Hl Hu Ht.
  assert (Hi : - infinity < infinity) by lra.
  destruct p_type; try congruence; eexists; (split; [reflexivity|]);
    unfold type, value, lhs, rhs; cbn [left right vec];
    rewrite ?Qeq_bool_same; qcases; try lra; auto.
Qed.

(** On a row whose right-hand side is finite (and whose left-hand side is
    not plus and whose right-hand side is not minus infinity), [setType]
    does what its name says: afterwards [type()] is the type asked for;
    the row vector is not touched. *)
Theorem setType_type (p_type : RowType) (r : LPRow) :
  left r < infinity -> - infinity < right r -> right r < infinity ->
  p_type <> RANGE ->
  exists r', setType p_type r = Some r' /\ type r' = p_type /\ vec r' = vec r.
Proof.
  intros Hl Hr Hu Ht.
  assert (Hi : - infinity < infinity) by lra.
  destruct p_type; try congruence; unfold setType, lhs, rhs.
  - eexists; split; [reflexivity|]. unfold type, lhs, rhs. cbn [left right vec].
    qcases; try lra; auto.
  - destruct (Qltb (- infinity) (left r)) eqn:E;
      [apply Qltb_lt in E | apply Qltb_ge in E];
      (eexists; split; [reflexivity|]); unfold type, lhs, rhs;
      cbn [left right vec]; rewrite ?Qeq_bool_same; qcases; try lra; auto.
  - eexists; split; [reflexivity|]. unfold type, lhs, rhs. cbn [left right vec].
    qcases; try lra; auto.
Qed.

(** [setType(LESS_EQUAL)] cannot turn a greater-or-equal row around: it
    only sets the left-hand side to minus infinity, the right-hand side
    stays at infinity, and [type()], which looks at the right-hand side
    first, still says [GREATER_EQUAL]. *)
Theorem setType_LESS_EQUAL_of_GREATER_EQUAL (r : LPRow) :
  type r = GREATER_EQUAL ->
  exists r', setType LESS_EQUAL r = Some r' /\
             type r' = GREATER_EQUAL /\
             left r' = - infinity /\ right r' = right r.
Proof.
  intros Ht. eexists; split; [reflexivity|]. cbn [left right].
  split; [|split; reflexivity].
  revert Ht. unfold type, lhs, rhs. cbn [left right vec].
  destruct (Qle_bool infinity (right r)); [reflexivity|].
  destruct (Qle_bool (left r) (- infinity)); [discriminate|].
  destruct (Qeq_bool (left r) (right r)); discriminate.
Qed.

End Sides.

(** The value [LPRow::infinity] is initialised with. *)
Definition infinity : Q := inject_Z (10 ^ 100).

Definition range_row : LPRow := mkRow 1 [(0%nat, 2)] 4.
Definition greater_row : LPRow := mkRow 1 [(0%nat, 2)] infinity.

Lemma LPRow_type_value_roundtrip_witness :
  exists r, LPRow_of infinity [(0%nat, 2)] LESS_EQUAL 5 = Some r /\
            type infinity r = LESS_EQUAL /\ value infinity r = 5 /\
            vec r = [(0%nat, 2)].
Proof.
  apply (LPRow_type_value_roundtrip infinity [(0%nat, 2)] LESS_EQUAL 5);
    [reflexivity | reflexivity | discriminate].
Defined.

Lemma setType_type_witness :
  exists r', setType infinity EQUAL range_row = Some r' /\
             type infinity r' = EQUAL /\ vec r' = vec range_row.
Proof.
  apply (setType_type infinity EQUAL range_row);
    [reflexivity | reflexivity | reflexivity | discriminate].
Defined.

Lemma setType_LESS_EQUAL_of_GREATER_EQUAL_witness :
  exists r', setType infinity LESS_EQUAL greater_row = Some r' /\
             type infinity r' = GREATER_EQUAL /\
             left r' = - infinity /\ right r' = right greater_row.
Proof.
  apply (setType_LESS_EQUAL_of_GREATER_EQUAL infinity greater_row).
  reflexivity.
Defined.

End RowSides.

(** * [SLUFactor::load]: the pivot threshold stays on its schedule *)

Module Reload.

Import SSVector SLUFactor.

(** The thresholds that [betterThreshold] reaches from [minThreshold] =
    0.01: 0.01, 0.1, 0.55, 0.775, 0.8875, 0.94375, 0.99999, 0.99999, ... *)
Definition schedule (k : nat) : Q := Nat.iter k betterThreshold (1 # 100).

Lemma schedule_fixed (k : nat) : (6 <= k)%nat -> schedule k = schedule 6.
Proof.
  induction 1 as [|k Hk IH]; [reflexivity|].
  change (schedule (S k)) with (betterThreshold (schedule k)).
  rewrite IH. vm_compute. reflexivity.
Qed.

Lemma schedule_capped (k : nat) : schedule k = schedule (Nat.min k 6).
Proof.
  destruct (Nat.le_gt_cases 6 k) as [H|H].
  - rewrite Nat.min_r by exact H. apply schedule_fixed, H.
  - rewrite Nat.min_l by lia. reflexivity.
Qed.

Lemma schedule_low (k : nat) : 1 # 100 <= schedule k.
Proof.
  rewrite schedule_capped.
  assert (H : (Nat.min k 6 <= 6)%nat) by lia.
  revert H. generalize (Nat.min k 6). intros j Hj.
  do 7 (destruct j as [|j]; [vm_compute; discriminate|]). lia.
Qed.

Lemma threshold_level_low (n : nat) :
  (6 <= n)%nat -> threshold_level n = 1 # 100.
Proof.
  intros H. do 6 (destruct n as [|n]; [lia|]). reflexivity.
Qed.

Lemma load_search_more (fuel : nat) (last better lastTh r : Q) :
  load_search fuel last better lastTh = Some r ->
  load_search (S fuel) last better lastTh = Some r.
Proof.
  revert last better. induction fuel as [|n IH]; intros last better;
    [discriminate|].
  remember (S n) as m. cbn [load_search]. subst m. cbn [load_search].
  destruct (Qltb better lastTh); [apply IH|auto].
Qed.

Lemma load_search_enough (n fuel : nat) (last better lastTh r : Q) :
  (n <= fuel)%nat ->
  load_search n last better lastTh = Some r ->
  load_search fuel last better lastTh = Some r.
Proof.
  induction 1 as [|m Hm IH]; [auto|]. intros H. apply load_search_more; auto.
Qed.

(** The search of [load] from 0.01 against a threshold on the schedule
    returns the threshold one step before it (0.01 itself for 0.01). *)
Lemma load_search_schedule (fuel k : nat) :
  (7 <= fuel)%nat ->
  load_search fuel (1 # 100) (betterThreshold (1 # 100)) (schedule k)
  = Some (schedule (Nat.pred (Nat.min k 6))).
Proof.
  intros Hf. apply (load_search_enough 7); [exact Hf|].
  rewrite (schedule_capped k).
  assert (H : (Nat.min k 6 <= 6)%nat) by lia.
  revert H. generalize (Nat.min k 6). intros j Hj.
  do 7 (destruct j as [|j]; [vm_compute; reflexivity|]). lia.
Qed.

Section Load.

Variable Core : Type.
Variable factor : list SVector -> Q -> Q -> CLU Core -> CLU Core.
Variable epsilonFactorization : Q.

Lemma load_loop_minThreshold (fuel : nat) (matrix : list SVector)
  (s s' : t Core) :
  load_loop Core factor fuel matrix s = Some s' ->
  minThreshold Core s' = minThreshold Core s.
Proof.
  revert s. induction fuel as [|n IH]; intros s; [discriminate|].
  cbn [load_loop]. cbn.
  destruct (Qle_bool _ _); [intros [= <-]; reflexivity|].
  destruct (Qeq_bool _ _); [intros [= <-]; reflexivity|].
  intros H. apply IH in H. exact H.
Qed.

(** The loop at the end of [load], started on the schedule. *)
Lemma load_loop_schedule (fuel k : nat) (matrix : list SVector) (s : t Core) :
  (7 <= fuel)%nat ->
  minThreshold Core s = 1 # 100 -> lastThreshold Core s = schedule k ->
  exists s' k',
    load_loop Core factor fuel matrix s = Some s' /\
    minThreshold Core s' = 1 # 100 /\
    lastThreshold Core s' = schedule k' /\
    (minStability Core s' <= stability Core s' \/
     betterThreshold (lastThreshold Core s') == lastThreshold Core s').
Proof.
  intros Hf Hm Hl.
  destruct fuel as [|n]; [lia|].
  destruct (load_loop_terminates Core factor n matrix s) as [s' Hs'].
  { rewrite threshold_level_low by lia. rewrite Hl. apply schedule_low. }
  destruct (load_loop_exit Core factor _ _ _ _ Hs') as (j & Hj & Hex).
  exists s', (j + k)%nat. split; [exact Hs'|].
  split; [rewrite (load_loop_minThreshold _ _ _ _ Hs'); exact Hm|].
  split; [|exact Hex].
  rewrite Hj, Hl. unfold schedule. symmetry. apply Nat.iter_add.
Qed.

(** What [load] does to the members before it looks at the dimension:
    [usetup = false; l.updateType = uptype; l.firstUpdate = 0;
    l.firstUnused = 0]. *)
Definition prepared (s : t Core) : t Core :=
  let s := set_usetup Core false s in
  let c := clu Core s in
  set_clu Core (mkCLU Core (stat Core c) (thedim Core c) (maxabs Core c)
                  (initMaxabs Core c) (uptype Core s) 0 0 (core Core c)) s.

(** [load] always comes back, and keeps the pivot threshold on the
    schedule: for a factorization whose threshold is one of 0.01, 0.1,
    0.55, 0.775, 0.8875, 0.94375, 0.99999 (as [clear] and [load] leave it),
    whatever the kernel [factor] does and whether or not the dimension
    changes, the search for the previous threshold and the loop of
    factorizations end (seven rounds each are enough), the new threshold is
    again on the schedule, and the factorization returned is stable enough
    for the final [minStability] or was made with the last threshold of
    the schedule. *)
Theorem load_stays_on_schedule (fuel k : nat) (matrix : list SVector)
  (dm : nat) (s : t Core) :
  (7 <= fuel)%nat ->
  minThreshold Core s = 1 # 100 -> lastThreshold Core s = schedule k ->
  exists s' k',
    load Core factor epsilonFactorization fuel matrix dm s
    = Some (s', status Core s') /\
    minThreshold Core s' = 1 # 100 /\
    lastThreshold Core s' = schedule k' /\
    (minStability Core s' <= stability Core s' \/
     betterThreshold (lastThreshold Core s') == lastThreshold Core s').
Proof.
  intros Hf Hm Hl. unfold load. cbv zeta.
  change (set_clu Core _ (set_usetup Core false s)) with (prepared s).
  destruct (decide (dm <> thedim Core (clu Core (prepared s)))) as [Hd|Hd].
  - cbn [mbind option_bind].
    match goal with |- context [load_loop Core factor fuel matrix ?s1] =>
      destruct (load_loop_schedule fuel 0 matrix s1 Hf eq_refl eq_refl)
        as (s' & k' & Hs' & R)
    end.
    exists s', k'. rewrite Hs'. split; [reflexivity|exact R].
  - destruct (Qltb _ _).
    + change (minThreshold Core (prepared s)) with (minThreshold Core s).
      change (lastThreshold Core (prepared s)) with (lastThreshold Core s).
      rewrite Hm, Hl, (load_search_schedule fuel k Hf).
      cbn [mbind option_bind].
      match goal with |- context [load_loop Core factor fuel matrix ?s1] =>
        destruct (load_loop_schedule fuel (Nat.pred (Nat.min k 6)) matrix s1
                    Hf Hm eq_refl) as (s' & k' & Hs' & R)
      end.
      exists s', k'. rewrite Hs'. split; [reflexivity|exact R].
    + cbn [mbind option_bind].
      destruct (load_loop_schedule fuel k matrix (prepared s) Hf Hm Hl)
        as (s' & k' & Hs' & R).
      exists s', k'. rewrite Hs'. split; [reflexivity|exact R].
Qed.

(** After a factorization that was more than twice as stable as asked
    for, the next [load] of a matrix of the same dimension relaxes the
    pivot threshold: it starts its factorizations one step of the
    schedule below the threshold used last (at 0.01 when that was 0.01 or
    0.1) and with [minStability] reset to twice [MINSTABILITY]. *)
Theorem load_relaxes_threshold (fuel k : nat) (matrix : list SVector)
  (dm : nat) (s : t Core) :
  (7 <= fuel)%nat ->
  minThreshold Core s = 1 # 100 -> lastThreshold Core s = schedule k ->
  dm = thedim Core (clu Core s) ->
  2 * minStability Core s < stability Core s ->
  load Core factor epsilonFactorization fuel matrix dm s
  = (s' ← load_loop Core factor fuel matrix
            (set_lastThreshold Core (schedule (Nat.pred (Nat.min k 6)))
               (set_minStability Core (2 * MINSTABILITY) (prepared s)));
     Some (s', status Core s')).
Proof.
  intros Hf Hm Hl Hd Hst. unfold load. cbv zeta.
  change (set_clu Core _ (set_usetup Core false s)) with (prepared s).
  destruct (decide (dm <> thedim Core (clu Core (prepared s)))) as [Hn|_].
  { exfalso. apply Hn. exact Hd. }
  change (minStability Core (prepared s)) with (minStability Core s).
  apply Qltb_lt in Hst. rewrite Hst.
  change (minThreshold Core (prepared s)) with (minThreshold Core s).
  change (lastThreshold Core (prepared s)) with (lastThreshold Core s).
  rewrite Hm, Hl, (load_search_schedule fuel k Hf). reflexivity.
Qed.

End Load.

(** [example_state] after two steps of the schedule, factored with a
    largest entry that has not grown. *)
Definition stable_state : t unit :=
  mkT unit (mkCLU unit OK 1 1 1 FOREST_TOMLIN 0 0 tt)
      [0] (SSVector.mk [0] [] true (1 # 10 ^ 16))
      false FOREST_TOMLIN
      (SSVector.mk [0] [] true (1 # 10 ^ 16))
      (SSVector.mk [0] [] true (1 # 10 ^ 16))
      (1 # 100) (schedule 2) MINSTABILITY (1 # 10 ^ 16).

Lemma load_stays_on_schedule_witness :
  exists s' k',
    load unit idle_factor (1 # 10 ^ 16) 7 [] 3 stable_state
    = Some (s', status unit s') /\
    minThreshold unit s' = 1 # 100 /\
    lastThreshold unit s' = schedule k' /\
    (minStability unit s' <= stability unit s' \/
     betterThreshold (lastThreshold unit s') == lastThreshold unit s').
Proof.
  apply (load_stays_on_schedule unit idle_factor (1 # 10 ^ 16) 7 2 [] 3
           stable_state); [lia | reflexivity | reflexivity].
Defined.

Lemma load_relaxes_threshold_witness :
  load unit idle_factor (1 # 10 ^ 16) 7 [] 1 stable_state
  = (s' ← load_loop unit idle_factor 7 []
            (set_lastThreshold unit (schedule 1)
               (set_minStability unit (2 * MINSTABILITY)
                  (prepared unit stable_state)));
     Some (s', status unit s')).
Proof.
  apply (load_relaxes_threshold unit idle_factor (1 # 10 ^ 16) 7 2 [] 1
           stable_state); [lia | reflexivity | reflexivity | reflexivity
                          | reflexivity].
Defined.

End Reload.

(** * [_correctPrimalSolution] and [_correctDualSolution] *)

Module Correction.

Import SSVector LP Refinement Lifting.

(** The state of the two loops: the solution vector that is corrected,
    the basis statuses, [_primalDualDiff] and the counter. *)
Abbreviation Pass := (list Q * list VarStatus * SVector * nat)%type.

Definition statusAt (l : list VarStatus) (i : nat) : VarStatus :=
  default UNDEFINED (l !! i).

(** [_forceNonbasicToBound(sol, c, maxDimRational, toLower)], on
    [sol._primal] and [_primalDualDiff]. *)
Definition _forceNonbasicToBound (lp : LP.t) (c : nat) (toLower : bool)
  (st : list Q * SVector) : list Q * SVector :=
  let '(primal, diff) := st in
  let b := if toLower then get (lower lp) c else get (upper lp) c in
  (<[c := b]> primal, diff ++ [(c, b - get primal c)]).

(** One pass of the loop of [_correctPrimalSolution]. *)
Definition correctCol (lp : LP.t) (primalScaleInverse : Q) (primalReal : list Q)
  (c : nat) (st : Pass) : Pass :=
  let '(primal, cols, diff, primalSize) := st in
  let '(primal, cols, diff) :=
    match statusAt cols c with
    | ON_LOWER =>
        if negb (Qeq_bool (get primal c) (get (lower lp) c))
        then let '(p, d) := _forceNonbasicToBound lp c true (primal, diff) in
             (p, cols, d)
        else (primal, cols, diff)
    | ON_UPPER =>
        if negb (Qeq_bool (get primal c) (get (upper lp) c))
        then let '(p, d) := _forceNonbasicToBound lp c false (primal, diff) in
             (p, cols, d)
        else (primal, cols, diff)
    | FIXED =>
        let cols := <[c := ON_LOWER]> cols in
        if negb (Qeq_bool (get primal c) (get (lower lp) c))
        then let '(p, d) := _forceNonbasicToBound lp c true (primal, diff) in
             (p, cols, d)
        else (primal, cols, diff)
    | ZERO =>
        if negb (Qeq_bool (get primal c) 0)
        then (<[c := 0]> primal, cols, diff ++ [(c, get primal c * -1)])
        else (primal, cols, diff)
    | _ =>
        if Qeq_bool (get primalReal c) 1 then
          let v := primalScaleInverse in
          (<[c := get primal c + v]> primal, cols, diff ++ [(c, v)])
        else if Qeq_bool (get primalReal c) (-1) then
          let v := primalScaleInverse * -1 in
          (<[c := get primal c + v]> primal, cols, diff ++ [(c, v)])
        else if negb (Qeq_bool (get primalReal c) 0) then
          let v := get primalReal c * primalScaleInverse in
          (<[c := get primal c + v]> primal, cols, diff ++ [(c, v)])
        else (primal, cols, diff)
    end in
  (primal, cols, diff,
   if negb (Qeq_bool (get primal c) 0) then S primalSize else primalSize).

(** [_correctPrimalSolution(sol, primalScale, primalSize, maxDimRational,
    primalReal)]; returns [sol._primal] (no other member of [sol] is
    written), [_basisStatusCols], [_primalDualDiff] and [primalSize]. *)
Definition _correctPrimalSolution (lp : LP.t) (_basisStatusCols : list VarStatus)
  (sol : Sol) (primalScale : Q) (primalReal : list Q) : Pass :=
  for_down (nCols lp) (correctCol lp (/ primalScale) primalReal)
           (_primal sol, _basisStatusCols, [], 0%nat).

(** One pass of the loop of [_correctDualSolution]. *)
Definition correctRow (dualScaleInverseNeg : Q) (dualReal : list Q)
  (r : nat) (st : Pass) : Pass :=
  let '(dual, rows, diff, dualSize) := st in
  let rows :=
    if decide (statusAt rows r = FIXED) then <[r := ON_LOWER]> rows else rows in
  if negb (Qeq_bool (get dualReal r) 0) then
    let v := get dualReal r * dualScaleInverseNeg in
    (<[r := get dual r - v]> dual, rows, diff ++ [(r, v)], S dualSize)
  else (dual, rows, diff, S dualSize).

(** [_correctDualSolution(sol, maximizing, dualReal, dualScale, dualSize,
    maxDimRational)], without the block that is compiled for debugging
    only; returns [sol._dual], [_basisStatusRows], [_primalDualDiff] and
    [dualSize]. *)
Definition _correctDualSolution (lp : LP.t) (_basisStatusRows : list VarStatus)
  (sol : Sol) (dualReal : list Q) (dualScale : Q) : Pass :=
  for_down (nRows lp) (correctRow (/ dualScale * -1) dualReal)
           (_dual sol, _basisStatusRows, [], 0%nat).

(** The value a column has after the correction. *)
Definition correctedPrimal (lp : LP.t) (primalScale : Q) (primalReal : list Q)
  (c : nat) (st : VarStatus) (old : Q) : Q :=
  match st with
  | ON_LOWER | FIXED => get (lower lp) c
  | ON_UPPER => get (upper lp) c
  | ZERO => 0
  | _ => old + get primalReal c / primalScale
  end.

(** ** The loop, for both corrections *)

Lemma entry_snoc_same (c : nat) (x : Q) (row : SVector) :
  c ∉ (fst <$> row) -> entry c (row ++ [(c, x)]) = Some x.
Proof.
  induction row as [|e row IH].
  - intros _. cbn [app]. rewrite entry_cons. cbn [fst snd].
    destruct (decide (c = c)); [reflexivity | congruence].
  - rewrite fmap_cons, not_elem_of_cons. intros [H1 H2].
    rewrite <- app_comm_cons, entry_cons.
    destruct (decide (fst e = c)); [congruence | exact (IH H2)].
Qed.

Lemma filter_seq_agree (f g : nat -> bool) (a k : nat) :
  (forall j, (a <= j < a + k)%nat -> f j = g j) ->
  filter (fun j => f j = true) (seq a k) = filter (fun j => g j = true) (seq a k).
Proof.
  revert a. induction k as [|k IH]; intros a H; [reflexivity|].
  cbn [seq]. rewrite !filter_cons, (IH (S a)) by (intros j Hj; apply H; lia).
  rewrite (H a) by lia. reflexivity.
Qed.

Lemma unfixed_insert (cs : list VarStatus) (c : nat) :
  statusAt cs c = FIXED -> <[c := ON_LOWER]> cs = alter unfixed c cs.
Proof.
  unfold statusAt. intros H. rewrite insert_as_alter.
  apply list_eq. intros i. destruct (decide (i = c)) as [->|Hne].
  - rewrite !list_lookup_alter_eq. destruct (cs !! c) as [s|]; [|reflexivity].
    cbn in *. subst s. reflexivity.
  - rewrite !list_lookup_alter_ne by auto. reflexivity.
Qed.

Lemma unfixed_keep (cs : list VarStatus) (c : nat) :
  statusAt cs c <> FIXED -> cs = alter unfixed c cs.
Proof.
  unfold statusAt. intros H.
  apply list_eq. intros i. destruct (decide (i = c)) as [->|Hne].
  - rewrite list_lookup_alter_eq. destruct (cs !! c) as [s|]; [|reflexivity].
    cbn in *. destruct s; try reflexivity. congruence.
  - rewrite list_lookup_alter_ne by auto. reflexivity.
Qed.

Section Loop.

Variable n : nat.
Variable body : nat -> Pass -> Pass.
Variable x0 : list Q.
Variable s0 : list VarStatus.
(** The sign with which a recorded difference enters the vector. *)
Variable sigma : Q.
(** What a pass guarantees for the cell it visits, from the status and
    the value it finds and the value it leaves. *)
Variable final : nat -> VarStatus -> Q -> Q -> Prop.
(** The test under which the counter is incremented. *)
Variable count : Q -> bool.

Hypothesis body_step : forall c x cs d sz,
  (c < length x)%nat -> (c < length cs)%nat ->
  exists x' d',
    body c (x, cs, d, sz)
    = (x', alter unfixed c cs, d', if count (get x' c) then S sz else sz) /\
    final c (statusAt cs c) (get x c) (get x' c) /\
    ((x' = x /\ d' = d) \/
     exists v delta, ~ delta == 0 /\ v == get x c + sigma * delta /\
                     x' = <[c := v]> x /\ d' = d ++ [(c, delta)]).

Hypothesis x0_length : length x0 = n.
Hypothesis s0_length : length s0 = n.

(** Before pass [k - 1] the cells from [k] on are corrected and recorded,
    the cells below [k] are as at entry. *)
Definition corrected (k : nat) (st : Pass) : Prop :=
  let '(x, cs, d, sz) := st in
  length x = n /\ length cs = n /\
  (forall c, (c < k)%nat -> x !! c = x0 !! c /\ cs !! c = s0 !! c) /\
  (forall c, (k <= c < n)%nat ->
     cs !! c = unfixed <$> s0 !! c /\
     get x c == get x0 c + sigma * default 0 (entry c d) /\
     final c (statusAt s0 c) (get x0 c) (get x c) /\
     (entry c d = None -> x !! c = x0 !! c)) /\
  (forall c delta, (c, delta) ∈ d -> (k <= c < n)%nat /\ ~ delta == 0) /\
  NoDup (fst <$> d) /\
  sz = length (filter (fun c => count (get x c) = true) (seq k (n - k))).

Lemma corrected_fresh (k : nat) (d : SVector) :
  (forall c delta, (c, delta) ∈ d -> (S k <= c < n)%nat /\ ~ delta == 0) ->
  k ∉ (fst <$> d).
Proof.
  intros H Hin. apply list_elem_of_fmap in Hin as ([c delta] & -> & Hin).
  apply H in Hin. cbn in Hin. lia.
Qed.

Lemma correction_loop :
  corrected 0 (for_down n body (x0, s0, [], 0%nat)).
Proof.
  apply (for_down_ind corrected).
  - unfold corrected. rewrite Nat.sub_diag. cbn [seq].
    split; [exact x0_length|]. split; [exact s0_length|].
    split; [auto|]. split; [intros j Hj; lia|].
    split; [intros j delta Hin; apply not_elem_of_nil in Hin; contradiction|].
    split; [constructor | reflexivity].
  - intros c [[[x cs] d] sz] Hc (Lx & Lcs & Hlow & Hhigh & Hd & Hnd & Hsz).
    destruct (body_step c x cs d sz) as (x' & d' & -> & Hfin & Hch);
      [lia | lia |].
    destruct (Hlow c (Nat.lt_succ_diag_r c)) as [Hxc Hcc].
    assert (Hgx : get x c = get x0 c) by (unfold get; rewrite Hxc; reflexivity).
    assert (Hst : statusAt cs c = statusAt s0 c)
      by (unfold statusAt; rewrite Hcc; reflexivity).
    rewrite Hgx, Hst in Hfin.
    pose proof (corrected_fresh c d Hd) as Hfresh.
    assert (Hx' : length x' = n /\
                  (forall j, j <> c -> x' !! j = x !! j)).
    { destruct Hch as [[-> _]|(v & delta & _ & _ & -> & _)].
      - split; [exact Lx | reflexivity].
      - split; [rewrite length_insert; exact Lx|].
        intros j Hj. apply list_lookup_insert_ne. auto. }
    destruct Hx' as [Lx' Hother].
    assert (Hgo : forall j, j <> c -> get x' j = get x j)
      by (intros j Hj; unfold get; rewrite Hother by exact Hj; reflexivity).
    unfold corrected.
    split; [exact Lx'|]. split; [rewrite length_alter; exact Lcs|].
    split; [|split; [|split; [|split]]].
    + intros j Hj. destruct (Hlow j) as [H1 H2]; [lia|].
      rewrite Hother by lia. rewrite list_lookup_alter_ne by lia. auto.
    + intros j Hj. destruct (decide (j = c)) as [->|Hne].
      * split; [rewrite list_lookup_alter_eq, Hcc; reflexivity|].
        destruct Hch as [[-> ->]|(v & delta & Hnz & Hv & -> & ->)].
        -- rewrite (entry_absent c d Hfresh). cbn [default].
           split; [rewrite Hgx; ring|]. split; [exact Hfin|].
           intros _. exact Hxc.
        -- rewrite (entry_snoc_same c delta d Hfresh). cbn [default].
           rewrite get_insert_eq by lia.
           rewrite get_insert_eq in Hfin by lia.
           split; [rewrite Hv, Hgx; reflexivity|]. split; [exact Hfin|].
           discriminate.
      * destruct (Hhigh j) as (H1 & H2 & H3 & H4); [lia|].
        rewrite list_lookup_alter_ne by auto.
        rewrite (Hgo j Hne), (Hother j Hne).
        split; [exact H1|].
        destruct Hch as [[_ ->]|(v & delta & _ & _ & _ & ->)].
        -- auto.
        -- rewrite (entry_snoc_other c j delta d Hne). auto.
    + intros j delta Hin.
      destruct Hch as [[_ ->]|(v & delta' & Hnz & _ & _ & ->)].
      * apply Hd in Hin. split; [lia | tauto].
      * apply elem_of_app in Hin as [Hin|Hin].
        -- apply Hd in Hin. split; [lia | tauto].
        -- apply list_elem_of_singleton in Hin. injection Hin as -> ->.
           split; [lia | exact Hnz].
    + destruct Hch as [[_ ->]|(v & delta & _ & _ & _ & ->)]; [exact Hnd|].
      rewrite fmap_app. apply NoDup_app. split; [exact Hnd|].
      split; [|apply NoDup_singleton].
      intros j Hj Hin. cbn in Hin. apply list_elem_of_singleton in Hin.
      subst j. contradiction.
    + replace (n - c)%nat with (S (n - S c)) by lia. cbn [seq].
      rewrite filter_cons.
      rewrite (filter_seq_agree (fun j => count (get x' j))
                 (fun j => count (get x j)))
        by (intros j Hj; rewrite Hgo by lia; reflexivity).
      rewrite Hsz.
      destruct (count (get x' c)).
      * rewrite decide_True by reflexivity. reflexivity.
      * rewrite decide_False by discriminate. reflexivity.
Qed.

End Loop.

Lemma Qinv_nonzero (s : Q) : ~ s == 0 -> ~ / s == 0.
Proof.
  intros Hs H. pose proof (Qmult_inv_r s Hs) as H1. rewrite H in H1.
  rewrite Qmult_0_r in H1. discriminate.
Qed.

Lemma alter_unfixed (cs : list VarStatus) (c : nat) :
  alter unfixed c cs
  = if decide (statusAt cs c = FIXED) then <[c := ON_LOWER]> cs else cs.
Proof.
  destruct (decide _) as [H|H]; symmetry;
    [apply unfixed_insert | apply unfixed_keep]; exact H.
Qed.

(** The pass for a column that is basic (or has no status). *)
Lemma basic_step (primalScale : Q) (primalReal : list Q) (c : nat)
  (x : list Q) (cs : list VarStatus) (d : SVector) (sz : nat) :
  ~ primalScale == 0 -> (c < length x)%nat -> ~ / primalScale == 0 ->
  exists x' d',
    (let '(primal, cols, diff) :=
       if Qeq_bool (get primalReal c) 1 then
         (<[c := get x c + / primalScale]> x, cs, d ++ [(c, / primalScale)])
       else if Qeq_bool (get primalReal c) (-1) then
         (<[c := get x c + / primalScale * -1]> x, cs,
          d ++ [(c, / primalScale * -1)])
       else if negb (Qeq_bool (get primalReal c) 0) then
         (<[c := get x c + get primalReal c * / primalScale]> x, cs,
          d ++ [(c, get primalReal c * / primalScale)])
       else (x, cs, d) in
     (primal, cols, diff,
      if negb (Qeq_bool (get primal c) 0) then S sz else sz))
    = (x', cs, d', if negb (Qeq_bool (get x' c) 0) then S sz else sz) /\
    get x' c == get x c + get primalReal c / primalScale /\
    ((x' = x /\ d' = d) \/
     exists v delta, ~ delta == 0 /\ v == get x c + 1 * delta /\
                     x' = <[c := v]> x /\ d' = d ++ [(c, delta)]).
Proof.
  intros Hs Hc Hi.
  destruct (Qeq_bool (get primalReal c) 1) eqn:T1.
  { apply Qeq_bool_iff in T1. eexists _, _. split; [reflexivity|].
    rewrite get_insert_eq by exact Hc.
    split; [rewrite T1; field; exact Hs|]. right.
    eexists _, _. split; [exact Hi|]. split; [|split; reflexivity]. ring. }
  destruct (Qeq_bool (get primalReal c) (-1)) eqn:T2.
  { apply Qeq_bool_iff in T2. eexists _, _. split; [reflexivity|].
    rewrite get_insert_eq by exact Hc.
    split; [rewrite T2; field; exact Hs|]. right.
    eexists _, _. split; [|split; [|split; reflexivity]]; [lra | ring]. }
  destruct (Qeq_bool (get primalReal c) 0) eqn:T3; cbn [negb].
  { apply Qeq_bool_iff in T3. exists x, d. split; [reflexivity|].
    split; [rewrite T3; field; exact Hs|]. auto. }
  apply Qeq_bool_neq in T3. eexists _, _. split; [reflexivity|].
  rewrite get_insert_eq by exact Hc.
  split; [field; exact Hs|]. right.
  eexists _, _. split; [|split; [|split; reflexivity]]; [|ring].
  intros H. apply Qmult_integral in H as [H|H]; contradiction.
Qed.

Lemma correctCol_step (lp : LP.t) (primalScale : Q) (primalReal : list Q)
  (c : nat) (x : list Q) (cs : list VarStatus) (d : SVector) (sz : nat) :
  ~ primalScale == 0 -> (c < length x)%nat ->
  exists x' d',
    correctCol lp (/ primalScale) primalReal c (x, cs, d, sz)
    = (x', alter unfixed c cs, d',
       if negb (Qeq_bool (get x' c) 0) then S sz else sz) /\
    get x' c == correctedPrimal lp primalScale primalReal c (statusAt cs c) (get x c) /\
    ((x' = x /\ d' = d) \/
     exists v delta, ~ delta == 0 /\ v == get x c + 1 * delta /\
                     x' = <[c := v]> x /\ d' = d ++ [(c, delta)]).
Proof.
  intros Hs Hc. pose proof (Qinv_nonzero _ Hs) as Hi.
  rewrite (alter_unfixed cs c).
  unfold correctCol, _forceNonbasicToBound.
  destruct (statusAt cs c) eqn:E; cbn [correctedPrimal];
    first [rewrite decide_True by reflexivity
          |rewrite decide_False by discriminate].
  - (* ON_UPPER *)
    destruct (Qeq_bool (get x c) (get (upper lp) c)) eqn:T; cbn [negb].
    + exists x, d. split; [reflexivity|].
      apply Qeq_bool_iff in T. auto.
    + exists (<[c := get (upper lp) c]> x), (d ++ [(c, get (upper lp) c - get x c)]).
      split; [reflexivity|]. rewrite get_insert_eq by exact Hc.
      split; [reflexivity|]. right. apply Qeq_bool_neq in T.
      eexists _, _. split; [|split; [|split; reflexivity]]; [lra | ring].
  - (* ON_LOWER *)
    destruct (Qeq_bool (get x c) (get (lower lp) c)) eqn:T; cbn [negb].
    + exists x, d. split; [reflexivity|].
      apply Qeq_bool_iff in T. auto.
    + exists (<[c := get (lower lp) c]> x), (d ++ [(c, get (lower lp) c - get x c)]).
      split; [reflexivity|]. rewrite get_insert_eq by exact Hc.
      split; [reflexivity|]. right. apply Qeq_bool_neq in T.
      eexists _, _. split; [|split; [|split; reflexivity]]; [lra | ring].
  - (* FIXED *)
    destruct (Qeq_bool (get x c) (get (lower lp) c)) eqn:T; cbn [negb].
    + exists x, d. split; [reflexivity|].
      apply Qeq_bool_iff in T. auto.
    + exists (<[c := get (lower lp) c]> x), (d ++ [(c, get (lower lp) c - get x c)]).
      split; [reflexivity|]. rewrite get_insert_eq by exact Hc.
      split; [reflexivity|]. right. apply Qeq_bool_neq in T.
      eexists _, _. split; [|split; [|split; reflexivity]]; [lra | ring].
  - (* ZERO *)
    destruct (Qeq_bool (get x c) 0) eqn:T; cbn [negb].
    + exists x, d. split; [reflexivity|].
      apply Qeq_bool_iff in T. auto.
    + exists (<[c := 0]> x), (d ++ [(c, get x c * -1)]).
      split; [reflexivity|]. rewrite get_insert_eq by exact Hc.
      split; [reflexivity|]. right. apply Qeq_bool_neq in T.
      eexists _, _. split; [|split; [|split; reflexivity]]; [lra | ring].
  - (* BASIC *)
    apply basic_step; assumption.
  - (* UNDEFINED *)
    apply basic_step; assumption.
Qed.

Lemma correctRow_step (dualScale : Q) (dualReal : list Q)
  (r : nat) (x : list Q) (cs : list VarStatus) (d : SVector) (sz : nat) :
  ~ dualScale == 0 -> (r < length x)%nat ->
  exists x' d',
    correctRow (/ dualScale * -1) dualReal r (x, cs, d, sz)
    = (x', alter unfixed r cs, d', if true then S sz else sz) /\
    get x' r == get x r + get dualReal r / dualScale /\
    ((x' = x /\ d' = d) \/
     exists v delta, ~ delta == 0 /\ v == get x r + (-1) * delta /\
                     x' = <[r := v]> x /\ d' = d ++ [(r, delta)]).
Proof.
  intros Hs Hr. pose proof (Qinv_nonzero _ Hs) as Hi.
  rewrite (alter_unfixed cs r). unfold correctRow.
  destruct (Qeq_bool (get dualReal r) 0) eqn:T; cbn [negb].
  - apply Qeq_bool_iff in T. exists x, d. split; [reflexivity|].
    split; [rewrite T; field; exact Hs|]. auto.
  - apply Qeq_bool_neq in T. eexists _, _. split; [reflexivity|].
    rewrite get_insert_eq by exact Hr.
    split; [field; exact Hs|]. right.
    eexists _, _. split; [|split; [|split; reflexivity]]; [|ring].
    intros H. apply Qmult_integral in H as [H|H]; [contradiction|].
    apply Hi. lra.
Qed.

(** What the loop lemma gives for the whole array of statuses. *)
Lemma unfixed_all (n : nat) (cs s0 : list VarStatus) :
  length cs = n -> length s0 = n ->
  (forall c, (0 <= c < n)%nat -> cs !! c = unfixed <$> s0 !! c) ->
  cs = unfixed <$> s0.
Proof.
  intros L1 L2 H. apply list_eq. intros c. rewrite list_lookup_fmap.
  destruct (decide (c < n)%nat) as [Hc|Hc]; [apply H; lia|].
  rewrite !lookup_ge_None_2 by lia. reflexivity.
Qed.

(** [_correctPrimalSolution] brings the primal vector in line with the
    basis and records what it changed.  Afterwards a column that is
    nonbasic at its lower bound (or fixed) has the lower bound as value, one
    at its upper bound the upper bound, one at zero the value 0, and every
    other column has moved by [primalReal[c] / primalScale]; fixed columns
    have become [ON_LOWER]; [_primalDualDiff] holds every changed column
    once, with the nonzero amount by which it changed, so that the new
    vector is the old one plus [_primalDualDiff]; and [primalSize] is the
    number of nonzeros of the new vector. *)
Theorem correctPrimalSolution_spec (lp : LP.t) (cols : list VarStatus)
  (sol : Sol) (primalScale : Q) (primalReal : list Q) :
  length (_primal sol) = nCols lp -> length cols = nCols lp ->
  ~ primalScale == 0 ->
  let res := _correctPrimalSolution lp cols sol primalScale primalReal in
  let primal' := res.1.1.1 in
  let diff := res.1.2 in
  res.1.1.2 = unfixed <$> cols /\
  length primal' = nCols lp /\
  NoDup (fst <$> diff) /\
  (forall c delta, (c, delta) ∈ diff -> (c < nCols lp)%nat /\ ~ delta == 0) /\
  (forall c, (c < nCols lp)%nat ->
     get primal' c
     == correctedPrimal lp primalScale primalReal c (statusAt cols c)
          (get (_primal sol) c) /\
     get primal' c == get (_primal sol) c + default 0 (entry c diff) /\
     (entry c diff = None -> primal' !! c = _primal sol !! c)) /\
  res.2 = length (filter (fun c => negb (Qeq_bool (get primal' c) 0) = true)
                    (seq 0 (nCols lp))).
Proof.
  intros Lx Lc Hs. cbv zeta.
  pose proof (correction_loop (nCols lp)
                (correctCol lp (/ primalScale) primalReal)
                (_primal sol) cols 1
                (fun c st old new =>
                   new == correctedPrimal lp primalScale primalReal c st old)
                (fun v => negb (Qeq_bool v 0))
                (fun c x cs d sz Hc _ =>
                   correctCol_step lp primalScale primalReal c x cs d sz Hs Hc)
                Lx Lc) as H.
  unfold _correctPrimalSolution.
  destruct (for_down _ _ _) as [[[x' cs'] d'] sz'].
  destruct H as (L1 & L2 & _ & Hhigh & Hd & Hnd & Hsz). cbn [fst snd].
  split; [apply (unfixed_all (nCols lp)); auto; intros c Hc; apply Hhigh, Hc|].
  split; [exact L1|]. split; [exact Hnd|].
  split; [intros c delta Hin; apply Hd in Hin; split; [lia | tauto]|].
  split.
  - intros c Hc. destruct (Hhigh c) as (_ & H2 & H3 & H4); [lia|].
    split; [exact H3|]. split; [rewrite H2; ring | exact H4].
  - rewrite Hsz, Nat.sub_0_r. reflexivity.
Qed.

(** [_correctDualSolution] adds [dualReal[r] / dualScale] to every dual
    value and turns the fixed row statuses into [ON_LOWER];
    [_primalDualDiff] holds the rows with [dualReal[r] != 0] once each,
    with the nonzero amount that was subtracted, so that the new vector
    is the old one minus [_primalDualDiff]; and [dualSize] is the number
    of rows, whatever the dual values are. *)
Theorem correctDualSolution_spec (lp : LP.t) (rows : list VarStatus)
  (sol : Sol) (dualReal : list Q) (dualScale : Q) :
  length (_dual sol) = nRows lp -> length rows = nRows lp ->
  ~ dualScale == 0 ->
  let res := _correctDualSolution lp rows sol dualReal dualScale in
  let dual' := res.1.1.1 in
  let diff := res.1.2 in
  res.1.1.2 = unfixed <$> rows /\
  length dual' = nRows lp /\
  NoDup (fst <$> diff) /\
  (forall r delta, (r, delta) ∈ diff -> (r < nRows lp)%nat /\ ~ delta == 0) /\
  (forall r, (r < nRows lp)%nat ->
     get dual' r == get (_dual sol) r + get dualReal r / dualScale /\
     get dual' r == get (_dual sol) r - default 0 (entry r diff) /\
     (entry r diff = None -> dual' !! r = _dual sol !! r)) /\
  res.2 = nRows lp.
Proof.
  intros Lx Lc Hs. cbv zeta.
  pose proof (correction_loop (nRows lp)
                (correctRow (/ dualScale * -1) dualReal)
                (_dual sol) rows (-1)
                (fun r st old new => new == old + get dualReal r / dualScale)
                (fun v => true)
                (fun r x cs d sz Hr _ =>
                   correctRow_step dualScale dualReal r x cs d sz Hs Hr)
                Lx Lc) as H.
  unfold _correctDualSolution.
  destruct (for_down _ _ _) as [[[x' cs'] d'] sz'].
  destruct H as (L1 & L2 & _ & Hhigh & Hd & Hnd & Hsz). cbn [fst snd].
  split; [apply (unfixed_all (nRows lp)); auto; intros c Hc; apply Hhigh, Hc|].
  split; [exact L1|]. split; [exact Hnd|].
  split; [intros c delta Hin; apply Hd in Hin; split; [lia | tauto]|].
  split.
  - intros c Hc. destruct (Hhigh c) as (_ & H2 & H3 & H4); [lia|].
    split; [exact H3|]. split; [rewrite H2; ring | exact H4].
  - rewrite Hsz, Nat.sub_0_r.
    assert (Hall : forall l : list nat, filter (fun _ => true = true) l = l).
    { induction l as [|a l IH]; [reflexivity|].
      rewrite filter_cons, decide_True by reflexivity. rewrite IH. reflexivity. }
    rewrite Hall. apply length_seq.
Qed.

Lemma correctPrimalSolution_spec_witness :
  ~ 2 == 0 /\
  NoDup (fst <$> (_correctPrimalSolution Violation.violation_lp
                    [ON_LOWER; BASIC] Violation.violation_sol 2 [0; 1]).1.2) /\
  (_correctPrimalSolution Violation.violation_lp
     [ON_LOWER; BASIC] Violation.violation_sol 2 [0; 1]).2 = 1%nat.
Proof.
  assert (Hs : ~ 2 == 0) by discriminate.
  split; [exact Hs|].
  pose proof (correctPrimalSolution_spec Violation.violation_lp
                [ON_LOWER; BASIC] Violation.violation_sol 2 [0; 1]
                eq_refl eq_refl Hs) as H.
  cbv zeta in H. destruct H as (_ & _ & Hnd & _ & _ & Hsz).
  split; [exact Hnd|]. rewrite Hsz. reflexivity.
Defined.

Lemma correctDualSolution_spec_witness :
  ~ 4 == 0 /\
  (_correctDualSolution Violation.violation_lp [FIXED]
     Violation.violation_sol [1] 4).1.1.2 = [ON_LOWER] /\
  (_correctDualSolution Violation.violation_lp [FIXED]
     Violation.violation_sol [1] 4).2 = 1%nat.
Proof.
  assert (Hs : ~ 4 == 0) by discriminate.
  split; [exact Hs|].
  pose proof (correctDualSolution_spec Violation.violation_lp [FIXED]
                Violation.violation_sol [1] 4 eq_refl eq_refl Hs) as H.
  cbv zeta in H. destruct H as (Hc & _ & _ & _ & _ & Hsz).
  split; [exact Hc | exact Hsz].
Defined.

End Correction.

(** * The feasibility problem: [_transformFeasibility] and
      [_untransformFeasibility] *)

Module Feasibility.

Import SSVector LP Transform Equality.

(** The members that [_transformFeasibility] fills for
    [_untransformFeasibility]. *)
Record Feas : Type := mkFeas {
  _feasObj : list Q;
  _feasLower : list Q;
  _feasUpper : list Q;
  _feasLhs : list Q;
  _feasRhs : list Q;
  _tauColVector : SVector
}.

(** [changeRange(r, newLhs, newRhs)]. *)
Definition changeRange (r : nat) (l u : Q) (lp : LP.t) : LP.t :=
  changeRhs r u (changeLhs r l lp).

(** [vec -= svec] and [vec.multAdd(x, svec)] for a dense [vec] and a
    sparse [svec]. *)
Definition subSV (svec : SVector) (l : list Q) : list Q :=
  foldl (fun acc e => <[fst e := get acc (fst e) - snd e]> acc) l svec.

Definition multAddSV (x : Q) (svec : SVector) (l : list Q) : list Q :=
  foldl (fun acc e => <[fst e := get acc (fst e) + x * snd e]> acc) l svec.

Section Shift.

(** [R(.)] and [realParam(INFTY)]. *)
Variable toReal : Q -> Q.
Variable INFTY : Q.

(** "store objective function": [_feasObj[c] = maxObj(c)] for every
    column. *)
Definition storeAll (values : list Q) (n : nat) (store : list Q) : list Q :=
  for_down n (fun c st => <[c := get values c]> st) (resize n 0 store).

(** One pass of the loop over the nonzeros of column [c]: the sides of
    the row are shifted by the coefficient times the bound [bnd]. *)
Definition shiftRow (rowTypes : list RangeType) (colVec : SVector)
  (bnd : LP.t -> Q) (i : nat) (st : LP.t * LP.t) : LP.t * LP.t :=
  let '(q, f) := st in
  match colVec !! i with
  | Some (r, value) =>
    let shiftValue := value * bnd q in
    if _lowerFinite (ty rowTypes r) && _upperFinite (ty rowTypes r) then
      let shiftValue2 := get (lhs q) r - shiftValue in
      let q := changeLhs r shiftValue2 q in
      let f := changeLhs r (toReal shiftValue2) f in
      let shiftValue := (shiftValue - get (rhs q) r) * -1 in
      (changeRhs r shiftValue q, changeRhs r (toReal shiftValue) f)
    else if _lowerFinite (ty rowTypes r) then
      let shiftValue := (shiftValue - get (lhs q) r) * -1 in
      (changeLhs r shiftValue q, changeLhs r (toReal shiftValue) f)
    else if _upperFinite (ty rowTypes r) then
      let shiftValue := (shiftValue - get (rhs q) r) * -1 in
      (changeRhs r shiftValue q, changeRhs r (toReal shiftValue) f)
    else (q, f)
  | None => (q, f)
  end.

(** "set objective coefficients to zero; shift primal space such as to
    guarantee that the zero solution is within the bounds": one pass of
    the loop over the columns. *)
Definition shiftCol (colTypes rowTypes : list RangeType) (c : nat)
  (st : LP.t * LP.t) : LP.t * LP.t :=
  let '(q, f) := st in
  let q := changeMaxObj c 0 q in
  let f := changeMaxObj c 0 f in
  if Qltb 0 (get (lower q) c) then
    let colVec := colVector c q in
    let '(q, f) :=
      for_up 0 (length colVec)
        (shiftRow rowTypes colVec (fun q => get (lower q) c)) (q, f) in
    if _upperFinite (ty colTypes c) then
      let q := changeBounds c 0 (get (upper q) c - get (lower q) c) q in
      (q, changeBounds c 0 (toReal (get (upper q) c)) f)
    else if Qltb (get (upper f) c) INFTY then
      (changeLower c 0 q, changeBounds c 0 INFTY f)
    else (changeLower c 0 q, changeLower c 0 f)
  else if Qltb (get (upper q) c) 0 then
    let colVec := colVector c q in
    let '(q, f) :=
      for_up 0 (length colVec)
        (shiftRow rowTypes colVec (fun q => get (upper q) c)) (q, f) in
    if _lowerFinite (ty colTypes c) then
      let q := changeBounds c (get (lower q) c - get (upper q) c) 0 q in
      (q, changeBounds c (toReal (get (lower q) c)) 0 f)
    else if Qltb (- INFTY) (get (lower f) c) then
      (changeUpper c 0 q, changeBounds c (- INFTY) 0 f)
    else (changeUpper c 0 q, changeUpper c 0 f)
  else
    let f :=
      if _lowerFinite (ty colTypes c)
      then changeLower c (toReal (get (lower q) c)) f
      else if Qltb (- INFTY) (get (lower f) c)
           then changeLower c (- INFTY) f else f in
    let f :=
      if _upperFinite (ty colTypes c)
      then changeUpper c (toReal (get (upper q) c)) f
      else if Qltb (get (upper f) c) INFTY
           then changeUpper c INFTY f else f in
    (q, f).

(** "homogenize sides": one pass of the loop over the rows, on the two
    LPs and [_tauColVector]. *)
Definition homogenize (rowTypes : list RangeType) (r : nat)
  (st : LP.t * LP.t * SVector) : LP.t * LP.t * SVector :=
  let '(q, f, tau) := st in
  if Qltb 0 (get (lhs q) r) then
    let tau := tau ++ [(r, get (lhs q) r)] in
    if _upperFinite (ty rowTypes r) then
      let q := changeRange r 0 (get (rhs q) r - get (lhs q) r) q in
      (q, changeRange r 0 (toReal (get (rhs q) r)) f, tau)
    else
      let q := changeLhs r 0 q in
      let f := changeLhs r 0 f in
      (q, if Qltb (get (rhs f) r) INFTY then changeRhs r INFTY f else f, tau)
  else if Qltb (get (rhs q) r) 0 then
    let tau := tau ++ [(r, get (rhs q) r)] in
    if _lowerFinite (ty rowTypes r) then
      let q := changeRange r (get (lhs q) r - get (rhs q) r) 0 q in
      (q, changeRange r (toReal (get (lhs q) r)) 0 f, tau)
    else
      let q := changeRhs r 0 q in
      let f := changeRhs r 0 f in
      (q, if Qltb (- INFTY) (get (lhs f) r) then changeLhs r (- INFTY) f else f,
       tau)
  else
    let f :=
      if _lowerFinite (ty rowTypes r)
      then changeLhs r (toReal (get (lhs q) r)) f
      else if Qltb (- INFTY) (get (lhs f) r)
           then changeLhs r (- INFTY) f else f in
    let f :=
      if _upperFinite (ty rowTypes r)
      then changeRhs r (toReal (get (rhs q) r)) f
      else if Qltb (get (rhs f) r) INFTY
           then changeRhs r INFTY f else f in
    (q, f, tau).

(** [_transformFeasibility()]; [maximizing] is
    [intParam(OBJSENSE) == OBJSENSE_MAXIMIZE]. *)
Definition _transformFeasibility (maximizing : bool) (d : Driver) (s : Feas)
  : Driver * Feas :=
  let nc := numColsRational d in
  let nr := numRowsRational d in
  let q := _rationalLP d in
  (* store objective function *)
  let feasObj := storeAll (maxObj q) nc (_feasObj s) in
  (* store bounds *)
  let feasLower := storeFinite _lowerFinite (_colTypes d) (lower q) nc (_feasLower s) in
  let feasUpper := storeFinite _upperFinite (_colTypes d) (upper q) nc (_feasUpper s) in
  (* store sides *)
  let feasLhs := storeFinite _lowerFinite (_rowTypes d) (lhs q) nr (_feasLhs s) in
  let feasRhs := storeFinite _upperFinite (_rowTypes d) (rhs q) nr (_feasRhs s) in
  (* set objective coefficients to zero; shift primal space *)
  let '(q, f) :=
    for_down nc (shiftCol (_colTypes d) (_rowTypes d)) (q, _realLP d) in
  (* homogenize sides *)
  let '(q, f, tau) :=
    for_down (nRows q) (homogenize (_rowTypes d)) (q, f, []) in
  (* add artificial column *)
  let tau := (fun e => (fst e, snd e * -1)) <$> tau in
  let obj : Q := if maximizing then 1 else -1 in
  let q := addCols (fun x => x) [mkLPCol obj 0 tau 1] q in
  let f := addCols (fun x => x) [mkLPCol obj 0 (toRealVector toReal tau) 1] f in
  let d := set_types (_colTypes d ++ [RANGETYPE_BOXED]) (_rowTypes d)
             (set_LPs q f d) in
  (* adjust basis *)
  let d :=
    if _hasBasis d
    then set_basis (_hasBasis d) (_basisStatusCols d ++ [ON_UPPER])
           (_basisStatusRows d) d
    else d in
  (* invalidate rational basis factorization *)
  (clearLU d, mkFeas feasObj feasLower feasUpper feasLhs feasRhs tau).

(** "restore right-hand side": one pass of the loop over the rows. *)
Definition restoreRow (rowTypes : list RangeType) (s : Feas) (r : nat)
  (st : LP.t * LP.t) : LP.t * LP.t :=
  let '(q, f) := st in
  let '(q, f) :=
    if _lowerFinite (ty rowTypes r)
    then (changeLhs r (get (_feasLhs s) r) q,
          changeLhs r (toReal (get (_feasLhs s) r)) f)
    else if Qltb (- INFTY) (get (lhs f) r)
         then (q, changeLhs r (- INFTY) f) else (q, f) in
  if _upperFinite (ty rowTypes r)
  then (changeRhs r (get (_feasRhs s) r) q,
        changeRhs r (toReal (get (_feasRhs s) r)) f)
  else if Qltb (get (rhs f) r) INFTY
       then (q, changeRhs r INFTY f) else (q, f).

(** Whether [_transformFeasibility] has shifted column [c], as
    [_untransformFeasibility] reads it off the stored bounds. *)
Definition shifted (colTypes : list RangeType) (s : Feas) (c : nat) : bool :=
  (_lowerFinite (ty colTypes c) && Qltb 0 (get (_feasLower s) c))
  || (_upperFinite (ty colTypes c) && Qltb (get (_feasUpper s) c) 0).

(** "unshift primal space and restore objective coefficients": one pass
    of the loop over the columns, on the two LPs, the solution and
    [shiftValue]. *)
Definition unshiftCol (colTypes : list RangeType) (s : Feas) (c : nat)
  (st : LP.t * LP.t * Sol * Q) : LP.t * LP.t * Sol * Q :=
  let '(q, f, sol, shiftValue) := st in
  let '(sol, shiftValue) :=
    if shifted colTypes s c then
      let shiftValue :=
        if _lowerFinite (ty colTypes c)
        then get (_feasLower s) c - get (lower q) c
        else if _upperFinite (ty colTypes c)
             then get (_feasUpper s) c - get (upper q) c
             else shiftValue in
      (if _isPrimalFeasible sol
       then mkSol (<[c := get (_primal sol) c + shiftValue]> (_primal sol))
                  (multAddSV shiftValue (colVector c q) (_slacks sol))
                  (_dual sol) (_redCost sol) (_primalRay sol) (_dualFarkas sol)
                  (_isPrimalFeasible sol) (_isDualFeasible sol)
                  (_hasPrimalRay sol) (_hasDualFarkas sol)
       else sol, shiftValue)
    else (sol, shiftValue) in
  let '(q, f) :=
    if _lowerFinite (ty colTypes c) then
      let q := if shifted colTypes s c
               then changeLower c (get (_feasLower s) c) q else q in
      (q, changeLower c (toReal (get (_feasLower s) c)) f)
    else if Qltb (- INFTY) (get (lower f) c)
         then (q, changeLower c (- INFTY) f) else (q, f) in
  let '(q, f) :=
    if _upperFinite (ty colTypes c) then
      let q := if shifted colTypes s c
               then changeUpper c (get (_feasUpper s) c) q else q in
      (q, changeUpper c (toReal (get (upper q) c)) f)
    else if Qltb (get (upper f) c) INFTY
         then (q, changeUpper c INFTY f) else (q, f) in
  (changeMaxObj c (get (_feasObj s) c) q,
   changeMaxObj c (toReal (get (_feasObj s) c)) f, sol, shiftValue).

(** [_untransformFeasibility(sol, infeasible)]. *)
Definition _untransformFeasibility (sol : Sol) (infeasible : bool)
  (ds : Driver * Feas) : Sol * Driver :=
  let '(d, s) := ds in
  let numOrigCols := (numColsRational d - 1)%nat in
  (* adjust solution and basis *)
  let '(sol, d) :=
    if infeasible then
      (mkSol (_primal sol) (_slacks sol) (_dual sol) (_redCost sol)
             (_primalRay sol) (_dual sol) false false false true,
       set_basis false (resize numOrigCols UNDEFINED (_basisStatusCols d))
         (_basisStatusRows d) d)
    else if _isPrimalFeasible sol then
      let tau := get (_primal sol) numOrigCols in
      let '(primal, slacks) :=
        if negb (Qeq_bool tau 1) then
          let slacks := (fun x => x / tau) <$> _slacks sol in
          let primal :=
            for_up 0 numOrigCols
              (fun i p => <[i := get p i / get p numOrigCols]> p) (_primal sol) in
          (<[numOrigCols := 1]> primal, slacks)
        else (_primal sol, _slacks sol) in
      (mkSol (resize numOrigCols 0 primal)
             (subSV (colVector numOrigCols (_rationalLP d)) slacks)
             (_dual sol) (_redCost sol) (_primalRay sol) (_dualFarkas sol)
             (_isPrimalFeasible sol) false false false,
       set_basis
         (bool_decide (default UNDEFINED (_basisStatusCols d !! numOrigCols)
                       <> BASIC))
         (resize numOrigCols UNDEFINED (_basisStatusCols d))
         (_basisStatusRows d) d)
    else
      (sol,
       set_basis false (resize numOrigCols UNDEFINED (_basisStatusCols d))
         (_basisStatusRows d) d) in
  (* restore right-hand side *)
  let '(q, f) :=
    for_down (numRowsRational d) (restoreRow (_rowTypes d) s)
      (_rationalLP d, _realLP d) in
  (* unshift primal space and restore objective coefficients *)
  let '(q, f, sol, _) :=
    for_down numOrigCols (unshiftCol (_colTypes d) s) (q, f, sol, 0) in
  (* remove last column *)
  let q := removeColRange numOrigCols q in
  let f := removeColRange numOrigCols f in
  (* invalidate rational basis factorization *)
  (sol, clearLU (set_types (resize numOrigCols RANGETYPE_FREE (_colTypes d))
                   (_rowTypes d) (set_LPs q f d))).

(** ** The rational LP alone

    What the loops do to the rational LP does not depend on the
    floating-point LP. *)

Lemma for_down_proj {S T : Type} (p : S -> T) (n : nat)
  (body : nat -> S -> S) (bodyT : nat -> T -> T) (st : S) :
  (forall c s, p (body c s) = bodyT c (p s)) ->
  p (for_down n body st) = for_down n bodyT (p st).
Proof.
  intros H. revert st. induction n as [|n IH]; intros st; [reflexivity|].
  rewrite !for_down_S, IH, H. reflexivity.
Qed.

Lemma for_up_proj {S T : Type} (p : S -> T) (n : nat)
  (body : nat -> S -> S) (bodyT : nat -> T -> T) (st : S) :
  (forall c s, p (body c s) = bodyT c (p s)) ->
  p (for_up 0 n body st) = for_up 0 n bodyT (p st).
Proof.
  intros H. induction n as [|n IH]; [reflexivity|].
  rewrite !for_up_S, H, IH. reflexivity.
Qed.

Definition shiftRowQ (rowTypes : list RangeType) (colVec : SVector)
  (bnd : LP.t -> Q) (i : nat) (q : LP.t) : LP.t :=
  match colVec !! i with
  | Some (r, value) =>
    let shiftValue := value * bnd q in
    if _lowerFinite (ty rowTypes r) && _upperFinite (ty rowTypes r) then
      let q := changeLhs r (get (lhs q) r - shiftValue) q in
      changeRhs r ((shiftValue - get (rhs q) r) * -1) q
    else if _lowerFinite (ty rowTypes r) then
      changeLhs r ((shiftValue - get (lhs q) r) * -1) q
    else if _upperFinite (ty rowTypes r) then
      changeRhs r ((shiftValue - get (rhs q) r) * -1) q
    else q
  | None => q
  end.

Definition shiftColQ (colTypes rowTypes : list RangeType) (c : nat)
  (q : LP.t) : LP.t :=
  let q := changeMaxObj c 0 q in
  if Qltb 0 (get (lower q) c) then
    let colVec := colVector c q in
    let q := for_up 0 (length colVec)
               (shiftRowQ rowTypes colVec (fun q => get (lower q) c)) q in
    if _upperFinite (ty colTypes c)
    then changeBounds c 0 (get (upper q) c - get (lower q) c) q
    else changeLower c 0 q
  else if Qltb (get (upper q) c) 0 then
    let colVec := colVector c q in
    let q := for_up 0 (length colVec)
               (shiftRowQ rowTypes colVec (fun q => get (upper q) c)) q in
    if _lowerFinite (ty colTypes c)
    then changeBounds c (get (lower q) c - get (upper q) c) 0 q
    else changeUpper c 0 q
  else q.

Definition homogenizeQ (rowTypes : list RangeType) (r : nat)
  (st : LP.t * SVector) : LP.t * SVector :=
  let '(q, tau) := st in
  if Qltb 0 (get (lhs q) r) then
    (if _upperFinite (ty rowTypes r)
     then changeRange r 0 (get (rhs q) r - get (lhs q) r) q
     else changeLhs r 0 q,
     tau ++ [(r, get (lhs q) r)])
  else if Qltb (get (rhs q) r) 0 then
    (if _lowerFinite (ty rowTypes r)
     then changeRange r (get (lhs q) r - get (rhs q) r) 0 q
     else changeRhs r 0 q,
     tau ++ [(r, get (rhs q) r)])
  else (q, tau).

Definition restoreRowQ (rowTypes : list RangeType) (s : Feas) (r : nat)
  (q : LP.t) : LP.t :=
  let q := if _lowerFinite (ty rowTypes r)
           then changeLhs r (get (_feasLhs s) r) q else q in
  if _upperFinite (ty rowTypes r)
  then changeRhs r (get (_feasRhs s) r) q else q.

Definition unshiftColQ (colTypes : list RangeType) (s : Feas) (c : nat)
  (q : LP.t) : LP.t :=
  let q := if _lowerFinite (ty colTypes c) && shifted colTypes s c
           then changeLower c (get (_feasLower s) c) q else q in
  let q := if _upperFinite (ty colTypes c) && shifted colTypes s c
           then changeUpper c (get (_feasUpper s) c) q else q in
  changeMaxObj c (get (_feasObj s) c) q.

Lemma shiftRow_rational (rowTypes : list RangeType) (colVec : SVector)
  (bnd : LP.t -> Q) (i : nat) (st : LP.t * LP.t) :
  (shiftRow rowTypes colVec bnd i st).1 = shiftRowQ rowTypes colVec bnd i st.1.
Proof.
  destruct st as [q f]. unfold shiftRow, shiftRowQ. cbn [fst].
  destruct (colVec !! i) as [[r value]|]; [|reflexivity].
  destruct (_lowerFinite _), (_upperFinite _); reflexivity.
Qed.

Lemma shiftCol_rational (colTypes rowTypes : list RangeType) (c : nat)
  (st : LP.t * LP.t) :
  (shiftCol colTypes rowTypes c st).1 = shiftColQ colTypes rowTypes c st.1.
Proof.
  destruct st as [q f]. unfold shiftCol, shiftColQ. cbn [fst].
  set (q1 := changeMaxObj c 0 q). set (f1 := changeMaxObj c 0 f).
  destruct (Qltb 0 (get (lower q1) c)).
  - pose proof (for_up_proj fst (length (colVector c q1))
                  (shiftRow rowTypes (colVector c q1) (fun q => get (lower q) c))
                  (shiftRowQ rowTypes (colVector c q1) (fun q => get (lower q) c))
                  (q1, f1) (shiftRow_rational _ _ _)) as H.
    cbn [fst] in H. rewrite <- H.
    destruct (for_up _ _ _ _) as [q2 f2]. cbn [fst].
    destruct (_upperFinite _); [reflexivity|].
    destruct (Qltb _ _); reflexivity.
  - destruct (Qltb (get (upper q1) c) 0); [|reflexivity].
    pose proof (for_up_proj fst (length (colVector c q1))
                  (shiftRow rowTypes (colVector c q1) (fun q => get (upper q) c))
                  (shiftRowQ rowTypes (colVector c q1) (fun q => get (upper q) c))
                  (q1, f1) (shiftRow_rational _ _ _)) as H.
    cbn [fst] in H. rewrite <- H.
    destruct (for_up _ _ _ _) as [q2 f2]. cbn [fst].
    destruct (_lowerFinite _); [reflexivity|].
    destruct (Qltb _ _); reflexivity.
Qed.

Lemma homogenize_rational (rowTypes : list RangeType) (r : nat)
  (st : LP.t * LP.t * SVector) :
  (fun x : LP.t * LP.t * SVector => (x.1.1, x.2)) (homogenize rowTypes r st)
  = homogenizeQ rowTypes r (st.1.1, st.2).
Proof.
  destruct st as [[q f] tau]. unfold homogenize, homogenizeQ. cbn [fst snd].
  destruct (Qltb 0 (get (lhs q) r)).
  - destruct (_upperFinite _); reflexivity.
  - destruct (Qltb (get (rhs q) r) 0); [|reflexivity].
    destruct (_lowerFinite _); reflexivity.
Qed.

Lemma restoreRow_rational (rowTypes : list RangeType) (s : Feas) (r : nat)
  (st : LP.t * LP.t) :
  (restoreRow rowTypes s r st).1 = restoreRowQ rowTypes s r st.1.
Proof.
  destruct st as [q f]. unfold restoreRow, restoreRowQ. cbn [fst].
  destruct (_lowerFinite _), (_upperFinite _);
    repeat (destruct (Qltb _ _); cbn [fst]); reflexivity.
Qed.

Lemma unshiftCol_rational (colTypes : list RangeType) (s : Feas) (c : nat)
  (st : LP.t * LP.t * Sol * Q) :
  (unshiftCol colTypes s c st).1.1.1 = unshiftColQ colTypes s c st.1.1.1.
Proof.
  destruct st as [[[q f] sol] sv]. unfold unshiftCol, unshiftColQ. cbn [fst].
  destruct (shifted colTypes s c), (_lowerFinite _), (_upperFinite _);
    cbn [andb]; repeat (destruct (Qltb _ _); cbn [fst]);
    destruct (_isPrimalFeasible sol); reflexivity.
Qed.

(** ** Invariants of the transformation *)

Section Rational.

(** The rational LP and the types at entry. *)
Variable q0 : LP.t.
Variable colTypes rowTypes : list RangeType.

(** A bound or side that its type declares infinite is not on the wrong
    side of zero, and bounds and sides are ordered. *)
Hypothesis Hwf : wfLP q0.
Hypothesis Hlower : forall c, (c < nCols q0)%nat ->
  _lowerFinite (ty colTypes c) = false -> get (lower q0) c <= 0.
Hypothesis Hupper : forall c, (c < nCols q0)%nat ->
  _upperFinite (ty colTypes c) = false -> 0 <= get (upper q0) c.
Hypothesis Hbounds : forall c, (c < nCols q0)%nat ->
  get (lower q0) c <= get (upper q0) c.
Hypothesis Hlhs : forall r, (r < nRows q0)%nat ->
  _lowerFinite (ty rowTypes r) = false -> get (lhs q0) r <= 0.
Hypothesis Hrhs : forall r, (r < nRows q0)%nat ->
  _upperFinite (ty rowTypes r) = false -> 0 <= get (rhs q0) r.
Hypothesis Hsides : forall r, (r < nRows q0)%nat ->
  get (lhs q0) r <= get (rhs q0) r.

(** The sides while the columns are shifted: a side that is infinite by
    its type is never written, and the two sides of a ranged row stay
    ordered. *)
Definition rowsOk (q : LP.t) : Prop :=
  length (lhs q) = nRows q0 /\ length (rhs q) = nRows q0 /\
  forall r, (r < nRows q0)%nat ->
    (_lowerFinite (ty rowTypes r) = false -> lhs q !! r = lhs q0 !! r) /\
    (_upperFinite (ty rowTypes r) = false -> rhs q !! r = rhs q0 !! r) /\
    (_lowerFinite (ty rowTypes r) = true -> _upperFinite (ty rowTypes r) = true ->
     get (lhs q) r <= get (rhs q) r).

Definition sameCols (q q' : LP.t) : Prop :=
  lower q' = lower q /\ upper q' = upper q /\ maxObj q' = maxObj q /\
  rowVector q' = rowVector q /\ minimize q' = minimize q.

Lemma sameCols_refl (q : LP.t) : sameCols q q.
Proof. repeat split. Qed.

Lemma sameCols_trans (q q' q'' : LP.t) :
  sameCols q q' -> sameCols q' q'' -> sameCols q q''.
Proof.
  intros (A1 & A2 & A3 & A4 & A5) (B1 & B2 & B3 & B4 & B5).
  repeat split; congruence.
Qed.

Lemma rowsOk_start : length (rhs q0) = nRows q0 -> rowsOk q0.
Proof.
  intros L. split; [reflexivity|]. split; [exact L|].
  intros r Hr. split; [reflexivity|]. split; [reflexivity|].
  intros _ _. apply Hsides, Hr.
Qed.

Lemma rowsOk_ordered (q : LP.t) (r : nat) :
  rowsOk q ->
  _lowerFinite (ty rowTypes r) = true -> _upperFinite (ty rowTypes r) = true ->
  get (lhs q) r <= get (rhs q) r.
Proof.
  intros (L1 & L2 & H) Hl Hu.
  destruct (decide (r < nRows q0)%nat) as [Hr|Hr].
  - apply H; assumption.
  - rewrite !get_ge by lia. lra.
Qed.

Lemma rowsOk_both (q : LP.t) (r : nat) (a b : Q) :
  rowsOk q ->
  _lowerFinite (ty rowTypes r) = true -> _upperFinite (ty rowTypes r) = true ->
  a <= b -> rowsOk (changeRhs r b (changeLhs r a q)).
Proof.
  intros (L1 & L2 & H) Hl Hu Hab. unfold rowsOk. cbn [lhs rhs changeRhs changeLhs].
  rewrite !length_insert. split; [exact L1|]. split; [exact L2|].
  intros r' Hr'. destruct (H r' Hr') as (H1 & H2 & H3).
  destruct (decide (r' = r)) as [->|Hne].
  - split; [congruence|]. split; [congruence|]. intros _ _.
    rewrite !get_insert_eq by lia. exact Hab.
  - rewrite !list_lookup_insert_ne by auto.
    rewrite !get_insert_ne by auto. auto.
Qed.

Lemma rowsOk_lhs (q : LP.t) (r : nat) (a : Q) :
  rowsOk q ->
  _lowerFinite (ty rowTypes r) = true -> _upperFinite (ty rowTypes r) = false ->
  rowsOk (changeLhs r a q).
Proof.
  intros (L1 & L2 & H) Hl Hu. unfold rowsOk. cbn [lhs rhs changeLhs].
  rewrite !length_insert. split; [exact L1|]. split; [exact L2|].
  intros r' Hr'. destruct (H r' Hr') as (H1 & H2 & H3).
  destruct (decide (r' = r)) as [->|Hne].
  - split; [congruence|]. split; [exact H2|]. congruence.
  - rewrite !list_lookup_insert_ne by auto.
    rewrite !get_insert_ne by auto. auto.
Qed.

Lemma rowsOk_rhs (q : LP.t) (r : nat) (b : Q) :
  rowsOk q ->
  _lowerFinite (ty rowTypes r) = false -> _upperFinite (ty rowTypes r) = true ->
  rowsOk (changeRhs r b q).
Proof.
  intros (L1 & L2 & H) Hl Hu. unfold rowsOk. cbn [lhs rhs changeRhs].
  rewrite !length_insert. split; [exact L1|]. split; [exact L2|].
  intros r' Hr'. destruct (H r' Hr') as (H1 & H2 & H3).
  destruct (decide (r' = r)) as [->|Hne].
  - split; [exact H1|]. split; [congruence|]. congruence.
  - rewrite !list_lookup_insert_ne by auto.
    rewrite !get_insert_ne by auto. auto.
Qed.

Lemma shiftRowQ_ok (colVec : SVector) (bnd : LP.t -> Q) (i : nat) (q : LP.t) :
  rowsOk q ->
  rowsOk (shiftRowQ rowTypes colVec bnd i q) /\
  sameCols q (shiftRowQ rowTypes colVec bnd i q).
Proof.
  intros Hq. unfold shiftRowQ.
  destruct (colVec !! i) as [[r value]|]; [|split; [exact Hq | apply sameCols_refl]].
  cbv zeta.
  destruct (_lowerFinite (ty rowTypes r)) eqn:El,
           (_upperFinite (ty rowTypes r)) eqn:Eu; cbn [andb].
  - split; [|repeat split].
    apply rowsOk_both; auto. cbn [rhs changeLhs].
    pose proof (rowsOk_ordered q r Hq El Eu). lra.
  - split; [|repeat split]. apply rowsOk_lhs; auto.
  - split; [|repeat split]. apply rowsOk_rhs; auto.
  - split; [exact Hq | apply sameCols_refl].
Qed.

Lemma shiftRows_ok (colVec : SVector) (bnd : LP.t -> Q) (k : nat) (q : LP.t) :
  rowsOk q ->
  rowsOk (for_up 0 k (shiftRowQ rowTypes colVec bnd) q) /\
  sameCols q (for_up 0 k (shiftRowQ rowTypes colVec bnd) q).
Proof.
  intros Hq.
  apply (for_up_ind (fun _ s => rowsOk s /\ sameCols q s)).
  - split; [exact Hq | apply sameCols_refl].
  - intros c s _ [H1 H2].
    destruct (shiftRowQ_ok colVec bnd c s H1) as [H3 H4].
    split; [exact H3 | exact (sameCols_trans _ _ _ H2 H4)].
Qed.

(** Whether column [c] is shifted, read off the LP at entry. *)
Definition shifted0 (c : nat) : bool :=
  (_lowerFinite (ty colTypes c) && Qltb 0 (get (lower q0) c))
  || (_upperFinite (ty colTypes c) && Qltb (get (upper q0) c) 0).

(** The bounds of a shifted column: a positive lower bound has become 0,
    and otherwise a negative upper bound has become 0, the lower bound,
    when finite, moving with it. *)
Definition shiftedTo (c : nat) (a b : Q) : Prop :=
  (Qltb 0 (get (lower q0) c) = true -> a = 0) /\
  (Qltb 0 (get (lower q0) c) = false -> Qltb (get (upper q0) c) 0 = true ->
   b = 0 /\
   (_lowerFinite (ty colTypes c) = true ->
    a = get (lower q0) c - get (upper q0) c)).

(** A column after its pass: no objective, zero within its bounds, and a
    bound that differs from the one at entry is finite by its type and
    belongs to a shifted column. *)
Definition colDone (q : LP.t) (c : nat) : Prop :=
  get (maxObj q) c = 0 /\ get (lower q) c <= 0 /\ 0 <= get (upper q) c /\
  (_lowerFinite (ty colTypes c) && shifted0 c = false ->
   lower q !! c = lower q0 !! c) /\
  (_upperFinite (ty colTypes c) && shifted0 c = false ->
   upper q !! c = upper q0 !! c) /\
  shiftedTo c (get (lower q) c) (get (upper q) c).

(** Before pass [k - 1] of the loop over the columns. *)
Definition colsInv (k : nat) (q : LP.t) : Prop :=
  length (lower q) = nCols q0 /\ length (upper q) = nCols q0 /\
  length (maxObj q) = nCols q0 /\
  rowVector q = rowVector q0 /\ minimize q = minimize q0 /\ rowsOk q /\
  (forall c, (c < k)%nat ->
     lower q !! c = lower q0 !! c /\ upper q !! c = upper q0 !! c) /\
  (forall c, (k <= c < nCols q0)%nat -> colDone q c).

Lemma insert_get_id (l : list Q) (c : nat) :
  (c < length l)%nat -> <[c := get l c]> l = l.
Proof.
  intros H. apply list_insert_id. unfold get.
  destruct (lookup_lt_is_Some_2 l c H) as [x ->]. reflexivity.
Qed.

Lemma lookup_get (l : list Q) (c : nat) :
  (c < length l)%nat -> l !! c = Some (get l c).
Proof.
  intros H. unfold get.
  destruct (lookup_lt_is_Some_2 l c H) as [x ->]. reflexivity.
Qed.

Lemma get_of_lookup (l l' : list Q) (c : nat) :
  l !! c = l' !! c -> get l c = get l' c.
Proof. unfold get. intros ->. reflexivity. Qed.

Lemma colsInv_step (c : nat) (q q' : LP.t) (a b : Q) :
  colsInv (S c) q -> (c < nCols q0)%nat ->
  rowsOk q' -> rowVector q' = rowVector q -> minimize q' = minimize q ->
  maxObj q' = <[c := 0]> (maxObj q) ->
  lower q' = <[c := a]> (lower q) -> upper q' = <[c := b]> (upper q) ->
  a <= 0 -> 0 <= b ->
  (_lowerFinite (ty colTypes c) && shifted0 c = false -> a = get (lower q0) c) ->
  (_upperFinite (ty colTypes c) && shifted0 c = false -> b = get (upper q0) c) ->
  shiftedTo c a b ->
  colsInv c q'.
Proof.
  intros (L1 & L2 & L3 & Hrv & Hmin & _ & Hlow & Hhigh) Hc Hrows Hrv' Hmin'
         Hobj Hlo Hup Ha Hb Hka Hkb Hto.
  unfold colsInv. rewrite Hobj, Hlo, Hup, !length_insert.
  split; [exact L1|]. split; [exact L2|]. split; [exact L3|].
  split; [congruence|]. split; [congruence|]. split; [exact Hrows|].
  split.
  - intros j Hj. rewrite !list_lookup_insert_ne by lia. apply Hlow. lia.
  - intros j Hj. unfold colDone. rewrite Hobj, Hlo, Hup.
    destruct (decide (j = c)) as [->|Hne].
    + rewrite !get_insert_eq by lia.
      rewrite !list_lookup_insert_eq by lia.
      destruct Hwf as (W1 & _).
      split; [reflexivity|]. split; [exact Ha|]. split; [exact Hb|].
      split; [|split; [|exact Hto]]; intros Hk.
      * rewrite (Hka Hk). symmetry. apply lookup_get. exact Hc.
      * rewrite (Hkb Hk). symmetry. apply lookup_get. lia.
    + rewrite !get_insert_ne by auto.
      rewrite !list_lookup_insert_ne by auto.
      apply Hhigh. lia.
Qed.

(** The obligations of a pass: the arrays written, the signs of the new
    bounds, and the bounds that must be those at entry. *)
Ltac col_side S1 S2 Hl Hu Hsh :=
  first
    [ rewrite ?S1, ?S2; reflexivity
    | rewrite ?S1, ?S2; symmetry; apply insert_get_id; lia
    | rewrite ?S1, ?S2, ?Hl, ?Hu; lra
    | let Hk := fresh "Hk" in
      intros Hk;
      first [ rewrite Hsh, andb_true_r in Hk; congruence
            | rewrite ?S1, ?S2; first [assumption | reflexivity] ]
    | split;
      [ let Hk := fresh "Hk" in
        intros Hk;
        first [ reflexivity | apply Qltb_lt in Hk; lra ]
      | let Hk := fresh "Hk" in
        let Hk' := fresh "Hk" in
        intros Hk Hk';
        first [ apply Qltb_ge in Hk; lra
              | apply Qltb_lt in Hk'; lra
              | split;
                [ reflexivity
                | let E := fresh "E" in
                  intros E;
                  first [ congruence
                        | rewrite ?S1, ?S2, ?Hl, ?Hu; reflexivity ] ] ] ] ].

Lemma shiftColQ_inv (c : nat) (q : LP.t) :
  (c < nCols q0)%nat -> colsInv (S c) q ->
  colsInv c (shiftColQ colTypes rowTypes c q).
Proof.
  intros Hc Hq.
  pose proof Hq as (L1 & L2 & L3 & Hrv & Hmin & Hrows & Hlow & Hhigh).
  destruct (Hlow c (Nat.lt_succ_diag_r c)) as [Hl Hu].
  apply get_of_lookup in Hl. apply get_of_lookup in Hu.
  pose proof (Hbounds c Hc) as Hord.
  unfold shiftColQ. cbv zeta.
  set (q1 := changeMaxObj c 0 q).
  assert (Hrows1 : rowsOk q1) by exact Hrows.
  change (lower q1) with (lower q). change (upper q1) with (upper q).
  rewrite Hl, Hu.
  destruct (Qltb 0 (get (lower q0) c)) eqn:T1.
  - apply Qltb_lt in T1.
    assert (Hfl : _lowerFinite (ty colTypes c) = true).
    { destruct (_lowerFinite (ty colTypes c)) eqn:E; [reflexivity|].
      pose proof (Hlower c Hc E). lra. }
    assert (Hsh : shifted0 c = true).
    { unfold shifted0. rewrite Hfl. cbn [andb].
      rewrite (proj2 (Qltb_lt _ _) T1). reflexivity. }
    destruct (shiftRows_ok (colVector c q1) (fun q => get (lower q) c)
                (length (colVector c q1)) q1 Hrows1)
      as (Hr2 & S1 & S2 & S3 & S4 & S5).
    set (q2 := for_up 0 _ _ q1) in *.
    change (lower q1) with (lower q) in S1.
    change (upper q1) with (upper q) in S2.
    change (maxObj q1) with (<[c := 0]> (maxObj q)) in S3.
    change (rowVector q1) with (rowVector q) in S4.
    change (minimize q1) with (minimize q) in S5.
    destruct (_upperFinite (ty colTypes c)) eqn:Efu.
    + apply (colsInv_step c q _ 0 (get (upper q2) c - get (lower q2) c) Hq Hc);
        cbn [changeBounds changeUpper changeLower lhs rhs rowVector minimize
             maxObj lower upper]; auto; col_side S1 S2 Hl Hu Hsh.
    + apply (colsInv_step c q _ 0 (get (upper q) c) Hq Hc);
        cbn [changeBounds changeUpper changeLower lhs rhs rowVector minimize
             maxObj lower upper]; auto; col_side S1 S2 Hl Hu Hsh.
  - apply Qltb_ge in T1.
    destruct (Qltb (get (upper q0) c) 0) eqn:T2.
    + apply Qltb_lt in T2.
      assert (Hfu : _upperFinite (ty colTypes c) = true).
      { destruct (_upperFinite (ty colTypes c)) eqn:E; [reflexivity|].
        pose proof (Hupper c Hc E). lra. }
      assert (Hsh : shifted0 c = true).
      { unfold shifted0. rewrite Hfu. cbn [andb].
        rewrite (proj2 (Qltb_lt _ _) T2). apply orb_true_r. }
      destruct (shiftRows_ok (colVector c q1) (fun q => get (upper q) c)
                  (length (colVector c q1)) q1 Hrows1)
        as (Hr2 & S1 & S2 & S3 & S4 & S5).
      set (q2 := for_up 0 _ _ q1) in *.
      change (lower q1) with (lower q) in S1.
      change (upper q1) with (upper q) in S2.
      change (maxObj q1) with (<[c := 0]> (maxObj q)) in S3.
      change (rowVector q1) with (rowVector q) in S4.
      change (minimize q1) with (minimize q) in S5.
      destruct (_lowerFinite (ty colTypes c)) eqn:Efl.
      * apply (colsInv_step c q _ (get (lower q2) c - get (upper q2) c) 0 Hq Hc);
          cbn [changeBounds changeUpper changeLower lhs rhs rowVector minimize
               maxObj lower upper]; auto; col_side S1 S2 Hl Hu Hsh.
      * apply (colsInv_step c q _ (get (lower q) c) 0 Hq Hc);
          cbn [changeBounds changeUpper changeLower lhs rhs rowVector minimize
               maxObj lower upper]; auto; col_side S1 S2 Hl Hu Hsh.
    + apply Qltb_ge in T2.
      subst q1.
      apply (colsInv_step c q _ (get (lower q) c) (get (upper q) c) Hq Hc);
        cbn [changeMaxObj lhs rhs rowVector minimize maxObj lower upper]; auto;
        col_side L1 L2 Hl Hu Hl.
Qed.

Lemma shiftCols_inv :
  colsInv 0 (for_down (nCols q0) (shiftColQ colTypes rowTypes) q0).
Proof.
  destruct Hwf as (W1 & W2 & W3 & W4 & W5).
  apply (for_down_ind colsInv).
  - unfold colsInv.
    split; [reflexivity|]. split; [exact W1|]. split; [exact W2|].
    split; [reflexivity|]. split; [reflexivity|].
    split; [apply rowsOk_start, W3|].
    split; [auto|]. intros c Hc. lia.
  - intros c s Hc Hs. apply shiftColQ_inv; assumption.
Qed.

(** A row after its pass of "homogenize sides": zero is within its
    sides, and a side that is infinite by its type is the one at entry. *)
Definition rowDone (q : LP.t) (r : nat) : Prop :=
  get (lhs q) r <= 0 /\ 0 <= get (rhs q) r /\
  (_lowerFinite (ty rowTypes r) = false -> lhs q !! r = lhs q0 !! r) /\
  (_upperFinite (ty rowTypes r) = false -> rhs q !! r = rhs q0 !! r).

(** Before pass [k - 1] of the loop over the rows; [qA] is the LP after
    the loop over the columns. *)
Definition rowsInv (qA : LP.t) (k : nat) (q : LP.t) : Prop :=
  sameCols qA q /\
  length (lhs q) = nRows q0 /\ length (rhs q) = nRows q0 /\
  (forall r, (r < k)%nat ->
     lhs q !! r = lhs qA !! r /\ rhs q !! r = rhs qA !! r) /\
  (forall r, (k <= r < nRows q0)%nat -> rowDone q r).

Lemma rowsInv_step (qA : LP.t) (r : nat) (q q' : LP.t) (a b : Q) :
  rowsInv qA (S r) q -> (r < nRows q0)%nat ->
  sameCols q q' ->
  lhs q' = <[r := a]> (lhs q) -> rhs q' = <[r := b]> (rhs q) ->
  a <= 0 -> 0 <= b ->
  (_lowerFinite (ty rowTypes r) = false -> a = get (lhs q0) r) ->
  (_upperFinite (ty rowTypes r) = false -> b = get (rhs q0) r) ->
  rowsInv qA r q'.
Proof.
  intros (Hs & L1 & L2 & Hlow & Hhigh) Hr Hs' Hl Hu Ha Hb Hka Hkb.
  destruct Hwf as (_ & _ & W3 & _).
  unfold rowsInv. rewrite Hl, Hu, !length_insert.
  split; [exact (sameCols_trans _ _ _ Hs Hs')|].
  split; [exact L1|]. split; [exact L2|]. split.
  - intros j Hj. rewrite !list_lookup_insert_ne by lia. apply Hlow. lia.
  - intros j Hj. unfold rowDone. rewrite Hl, Hu.
    destruct (decide (j = r)) as [->|Hne].
    + rewrite !get_insert_eq by lia. rewrite !list_lookup_insert_eq by lia.
      split; [exact Ha|]. split; [exact Hb|]. split; intros Hk.
      * rewrite (Hka Hk). symmetry. apply lookup_get. exact Hr.
      * rewrite (Hkb Hk). symmetry. apply lookup_get. lia.
    + rewrite !get_insert_ne by auto. rewrite !list_lookup_insert_ne by auto.
      apply Hhigh. lia.
Qed.

Ltac row_side Ha Hb :=
  first
    [ reflexivity
    | solve [repeat split]
    | symmetry; apply insert_get_id; lia
    | rewrite ?Ha, ?Hb; lra
    | let Hk := fresh "Hk" in
      intros Hk; first [ congruence | rewrite ?Ha, ?Hb; reflexivity ] ].

Lemma homogenizeQ_inv (qA : LP.t) (r : nat) (st : LP.t * SVector) :
  rowsOk qA -> (r < nRows q0)%nat -> rowsInv qA (S r) st.1 ->
  rowsInv qA r (homogenizeQ rowTypes r st).1.
Proof.
  intros (_ & _ & HA) Hr Hq. destruct st as [q tau]. cbn [fst] in *.
  pose proof Hq as (Hs & L1 & L2 & Hlow & Hhigh).
  destruct (Hlow r (Nat.lt_succ_diag_r r)) as [Ha Hb].
  apply get_of_lookup in Ha. apply get_of_lookup in Hb.
  destruct (HA r Hr) as (A1 & A2 & A3).
  assert (Hfl : _lowerFinite (ty rowTypes r) = false ->
                get (lhs qA) r = get (lhs q0) r)
    by (intros E; apply get_of_lookup, A1, E).
  assert (Hfu : _upperFinite (ty rowTypes r) = false ->
                get (rhs qA) r = get (rhs q0) r)
    by (intros E; apply get_of_lookup, A2, E).
  pose proof (Hlhs r Hr) as Z1. pose proof (Hrhs r Hr) as Z2.
  unfold homogenizeQ. rewrite Ha, Hb.
  destruct (Qltb 0 (get (lhs qA) r)) eqn:T1.
  - apply Qltb_lt in T1.
    assert (El : _lowerFinite (ty rowTypes r) = true).
    { destruct (_lowerFinite (ty rowTypes r)); [reflexivity|].
      rewrite (Hfl eq_refl) in T1. specialize (Z1 eq_refl). lra. }
    destruct (_upperFinite (ty rowTypes r)) eqn:Eu; cbn [fst].
    + specialize (A3 El eq_refl).
      apply (rowsInv_step qA r q _ 0 (get (rhs qA) r - get (lhs qA) r) Hq Hr);
        cbn [changeRange changeRhs changeLhs lhs rhs];
        row_side Ha Hb.
    + rewrite (Hfu eq_refl) in Hb. specialize (Z2 eq_refl).
      apply (rowsInv_step qA r q _ 0 (get (rhs q) r) Hq Hr);
        cbn [changeRange changeRhs changeLhs lhs rhs];
        row_side Ha Hb.
  - apply Qltb_ge in T1.
    destruct (Qltb (get (rhs qA) r) 0) eqn:T2.
    + apply Qltb_lt in T2.
      assert (Eu : _upperFinite (ty rowTypes r) = true).
      { destruct (_upperFinite (ty rowTypes r)); [reflexivity|].
        rewrite (Hfu eq_refl) in T2. specialize (Z2 eq_refl). lra. }
      destruct (_lowerFinite (ty rowTypes r)) eqn:El; cbn [fst].
      * specialize (A3 eq_refl Eu).
        apply (rowsInv_step qA r q _ (get (lhs qA) r - get (rhs qA) r) 0 Hq Hr);
          cbn [changeRange changeRhs changeLhs lhs rhs];
          row_side Ha Hb.
      * rewrite (Hfl eq_refl) in Ha. specialize (Z1 eq_refl).
        apply (rowsInv_step qA r q _ (get (lhs q) r) 0 Hq Hr);
          cbn [changeRange changeRhs changeLhs lhs rhs];
          row_side Ha Hb.
    + apply Qltb_ge in T2. cbn [fst].
      apply (rowsInv_step qA r q _ (get (lhs q) r) (get (rhs q) r) Hq Hr);
        try apply sameCols_refl; try row_side Ha Hb.
      * intros E. rewrite Ha. auto.
      * intros E. rewrite Hb. auto.
Qed.

Lemma homogenize_inv (qA : LP.t) :
  rowsOk qA ->
  rowsInv qA 0 (for_down (nRows q0) (homogenizeQ rowTypes) (qA, [])).1.
Proof.
  intros HA. pose proof HA as (L1 & L2 & _).
  apply (for_down_ind (fun k st => rowsInv qA k st.1)).
  - cbn [fst]. split; [apply sameCols_refl|].
    split; [exact L1|]. split; [exact L2|]. split; [auto|].
    intros r Hr. lia.
  - intros r st Hr Hst. apply homogenizeQ_inv; assumption.
Qed.

End Rational.

(** ** The transformed rational LP *)

(** The LP and the types agree: the arrays have the lengths of the LP,
    a bound or side that its type declares infinite is not on the wrong
    side of zero, and bounds and sides are ordered. *)
Definition consistent (colTypes rowTypes : list RangeType) (q : LP.t) : Prop :=
  wfLP q /\ length colTypes = nCols q /\
  (forall c, (c < nCols q)%nat ->
     (_lowerFinite (ty colTypes c) = false -> get (lower q) c <= 0) /\
     (_upperFinite (ty colTypes c) = false -> 0 <= get (upper q) c) /\
     get (lower q) c <= get (upper q) c) /\
  (forall r, (r < nRows q)%nat ->
     (_lowerFinite (ty rowTypes r) = false -> get (lhs q) r <= 0) /\
     (_upperFinite (ty rowTypes r) = false -> 0 <= get (rhs q) r) /\
     get (lhs q) r <= get (rhs q) r).

(** The rational LP after the loop over the columns and after the loop
    over the rows, and the artificial column. *)
Definition shiftedLP (d : Driver) : LP.t :=
  for_down (numColsRational d) (shiftColQ (_colTypes d) (_rowTypes d))
           (_rationalLP d).

Definition homogenizedLP (d : Driver) : LP.t * SVector :=
  for_down (nRows (shiftedLP d)) (homogenizeQ (_rowTypes d)) (shiftedLP d, []).

Definition tauCol (maximizing : bool) (d : Driver) : LPCol :=
  mkLPCol (if maximizing then 1 else -1) 0
          ((fun e => (fst e, snd e * -1)) <$> (homogenizedLP d).2) 1.

Lemma transformFeasibility_rational (maximizing : bool) (d : Driver) (s : Feas) :
  let r := _transformFeasibility maximizing d s in
  _rationalLP r.1 = addCols (fun x => x) [tauCol maximizing d] (homogenizedLP d).1 /\
  _colTypes r.1 = _colTypes d ++ [RANGETYPE_BOXED] /\
  _rowTypes r.1 = _rowTypes d /\
  _rationalLUSolverLoaded r.1 = false /\
  _feasObj r.2 = storeAll (maxObj (_rationalLP d)) (numColsRational d) (_feasObj s) /\
  _feasLower r.2 = storeFinite _lowerFinite (_colTypes d) (lower (_rationalLP d))
                     (numColsRational d) (_feasLower s) /\
  _feasUpper r.2 = storeFinite _upperFinite (_colTypes d) (upper (_rationalLP d))
                     (numColsRational d) (_feasUpper s) /\
  _feasLhs r.2 = storeFinite _lowerFinite (_rowTypes d) (lhs (_rationalLP d))
                   (numRowsRational d) (_feasLhs s) /\
  _feasRhs r.2 = storeFinite _upperFinite (_rowTypes d) (rhs (_rationalLP d))
                   (numRowsRational d) (_feasRhs s).
Proof.
  cbv zeta. unfold _transformFeasibility, tauCol, homogenizedLP, shiftedLP.
  pose proof (for_down_proj fst (numColsRational d)
                (shiftCol (_colTypes d) (_rowTypes d))
                (shiftColQ (_colTypes d) (_rowTypes d))
                (_rationalLP d, _realLP d)
                (shiftCol_rational (_colTypes d) (_rowTypes d))) as HA.
  cbn [fst] in HA. rewrite <- HA.
  destruct (for_down (numColsRational d) (shiftCol _ _) _) as [qA fA].
  cbn [fst].
  pose proof (for_down_proj (fun x : LP.t * LP.t * SVector => (x.1.1, x.2))
                (nRows qA) (homogenize (_rowTypes d))
                (homogenizeQ (_rowTypes d)) (qA, fA, [])
                (homogenize_rational (_rowTypes d))) as HH.
  cbn [fst snd] in HH. rewrite <- HH.
  destruct (for_down (nRows qA) (homogenize _) _) as [[qH fH] tau].
  cbn [fst snd].
  destruct (_hasBasis d) eqn:Eb; cbn; rewrite ?Eb; cbn; repeat split; reflexivity.
Qed.

Lemma homogenized_facts (d : Driver) :
  consistent (_colTypes d) (_rowTypes d) (_rationalLP d) ->
  colsInv (_rationalLP d) (_colTypes d) (_rowTypes d) 0 (shiftedLP d) /\
  rowsInv (_rationalLP d) (_rowTypes d) (shiftedLP d) 0 (homogenizedLP d).1.
Proof.
  intros (Hwf & Hct & Hcols & Hrows).
  assert (HA : colsInv (_rationalLP d) (_colTypes d) (_rowTypes d) 0 (shiftedLP d)).
  { apply shiftCols_inv; auto.
    - intros c Hc. apply (Hcols c Hc).
    - intros c Hc. apply (Hcols c Hc).
    - intros c Hc. apply (Hcols c Hc).
    - intros r Hr. apply (Hrows r Hr). }
  split; [exact HA|].
  destruct HA as (_ & _ & _ & _ & _ & Hok & _).
  unfold homogenizedLP.
  replace (nRows (shiftedLP d)) with (nRows (_rationalLP d))
    by (symmetry; apply Hok).
  apply homogenize_inv; auto.
  - intros r Hr. apply (Hrows r Hr).
  - intros r Hr. apply (Hrows r Hr).
Qed.


(** ** Undoing the transformation *)

Lemma untransformFeasibility_rational (sol : Sol) (infeasible : bool)
  (d : Driver) (s : Feas) :
  let n := (numColsRational d - 1)%nat in
  let r := _untransformFeasibility sol infeasible (d, s) in
  _rationalLP r.2
  = removeColRange n
      (for_down n (unshiftColQ (_colTypes d) s)
         (for_down (numRowsRational d) (restoreRowQ (_rowTypes d) s)
            (_rationalLP d))) /\
  _colTypes r.2 = resize n RANGETYPE_FREE (_colTypes d) /\
  _rowTypes r.2 = _rowTypes d /\
  _rationalLUSolverLoaded r.2 = false.
Proof.
  cbv zeta. unfold _untransformFeasibility.
  set (n := (numColsRational d - 1)%nat).
  pose proof (for_down_proj fst (nRows (_rationalLP d))
                (restoreRow (_rowTypes d) s) (restoreRowQ (_rowTypes d) s)
                (_rationalLP d, _realLP d)
                (restoreRow_rational (_rowTypes d) s)) as HR.
  cbn [fst] in HR. unfold numRowsRational at 2. rewrite <- HR. clear HR.
  assert (HU : forall q2 f2 sol1,
    (for_down n (unshiftCol (_colTypes d) s) (q2, f2, sol1, 0)).1.1.1
    = for_down n (unshiftColQ (_colTypes d) s) q2).
  { intros q2 f2 sol1.
    exact (for_down_proj (fun x : LP.t * LP.t * Sol * Q => x.1.1.1) n
             (unshiftCol (_colTypes d) s) (unshiftColQ (_colTypes d) s)
             (q2, f2, sol1, 0) (unshiftCol_rational (_colTypes d) s)). }
  destruct infeasible;
    [|destruct (_isPrimalFeasible sol); [destruct (negb _)|]];
    cbv beta iota;
    unfold numRowsRational;
    cbn [_rationalLP _realLP _colTypes _rowTypes set_basis];
    destruct (for_down (nRows (_rationalLP d)) (restoreRow _ _) _) as [q2 f2];
    cbn [fst];
    match goal with
    | |- context [for_down n (unshiftCol _ _) (q2, f2, ?sol1, 0)] =>
        rewrite <- (HU q2 f2 sol1);
        destruct (for_down n (unshiftCol _ _) (q2, f2, sol1, 0))
          as [[[q3 f3] sol3] sv]
    end;
    cbn [fst snd]; repeat split.
Qed.

(** The loops of [_untransformFeasibility] on the rational LP, array by
    array. *)
Definition restoreCell (finite : RangeType -> bool) (types : list RangeType)
  (store : list Q) (i : nat) (x : Q) : Q :=
  if finite (ty types i) then get store i else x.

Lemma restoreRows_spec (rowTypes : list RangeType) (s : Feas) (m : nat)
  (q : LP.t) :
  let q' := for_down m (restoreRowQ rowTypes s) q in
  lhs q' = imap (fun i x => if decide (i < m)%nat
                            then restoreCell _lowerFinite rowTypes (_feasLhs s) i x
                            else x) (lhs q) /\
  rhs q' = imap (fun i x => if decide (i < m)%nat
                            then restoreCell _upperFinite rowTypes (_feasRhs s) i x
                            else x) (rhs q) /\
  sameCols q q'.
Proof.
  cbv zeta. split; [|split].
  - apply (for_down_alter lhs). intros r q1 _. unfold restoreRowQ, restoreCell.
    destruct (_lowerFinite (ty rowTypes r)), (_upperFinite (ty rowTypes r));
      cbn [lhs changeLhs changeRhs];
      first [apply insert_as_alter | symmetry; apply list_alter_id; reflexivity].
  - apply (for_down_alter rhs). intros r q1 _. unfold restoreRowQ, restoreCell.
    destruct (_lowerFinite (ty rowTypes r)), (_upperFinite (ty rowTypes r));
      cbn [rhs changeLhs changeRhs];
      first [apply insert_as_alter | symmetry; apply list_alter_id; reflexivity].
  - unfold sameCols.
    rewrite (for_down_preserved lower), (for_down_preserved upper),
            (for_down_preserved maxObj), (for_down_preserved rowVector),
            (for_down_preserved minimize); [repeat split|..];
      intros r q1; unfold restoreRowQ;
      destruct (_lowerFinite (ty rowTypes r)), (_upperFinite (ty rowTypes r));
      reflexivity.
Qed.

Definition unshiftCell (finite : RangeType -> bool) (types : list RangeType)
  (s : Feas) (store : list Q) (i : nat) (x : Q) : Q :=
  if finite (ty types i) && shifted types s i then get store i else x.

Lemma unshiftCols_spec (colTypes : list RangeType) (s : Feas) (n : nat)
  (q : LP.t) :
  let q' := for_down n (unshiftColQ colTypes s) q in
  lower q' = imap (fun i x => if decide (i < n)%nat
                              then unshiftCell _lowerFinite colTypes s (_feasLower s) i x
                              else x) (lower q) /\
  upper q' = imap (fun i x => if decide (i < n)%nat
                              then unshiftCell _upperFinite colTypes s (_feasUpper s) i x
                              else x) (upper q) /\
  maxObj q' = imap (fun i x => if decide (i < n)%nat
                               then get (_feasObj s) i else x) (maxObj q) /\
  lhs q' = lhs q /\ rhs q' = rhs q /\ rowVector q' = rowVector q /\
  minimize q' = minimize q.
Proof.
  cbv zeta. split; [|split; [|split]].
  - apply (for_down_alter lower). intros c q1 _. unfold unshiftColQ, unshiftCell.
    destruct (_lowerFinite (ty colTypes c) && shifted colTypes s c),
             (_upperFinite (ty colTypes c) && shifted colTypes s c);
      cbn [lower changeLower changeUpper changeMaxObj];
      first [apply insert_as_alter | symmetry; apply list_alter_id; reflexivity].
  - apply (for_down_alter upper). intros c q1 _. unfold unshiftColQ, unshiftCell.
    destruct (_lowerFinite (ty colTypes c) && shifted colTypes s c),
             (_upperFinite (ty colTypes c) && shifted colTypes s c);
      cbn [upper changeLower changeUpper changeMaxObj];
      first [apply insert_as_alter | symmetry; apply list_alter_id; reflexivity].
  - apply (for_down_alter maxObj (fun i _ => get (_feasObj s) i)).
    intros c q1 _. unfold unshiftColQ.
    destruct (_lowerFinite (ty colTypes c) && shifted colTypes s c),
             (_upperFinite (ty colTypes c) && shifted colTypes s c);
      cbn [maxObj changeLower changeUpper changeMaxObj]; apply insert_as_alter.
  - rewrite (for_down_preserved lhs), (for_down_preserved rhs),
            (for_down_preserved rowVector), (for_down_preserved minimize);
      [repeat split|..];
      intros c q1; unfold unshiftColQ;
      destruct (_lowerFinite (ty colTypes c) && shifted colTypes s c),
               (_upperFinite (ty colTypes c) && shifted colTypes s c);
      reflexivity.
Qed.

Lemma take_imap_eq (n : nat) (g : nat -> Q -> Q) (l l0 extra : list Q) :
  length l = n -> length l0 = n ->
  (forall c, (c < n)%nat -> g c (get l c) = get l0 c) ->
  take n (imap (fun i x => if decide (i < n)%nat then g i x else x) (l ++ extra))
  = l0.
Proof.
  intros L L0 H. apply list_eq. intros c.
  destruct (decide (c < n)%nat) as [Hc|Hc].
  - rewrite lookup_take_lt by exact Hc.
    rewrite list_lookup_imap, lookup_app_l by lia.
    rewrite (lookup_get l c) by lia. cbn [fmap option_fmap option_map].
    destruct (decide (c < n)%nat) as [_|Hn]; [|contradiction].
    rewrite (H c Hc). symmetry. apply lookup_get. lia.
  - rewrite lookup_take_ge by lia. symmetry. apply lookup_ge_None_2. lia.
Qed.

Lemma imap_cells_eq (m : nat) (g : nat -> Q -> Q) (l l0 : list Q) :
  length l = m -> length l0 = m ->
  (forall r, (r < m)%nat -> g r (get l r) = get l0 r) ->
  imap (fun i x => if decide (i < m)%nat then g i x else x) l = l0.
Proof.
  intros L L0 H. apply list_eq. intros r. rewrite list_lookup_imap.
  destruct (decide (r < m)%nat) as [Hr|Hr].
  - rewrite (lookup_get l r) by lia. cbn [fmap option_fmap option_map].
    destruct (decide (r < m)%nat) as [_|Hn]; [|contradiction].
    rewrite (H r Hr). symmetry. apply lookup_get. lia.
  - rewrite !lookup_ge_None_2 by lia. reflexivity.
Qed.

Lemma storeAll_spec (values store : list Q) (n c : nat) :
  (c < n)%nat -> get (storeAll values n store) c = get values c.
Proof.
  intros Hc.
  exact (storeFinite_spec (fun _ => true) [] values store n c Hc eq_refl).
Qed.

(** [_untransformFeasibility] undoes [_transformFeasibility] on the
    rational LP: whatever the solution is and whichever way the
    feasibility problem was decided, the bounds, the sides, the
    objective, the rows and the column and row types are again those
    from before the transformation, and the rational factorization is
    invalidated. *)
Theorem transformFeasibility_roundtrip (maximizing : bool) (d : Driver)
  (s : Feas) (sol : Sol) (infeasible : bool) :
  consistent (_colTypes d) (_rowTypes d) (_rationalLP d) ->
  let r := _untransformFeasibility sol infeasible
             (_transformFeasibility maximizing d s) in
  _rationalLP r.2 = _rationalLP d /\
  _colTypes r.2 = _colTypes d /\ _rowTypes r.2 = _rowTypes d /\
  _rationalLUSolverLoaded r.2 = false.
Proof.
  intros Hc. cbv zeta.
  destruct (homogenized_facts d Hc) as (HA & HH).
  destruct Hc as (Hwf & Hct & Hcols & Hrows).
  pose proof (transformFeasibility_rational maximizing d s) as HT.
  cbv zeta in HT.
  destruct (_transformFeasibility maximizing d s) as [D1 S1].
  cbn [fst snd] in HT.
  destruct HT as (T1 & T2 & T3 & T4 & F1 & F2 & F3 & F4 & F5).
  destruct (untransformFeasibility_rational sol infeasible D1 S1)
    as (U1 & U2 & U3 & U4).
  destruct HA as (A1 & A2 & A3 & A4 & A5 & _ & _ & Adone).
  destruct HH as ((S1' & S2' & S3' & S4' & S5') & L1 & L2 & _ & Hdone).
  set (q0 := _rationalLP d) in *.
  set (qA := shiftedLP d) in *.
  set (qH := (homogenizedLP d).1) in *.
  set (n := nCols q0) in *.
  assert (HnH : nCols qH = n) by (unfold nCols; rewrite S1'; exact A1).
  assert (Hn1 : (numColsRational D1 - 1)%nat = n).
  { unfold numColsRational, nCols. rewrite T1.
    cbn [addCols lower fmap list_fmap]. rewrite length_app, S1', A1.
    cbn [length]. lia. }
  assert (Hm1 : numRowsRational D1 = nRows q0).
  { unfold numRowsRational, nRows. rewrite T1. cbn [addCols lhs]. exact L1. }
  rewrite Hn1, Hm1, T1, T2, T3 in U1.
  rewrite Hn1, T2 in U2. rewrite T3 in U3.
  split; [|split; [|split; [exact U3 | exact U4]]]; cycle 1.
  { rewrite U2. apply resize_app. symmetry. exact Hct. }
  rewrite U1. clear U1 U2 U3 U4.
  set (ct' := _colTypes d ++ [RANGETYPE_BOXED]).
  set (qT := addCols (fun x => x) [tauCol maximizing d] qH).
  destruct (restoreRows_spec (_rowTypes d) S1 (nRows q0) qT)
    as (R1 & R2 & R3 & R4 & R5 & R6 & R7).
  destruct (unshiftCols_spec ct' S1 n
              (for_down (nRows q0) (restoreRowQ (_rowTypes d) S1) qT))
    as (V1 & V2 & V3 & V4 & V5 & V6 & V7).
  cbv zeta in *.
  set (q3 := for_down n (unshiftColQ ct' S1) _) in *.
  set (q2 := for_down (nRows q0) (restoreRowQ (_rowTypes d) S1) qT) in *.
  destruct Hwf as (W1 & W2 & W3 & W4 & W5).
  assert (Hty : forall c, (c < n)%nat -> ty ct' c = ty (_colTypes d) c).
  { intros c Hlt. apply ty_app. rewrite Hct. exact Hlt. }
  assert (Hsh : forall c, (c < n)%nat ->
            shifted ct' S1 c = shifted0 q0 (_colTypes d) c).
  { intros c Hlt. unfold shifted, shifted0. rewrite (Hty c Hlt), F2, F3.
    f_equal.
    - destruct (_lowerFinite (ty (_colTypes d) c)) eqn:E; [|reflexivity].
      cbn [andb]. rewrite (storeFinite_spec _ _ _ _ _ _ Hlt E). reflexivity.
    - destruct (_upperFinite (ty (_colTypes d) c)) eqn:E; [|reflexivity].
      cbn [andb]. rewrite (storeFinite_spec _ _ _ _ _ _ Hlt E). reflexivity. }
  rewrite <- (LP_eta q0). unfold removeColRange.
  rewrite V1, V2, V3, V4, V5, V6, V7, R1, R2, R3, R4, R5, R6, R7.
  subst qT. cbn [addCols lower upper maxObj lhs rhs minimize fmap list_fmap].
  f_equal.
  - apply take_imap_eq; [rewrite S1'; exact A1 | reflexivity |].
    intros c Hlt. unfold unshiftCell. rewrite (Hty c Hlt), (Hsh c Hlt), S1'.
    destruct (Adone c) as (_ & _ & _ & D4 & _); [lia|].
    destruct (_ && _) eqn:E.
    + apply andb_prop in E as [E _].
      rewrite F2. apply storeFinite_spec; assumption.
    + apply get_of_lookup, D4. reflexivity.
  - apply take_imap_eq; [rewrite S2'; exact A2 | exact W1 |].
    intros c Hlt. unfold unshiftCell. rewrite (Hty c Hlt), (Hsh c Hlt), S2'.
    destruct (Adone c) as (_ & _ & _ & _ & D5); [lia|].
    destruct (_ && _) eqn:E.
    + apply andb_prop in E as [E _].
      rewrite F3. apply storeFinite_spec; assumption.
    + apply get_of_lookup, D5. reflexivity.
  - apply take_imap_eq; [rewrite S3'; exact A3 | exact W2 |].
    intros c Hlt. rewrite F1. apply storeAll_spec. exact Hlt.
  - apply imap_cells_eq; [exact L1 | reflexivity |].
    intros r Hr. unfold restoreCell.
    destruct (Hdone r) as (_ & _ & D3 & _); [lia|].
    destruct (_lowerFinite (ty (_rowTypes d) r)) eqn:E.
    + rewrite F4. apply storeFinite_spec; assumption.
    + apply get_of_lookup, D3. reflexivity.
  - apply imap_cells_eq; [exact L2 | exact W3 |].
    intros r Hr. unfold restoreCell.
    destruct (Hdone r) as (_ & _ & _ & D4); [lia|].
    destruct (_upperFinite (ty (_rowTypes d) r)) eqn:E.
    + rewrite F5. apply storeFinite_spec; assumption.
    + apply get_of_lookup, D4. reflexivity.
  - fold n. rewrite <- HnH.
    rewrite (addCols_rows (fun x => x) [tauCol maximizing d] qH).
    rewrite HnH, S4', A4. apply filter_rows_all. exact W5.
  - rewrite S5'. exact A5.
Qed.

(** ** The primal solution *)

(** What a pass of the loop "unshift primal space" does to the solution,
    from the rational LP it finds. *)
Definition unshiftSol (colTypes : list RangeType) (s : Feas) (c : nat)
  (q : LP.t) (sol : Sol) : Sol :=
  if shifted colTypes s c then
    let shiftValue :=
      if _lowerFinite (ty colTypes c)
      then get (_feasLower s) c - get (lower q) c
      else get (_feasUpper s) c - get (upper q) c in
    if _isPrimalFeasible sol
    then mkSol (<[c := get (_primal sol) c + shiftValue]> (_primal sol))
               (multAddSV shiftValue (colVector c q) (_slacks sol))
               (_dual sol) (_redCost sol) (_primalRay sol) (_dualFarkas sol)
               (_isPrimalFeasible sol) (_isDualFeasible sol)
               (_hasPrimalRay sol) (_hasDualFarkas sol)
    else sol
  else sol.

Definition unshiftColQS (colTypes : list RangeType) (s : Feas) (c : nat)
  (st : LP.t * Sol) : LP.t * Sol :=
  (unshiftColQ colTypes s c st.1, unshiftSol colTypes s c st.1 st.2).

Lemma unshiftCol_solution (colTypes : list RangeType) (s : Feas) (c : nat)
  (st : LP.t * LP.t * Sol * Q) :
  (fun x : LP.t * LP.t * Sol * Q => (x.1.1.1, x.1.2)) (unshiftCol colTypes s c st)
  = unshiftColQS colTypes s c (st.1.1.1, st.1.2).
Proof.
  destruct st as [[[q f] sol] sv].
  unfold unshiftCol, unshiftColQS, unshiftColQ, unshiftSol, shifted.
  cbn [fst snd].
  destruct (_lowerFinite (ty colTypes c)), (_upperFinite (ty colTypes c));
    cbn [andb orb];
    repeat (destruct (Qltb _ _); cbn [andb orb fst snd]);
    destruct (_isPrimalFeasible sol); reflexivity.
Qed.

(** The amount by which pass [c] moves the primal value, for the LP [q2]
    with which the loop starts. *)
Definition shiftAmount (colTypes : list RangeType) (s : Feas) (q2 : LP.t)
  (c : nat) : Q :=
  if shifted colTypes s c then
    if _lowerFinite (ty colTypes c)
    then get (_feasLower s) c - get (lower q2) c
    else get (_feasUpper s) c - get (upper q2) c
  else 0.

Lemma unshift_primal (colTypes : list RangeType) (s : Feas) (n : nat)
  (q2 : LP.t) (sol1 : Sol) :
  _isPrimalFeasible sol1 = true -> length (_primal sol1) = n ->
  let r := for_down n (unshiftColQS colTypes s) (q2, sol1) in
  length (_primal r.2) = n /\
  forall c, (c < n)%nat ->
    get (_primal r.2) c == get (_primal sol1) c + shiftAmount colTypes s q2 c.
Proof.
  intros Hf Hlen. cbv zeta.
  pose proof (for_down_ind
    (fun k (st : LP.t * Sol) =>
       (forall c, (c < k)%nat ->
          lower st.1 !! c = lower q2 !! c /\ upper st.1 !! c = upper q2 !! c) /\
       _isPrimalFeasible st.2 = true /\ length (_primal st.2) = n /\
       (forall c, (c < k)%nat -> _primal st.2 !! c = _primal sol1 !! c) /\
       (forall c, (k <= c < n)%nat ->
          get (_primal st.2) c
          == get (_primal sol1) c + shiftAmount colTypes s q2 c))
    n (unshiftColQS colTypes s) (q2, sol1)) as H.
  destruct H as (_ & _ & L & _ & H).
  - cbn [fst snd]. repeat split; auto. intros c Hc. lia.
  - intros c [q sol] Hc (Hq & Hpf & Hl & Hlow & Hhigh). cbn [fst snd] in *.
    destruct (Hq c (Nat.lt_succ_diag_r c)) as [Hlo Hup].
    apply get_of_lookup in Hlo. apply get_of_lookup in Hup.
    pose proof (get_of_lookup _ _ _ (Hlow c (Nat.lt_succ_diag_r c))) as Hp.
    unfold unshiftColQS, unshiftSol, unshiftColQ. cbn [fst snd].
    assert (Hq' : forall j, (j < c)%nat ->
              lower q !! j = lower q2 !! j /\ upper q !! j = upper q2 !! j)
      by (intros j Hj; apply Hq; lia).
    split.
    { intros j Hj. destruct (Hq' j Hj) as [E1 E2].
      destruct (_lowerFinite (ty colTypes c) && shifted colTypes s c),
               (_upperFinite (ty colTypes c) && shifted colTypes s c);
        cbn [lower upper changeLower changeUpper changeMaxObj];
        rewrite ?list_lookup_insert_ne by lia; auto. }
    rewrite Hpf.
    destruct (shifted colTypes s c) eqn:Es; cbn [_primal _isPrimalFeasible].
    + rewrite length_insert. split; [reflexivity|]. split; [exact Hl|]. split.
      * intros j Hj. rewrite list_lookup_insert_ne by lia. apply Hlow. lia.
      * intros j Hj. destruct (decide (j = c)) as [->|Hne].
        -- rewrite get_insert_eq by lia. unfold shiftAmount. rewrite Es, Hp.
           destruct (_lowerFinite (ty colTypes c));
             [rewrite Hlo | rewrite Hup]; reflexivity.
        -- rewrite get_insert_ne by auto. apply Hhigh. lia.
    + split; [exact Hpf|]. split; [exact Hl|]. split.
      * intros j Hj. apply Hlow. lia.
      * intros j Hj. destruct (decide (j = c)) as [->|Hne].
        -- unfold shiftAmount. rewrite Es, Hp. ring.
        -- apply Hhigh. lia.
  - split; [exact L|]. intros c Hc. apply H. lia.
Qed.

(** "[sol._primal[i] /= sol._primal[numOrigCols]]" for the columns below
    [numOrigCols]. *)
Lemma divide_primal (n : nat) (primal : list Q) :
  (n < length primal)%nat ->
  let p := for_up 0 n (fun i p => <[i := get p i / get p n]> p) primal in
  length p = length primal /\
  forall c, (c < n)%nat -> get p c = get primal c / get primal n.
Proof.
  intros Hn. cbv zeta.
  pose proof (for_up_ind
    (fun k (p : list Q) =>
       length p = length primal /\
       (forall c, (c < k)%nat -> get p c = get primal c / get primal n) /\
       (forall c, (k <= c)%nat -> p !! c = primal !! c))
    n (fun i p => <[i := get p i / get p n]> p) primal) as H.
  destruct H as (L & H & _).
  - repeat split; auto. intros c Hc. lia.
  - intros c p Hc (L & Hlow & Hhigh). rewrite length_insert.
    split; [exact L|]. split.
    + intros j Hj. destruct (decide (j = c)) as [->|Hne].
      * rewrite get_insert_eq by lia.
        rewrite (get_of_lookup _ _ _ (Hhigh c (le_n c))).
        rewrite (get_of_lookup _ _ _ (Hhigh n (Nat.lt_le_incl _ _ Hc))).
        reflexivity.
      * rewrite get_insert_ne by auto. apply Hlow. lia.
    + intros j Hj. rewrite list_lookup_insert_ne by lia. apply Hhigh. lia.
  - split; [exact L | exact H].
Qed.

(** The solution that [_untransformFeasibility] returns for a primal
    feasible solution of the feasibility problem. *)
Lemma untransformFeasibility_solution (sol : Sol) (d : Driver) (s : Feas) :
  _isPrimalFeasible sol = true ->
  let n := (numColsRational d - 1)%nat in
  let tau := get (_primal sol) n in
  let primal :=
    if negb (Qeq_bool tau 1)
    then <[n := 1]> (for_up 0 n (fun i p => <[i := get p i / get p n]> p)
                       (_primal sol))
    else _primal sol in
  exists slacks,
    (_untransformFeasibility sol false (d, s)).1
    = (for_down n (unshiftColQS (_colTypes d) s)
         (for_down (numRowsRational d) (restoreRowQ (_rowTypes d) s)
            (_rationalLP d),
          mkSol (resize n 0 primal) slacks (_dual sol) (_redCost sol)
                (_primalRay sol) (_dualFarkas sol) true false false false)).2.
Proof.
  intros Hf. cbv zeta. unfold _untransformFeasibility. rewrite Hf.
  set (n := (numColsRational d - 1)%nat).
  pose proof (for_down_proj fst (nRows (_rationalLP d))
                (restoreRow (_rowTypes d) s) (restoreRowQ (_rowTypes d) s)
                (_rationalLP d, _realLP d)
                (restoreRow_rational (_rowTypes d) s)) as HR.
  cbn [fst] in HR. unfold numRowsRational at 2. rewrite <- HR. clear HR.
  assert (HU : forall q2 f2 sol1,
    (fun x : LP.t * LP.t * Sol * Q => (x.1.1.1, x.1.2))
      (for_down n (unshiftCol (_colTypes d) s) (q2, f2, sol1, 0))
    = for_down n (unshiftColQS (_colTypes d) s) (q2, sol1)).
  { intros q2 f2 sol1.
    exact (for_down_proj (fun x : LP.t * LP.t * Sol * Q => (x.1.1.1, x.1.2)) n
             (unshiftCol (_colTypes d) s) (unshiftColQS (_colTypes d) s)
             (q2, f2, sol1, 0) (unshiftCol_solution (_colTypes d) s)). }
  destruct (negb (Qeq_bool (get (_primal sol) n) 1));
    cbv beta iota; unfold numRowsRational;
    cbn [_rationalLP _realLP _colTypes _rowTypes set_basis];
    destruct (for_down (nRows (_rationalLP d)) (restoreRow _ _) _) as [q2 f2];
    cbn [fst];
    match goal with
    | |- context [for_down n (unshiftCol _ _) (q2, f2, ?sol1, 0)] =>
        pose proof (HU q2 f2 sol1) as HU1;
        destruct (for_down n (unshiftCol _ _) (q2, f2, sol1, 0))
          as [[[q3 f3] sol3] sv]
    end;
    cbn [fst snd] in *; eexists; rewrite <- HU1; reflexivity.
Qed.

(** The shift of a column: its lower bound when that is positive,
    otherwise its upper bound when that is negative, otherwise 0. *)
Definition shiftOf (q0 : LP.t) (c : nat) : Q :=
  if Qltb 0 (get (lower q0) c) then get (lower q0) c
  else if Qltb (get (upper q0) c) 0 then get (upper q0) c
  else 0.

Lemma get_app_l (l extra : list Q) (c : nat) :
  (c < length l)%nat -> get (l ++ extra) c = get l c.
Proof. intros H. unfold get. rewrite lookup_app_l by exact H. reflexivity. Qed.

(** A primal feasible solution of the feasibility problem is carried
    back to the original LP by dividing by the value [tau] of the
    artificial column and adding the shift of each column:
    [x[c] = x'[c] / tau + shift(c)], where the shift is the original
    lower bound if that is positive and else the original upper bound if
    that is negative; the artificial column is dropped. *)
Theorem untransformFeasibility_primal (maximizing : bool) (d : Driver)
  (s : Feas) (sol : Sol) :
  consistent (_colTypes d) (_rowTypes d) (_rationalLP d) ->
  _isPrimalFeasible sol = true ->
  length (_primal sol) = S (numColsRational d) ->
  1 <= get (_primal sol) (numColsRational d) ->
  let r := _untransformFeasibility sol false
             (_transformFeasibility maximizing d s) in
  length (_primal r.1) = numColsRational d /\
  forall c, (c < numColsRational d)%nat ->
    get (_primal r.1) c
    == get (_primal sol) c / get (_primal sol) (numColsRational d)
       + shiftOf (_rationalLP d) c.
Proof.
  intros Hc Hf Hlen Htau. cbv zeta.
  destruct (homogenized_facts d Hc) as (HA & HH).
  destruct Hc as (Hwf & Hct & Hcols & Hrows).
  pose proof (transformFeasibility_rational maximizing d s) as HT.
  cbv zeta in HT.
  destruct (_transformFeasibility maximizing d s) as [D1 S1].
  cbn [fst snd] in HT.
  destruct HT as (T1 & T2 & T3 & T4 & F1 & F2 & F3 & F4 & F5).
  destruct HA as (A1 & A2 & A3 & A4 & A5 & _ & _ & Adone).
  destruct HH as ((S1' & S2' & S3' & S4' & S5') & L1 & L2 & _ & Hdone).
  unfold numColsRational in *.
  set (q0 := _rationalLP d) in *.
  set (qA := shiftedLP d) in *.
  set (qH := (homogenizedLP d).1) in *.
  set (n := nCols q0) in *.
  assert (Hn1 : (nCols (_rationalLP D1) - 1)%nat = n).
  { unfold nCols. rewrite T1.
    cbn [addCols lower fmap list_fmap]. rewrite length_app, S1', A1.
    cbn [length]. lia. }
  destruct (untransformFeasibility_solution sol D1 S1 Hf) as [slacks ->].
  unfold numColsRational. rewrite Hn1, T1, T2, T3.
  set (ct' := _colTypes d ++ [RANGETYPE_BOXED]).
  set (qT := addCols (fun x => x) [tauCol maximizing d] qH).
  set (q2 := for_down (numRowsRational D1) (restoreRowQ (_rowTypes d) S1) qT).
  set (tau := get (_primal sol) n) in *.
  set (primal' := if negb (Qeq_bool tau 1)
                  then <[n := 1]> (for_up 0 n
                         (fun i p => <[i := get p i / get p n]> p) (_primal sol))
                  else _primal sol).
  destruct (divide_primal n (_primal sol)) as [Ldiv Hdiv]; [lia|].
  cbv zeta in Ldiv, Hdiv. fold tau in Hdiv.
  assert (Lp : length primal' = S n).
  { unfold primal'. destruct (negb _); [|exact Hlen].
    rewrite length_insert, Ldiv. exact Hlen. }
  assert (Hp : forall c, (c < n)%nat -> get primal' c == get (_primal sol) c / tau).
  { intros c Hlt. unfold primal'.
    destruct (Qeq_bool tau 1) eqn:E; cbn [negb].
    - apply Qeq_bool_iff in E. rewrite E. field.
    - rewrite get_insert_ne by lia. rewrite (Hdiv c Hlt). reflexivity. }
  destruct (unshift_primal ct' S1 n q2
              (mkSol (resize n 0 primal') slacks (_dual sol) (_redCost sol)
                 (_primalRay sol) (_dualFarkas sol) true false false false)
              eq_refl (length_resize _ _ _)) as [Lr Hr].
  cbv zeta in Lr, Hr. split; [exact Lr|].
  intros c Hlt. rewrite (Hr c Hlt). cbn [_primal].
  assert (Hres : get (resize n 0 primal') c = get primal' c).
  { unfold get. rewrite lookup_resize by lia. reflexivity. }
  rewrite Hres, (Hp c Hlt). apply Qplus_comp; [reflexivity|].
  (* the amount is the shift *)
  destruct (restoreRows_spec (_rowTypes d) S1 (numRowsRational D1) qT)
    as (_ & _ & R3 & R4 & _).
  cbv zeta in R3, R4. fold q2 in R3, R4.
  assert (Hty : ty ct' c = ty (_colTypes d) c)
    by (apply ty_app; rewrite Hct; exact Hlt).
  assert (Hlo2 : get (lower q2) c = get (lower qA) c).
  { rewrite R3. unfold qT. cbn [addCols lower]. rewrite S1'.
    apply get_app_l. lia. }
  assert (Hup2 : get (upper q2) c = get (upper qA) c).
  { rewrite R4. unfold qT. cbn [addCols upper]. rewrite S2'.
    apply get_app_l. lia. }
  destruct (Adone c) as (_ & _ & _ & _ & _ & D6 & D7); [lia|].
  destruct (Hcols c Hlt) as (C1 & C2 & C3).
  unfold shiftAmount, shifted, shiftOf. rewrite Hty, Hlo2, Hup2, F2, F3.
  destruct (Qltb 0 (get (lower q0) c)) eqn:E1.
  - assert (El : _lowerFinite (ty (_colTypes d) c) = true).
    { destruct (_lowerFinite (ty (_colTypes d) c)); [reflexivity|].
      apply Qltb_lt in E1. specialize (C1 eq_refl). lra. }
    rewrite El. cbn [andb].
    rewrite (storeFinite_spec _ _ _ _ _ _ Hlt El), E1. cbn [orb].
    rewrite (D6 eq_refl). ring.
  - destruct (Qltb (get (upper q0) c) 0) eqn:E2.
    + assert (Eu : _upperFinite (ty (_colTypes d) c) = true).
      { destruct (_upperFinite (ty (_colTypes d) c)); [reflexivity|].
        apply Qltb_lt in E2. specialize (C2 eq_refl). lra. }
      destruct (D7 eq_refl eq_refl) as [D8 D9].
      rewrite Eu. cbn [andb].
      rewrite (storeFinite_spec _ _ _ _ _ _ Hlt Eu), E2.
      destruct (_lowerFinite (ty (_colTypes d) c)) eqn:El; cbn [andb orb].
      * rewrite (storeFinite_spec _ _ _ _ _ _ Hlt El), E1. cbn [orb].
        rewrite (D9 eq_refl). ring.
      * rewrite D8. ring.
    + destruct (_lowerFinite (ty (_colTypes d) c)) eqn:El,
               (_upperFinite (ty (_colTypes d) c)) eqn:Eu; cbn [andb orb];
        rewrite ?(storeFinite_spec _ _ _ _ _ _ Hlt El),
                ?(storeFinite_spec _ _ _ _ _ _ Hlt Eu), ?E1, ?E2;
        cbn [orb]; reflexivity.
Qed.

End Shift.

(** ** An example: two boxed columns, one to each side of zero, and a
       ranged row *)

Definition shift_lp : LP.t :=
  LP.mk [1; -5] [3; -2] [1; 1] [2] [10] [[(0%nat, 1); (1%nat, 2)]] true.

Definition shift_driver : Driver :=
  mkDriver shift_lp shift_lp [RANGETYPE_BOXED; RANGETYPE_BOXED]
           [RANGETYPE_BOXED] [] [] false 0 0 [] [] [] [] true.

Definition shift_store : Feas := mkFeas [] [] [] [] [] [].

(** A solution of the feasibility problem with [tau = 2]. *)
Definition shift_sol : Sol :=
  mkSol [1; -1; 2] [0] [0] [0; 0; 0] [] [] true true false false.

Lemma shift_consistent :
  consistent (_colTypes shift_driver) (_rowTypes shift_driver)
             (_rationalLP shift_driver).
Proof.
  split; [|split; [reflexivity|split]].
  - repeat split. repeat constructor.
  - intros c Hc. destruct c as [|[|c]]; [| |cbn in Hc; lia];
      (split; [discriminate|]; split; [discriminate|]; vm_compute; discriminate).
  - intros r Hr. destruct r as [|r]; [|cbn in Hr; lia].
    split; [discriminate|]. split; [discriminate|]. vm_compute. discriminate.
Defined.


Lemma transformFeasibility_roundtrip_witness :
  _rationalLP (_untransformFeasibility (fun x => x) (inject_Z (10 ^ 100))
                 shift_sol false
                 (_transformFeasibility (fun x => x) (inject_Z (10 ^ 100))
                    false shift_driver shift_store)).2
  = shift_lp.
Proof.
  destruct (transformFeasibility_roundtrip (fun x => x) (inject_Z (10 ^ 100))
              false shift_driver shift_store shift_sol false shift_consistent)
    as (H & _).
  exact H.
Defined.

Lemma untransformFeasibility_primal_witness :
  1 <= get (_primal shift_sol) (numColsRational shift_driver) /\
  length (_primal (_untransformFeasibility (fun x => x) (inject_Z (10 ^ 100))
                     shift_sol false
                     (_transformFeasibility (fun x => x) (inject_Z (10 ^ 100))
                        false shift_driver shift_store)).1)
  = numColsRational shift_driver.
Proof.
  assert (Ht : 1 <= get (_primal shift_sol) (numColsRational shift_driver))
    by (vm_compute; discriminate).
  split; [exact Ht|].
  destruct (untransformFeasibility_primal (fun x => x) (inject_Z (10 ^ 100))
              false shift_driver shift_store shift_sol shift_consistent
              eq_refl eq_refl Ht) as (H & _).
  exact H.
Defined.

End Feasibility.

(** * [SSVector::setup_and_assign] *)

Module SetupAssign.

Import SSVector SSVectorOps.





End SetupAssign.

(** * [spxbounds.cpp]: the feasibility bounds of the dual variables *)

Module DualBounds.

Import SSVector LP.

(** The four arrays of feasibility bounds for the rows and columns. *)
Record Bounds : Type := mkBounds {
  theURbound : list Q;
  theLRbound : list Q;
  theUCbound : list Q;
  theLCbound : list Q
}.

Section Status.

(** [SPxLP::infinity], and the values of [SPxBasis::Desc::Status] that
    the file names; a status is one of these or another number. *)
Variable infinity : Q.
Variable P_ON_UPPER P_ON_LOWER D_FREE D_ON_LOWER D_ON_UPPER : Z.

(** [clearDualBounds(stat, upp, lw)]; returns [upp] and [lw]. *)
Definition clearDualBounds (stat : Z) (upp lw : Q) : Q * Q :=
  if (stat =? P_ON_UPPER + P_ON_LOWER)%Z || (stat =? D_FREE)%Z
  then (infinity, - infinity)
  else if (stat =? P_ON_UPPER)%Z || (stat =? D_ON_LOWER)%Z
  then (infinity, lw)
  else if (stat =? P_ON_LOWER)%Z || (stat =? D_ON_UPPER)%Z
  then (upp, - infinity)
  else (upp, lw).

(** The two loops of [setDualColBounds()]. *)
Definition dualRow (rowStatus : nat -> Z) (i : nat) (b : Bounds) : Bounds :=
  let '(upp, lw) := clearDualBounds (rowStatus i) 0 0 in
  mkBounds (<[i := upp]> (theURbound b)) (<[i := lw]> (theLRbound b))
           (theUCbound b) (theLCbound b).

Definition dualCol (colStatus : nat -> Z) (maxObj : list Q) (i : nat)
  (b : Bounds) : Bounds :=
  let x := - get maxObj i in
  (* the upper bound is passed for [lw], the lower bound for [upp] *)
  let '(upp, lw) := clearDualBounds (colStatus i) x x in
  mkBounds (theURbound b) (theLRbound b)
           (<[i := lw * -1]> (theUCbound b)) (<[i := upp * -1]> (theLCbound b)).

(** [setDualColBounds()]. *)
Definition setDualColBounds (rowStatus colStatus : nat -> Z) (nRows nCols : nat)
  (maxObj : list Q) (b : Bounds) : Bounds :=
  for_down nCols (dualCol colStatus maxObj)
    (for_down nRows (dualRow rowStatus) b).

Lemma clearDualBounds_cases (stat : Z) (upp lw : Q) :
  let r := clearDualBounds stat upp lw in
  (r.1 = upp \/ r.1 = infinity) /\ (r.2 = lw \/ r.2 = - infinity).
Proof.
  cbv zeta. unfold clearDualBounds.
  destruct (_ || _); [auto|]. destruct (_ || _); [auto|].
  destruct (_ || _); auto.
Qed.

(** The bounds that [setDualColBounds] installs are never inverted: when
    [infinity] is not negative and the objective lies within
    [-infinity] and [infinity], then whatever the statuses are, every row
    gets bounds [lower <= 0 <= upper] and every column gets bounds
    [lower <= maxObj <= upper]. *)
Theorem setDualColBounds_brackets (rowStatus colStatus : nat -> Z)
  (nRows nCols : nat) (maxObj : list Q) (b : Bounds) :
  0 <= infinity ->
  length (theURbound b) = nRows -> length (theLRbound b) = nRows ->
  length (theUCbound b) = nCols -> length (theLCbound b) = nCols ->
  (forall i, (i < nCols)%nat ->
     - infinity <= get maxObj i /\ get maxObj i <= infinity) ->
  let b' := setDualColBounds rowStatus colStatus nRows nCols maxObj b in
  (forall i, (i < nRows)%nat ->
     get (theLRbound b') i <= 0 /\ 0 <= get (theURbound b') i) /\
  (forall i, (i < nCols)%nat ->
     get (theLCbound b') i <= get maxObj i /\
     get maxObj i <= get (theUCbound b') i).
Proof.
  intros Hinf L1 L2 L3 L4 Hobj. cbv zeta. unfold setDualColBounds.
  set (b1 := for_down nRows (dualRow rowStatus) b).
  assert (Hrows : length (theURbound b1) = nRows /\ length (theLRbound b1) = nRows /\
                  theUCbound b1 = theUCbound b /\ theLCbound b1 = theLCbound b /\
                  forall i, (i < nRows)%nat ->
                    get (theLRbound b1) i <= 0 /\ 0 <= get (theURbound b1) i).
  { pose proof (for_down_ind
      (fun k s =>
         length (theURbound s) = nRows /\ length (theLRbound s) = nRows /\
         theUCbound s = theUCbound b /\ theLCbound s = theLCbound b /\
         forall i, (k <= i < nRows)%nat ->
           get (theLRbound s) i <= 0 /\ 0 <= get (theURbound s) i)
      nRows (dualRow rowStatus) b) as H.
    destruct H as (M1 & M2 & M3 & M4 & H).
    - repeat split; auto; lia.
    - intros c s Hc (M1 & M2 & M3 & M4 & Hs). unfold dualRow.
      pose proof (clearDualBounds_cases (rowStatus c) 0 0) as Hcl.
      cbv zeta in Hcl. destruct (clearDualBounds (rowStatus c) 0 0) as [u l].
      cbn [fst snd] in Hcl. cbn [theURbound theLRbound theUCbound theLCbound].
      rewrite !length_insert.
      split; [exact M1|]. split; [exact M2|]. split; [exact M3|].
      split; [exact M4|].
      intros i Hi. destruct (decide (i = c)) as [->|Hne].
      + rewrite !get_insert_eq by lia.
        destruct Hcl as [[-> | ->] [-> | ->]]; split; lra.
      + rewrite !get_insert_ne by auto. apply Hs. lia.
    - split; [exact M1|]. split; [exact M2|]. split; [exact M3|].
      split; [exact M4|]. intros i Hi. apply H. lia. }
  destruct Hrows as (M1 & M2 & M3 & M4 & Hrows).
  pose proof (for_down_ind
    (fun k s =>
       theURbound s = theURbound b1 /\ theLRbound s = theLRbound b1 /\
       length (theUCbound s) = nCols /\ length (theLCbound s) = nCols /\
       forall i, (k <= i < nCols)%nat ->
         get (theLCbound s) i <= get maxObj i /\
         get maxObj i <= get (theUCbound s) i)
    nCols (dualCol colStatus maxObj) b1) as H.
  destruct H as (N1 & N2 & _ & _ & H).
  - rewrite M3, M4. repeat split; auto; lia.
  - intros c s Hc (N1 & N2 & N3 & N4 & Hs). unfold dualCol. cbv zeta.
    pose proof (clearDualBounds_cases (colStatus c) (- get maxObj c)
                  (- get maxObj c)) as Hcl.
    cbv zeta in Hcl.
    destruct (clearDualBounds (colStatus c) _ _) as [u l].
    cbn [fst snd] in Hcl. cbn [theURbound theLRbound theUCbound theLCbound].
    rewrite !length_insert.
    split; [exact N1|]. split; [exact N2|]. split; [exact N3|].
    split; [exact N4|].
    intros i Hi. destruct (decide (i = c)) as [->|Hne].
    + rewrite !get_insert_eq by lia. destruct (Hobj c Hc) as [O1 O2].
      destruct Hcl as [[-> | ->] [-> | ->]]; split; lra.
    + rewrite !get_insert_ne by auto. apply Hs. lia.
  - rewrite N1, N2. split; [exact Hrows|]. intros i Hi. apply H. lia.
Qed.

End Status.

Lemma setDualColBounds_brackets_witness :
  0 <= 1000 /\
  get (theLCbound (setDualColBounds 1000 (-2) (-4) 1 4 2
                     (fun _ => (-4)%Z) (fun _ => (-2)%Z) 1 1 [3]
                     (mkBounds [0] [0] [0] [0]))) 0%nat <= 3.
Proof.
  assert (Hinf : 0 <= 1000) by discriminate.
  split; [exact Hinf|].
  destruct (setDualColBounds_brackets 1000 (-2) (-4) 1 4 2
              (fun _ => (-4)%Z) (fun _ => (-2)%Z) 1 1 [3]
              (mkBounds [0] [0] [0] [0]) Hinf eq_refl eq_refl eq_refl eq_refl)
    as (_ & H).
  - intros i Hi. destruct i as [|i]; [|lia]. split; discriminate.
  - apply (H 0%nat). lia.
Defined.

End DualBounds.
